(** * Storage analysis of the structured additive IR (storage.cc)

    A shallow embedding of the buffer and value-storage analysis:
    [Buffer], [ValueStorage], the declaration of buffers, the merge and
    the propagation of storage information, [StorageAnalysis::Init] and the
    verification passes of [storage.cc].

    The mapping-expression algebra ([MappingAttr]), the loop-fusion
    analysis and the iteration-space analysis live in other files of the
    repository.  The part of the algebra that the analysis inspects is
    modelled in [Module Mapping]; the remaining collaborators are
    parameters of [Section Analysis].

    The file also embeds [GetDefaultLoopNest] of
    transforms/default_lowering_attributes.cc. *)

From stdpp Require Import gmap strings list fin_maps pretty.

Set Default Proof Using "Type".

(* ===================================================================== *)
(** ** Mapping expressions *)
(* ===================================================================== *)

Module Mapping.

(** Modelled from the spec: the mapping expressions are a closed tagged
    variant (dimension reference, stripe, unstripe, none placeholder,
    unknown placeholder); the class hierarchy itself is declared in
    sair_attributes.h. *)
#[local] Set Warnings "-register-all".
Inductive MappingExpr : Type :=
| MappingDimExpr (dimension : nat)
| MappingNoneExpr
| MappingUnknownExpr
| MappingStripeExpr (operand : MappingExpr) (factors : list nat)
| MappingUnStripeExpr (operands : list MappingExpr) (factors : list nat).
#[local] Set Warnings "register-all".

(** Attributes are uniqued: [==] on two mapping expressions is structural
    equality. *)
Definition MappingExpr_eq_dec (x y : MappingExpr) : {x = y} + {x <> y}.
Proof.
  revert x y. fix IH 1.
  intros x y. decide equality.
  - apply Nat.eq_dec.
  - apply (List.list_eq_dec Nat.eq_dec).
  - apply (List.list_eq_dec Nat.eq_dec).
  - apply (List.list_eq_dec IH).
Defined.

#[global] Instance MappingExpr_eq_decision : EqDecision MappingExpr :=
  MappingExpr_eq_dec.

(** A mapping: the size of its use domain and one expression per
    dimension of its result.  A null [MappingAttr] is [None] of
    [option MappingAttr]. *)
Record MappingAttr : Type := mkMapping {
  UseDomainSize : nat;
  Dimensions : list MappingExpr;
}.

#[global] Instance MappingAttr_eq_decision : EqDecision MappingAttr.
Proof. solve_decision. Defined.

Definition size (m : MappingAttr) : nat := length (Dimensions m).
Definition empty (m : MappingAttr) : bool := bool_decide (Dimensions m = []).

(** *** Placeholder queries *)

Fixpoint ExprHasNoneExprs (e : MappingExpr) : bool :=
  match e with
  | MappingDimExpr _ => false
  | MappingNoneExpr => true
  | MappingUnknownExpr => false
  | MappingStripeExpr operand _ => ExprHasNoneExprs operand
  | MappingUnStripeExpr operands _ => existsb ExprHasNoneExprs operands
  end.

Fixpoint ExprHasUnknownExprs (e : MappingExpr) : bool :=
  match e with
  | MappingDimExpr _ => false
  | MappingNoneExpr => false
  | MappingUnknownExpr => true
  | MappingStripeExpr operand _ => ExprHasUnknownExprs operand
  | MappingUnStripeExpr operands _ => existsb ExprHasUnknownExprs operands
  end.

(** Modelled from the spec: [MappingAttr::HasNoneExprs], true when some
    expression of the mapping contains a none placeholder. *)
Definition HasNoneExprs (m : MappingAttr) : bool :=
  existsb ExprHasNoneExprs (Dimensions m).

(** Modelled from the spec: [MappingAttr::HasUnknownExprs], true when some
    expression of the mapping contains a [?] placeholder. *)
Definition HasUnknownExprs (m : MappingAttr) : bool :=
  existsb ExprHasUnknownExprs (Dimensions m).

(** *** Dependencies *)

Fixpoint ExprDependsOn (d : nat) (e : MappingExpr) : bool :=
  match e with
  | MappingDimExpr i => bool_decide (i = d)
  | MappingNoneExpr => false
  | MappingUnknownExpr => false
  | MappingStripeExpr operand _ => ExprDependsOn d operand
  | MappingUnStripeExpr operands _ => existsb (ExprDependsOn d) operands
  end.

(** A [llvm::SmallBitVector]: one boolean per position. *)
Abbreviation SmallBitVector := (list bool) (only parsing).

(** [find_first]: the position of the first set bit, [None] for the -1 of
    the source. *)
Fixpoint find_first (bits : SmallBitVector) : option nat :=
  match bits with
  | [] => None
  | true :: _ => Some 0
  | false :: rest => S <$> find_first rest
  end.

(** [set_bits]: the positions of the set bits, in increasing order. *)
Definition set_bits (bits : SmallBitVector) : list nat :=
  filter (fun i => bits !! i = Some true) (seq 0 (length bits)).

(** [operator|=]: the result has the size of the larger operand. *)
Fixpoint bits_or (a b : SmallBitVector) : SmallBitVector :=
  match a, b with
  | [], _ => b
  | _, [] => a
  | x :: a', y :: b' => (x || y) :: bits_or a' b'
  end.

(** Modelled from the spec: [MappingAttr::DependencyMask], the dimensions
    of the use domain that the mapping references, as a bit vector of the
    size of the use domain. *)
Definition DependencyMask (m : MappingAttr) : SmallBitVector :=
  (fun d => existsb (ExprDependsOn d) (Dimensions m)) <$> seq 0 (UseDomainSize m).

Fixpoint ExprMinDomainSize (e : MappingExpr) : nat :=
  match e with
  | MappingDimExpr i => S i
  | MappingNoneExpr => 0
  | MappingUnknownExpr => 0
  | MappingStripeExpr operand _ => ExprMinDomainSize operand
  | MappingUnStripeExpr operands _ =>
      foldr Nat.max 0 (ExprMinDomainSize <$> operands)
  end.

(** Modelled from the spec: [MappingAttr::MinDomainSize], the smallest
    domain size that makes every dependency of the mapping resolvable. *)
Definition MinDomainSize (m : MappingAttr) : nat :=
  foldr Nat.max 0 (ExprMinDomainSize <$> Dimensions m).

(** *** Substitution and resizing *)

(** A dimension that has no replacement becomes a none placeholder. *)
Fixpoint SubstituteDims (exprs : list MappingExpr) (e : MappingExpr)
  : MappingExpr :=
  match e with
  | MappingDimExpr i => default MappingNoneExpr (exprs !! i)
  | MappingNoneExpr => MappingNoneExpr
  | MappingUnknownExpr => MappingUnknownExpr
  | MappingStripeExpr operand factors =>
      MappingStripeExpr (SubstituteDims exprs operand) factors
  | MappingUnStripeExpr operands factors =>
      MappingUnStripeExpr (SubstituteDims exprs <$> operands) factors
  end.

(** Modelled from the spec: [MappingAttr::Compose].  [Compose m other]
    is [m.Compose(other)]: the expressions of [other] with every dimension
    replaced by the expression [m] has for it, over the use domain of
    [m]. *)
Definition Compose (m other : MappingAttr) : MappingAttr :=
  mkMapping (UseDomainSize m) (SubstituteDims (Dimensions m) <$> Dimensions other).

(** Modelled from the spec: [MappingAttr::ResizeUseDomain].  Growing the
    use domain keeps the expressions; shrinking it turns the references to
    the dropped dimensions into none placeholders. *)
Definition ResizeUseDomain (m : MappingAttr) (new_size : nat) : MappingAttr :=
  if decide (UseDomainSize m ≤ new_size)
  then mkMapping new_size (Dimensions m)
  else mkMapping new_size
         (SubstituteDims (MappingDimExpr <$> seq 0 new_size) <$> Dimensions m).

(** Modelled from the spec: [MappingAttr::Resize], which truncates the
    list of expressions or pads it with none placeholders. *)
Definition Resize (m : MappingAttr) (new_size : nat) : MappingAttr :=
  mkMapping (UseDomainSize m)
    (take new_size (Dimensions m)
       ++ replicate (new_size - size m) MappingNoneExpr).

(** Modelled from the spec: [MappingAttr::AddPrefix]. *)
Definition AddPrefix (m : MappingAttr) (exprs : list MappingExpr) : MappingAttr :=
  mkMapping (UseDomainSize m) (exprs ++ Dimensions m).

(** Modelled from the spec: [MappingAttr::DropFront]. *)
Definition DropFront (m : MappingAttr) (num_drop : nat) : MappingAttr :=
  mkMapping (UseDomainSize m) (drop num_drop (Dimensions m)).

Fixpoint ExprShiftRight (offset : nat) (e : MappingExpr) : MappingExpr :=
  match e with
  | MappingDimExpr i => MappingDimExpr (i + offset)
  | MappingNoneExpr => MappingNoneExpr
  | MappingUnknownExpr => MappingUnknownExpr
  | MappingStripeExpr operand factors =>
      MappingStripeExpr (ExprShiftRight offset operand) factors
  | MappingUnStripeExpr operands factors =>
      MappingUnStripeExpr (ExprShiftRight offset <$> operands) factors
  end.

(** Modelled from the spec: [MappingAttr::ShiftRight], which inserts
    [offset] unused dimensions in front of the use domain. *)
Definition ShiftRight (m : MappingAttr) (offset : nat) : MappingAttr :=
  mkMapping (UseDomainSize m + offset) (ExprShiftRight offset <$> Dimensions m).

(** Modelled from the spec: [MappingAttr::GetIdentity]. *)
Definition GetIdentity (num_dimensions : nat) : MappingAttr :=
  mkMapping num_dimensions (MappingDimExpr <$> seq 0 num_dimensions).

(** *** Unification *)

(** Two expressions unify when they are equal, or when they have the same
    shape and their operands unify; [on_mismatch] decides what happens
    where they differ, and returns [None] for a failure. *)
Fixpoint ExprUnify
  (on_mismatch : MappingExpr -> MappingExpr -> option MappingExpr)
  (x y : MappingExpr) {struct x} : option MappingExpr :=
  match x, y with
  | MappingStripeExpr operand factors, MappingStripeExpr operand' factors' =>
      if decide (factors = factors')
      then (fun o => MappingStripeExpr o factors)
             <$> ExprUnify on_mismatch operand operand'
      else on_mismatch x y
  | MappingUnStripeExpr operands factors,
    MappingUnStripeExpr operands' factors' =>
      if decide (factors = factors' ∧ length operands = length operands')
      then (fun os => MappingUnStripeExpr os factors)
             <$> (fix unify_all (xs ys : list MappingExpr)
                    : option (list MappingExpr) :=
                    match xs, ys with
                    | x' :: xs', y' :: ys' =>
                        match ExprUnify on_mismatch x' y' with
                        | Some e => (fun es => e :: es) <$> unify_all xs' ys'
                        | None => None
                        end
                    | _, _ => Some []
                    end) operands operands'
      else on_mismatch x y
  | _, _ => if decide (x = y) then Some x else on_mismatch x y
  end.

(** The expressions of two mappings, unified position by position as
    [llvm::zip] pairs them. *)
Fixpoint UnifyList
  (on_mismatch : MappingExpr -> MappingExpr -> option MappingExpr)
  (xs ys : list MappingExpr) : option (list MappingExpr) :=
  match xs, ys with
  | x :: xs', y :: ys' =>
      match ExprUnify on_mismatch x y with
      | Some e => (fun es => e :: es) <$> UnifyList on_mismatch xs' ys'
      | None => None
      end
  | _, _ => Some []
  end.

(** A [?] placeholder takes the expression of the other side; any other
    mismatch is a failure. *)
Definition resolve_unknown (x y : MappingExpr) : option MappingExpr :=
  match x, y with
  | MappingUnknownExpr, _ => Some y
  | _, MappingUnknownExpr => Some x
  | _, _ => None
  end.

(** A none placeholder takes the expression of the other side; any other
    mismatch is a failure. *)
Definition resolve_none (x y : MappingExpr) : option MappingExpr :=
  match x, y with
  | MappingNoneExpr, _ => Some y
  | _, MappingNoneExpr => Some x
  | _, _ => None
  end.

(** Modelled from the spec: [MappingAttr::UnifyUnknownExprs], documented in
    storage.h as unifying layouts by substituting [?] expressions only.
    [UnifyUnknownExprs m other] is [m.UnifyUnknownExprs(other)]; the result
    is null ([None]) when the mappings disagree on something else than a
    [?]: on their use domain, on their number of expressions, or on an
    expression that is not a [?] on either side. *)
Definition UnifyUnknownExprs (m other : MappingAttr) : option MappingAttr :=
  if decide (UseDomainSize m = UseDomainSize other ∧ size m = size other)
  then mkMapping (UseDomainSize m)
         <$> UnifyList resolve_unknown (Dimensions m) (Dimensions other)
  else None.

(** Modelled from the spec: [MappingAttr::Unify], the unification that
    fills the unset (none) positions of one mapping with the expressions of
    the other; null ([None]) when the mappings disagree elsewhere. *)
Definition Unify (m other : MappingAttr) : option MappingAttr :=
  mkMapping (UseDomainSize m)
    <$> UnifyList resolve_none (Dimensions m) (Dimensions other).

(** [ExprRefines old new]: [new] is [old] with some of its [?]
    placeholders replaced by expressions; nothing else differs. *)
Fixpoint ExprRefines (old new : MappingExpr) {struct old} : bool :=
  match old with
  | MappingUnknownExpr => true
  | MappingDimExpr i =>
      match new with MappingDimExpr j => bool_decide (i = j) | _ => false end
  | MappingNoneExpr =>
      match new with MappingNoneExpr => true | _ => false end
  | MappingStripeExpr operand factors =>
      match new with
      | MappingStripeExpr operand' factors' =>
          bool_decide (factors = factors') && ExprRefines operand operand'
      | _ => false
      end
  | MappingUnStripeExpr operands factors =>
      match new with
      | MappingUnStripeExpr operands' factors' =>
          bool_decide (factors = factors')
          && (fix refines_all (xs ys : list MappingExpr) : bool :=
                match xs, ys with
                | [], [] => true
                | x' :: xs', y' :: ys' =>
                    ExprRefines x' y' && refines_all xs' ys'
                | _, _ => false
                end) operands operands'
      | _ => false
      end
  end.

Fixpoint RefinesList (olds news : list MappingExpr) : bool :=
  match olds, news with
  | [], [] => true
  | o :: olds', n :: news' => ExprRefines o n && RefinesList olds' news'
  | _, _ => false
  end.

(** [Refines old new]: same use domain, same rank, and every expression of
    [new] refines the expression of [old] at its position. *)
Definition Refines (old new : MappingAttr) : bool :=
  bool_decide (UseDomainSize old = UseDomainSize new)
  && RefinesList (Dimensions old) (Dimensions new).

(** *** Inversion of mappings without stripes *)

(** [stripe_free m]: every expression of [m] is a dimension or a none
    placeholder. *)
Definition stripe_free (m : MappingAttr) : bool :=
  forallb
    (fun e =>
       match e with
       | MappingDimExpr _ | MappingNoneExpr => true
       | _ => false
       end)
    (Dimensions m).

(** [partial_injection m]: every expression of [m] is a none placeholder
    or a dimension of the use domain, and a dimension occurs at one
    position only, the one that [position_of] finds. *)
Fixpoint position_of (d : nat) (exprs : list MappingExpr) : option nat :=
  match exprs with
  | [] => None
  | e :: rest =>
      if decide (e = MappingDimExpr d) then Some 0
      else S <$> position_of d rest
  end.

Definition partial_injection (m : MappingAttr) : bool :=
  forallb
    (fun i =>
       match Dimensions m !! i with
       | Some (MappingDimExpr d) =>
           bool_decide (d < UseDomainSize m
                        ∧ position_of d (Dimensions m) = Some i)
       | Some MappingNoneExpr => true
       | _ => false
       end)
    (seq 0 (size m)).

(** Modelled from the spec: [MappingAttr::Inverse], on a mapping that is a
    partial injection.  The inverse maps the dimension [d] to the position
    at which the mapping has [d], and to a none placeholder when the
    mapping has [d] nowhere. *)
Definition Inverse_dims (m : MappingAttr) : MappingAttr :=
  mkMapping (size m)
    ((fun d =>
        match position_of d (Dimensions m) with
        | Some i => MappingDimExpr i
        | None => MappingNoneExpr
        end) <$> seq 0 (UseDomainSize m)).

(** The none placeholders of the expressions are replaced, in order, by
    the new dimensions [next], [next + 1], ... of the use domain. *)
Fixpoint fill_none (next : nat) (exprs : list MappingExpr)
  : nat * list MappingExpr :=
  match exprs with
  | [] => (next, [])
  | MappingNoneExpr :: rest =>
      let '(n, filled) := fill_none (S next) rest in
      (n, MappingDimExpr next :: filled)
  | e :: rest =>
      let '(n, filled) := fill_none next rest in (n, e :: filled)
  end.

(** Modelled from the spec: [MappingAttr::MakeSurjective], on a mapping
    that is a partial injection: the none placeholders are replaced by new
    dimensions of the use domain. *)
Definition MakeSurjective_dims (m : MappingAttr) : MappingAttr :=
  let '(n, filled) := fill_none (UseDomainSize m) (Dimensions m) in
  mkMapping n filled.

End Mapping.

Export Mapping.

(* ===================================================================== *)
(** ** The surrounding IR *)
(* ===================================================================== *)

(** [mlir::Location], [mlir::StringAttr] and the scalar types stored in
    values.  A null [StringAttr] is [None] of [option StringAttr]. *)
Definition Location : Type := string.
Definition StringAttr : Type := string.

Inductive ElementType : Type :=
| F32Type | F64Type | I32Type | I64Type | IndexType | MemRefType.

#[global] Instance ElementType_eq_decision : EqDecision ElementType.
Proof. solve_decision. Defined.

(** An [mlir::Value] produced by a Sair operation: the operation that
    defines it, named by its position in the body of the program, and the
    number of the result. *)
Record Value : Type := mkValue {
  value_def : nat;
  value_result : nat;
}.

#[global] Instance Value_eq_decision : EqDecision Value.
Proof. solve_decision. Defined.

#[global] Instance Value_countable : Countable Value.
Proof.
  refine (inj_countable' (fun v => (value_def v, value_result v))
                         (fun p => mkValue p.1 p.2) _).
  by intros [].
Defined.

(** [ValueAccess]: a value with the mapping used to access it. *)
Record ValueAccess : Type := mkValueAccess {
  access_value : Value;
  access_mapping : MappingAttr;
}.

(** [ValueOperand]: an operand of a Sair operation that is a Sair value. *)
Record ValueOperand : Type := mkValueOperand {
  operand_value : Value;
  operand_mapping : MappingAttr;
  operand_position : nat;
}.

Definition operand_Get (operand : ValueOperand) : ValueAccess :=
  mkValueAccess (operand_value operand) (operand_mapping operand).

(** [NamedMappingAttr] and [BufferAttr], the storage annotation of one
    result. *)
Record NamedMappingAttr : Type := mkNamedMapping {
  names : list StringAttr;
  named_mapping : MappingAttr;
}.

Record BufferAttr : Type := mkBufferAttr {
  attr_space : StringAttr;
  attr_name : option StringAttr;
  attr_layout : option NamedMappingAttr;
}.

(** What the analysis reads of a [FromToMemRefOp]: the name of the
    buffer, the element type of the memref, the sizes of the parallel and
    memref domains, the value that holds the memref ([MemRef().value()])
    and the layout of the operation ([Layout()]). *)
Record MemRefInfo : Type := mkMemRefInfo {
  info_buffer_name : StringAttr;
  info_element_type : ElementType;
  parallel_domain_size : nat;
  memref_domain_size : nat;
  info_MemRef : Value;
  info_Layout : MappingAttr;
}.

(** The kinds of operations the analysis tells apart.  [SairMapReduceOp]
    carries the number of its initialisation operands ([Inits]), which are
    its first operands, and [SairToMemRefOp] the operand that holds the
    value it exports ([Value()]). *)
Inductive OpKind : Type :=
| SairMapOp
| SairCopyOp
| SairMapReduceOp (num_inits : nat)
| SairProjAnyOp
| SairProjLastOp
| SairFbyOp
| SairFromScalarOp
| SairFromMemRefOp (info : MemRefInfo)
| SairToMemRefOp (info : MemRefInfo) (value : ValueOperand)
| SairRangeOp
| SairOtherOp.

(** [isa<ComputeOp>]. *)
Definition is_ComputeOp (kind : OpKind) : bool :=
  match kind with
  | SairMapOp | SairCopyOp | SairMapReduceOp _ => true
  | _ => false
  end.

(** A Sair operation.  [op_order] is its position in the body of the
    program; [op_shape] holds the dependency mapping of each dimension of
    its domain; [op_results] the element type of each result and
    [op_storage] the storage annotation of each result ([Storage(i)], null
    when the entry is absent or a unit attribute). *)
Record Operation : Type := mkOperation {
  op_order : nat;
  op_loc : Location;
  op_kind : OpKind;
  op_domain : list Value;
  op_shape : list MappingAttr;
  op_results : list ElementType;
  op_storage : list (option BufferAttr);
  op_operands : list ValueOperand;
}.

(** [Operation::isBeforeInBlock]. *)
Definition isBeforeInBlock (op other : Operation) : bool :=
  bool_decide (op_order op < op_order other).

(** An [mlir::OpOperand]: one use of a value. *)
Record OpOperand : Type := mkOpOperand {
  use_owner : Operation;
  use_position : nat;
  use_mapping : MappingAttr;
}.

(** [dyn_cast<FromToMemRefOp>]. *)
Definition as_FromToMemRefOp (op : Operation) : option MemRefInfo :=
  match op_kind op with
  | SairFromMemRefOp info | SairToMemRefOp info _ => Some info
  | _ => None
  end.

(* ===================================================================== *)
(** ** Diagnostics and results *)
(* ===================================================================== *)

(** What [operator<<] streams into an [mlir::InFlightDiagnostic]. *)
Inductive DiagnosticArgument : Type :=
| Text (s : string)
| Name (a : option StringAttr)
| Layout (m : option MappingAttr).

Record Diagnostic : Type := mkDiagnostic {
  diag_loc : Location;
  diag_message : list DiagnosticArgument;
  diag_note : option (Location * string);
}.

Inductive LogicalResult : Type := success | failure.

#[global] Instance LogicalResult_eq_decision : EqDecision LogicalResult.
Proof. solve_decision. Defined.

(** [mlir::success(bool)]. *)
Definition success_if (b : bool) : LogicalResult :=
  if b then success else failure.

(** The result of a function that returns an [mlir::LogicalResult] and
    updates a state of type [S] through a reference: the state reached on
    success, the diagnostic and the state reached when it returns a
    failure, or [Aborted] when an [assert] of the source does not hold. *)
Inductive Outcome (S : Type) : Type :=
| Succeeded (s : S)
| Failed (d : Diagnostic) (s : S)
| Aborted.

Arguments Succeeded {S} s.
Arguments Failed {S} d s.
Arguments Aborted {S}.

Definition bind_outcome {S : Type} (m : Outcome S) (k : S -> Outcome S)
  : Outcome S :=
  match m with
  | Succeeded s => k s
  | Failed d s => Failed d s
  | Aborted => Aborted
  end.

Notation "'do' s <- m ; k" := (bind_outcome m (fun s => k))
  (at level 20, s name, m at level 100, k at level 200, only parsing).

(** A loop over a range that stops at the first failure, as the walks and
    the [for] loops that [return mlir::failure()] do. *)
Fixpoint for_each {A S : Type} (body : A -> S -> Outcome S) (xs : list A)
  (s : S) : Outcome S :=
  match xs with
  | [] => Succeeded s
  | x :: rest => do s' <- body x s; for_each body rest s'
  end.

(** [assert] on a value that is an [option] in the model. *)
Definition of_assert {S : Type} (o : option S) : Outcome S :=
  match o with Some s => Succeeded s | None => Aborted end.

(* ===================================================================== *)
(** ** Loop nests and iteration spaces *)
(* ===================================================================== *)

(** [LoopNest], the result of [LoopFusionAnalysis::GetLoopNest]. *)
Record LoopNest : Type := mkLoopNest {
  domain : list ValueAccess;
  domain_to_loops : MappingAttr;
}.

(** [IterationSpace], the result of [IterationSpaceAnalysis::Get]. *)
Record IterationSpace : Type := mkIterationSpace {
  loop_names : list StringAttr;
  mapping : MappingAttr;
  fully_specified : bool;
}.

(** The length of the longest common prefix of two lists of loop names. *)
Fixpoint common_prefix_length (xs ys : list StringAttr) : nat :=
  match xs, ys with
  | x :: xs', y :: ys' =>
      if decide (x = y) then S (common_prefix_length xs' ys') else 0
  | _, _ => 0
  end.

(** Modelled from the spec: [IterationSpace::NumCommonLoops], the number of
    leading loops the iteration space shares with another list of loops;
    the method is defined in loop_nest.cc. *)
Definition NumCommonLoops (iter_space : IterationSpace)
  (other : list StringAttr) : nat :=
  common_prefix_length (loop_names iter_space) other.

(* ===================================================================== *)
(** ** Buffers *)
(* ===================================================================== *)

Record Buffer : Type := mkBuffer {
  loc_ : Location;
  element_type_ : ElementType;
  import_op_ : option Operation;
  loop_nest_ : list StringAttr;
  domain_ : list ValueAccess;
  layout_ : option MappingAttr;
  writes_ : list (Operation * nat);
  reads_ : list (Operation * nat);
  values_ : list Value;
}.

Definition getLoc (b : Buffer) : Location := loc_ b.
Definition is_external (b : Buffer) : bool := bool_decide (is_Some (import_op_ b)).

(** [Buffer::Buffer(loc, element_type, loop_names, loop_nest)]: the domain
    is prefixed with the domain of the loop nest. *)
Definition Buffer_new (loc : Location) (element_type : ElementType)
  (loop_names : list StringAttr) (loop_nest : LoopNest) : Buffer :=
  let num_loops := length loop_names in
  {| loc_ := loc;
     element_type_ := element_type;
     import_op_ := None;
     loop_nest_ := loop_names;
     domain_ :=
       (fun access =>
          mkValueAccess (access_value access)
            (ResizeUseDomain (access_mapping access) num_loops))
         <$> domain loop_nest;
     layout_ := None;
     writes_ := [];
     reads_ := [];
     values_ := [] |}.

(** [Buffer::Buffer(import_op, loop_names, loop_nest)], for an operation
    [import_op] that is a [FromToMemRefOp] described by [info]. *)
Definition Buffer_import (import_op : Operation) (info : MemRefInfo)
  (loop_names : list StringAttr) (loop_nest : LoopNest) : Buffer :=
  let b := Buffer_new (op_loc import_op) (info_element_type info)
             loop_names loop_nest in
  {| loc_ := loc_ b;
     element_type_ := element_type_ b;
     import_op_ := Some import_op;
     loop_nest_ := loop_nest_ b;
     domain_ := domain_ b;
     layout_ := layout_ b;
     writes_ := writes_ b;
     reads_ := reads_ b;
     values_ := values_ b |}.

(** [Buffer::rank]. *)
Definition rank (b : Buffer) : option nat := size <$> layout_ b.

Definition with_loop_nest (b : Buffer) (ln : list StringAttr) : Buffer :=
  {| loc_ := loc_ b; element_type_ := element_type_ b;
     import_op_ := import_op_ b; loop_nest_ := ln; domain_ := domain_ b;
     layout_ := layout_ b; writes_ := writes_ b; reads_ := reads_ b;
     values_ := values_ b |}.

Definition with_domain (b : Buffer) (d : list ValueAccess) : Buffer :=
  {| loc_ := loc_ b; element_type_ := element_type_ b;
     import_op_ := import_op_ b; loop_nest_ := loop_nest_ b; domain_ := d;
     layout_ := layout_ b; writes_ := writes_ b; reads_ := reads_ b;
     values_ := values_ b |}.

Definition with_layout (b : Buffer) (l : option MappingAttr) : Buffer :=
  {| loc_ := loc_ b; element_type_ := element_type_ b;
     import_op_ := import_op_ b; loop_nest_ := loop_nest_ b;
     domain_ := domain_ b; layout_ := l; writes_ := writes_ b;
     reads_ := reads_ b; values_ := values_ b |}.

(** The loop of [SetLoopNest] over the preserved dimensions: [renaming]
    and the new domain after the dimensions [dims] have been visited. *)
Fixpoint trim_domain (old_domain : list ValueAccess) (new_size : nat)
  (dims : list nat) (renaming : list MappingExpr)
  (new_domain : list ValueAccess)
  : list MappingExpr * list ValueAccess :=
  match dims with
  | [] => (renaming, new_domain)
  | dim :: rest =>
      match renaming !! dim, old_domain !! dim with
      | Some (MappingDimExpr _), _ =>
          (* Already added to the new domain. *)
          trim_domain old_domain new_size rest renaming new_domain
      | Some _, Some access =>
          trim_domain old_domain new_size rest
            (<[dim := MappingDimExpr (length new_domain)]> renaming)
            (new_domain
               ++ [mkValueAccess (access_value access)
                     (ResizeUseDomain (access_mapping access) new_size)])
      | _, _ =>
          (* [dim] is not a position of the domain. *)
          trim_domain old_domain new_size rest renaming new_domain
      end
  end.

(** [Buffer::SetLoopNest].  [None] when the [assert] that the new loop
    nest is not longer than the current one fails. *)
Definition SetLoopNest (b : Buffer) (loop_nest : LoopNest) : option Buffer :=
  let new_size := size (domain_to_loops loop_nest) in
  if decide (new_size = length (loop_nest_ b)) then Some b
  else if decide (new_size ≤ length (loop_nest_ b)) then
    let b1 := with_loop_nest b (take new_size (loop_nest_ b)) in
    if decide (domain_ b = []) then Some b1
    else
      (* Compute dimensions to remove from the domain. *)
      let preserved_prefix :=
        (fun i => bool_decide (i < length (domain loop_nest)))
          <$> seq 0 (length (domain_ b)) in
      let preserved_dims :=
        match layout_ b with
        | Some l => bits_or preserved_prefix (DependencyMask l)
        | None => preserved_prefix
        end in
      (* Trim domain from unused dimensions. *)
      let renaming := replicate (length (domain_ b)) MappingNoneExpr in
      let '(renaming, new_domain) :=
        trim_domain (domain_ b) new_size (set_bits preserved_dims)
          renaming [] in
      let b2 := with_domain b1 new_domain in
      match layout_ b with
      | Some l =>
          let renaming_mapping := mkMapping (length new_domain) renaming in
          Some (with_layout b2 (Some (Compose renaming_mapping l)))
      | None => Some b2
      end
  else None.

(** [Buffer::UnifyLayout].  A null result of [Unify] would be stored in
    [layout_] and dereferenced by the next reader of the layout; the model
    stops there ([None]). *)
Definition UnifyLayout (b : Buffer) (layout : MappingAttr) : option Buffer :=
  match layout_ b with
  | None => Some (with_layout b (Some layout))
  | Some l =>
      match Unify l layout with
      | Some unified => Some (with_layout b (Some unified))
      | None => None
      end
  end.

(** [Buffer::AddValue], given the operation that defines the value and
    the uses of the value. *)
Definition AddValue (b : Buffer) (value : Value) (defining_op : Operation)
  (uses : list OpOperand) : Buffer :=
  {| loc_ := loc_ b; element_type_ := element_type_ b;
     import_op_ := import_op_ b; loop_nest_ := loop_nest_ b;
     domain_ := domain_ b; layout_ := layout_ b;
     writes_ :=
       writes_ b
         ++ (if is_ComputeOp (op_kind defining_op)
             then [(defining_op, value_result value)] else []);
     reads_ :=
       reads_ b
         ++ omap (fun use =>
                    if is_ComputeOp (op_kind (use_owner use))
                    then Some (use_owner use, use_position use) else None)
                 uses;
     values_ := values_ b ++ [value] |}.

(** [Buffer::AddNonePrefixToLayout]; [None] when the buffer has no
    layout. *)
Definition AddNonePrefixToLayout (b : Buffer) (num_new_dims : nat)
  : option Buffer :=
  match layout_ b with
  | Some l =>
      Some (with_layout b
              (Some (AddPrefix l (replicate num_new_dims MappingNoneExpr))))
  | None => None
  end.

(** [Buffer::AppendToDomain]. *)
Definition AppendToDomain (b : Buffer) (new_values : list ValueAccess)
  : Buffer :=
  let d := domain_ b ++ new_values in
  with_layout (with_domain b d)
    ((fun l => ResizeUseDomain l (length d)) <$> layout_ b).

(* ===================================================================== *)
(** ** Value storages *)
(* ===================================================================== *)

Record ValueStorage : Type := mkValueStorage {
  space : option StringAttr;
  buffer_name : option StringAttr;
  storage_layout : option MappingAttr;
}.

#[global] Instance ValueStorage_eq_decision : EqDecision ValueStorage.
Proof. solve_decision. Defined.

(** [ValueStorage()]: every attribute is null. *)
Definition ValueStorage_default : ValueStorage := mkValueStorage None None None.

(** [ValueStorage::MergeSpace]. *)
Definition MergeSpace (st : ValueStorage) (new_space : option StringAttr)
  : LogicalResult * ValueStorage :=
  match new_space with
  | None => (success, st)
  | Some _ =>
      let space_ := if space st is None then new_space else space st in
      (success_if (bool_decide (space_ = new_space)),
       mkValueStorage space_ (buffer_name st) (storage_layout st))
  end.

(** [ValueStorage::MergeBufferName]. *)
Definition MergeBufferName (st : ValueStorage) (new_name : option StringAttr)
  : LogicalResult * ValueStorage :=
  match new_name with
  | None => (success, st)
  | Some _ =>
      let buffer_name_ :=
        if buffer_name st is None then new_name else buffer_name st in
      (success_if (bool_decide (buffer_name_ = new_name)),
       mkValueStorage (space st) buffer_name_ (storage_layout st))
  end.

(** [ValueStorage::MergeLayout]. *)
Definition MergeLayout (st : ValueStorage) (new_layout : option MappingAttr)
  : LogicalResult * ValueStorage :=
  match new_layout with
  | None => (success, st)
  | Some new_layout =>
      match storage_layout st with
      | None =>
          (success, mkValueStorage (space st) (buffer_name st) (Some new_layout))
      | Some layout_ =>
          match UnifyUnknownExprs new_layout layout_ with
          | None => (failure, st)
          | Some unified =>
              (success,
               mkValueStorage (space st) (buffer_name st) (Some unified))
          end
      end
  end.

(** [ValueStorage::AddUnknownPrefixToLayout]; [None] when the layout is
    null. *)
Definition AddUnknownPrefixToLayout (st : ValueStorage) (num_new_dims : nat)
  : option ValueStorage :=
  match storage_layout st with
  | Some l =>
      Some (mkValueStorage (space st) (buffer_name st)
              (Some (AddPrefix l (replicate num_new_dims MappingUnknownExpr))))
  | None => None
  end.

(* ===================================================================== *)
(** ** The analysis *)
(* ===================================================================== *)

(** The position of the first occurrence of a name, as [llvm::find]
    followed by [std::distance]. *)
Fixpoint index_of (name : StringAttr) (l : list StringAttr) : option nat :=
  match l with
  | [] => None
  | x :: rest => if decide (x = name) then Some 0 else S <$> index_of name rest
  end.

(** [ComputeOp::Storage(i)]: null when the entry is absent or a unit
    attribute. *)
Definition Storage (op : Operation) (i : nat) : option BufferAttr :=
  mjoin (op_storage op !! i).

(** [buffers.try_emplace(name, ...)]: the table is left as it is when the
    key is present. *)
Definition try_emplace (name : StringAttr) (b : Buffer)
  (buffers : gmap StringAttr Buffer) : gmap StringAttr Buffer :=
  match buffers !! name with
  | Some _ => buffers
  | None => <[name := b]> buffers
  end.

(** [StorageAnalysis]: the buffers indexed by name, the storage of every
    value and the counter of the fresh buffer names. *)
Record StorageAnalysis : Type := mkStorageAnalysis {
  buffers_ : gmap StringAttr Buffer;
  value_storages_ : gmap Value ValueStorage;
  next_buffer_id_ : nat;
}.

(** [StorageAnalysis(context)]: the empty analysis. *)
Definition StorageAnalysis_empty : StorageAnalysis := mkStorageAnalysis ∅ ∅ 0.

Definition with_buffers (analysis : StorageAnalysis)
  (buffers : gmap StringAttr Buffer) : StorageAnalysis :=
  mkStorageAnalysis buffers (value_storages_ analysis)
    (next_buffer_id_ analysis).

(** [value_storages_[value]]: the storage of the value, and the table with
    the default-constructed entry that [operator[]] adds for a value that
    has none. *)
Definition storage_entry (value_storages : gmap Value ValueStorage)
  (value : Value) : ValueStorage * gmap Value ValueStorage :=
  match value_storages !! value with
  | Some storage => (storage, value_storages)
  | None => (ValueStorage_default, <[value := ValueStorage_default]> value_storages)
  end.

(** The loop of [StorageAnalysis::GetFreshBufferName]: the first name
    [buffer_<id>] that is not the name of a buffer, from the identifier
    [next_buffer_id] on, with the identifier that follows it; [None] when
    the [fuel] first names are taken. *)
Fixpoint fresh_buffer_name (fuel : nat) (buffers : gmap StringAttr Buffer)
  (next_buffer_id : nat) : option (StringAttr * nat) :=
  match fuel with
  | 0 => None
  | S fuel =>
      let attr : StringAttr := "buffer_" +:+ pretty next_buffer_id in
      match buffers !! attr with
      | Some _ => fresh_buffer_name fuel buffers (S next_buffer_id)
      | None => Some (attr, S next_buffer_id)
      end
  end.

(** [StorageAnalysis::GetFreshBufferName].  One more name than there are
    buffers is enough for the loop to end. *)
Definition GetFreshBufferName (analysis : StorageAnalysis)
  : option (StringAttr * StorageAnalysis) :=
  '(attr, next_buffer_id) ←
    fresh_buffer_name (S (base.size (buffers_ analysis))) (buffers_ analysis)
      (next_buffer_id_ analysis);
  Some (attr, mkStorageAnalysis (buffers_ analysis) (value_storages_ analysis)
                next_buffer_id).

(* ===================================================================== *)
(** ** Default loop nests *)
(* ===================================================================== *)

(** [GetDefaultLoopNest] of transforms/default_lowering_attributes.cc.
    [IteratorAttr] and [LoopAttr] are declared in sair_attributes.h: an
    iterator is made with [IteratorAttr::get(context)], which
    rematerializes, or with [IteratorAttr::get(context, dimension, step)],
    whose step is 1 by default. *)

(** [IteratorAttr]: an iterator rematerializes the computation in the loop,
    or iterates over a dimension of the domain with a step. *)
Inductive IteratorAttr : Type :=
| RematerializeIterator
| DimensionIterator (dimension step : nat).

(** [LoopAttr]. *)
Record LoopAttr : Type := mkLoopAttr {
  loop_name : StringAttr;
  loop_iter : IteratorAttr;
}.

(** An attribute of a loop nest array: [attr.cast<LoopAttr>()] fails on an
    attribute that is not a loop. *)
Inductive LoopNestAttribute : Type :=
| LoopAttribute (loop : LoopAttr)
| NotALoopAttribute.

(** The first loop of [GetDefaultLoopNest]: lists dimensions that are
    already covered by the prefix.  [None] when a cast fails or
    [BitVector::set] is called out of range. *)
Fixpoint cover_dimensions (covered_dims : list bool)
  (loop_nest : list LoopNestAttribute) : option (list bool) :=
  match loop_nest with
  | [] => Some covered_dims
  | NotALoopAttribute :: _ => None
  | LoopAttribute loop :: rest =>
      match loop_iter loop with
      | RematerializeIterator => cover_dimensions covered_dims rest
      | DimensionIterator dimension step =>
          if decide (step ≠ 1) then cover_dimensions covered_dims rest
          else if decide (dimension < length covered_dims)
          then cover_dimensions (<[dimension := true]> covered_dims) rest
          else None
      end
  end.

(** The body of the second loop of [GetDefaultLoopNest], for the
    dimension [i]; [SairProgramOp::GenLoopName] returns a name and changes
    the program. *)
Definition add_default_loop {Program : Type}
  (GenLoopName : string -> Program -> StringAttr * Program)
  (covered_dims : list bool)
  (state : list LoopNestAttribute * Program) (i : nat)
  : list LoopNestAttribute * Program :=
  let '(loop_nest, program) := state in
  if covered_dims !! i is Some true then state
  else
    let iterator := DimensionIterator i 1 in
    let '(name, program) := GenLoopName "loop" program in
    (loop_nest ++ [LoopAttribute (mkLoopAttr name iterator)], program).

(** [GetDefaultLoopNest]. *)
Definition GetDefaultLoopNest {Program : Type}
  (GenLoopName : string -> Program -> StringAttr * Program)
  (program : Program) (num_dimensions : nat)
  (prefix : list LoopNestAttribute)
  : option (list LoopNestAttribute * Program) :=
  covered_dims ← cover_dimensions (replicate num_dimensions false) prefix;
  Some (foldl (add_default_loop GenLoopName covered_dims) (prefix, program)
          (seq 0 num_dimensions)).

(** The loop iterates over the dimension, one point at a time. *)
Definition covers (attr : LoopNestAttribute) (dimension : nat) : Prop :=
  exists name,
    attr = LoopAttribute (mkLoopAttr name (DimensionIterator dimension 1)).

#[global] Instance covers_dec attr dimension : Decision (covers attr dimension).
Proof.
  destruct attr as [[name [|d step]]|].
  - right. intros [name' [=]].
  - destruct (decide (d = dimension /\ step = 1)) as [[-> ->]|Hne].
    + left. by exists name.
    + right. intros [name' [= _ Hd Hs]]. by destruct Hne.
  - right. intros [name' [=]].
Defined.

(* ===================================================================== *)
(** ** A small program *)
(* ===================================================================== *)

(** A program and collaborators on which the analysis can be run: a
    memref is defined, [producer] computes a two-dimensional value in the
    loops [i] and [j] and stores it in the buffer [b], [update] reads it
    and updates the buffer in place, and [export] copies the value to the
    memref.  Every loop iterates over one dimension of its own, the
    operations outside the loops iterate over their domain in order, and
    the mappings are made of dimensions and none placeholders only. *)
Module Example.

(** The dimension [n] of the loops is defined by the operation at the
    position [n]. *)
Definition range (n : nat) : Operation :=
  mkOperation n "range" SairRangeOp [] [] [IndexType] [] [].

Definition dimensions : list Value := [mkValue 0 0; mkValue 1 0].
Definition rectangular : list MappingAttr := [mkMapping 0 []; mkMapping 1 []].

Definition memref_def : Operation :=
  mkOperation 10 "loc0" SairFromScalarOp [] [] [MemRefType] [] [].

Definition row_major : BufferAttr :=
  mkBufferAttr "memory" (Some "b")
    (Some (mkNamedMapping ["i"; "j"] (GetIdentity 2))).

Definition column_major : BufferAttr :=
  mkBufferAttr "memory" (Some "b")
    (Some (mkNamedMapping ["j"; "i"] (GetIdentity 2))).

Definition one_dimension : BufferAttr :=
  mkBufferAttr "memory" (Some "b")
    (Some (mkNamedMapping ["i"] (GetIdentity 1))).

Definition producer : Operation :=
  mkOperation 11 "loc1" SairMapOp dimensions rectangular [F32Type]
    [Some row_major] [].

Definition produced : Value := mkValue 11 0.

Definition update : Operation :=
  mkOperation 12 "loc2" SairMapOp dimensions rectangular [F32Type]
    [Some row_major] [mkValueOperand produced (GetIdentity 2) 0].

(** An update in place that writes the buffer with the transposed
    layout. *)
Definition transposed_update : Operation :=
  mkOperation 16 "loc6" SairMapOp dimensions rectangular [F32Type]
    [Some column_major] [mkValueOperand produced (GetIdentity 2) 0].

Definition export_info : MemRefInfo :=
  mkMemRefInfo "b" F32Type 0 2 (mkValue 10 0) (GetIdentity 2).

Definition export : Operation :=
  mkOperation 13 "loc3"
    (SairToMemRefOp export_info (mkValueOperand produced (GetIdentity 2) 1))
    dimensions rectangular [] [] [mkValueOperand produced (GetIdentity 2) 1].

(** The same buffer name with another element type, and with a layout of
    another rank. *)
Definition other_type : Operation :=
  mkOperation 14 "loc4" SairMapOp dimensions rectangular [I32Type]
    [Some row_major] [].

Definition other_rank : Operation :=
  mkOperation 15 "loc5" SairMapOp dimensions rectangular [F32Type]
    [Some one_dimension] [].

Definition program : list Operation := [memref_def; producer; update; export].

(** A second program: [inner_producer] stores its result in the buffer
    [c], indexed by the loop [j] alone, and [outer_user] reads the value
    outside of the loops. *)
Definition inner_layout : BufferAttr :=
  mkBufferAttr "memory" (Some "c")
    (Some (mkNamedMapping ["j"] (GetIdentity 1))).

Definition inner_producer : Operation :=
  mkOperation 17 "loc7" SairMapOp dimensions rectangular [F32Type]
    [Some inner_layout] [].

Definition inner_produced : Value := mkValue 17 0.

Definition outer_operand : ValueOperand :=
  mkValueOperand inner_produced
    (mkMapping 0 [MappingNoneExpr; MappingNoneExpr]) 0.

Definition outer_user : Operation :=
  mkOperation 18 "loc8" SairCopyOp [] [] [F32Type] [None] [outer_operand].

Definition nested_program : list Operation := [inner_producer; outer_user].

Definition getDefiningOp (value : Value) : Operation :=
  match value_def value with
  | 10 => memref_def
  | 11 => producer
  | 12 => update
  | 13 => export
  | 14 => other_type
  | 15 => other_rank
  | 16 => transposed_update
  | 17 => inner_producer
  | 18 => outer_user
  | n => range n
  end.

Definition getUses (value : Value) : list OpOperand :=
  if decide (value = produced)
  then [mkOpOperand update 0 (GetIdentity 2);
        mkOpOperand export 1 (GetIdentity 2)]
  else if decide (value = inner_produced)
  then [mkOpOperand outer_user 0 (operand_mapping outer_operand)]
  else [].

Definition loops_ij : IterationSpace :=
  mkIterationSpace ["i"; "j"] (GetIdentity 2) true.

(** The iteration space of a user in the loop [i] of the producer, and in
    a loop [k] of its own. *)
Definition loops_ik : IterationSpace :=
  mkIterationSpace ["i"; "k"] (GetIdentity 2) true.

Definition iteration_spaces (op : Operation) : IterationSpace :=
  match op_order op with
  | 11 | 12 | 14 | 15 | 16 | 17 => loops_ij
  | _ => mkIterationSpace [] (GetIdentity (length (op_domain op))) true
  end.

(** Every loop iterates over one rectangular dimension. *)
Definition GetLoopNest (loops : list StringAttr) : LoopNest :=
  mkLoopNest
    (imap (fun i _ => mkValueAccess (mkValue i 0) (mkMapping i []))
       loops)
    (GetIdentity (length loops)).

(** Mappings without stripes are canonical. *)
Definition Canonicalize (m : MappingAttr) : MappingAttr := m.

(** The inverse of a mapping made of dimensions and none placeholders. *)
Definition Inverse (m : MappingAttr) : MappingAttr := Inverse_dims m.

(** The none placeholders of the mapping are replaced by new dimensions of
    the use domain. *)
Definition MakeSurjective (m : MappingAttr) : MappingAttr :=
  MakeSurjective_dims m.

(** The operations of the program iterate over their domain in order. *)
Definition TranslateMapping (from to : Operation) (m : MappingAttr)
  : option MappingAttr := Some m.

Definition UnificationConstraints (new_expr old_expr : MappingExpr)
  (constraints : list MappingExpr) : option (list MappingExpr) :=
  match new_expr with
  | MappingDimExpr i =>
      match constraints !! i with
      | Some MappingNoneExpr => Some (<[i := old_expr]> constraints)
      | Some constraint =>
          if decide (constraint = old_expr) then Some constraints else None
      | None => None
      end
  | MappingNoneExpr => Some constraints
  | _ => if decide (new_expr = old_expr) then Some constraints else None
  end.

Definition ResolveUnificationConstraint (loc : Location)
  (origin : list DiagnosticArgument) (dim_access : ValueAccess)
  (constraint : MappingExpr) (new_domain : list ValueAccess)
  : Diagnostic + (MappingExpr * list ValueAccess) :=
  match constraint with
  | MappingNoneExpr =>
      inr (MappingDimExpr (length new_domain), new_domain ++ [dim_access])
  | MappingDimExpr i =>
      match new_domain !! i with
      | Some access =>
          if decide (access_value access = access_value dim_access)
          then inr (constraint, new_domain)
          else inl (mkDiagnostic loc
                      (origin ++ [Text " dimensions mismatch"]) None)
      | None =>
          inl (mkDiagnostic loc (origin ++ [Text " dimensions mismatch"]) None)
      end
  | _ => inr (constraint, new_domain)
  end.

Definition AccessedShapeMinDomainSize (layout_expr : MappingExpr)
  (num_dimensions : nat) (inverse : MappingAttr) : nat := 0.

(** A third program: [scalar_producer] keeps its result in a register and
    [projection] projects this result. *)
Definition scalar_producer : Operation :=
  mkOperation 20 "loc20" SairCopyOp [] [] [F32Type]
    [Some (mkBufferAttr "register" None None)] [].

Definition scalar_produced : Value := mkValue 20 0.

Definition projection : Operation :=
  mkOperation 21 "loc21" SairProjAnyOp [] [] [F32Type] []
    [mkValueOperand scalar_produced (mkMapping 0 []) 0].

Definition projected : Value := mkValue 21 0.

Definition projection_program : list Operation :=
  [scalar_producer; projection].

Definition projection_getDefiningOp (value : Value) : Operation :=
  match value_def value with
  | 20 => scalar_producer
  | 21 => projection
  | _ => getDefiningOp value
  end.

Definition projection_getUses (value : Value) : list OpOperand :=
  if decide (value = scalar_produced)
  then [mkOpOperand projection 0 (mkMapping 0 [])]
  else getUses value.

(** A fourth program: [early_producer] writes the buffer [e], which
    [late_export] exports to a memref that [late_memref_def] defines after
    [early_producer]. *)
Definition early_layout : BufferAttr :=
  mkBufferAttr "memory" (Some "e")
    (Some (mkNamedMapping ["i"; "j"] (GetIdentity 2))).

Definition early_producer : Operation :=
  mkOperation 30 "loc30" SairMapOp dimensions rectangular [F32Type]
    [Some early_layout] [].

Definition early_produced : Value := mkValue 30 0.

Definition late_memref_def : Operation :=
  mkOperation 31 "loc31" SairFromScalarOp [] [] [MemRefType] [] [].

Definition late_export_info : MemRefInfo :=
  mkMemRefInfo "e" F32Type 0 2 (mkValue 31 0) (GetIdentity 2).

Definition late_export : Operation :=
  mkOperation 32 "loc32"
    (SairToMemRefOp late_export_info
       (mkValueOperand early_produced (GetIdentity 2) 1))
    dimensions rectangular [] []
    [mkValueOperand early_produced (GetIdentity 2) 1].

Definition early_write_program : list Operation :=
  [early_producer; late_memref_def; late_export].

Definition early_getDefiningOp (value : Value) : Operation :=
  match value_def value with
  | 30 => early_producer
  | 31 => late_memref_def
  | 32 => late_export
  | _ => getDefiningOp value
  end.

Definition early_getUses (value : Value) : list OpOperand :=
  if decide (value = early_produced)
  then [mkOpOperand late_export 1 (GetIdentity 2)]
  else getUses value.

Definition early_iteration_spaces (op : Operation) : IterationSpace :=
  match op_order op with
  | 30 => loops_ij
  | _ => iteration_spaces op
  end.

(** The buffer [b] as [producer] declares it, with its layout. *)
Definition declared_b : Buffer :=
  {| loc_ := "loc1"; element_type_ := F32Type; import_op_ := None;
     loop_nest_ := []; domain_ := domain (GetLoopNest ["i"; "j"]);
     layout_ := Some (GetIdentity 2);
     writes_ := [(producer, 0)]; reads_ := []; values_ := [produced] |}.

(** The buffer [b] as an external buffer exported by [export]. *)
Definition exported_b : Buffer :=
  {| loc_ := "loc3"; element_type_ := F32Type; import_op_ := Some export;
     loop_nest_ := []; domain_ := domain (GetLoopNest ["i"; "j"]);
     layout_ := Some (GetIdentity 2);
     writes_ := [(producer, 0)]; reads_ := []; values_ := [produced] |}.

(** A buffer allocated in the loops [i], [j] and [x]. *)
Definition nested_b : Buffer :=
  Buffer_new "loc1" F32Type ["i"; "j"; "x"] (GetLoopNest ["i"; "j"; "x"]).

(** The storage of a value in the buffer [b], with a layout whose second
    dimension is not known yet. *)
Definition partial_storage : ValueStorage :=
  mkValueStorage (Some "memory") (Some "b")
    (Some (mkMapping 2 [MappingDimExpr 0; MappingUnknownExpr])).

Definition row_major_storage : ValueStorage :=
  mkValueStorage (Some "memory") (Some "b") (Some (GetIdentity 2)).

Definition column_major_storage : ValueStorage :=
  mkValueStorage (Some "memory") (Some "b")
    (Some (mkMapping 2 [MappingDimExpr 1; MappingDimExpr 0])).

Definition register_storage : ValueStorage :=
  mkValueStorage (Some "register") None (Some (mkMapping 2 [])).

End Example.

Section Analysis.

(** *** Collaborators *)

(** [LoopFusionAnalysis::GetLoopNest]. *)
Variable GetLoopNest : list StringAttr -> LoopNest.

(** [IterationSpaceAnalysis::Get] and
    [IterationSpaceAnalysis::TranslateMapping]. *)
Variable iteration_spaces : Operation -> IterationSpace.
Variable TranslateMapping :
  Operation -> Operation -> MappingAttr -> option MappingAttr.

(** [mlir::Value::getDefiningOp] and [mlir::Value::getUses]. *)
Variable getDefiningOp : Value -> Operation.
Variable getUses : Value -> list OpOperand.

(** [MappingAttr::Canonicalize], [MappingAttr::Inverse] and
    [MappingAttr::MakeSurjective]. *)
Variable Canonicalize : MappingAttr -> MappingAttr.
Variable Inverse : MappingAttr -> MappingAttr.
Variable MakeSurjective : MappingAttr -> MappingAttr.

(** [UnificationConstraints(new_expr, old_expr, constraints)]: the updated
    constraints, or [None] for a failure. *)
Variable UnificationConstraints :
  MappingExpr -> MappingExpr -> list MappingExpr -> option (list MappingExpr).

(** [ResolveUnificationConstraint(loc, origin, dim_access, constraint,
    new_domain)]: the updated constraint and domain, or the diagnostic of
    the failure. *)
Variable ResolveUnificationConstraint :
  Location -> list DiagnosticArgument -> ValueAccess -> MappingExpr ->
  list ValueAccess -> Diagnostic + (MappingExpr * list ValueAccess).

(** [layout_expr.AccessedShape(hr_shape.Dimensions(), inverse)
       .dependency_mapping().MinDomainSize()] for the hyper-rectangular
    shape of the given rank. *)
Variable AccessedShapeMinDomainSize : MappingExpr -> nat -> MappingAttr -> nat.

(** *** Buffer declaration *)

(** [GetBufferLayout]: the layout of [buffer] as a mapping from the
    iteration space of [op] to buffer dimensions.  The outer [None] is the
    failed [assert] that every name of the layout is a loop of [op]. *)
Definition GetBufferLayout (op : Operation) (buffer : BufferAttr)
  : option (option MappingAttr) :=
  match attr_layout buffer with
  | None => Some None
  | Some named =>
      let iter_space := iteration_spaces op in
      let layout_mapping := named_mapping named in
      let fill (acc : option (list MappingExpr)) (p : nat * StringAttr) :=
        exprs ← acc;
        pos ← index_of p.2 (loop_names iter_space);
        Some (<[p.1 := MappingDimExpr pos]> exprs) in
      exprs ← foldl fill
                (Some (replicate (UseDomainSize layout_mapping) MappingNoneExpr))
                (imap pair (names named));
      let loops_to_indexed_loops :=
        mkMapping (size (mapping iter_space)) exprs in
      Some (Some (Compose loops_to_indexed_loops layout_mapping))
  end.

(** The loop of [UnifyBufferShape] that computes the unification
    constraints of the old and new layouts. *)
Fixpoint unification_constraints (pairs : list (MappingExpr * MappingExpr))
  (constraints : list MappingExpr) : option (list MappingExpr) :=
  match pairs with
  | [] => Some constraints
  | (old_expr, new_expr) :: rest =>
      match UnificationConstraints new_expr old_expr constraints with
      | Some constraints' => unification_constraints rest constraints'
      | None => None
      end
  end.

(** The loop of [UnifyBufferShape] that resolves the constraints of the
    indexed dimensions. *)
Fixpoint resolve_constraints (buffer_name : StringAttr) (op : Operation)
  (op_iter_space : IterationSpace) (op_loop_nest : LoopNest) (buffer : Buffer)
  (dimensions : list nat)
  (state : list MappingExpr * list ValueAccess)
  : Outcome (list MappingExpr * list ValueAccess) :=
  match dimensions with
  | [] => Succeeded state
  | dimension :: rest =>
      let '(constraints, new_domain) := state in
      let shift := length (domain op_loop_nest) in
      (* Pick dimension from op_loop_nest domain or op domain. *)
      let dim_access :=
        if decide (dimension < shift) then domain op_loop_nest !! dimension
        else
          value ← op_domain op !! (dimension - shift);
          dependency_mapping ← op_shape op !! (dimension - shift);
          Some (mkValueAccess value
                  (Compose (Inverse (mapping op_iter_space))
                     (ResizeUseDomain dependency_mapping
                        (length (op_domain op))))) in
      match dim_access, constraints !! dimension with
      | Some dim_access, Some constraint =>
          (* Make sure that the dimension only depends on loop that are in
             the buffer loop nest. *)
          let dim_access :=
            mkValueAccess (access_value dim_access)
              (ResizeUseDomain (access_mapping dim_access)
                 (length (loop_nest_ buffer))) in
          match ResolveUnificationConstraint (op_loc op)
                  [Text "buffer "; Name (Some buffer_name)]
                  dim_access constraint new_domain with
          | inl diag => Failed diag state
          | inr (constraint', new_domain') =>
              resolve_constraints buffer_name op op_iter_space op_loop_nest
                buffer rest
                (<[dimension := constraint']> constraints, new_domain')
          end
      | _, _ => Aborted
      end
  end.

(** [UnifyBufferShape].  The buffer is modified by the last two statements
    only: a failure leaves it as it was. *)
Definition UnifyBufferShape (buffer_name : StringAttr) (op : Operation)
  (layout : MappingAttr) (op_iter_space : IterationSpace) (buffer : Buffer)
  : Outcome Buffer :=
  let op_loop_nest := GetLoopNest (loop_names op_iter_space) in
  let buffer_loop_nest := GetLoopNest (loop_nest_ buffer) in
  (* Creates a mapping that maps iter_space dimensions to op_loop_nest
     domain if possible and op domain otherwise. *)
  let shift := length (domain op_loop_nest) in
  let concat_domain_size := shift + length (op_domain op) in
  let op_dimensions :=
    drop (size (domain_to_loops op_loop_nest))
      (Dimensions (ShiftRight (mapping op_iter_space) shift)) in
  let concat_exprs := Dimensions (domain_to_loops op_loop_nest) ++ op_dimensions in
  let concat_domains := mkMapping concat_domain_size concat_exprs in
  let concat_domains_to_layout := Canonicalize (Compose concat_domains layout) in
  (* Compute unification constraints. Dimensions used by the buffer loop
     nest must be exactly the same for both uses. *)
  let constraints :=
    (fun i => if decide (i < length (domain buffer_loop_nest))
              then MappingDimExpr i else MappingNoneExpr)
      <$> seq 0 concat_domain_size in
  let constraints :=
    match layout_ buffer with
    | Some old_layout =>
        unification_constraints
          (zip (Dimensions old_layout) (Dimensions concat_domains_to_layout))
          constraints
    | None => Some constraints
    end in
  match constraints with
  | None =>
      Failed (mkDiagnostic (op_loc op)
                [Text "buffer "; Name (Some buffer_name);
                 Text " layout is incompatible with previous occurences"]
                None) buffer
  | Some constraints =>
      (* Resolve constraints. *)
      let indexed_dims := DependencyMask concat_domains_to_layout in
      match resolve_constraints buffer_name op op_iter_space op_loop_nest
              buffer (set_bits indexed_dims) (constraints, domain_ buffer) with
      | Aborted => Aborted
      | Failed diag _ => Failed diag buffer
      | Succeeded (constraints, new_domain) =>
          let buffer' :=
            AppendToDomain buffer (drop (length (domain_ buffer)) new_domain) in
          (* Unify dimensions. *)
          let renaming := mkMapping (length (domain_ buffer')) constraints in
          of_assert (UnifyLayout buffer' (Compose renaming concat_domains_to_layout))
      end
  end.

(** [TrimBufferLoopNestForAccess]: trims the loop nest of [buffer] so that
    it can be accessed from the given iteration space, with the given
    layout.  Layout is ignored if null. *)
Definition TrimBufferLoopNestForAccess (iter_space : IterationSpace)
  (layout : option MappingAttr) (buffer : Buffer) : option Buffer :=
  let max_loop_nest := NumCommonLoops iter_space (loop_nest_ buffer) in
  let max_loop_nest :=
    match layout with
    | Some layout =>
        let indexed_loops := DependencyMask layout in
        match find_first indexed_loops with
        | Some first_indexed_loop =>
            if decide (first_indexed_loop < max_loop_nest)
            then first_indexed_loop else max_loop_nest
        | None => max_loop_nest
        end
    | None => max_loop_nest
    end in
  let new_loop_nest :=
    GetLoopNest (take max_loop_nest (loop_names iter_space)) in
  SetLoopNest buffer new_loop_nest.

Definition element_type_conflict (op : Operation) (name : StringAttr)
  (buffer : Buffer) : Diagnostic :=
  mkDiagnostic (op_loc op)
    [Text "buffer "; Name (Some name);
     Text " has different element type than in previous occurence"]
    (Some (getLoc buffer, "previous occurence here")).

Definition rank_conflict (op : Operation) (name : StringAttr)
  (buffer : Buffer) : Diagnostic :=
  mkDiagnostic (op_loc op)
    [Text "buffer "; Name (Some name);
     Text " rank differs from previous occurence"]
    (Some (getLoc buffer, "previous occurence here")).

(** [DeclareBuffer]: declares buffer [attr] in [buffer_map].  If the
    buffer is already present, ensures that rank and element type are
    coherent and trims the buffer loop nest to the common prefix with [op]
    loop nest. *)
Definition DeclareBuffer (op : Operation) (result : nat)
  (attr : option BufferAttr) (buffer_map : gmap StringAttr Buffer)
  : Outcome (gmap StringAttr Buffer) :=
  match attr with
  | None => Succeeded buffer_map
  | Some attr =>
      match attr_name attr with
      | None => Succeeded buffer_map
      | Some name =>
          match op_results op !! result with
          | None => Aborted
          | Some element_type =>
              let iter_space := iteration_spaces op in
              let loop_nest := GetLoopNest (loop_names iter_space) in
              let buffer_map :=
                try_emplace name
                  (Buffer_new (op_loc op) element_type
                     (loop_names iter_space) loop_nest) buffer_map in
              match buffer_map !! name with
              | None => Aborted
              | Some buffer =>
                  (* Check that element types match. *)
                  if decide (element_type_ buffer ≠ element_type)
                  then Failed (element_type_conflict op name buffer) buffer_map
                  else
                    (* Ensure that the number of dimension is coherent. *)
                    match GetBufferLayout op attr with
                    | None => Aborted
                    | Some layout =>
                        if decide (is_Some (rank buffer) ∧ is_Some layout
                                   ∧ rank buffer ≠ size <$> layout)
                        then Failed (rank_conflict op name buffer) buffer_map
                        else
                          match TrimBufferLoopNestForAccess iter_space layout
                                  buffer with
                          | None => Aborted
                          | Some buffer =>
                              (* Unify layouts. *)
                              match layout with
                              | None =>
                                  Succeeded (<[name := buffer]> buffer_map)
                              | Some layout =>
                                  match UnifyBufferShape name op layout
                                          iter_space buffer with
                                  | Succeeded buffer =>
                                      Succeeded (<[name := buffer]> buffer_map)
                                  | Failed diag buffer =>
                                      Failed diag (<[name := buffer]> buffer_map)
                                  | Aborted => Aborted
                                  end
                              end
                          end
                    end
              end
          end
      end
  end.

(** The first walk of [DeclareBuffers]: declares the external buffer
    imported by a [FromToMemRefOp]. *)
Definition DeclareExternalBuffer (op : Operation) (info : MemRefInfo)
  (buffers : gmap StringAttr Buffer) : Outcome (gmap StringAttr Buffer) :=
  let name := info_buffer_name info in
  let iter_space := iteration_spaces op in
  let loop_nest := GetLoopNest (loop_names iter_space) in
  match buffers !! name with
  | Some _ =>
      Failed (mkDiagnostic (op_loc op) [Text "buffer name is already used"]
                None) buffers
  | None =>
      let buffer := Buffer_import op info (loop_names iter_space) loop_nest in
      let buffers := <[name := buffer]> buffers in
      let rank := memref_domain_size info in
      let domain_to_layout :=
        ShiftRight (GetIdentity rank) (parallel_domain_size info) in
      let layout := Compose (Inverse (mapping iter_space)) domain_to_layout in
      match UnifyBufferShape name op layout iter_space buffer with
      | Succeeded buffer => Succeeded (<[name := buffer]> buffers)
      | Failed diag buffer => Failed diag (<[name := buffer]> buffers)
      | Aborted => Aborted
      end
  end.

(** The second walk of [DeclareBuffers]: the results of one compute
    operation. *)
Definition DeclareInternalBuffers (op : Operation)
  (buffers : gmap StringAttr Buffer) : Outcome (gmap StringAttr Buffer) :=
  for_each (fun i buffers => DeclareBuffer op i (Storage op i) buffers)
    (seq 0 (length (op_results op))) buffers.

Definition layout_not_fully_specified (name : StringAttr) (buffer : Buffer)
  : Diagnostic :=
  mkDiagnostic (getLoc buffer)
    [Text "buffer "; Name (Some name); Text " layout is not fully specified"]
    None.

(** The last loop of [DeclareBuffers]: ensures all buffers layout is fully
    specified.  The loop reads the table and leaves it as it is. *)
Fixpoint check_fully_specified (entries : list (StringAttr * Buffer))
  : option Diagnostic :=
  match entries with
  | [] => None
  | (name, buffer) :: rest =>
      match layout_ buffer with
      | None => check_fully_specified rest
      | Some l =>
          if HasNoneExprs l then Some (layout_not_fully_specified name buffer)
          else check_fully_specified rest
      end
  end.

(** The two walks of [DeclareBuffers] over the operations of the program,
    in program order. *)
Definition declare_all (program : list Operation)
  (buffers : gmap StringAttr Buffer) : Outcome (gmap StringAttr Buffer) :=
  do buffers <-
    for_each (fun op buffers =>
                match as_FromToMemRefOp op with
                | Some info => DeclareExternalBuffer op info buffers
                | None => Succeeded buffers
                end) program buffers;
  for_each (fun op buffers =>
              if is_ComputeOp (op_kind op)
              then DeclareInternalBuffers op buffers
              else Succeeded buffers) program buffers.

(** [DeclareBuffers]. *)
Definition DeclareBuffers (program : list Operation)
  (buffers : gmap StringAttr Buffer) : Outcome (gmap StringAttr Buffer) :=
  do buffers <- declare_all program buffers;
  match check_fully_specified (map_to_list buffers) with
  | Some diag => Failed diag buffers
  | None => Succeeded buffers
  end.

(** *** Value storages *)

(** Continues with [k] on the state of a success, and reports a failure
    with the state [s] of the caller. *)
Definition and_then {S T : Type} (o : Outcome S) (s : T) (k : S -> Outcome T)
  : Outcome T :=
  match o with
  | Succeeded x => k x
  | Failed d _ => Failed d s
  | Aborted => Aborted
  end.

(** The first statement of [UpdateStorage]: registers [value] as a use of
    the buffer and trims the buffer loop nest to ensure it can be used from
    value def and uses iteration spaces. *)
Definition register_buffer_use (value : Value) (buffer : Buffer)
  : option Buffer :=
  let buffer := AddValue buffer value (getDefiningOp value) (getUses value) in
  let defining_op := getDefiningOp value in
  foldl (fun acc iter_space =>
           buffer ← acc; TrimBufferLoopNestForAccess iter_space None buffer)
    (Some buffer)
    (iteration_spaces defining_op
       :: ((fun use => iteration_spaces (use_owner use)) <$> getUses value)).

Definition conflicting_spaces (value : Value) (new_storage storage : ValueStorage)
  : Diagnostic :=
  mkDiagnostic (op_loc (getDefiningOp value))
    [Text "conflicting memory spaces: expected "; Name (space new_storage);
     Text ", got "; Name (space storage)] None.

Definition conflicting_names (value : Value) (new_storage storage : ValueStorage)
  : Diagnostic :=
  mkDiagnostic (op_loc (getDefiningOp value))
    [Text "conflicting buffer names: expected "; Name (buffer_name new_storage);
     Text ", got "; Name (buffer_name storage)] None.

Definition conflicting_layouts (value : Value) (new_storage storage : ValueStorage)
  : Diagnostic :=
  mkDiagnostic (op_loc (getDefiningOp value))
    [Text "conflicting layouts: expected "; Layout (storage_layout new_storage);
     Text ", got "; Layout (storage_layout storage)] None.

(** The three merges of [UpdateStorage], on the storage of the value. *)
Definition merge_storage (value : Value) (new_storage storage : ValueStorage)
  : Outcome ValueStorage :=
  match MergeSpace storage (space new_storage) with
  | (failure, storage) =>
      Failed (conflicting_spaces value new_storage storage) storage
  | (success, storage) =>
      match MergeBufferName storage (buffer_name new_storage) with
      | (failure, storage) =>
          Failed (conflicting_names value new_storage storage) storage
      | (success, storage) =>
          match MergeLayout storage (storage_layout new_storage) with
          | (failure, storage) =>
              Failed (conflicting_layouts value new_storage storage) storage
          | (success, storage) => Succeeded storage
          end
      end
  end.

(** [UpdateStorage]: updates the storage information for [value] and
    updates buffers to register new buffer uses.  The state is the storage
    of the value and the table of buffers, both passed by reference. *)
Definition UpdateStorage (value : Value) (new_storage : ValueStorage)
  (state : ValueStorage * gmap StringAttr Buffer)
  : Outcome (ValueStorage * gmap StringAttr Buffer) :=
  let '(storage, buffers) := state in
  do state <-
    match buffer_name storage, buffer_name new_storage with
    | None, Some name =>
        match buffers !! name with
        | None => Aborted
        | Some buffer =>
            match register_buffer_use value buffer with
            | Some buffer => Succeeded (storage, <[name := buffer]> buffers)
            | None => Aborted
            end
        end
    | _, _ => Succeeded state
    end;
  let '(storage, buffers) := state in
  match merge_storage value new_storage storage with
  | Succeeded storage => Succeeded (storage, buffers)
  | Failed diag storage => Failed diag (storage, buffers)
  | Aborted => Aborted
  end.

(** The first statement of [StorageAnalysis::MergeStorage]: makes sure that
    the layout has the correct rank and initializes the buffer layout if
    needed.  [None] when an [assert] fails. *)
Definition MergeStorage_buffer (new_storage : ValueStorage)
  (buffers : gmap StringAttr Buffer) : option (gmap StringAttr Buffer) :=
  match buffer_name new_storage, storage_layout new_storage with
  | Some name, Some new_layout =>
      buffer ← buffers !! name;
      match rank buffer with
      | Some r =>
          if decide (r = size new_layout) then Some buffers else None
      | None =>
          if empty new_layout then
            buffer ← UnifyLayout buffer (mkMapping (length (domain_ buffer)) []);
            Some (<[name := buffer]> buffers)
          else None
      end
  | _, _ => Some buffers
  end.

(** The part of [StorageAnalysis::AddDimensionsToBuffer] that extends the
    buffer. *)
Definition AddDimensionsToBuffer_buffer (buffer_name : StringAttr)
  (op : Operation) (op_iter_space : IterationSpace) (new_layout : MappingAttr)
  (buffer : Buffer) : Outcome Buffer :=
  match layout_ buffer with
  | None => Aborted
  | Some old_layout =>
      if decide (size old_layout ≤ size new_layout ∧ is_external buffer = false)
      then
        (* Extend buffer domain. *)
        match TrimBufferLoopNestForAccess op_iter_space (Some new_layout)
                buffer with
        | None => Aborted
        | Some buffer =>
            match rank buffer with
            | None => Aborted
            | Some old_size =>
                match AddNonePrefixToLayout buffer (size new_layout - old_size) with
                | None => Aborted
                | Some buffer =>
                    (* [AssertSuccess]. *)
                    match UnifyBufferShape buffer_name op new_layout
                            op_iter_space buffer with
                    | Succeeded buffer => Succeeded buffer
                    | _ => Aborted
                    end
                end
            end
        end
      else Aborted
  end.

(** *** Propagation of the storages *)

(** The lambda [update_storage] of [SetStorage]: merges storage
    information for a value with existing information.  The state is the
    analysis and the work list, whose head is the value pushed last. *)
Definition update_storage (value : Value) (new_storage : ValueStorage)
  (state : StorageAnalysis * list Value)
  : Outcome (StorageAnalysis * list Value) :=
  let '(analysis, work_list) := state in
  let '(storage, value_storages) :=
    storage_entry (value_storages_ analysis) value in
  if decide (new_storage = storage) then
    Succeeded (mkStorageAnalysis (buffers_ analysis) value_storages
                 (next_buffer_id_ analysis), work_list)
  else
    let work_list := value :: work_list in
    match UpdateStorage value new_storage (storage, buffers_ analysis) with
    | Succeeded (storage, buffers) =>
        Succeeded (mkStorageAnalysis buffers (<[value := storage]> value_storages)
                     (next_buffer_id_ analysis), work_list)
    | Failed diag (storage, buffers) =>
        Failed diag
          (mkStorageAnalysis buffers (<[value := storage]> value_storages)
             (next_buffer_id_ analysis), work_list)
    | Aborted => Aborted
    end.

(** [SairMapReduceOp::Inits]: the initialisation operands of a map-reduce
    operation, which come first among its operands. *)
Definition Inits (op : Operation) : list ValueOperand :=
  match op_kind op with
  | SairMapReduceOp num_inits => take num_inits (op_operands op)
  | _ => []
  end.

(** The result of the user that receives the storage of the operand in the
    forward propagation, if any. *)
Definition forwarded_result (use : OpOperand) : option nat :=
  match op_kind (use_owner use) with
  | SairProjAnyOp | SairProjLastOp | SairFbyOp => Some 0
  | SairMapReduceOp num_inits =>
      if decide (num_inits <= use_position use) then None
      else Some (use_position use)
  | _ => None
  end.

(** [ValueStorage::Map(from, to, mapping, iteration_spaces)]; [None] when
    the [assert] on the translated mapping fails. *)
Definition Map (st : ValueStorage) (from to : Operation)
  (operand_mapping : MappingAttr) : option ValueStorage :=
  match storage_layout st with
  | None => Some (mkValueStorage (space st) (buffer_name st) None)
  | Some layout_ =>
      (* We need to resize mapping to match operations domain size as
         values may have a smaller rank than the operations that creates
         them. *)
      let domain_mapping :=
        ResizeUseDomain (Resize operand_mapping (length (op_domain from)))
          (length (op_domain to)) in
      iter_space_mapping ← TranslateMapping to from domain_mapping;
      Some (mkValueStorage (space st) (buffer_name st)
              (Some (Canonicalize (Compose iter_space_mapping layout_))))
  end.

(** [ValueStorage::Map(operand, iteration_spaces)], for an operand of the
    operation [owner]. *)
Definition Map_operand (st : ValueStorage) (owner : Operation)
  (operand : ValueOperand) : option ValueStorage :=
  Map st (getDefiningOp (operand_value operand)) owner
    (operand_mapping operand).

(** Forward propagation of the storage of [value] to one of its uses. *)
Definition propagate_forward (value : Value) (storage : ValueStorage)
  (use : OpOperand) (state : StorageAnalysis * list Value)
  : Outcome (StorageAnalysis * list Value) :=
  match forwarded_result use with
  | None => Succeeded state
  | Some result =>
      match Map storage (getDefiningOp value) (use_owner use)
              (use_mapping use) with
      | None => Aborted
      | Some new_storage =>
          update_storage (mkValue (op_order (use_owner use)) result)
            new_storage state
      end
  end.

(** Backward propagation of the storage of a result of [defining_op] to
    one operand of [defining_op]. *)
Definition propagate_backward (storage : ValueStorage)
  (defining_op : Operation) (operand : ValueOperand)
  (state : StorageAnalysis * list Value)
  : Outcome (StorageAnalysis * list Value) :=
  match Map storage defining_op (getDefiningOp (operand_value operand))
          (Inverse (operand_mapping operand)) with
  | None => Aborted
  | Some new_storage => update_storage (operand_value operand) new_storage state
  end.

(** The body of the loop of [SetStorage] that propagates storage
    information, for the value popped from the work list. *)
Definition propagate (value : Value) (state : StorageAnalysis * list Value)
  : Outcome (StorageAnalysis * list Value) :=
  let '(analysis, work_list) := state in
  let '(storage, value_storages) :=
    storage_entry (value_storages_ analysis) value in
  let state :=
    (mkStorageAnalysis (buffers_ analysis) value_storages
       (next_buffer_id_ analysis), work_list) in
  (* Forward propagation. *)
  do state <- for_each (propagate_forward value storage) (getUses value) state;
  (* Backward propagation. *)
  let defining_op := getDefiningOp value in
  match op_kind defining_op with
  | SairMapReduceOp _ =>
      (* Handle map-reduce separately. *)
      match Inits defining_op !! value_result value with
      | None => Aborted
      | Some operand => propagate_backward storage defining_op operand state
      end
  | SairProjAnyOp | SairProjLastOp | SairFbyOp =>
      for_each (propagate_backward storage defining_op)
        (op_operands defining_op) state
  | _ => Succeeded state
  end.

(** The loop [while (!work_list.empty())] of [SetStorage]; [None] when the
    work list is not empty after [fuel] iterations. *)
Fixpoint drain_work_list (fuel : nat) (state : StorageAnalysis * list Value)
  : option (Outcome StorageAnalysis) :=
  match state.2 with
  | [] => Some (Succeeded state.1)
  | value :: work_list =>
      match fuel with
      | 0 => None
      | S fuel =>
          match propagate value (state.1, work_list) with
          | Succeeded state => drain_work_list fuel state
          | Failed diag state => Some (Failed diag state.1)
          | Aborted => Some Aborted
          end
      end
  end.

(** [StorageAnalysis::SetStorage]: sets the storage of a value and
    propagates the information to other values. *)
Definition SetStorage (fuel : nat) (value : Value) (storage : ValueStorage)
  (analysis : StorageAnalysis) : option (Outcome StorageAnalysis) :=
  match update_storage value storage (analysis, []) with
  | Succeeded state => drain_work_list fuel state
  | Failed diag state => Some (Failed diag state.1)
  | Aborted => Some Aborted
  end.

(** Sequencing of calls whose loops are bounded by fuel: the rest runs
    when the call returns with success. *)
Definition and_then_fuel {S : Type} (o : option (Outcome S))
  (k : S -> option (Outcome S)) : option (Outcome S) :=
  match o with
  | Some (Succeeded s) => k s
  | other => other
  end.

(** A walk whose body has loops bounded by fuel, stopped by the first call
    that does not succeed. *)
Fixpoint for_each_fuel {A S : Type} (body : A -> S -> option (Outcome S))
  (xs : list A) (s : S) : option (Outcome S) :=
  match xs with
  | [] => Some (Succeeded s)
  | x :: rest => and_then_fuel (body x s) (for_each_fuel body rest)
  end.

(** [StorageAnalysis::MergeStorage]; [Aborted] when an [assert] or
    [AssertSuccess] fails. *)
Definition MergeStorage (fuel : nat) (value : Value)
  (new_storage : ValueStorage) (analysis : StorageAnalysis)
  : option (Outcome StorageAnalysis) :=
  match MergeStorage_buffer new_storage (buffers_ analysis) with
  | None => Some Aborted
  | Some buffers =>
      match SetStorage fuel value new_storage (with_buffers analysis buffers) with
      | Some (Succeeded analysis) => Some (Succeeded analysis)
      | Some _ => Some Aborted
      | None => None
      end
  end.

(** [StorageAnalysis::AddDimensionsToBuffer]. *)
Definition AddDimensionsToBuffer (buffer_name : StringAttr) (op : Operation)
  (op_iter_space : IterationSpace) (new_layout : MappingAttr)
  (analysis : StorageAnalysis) : Outcome StorageAnalysis :=
  match buffers_ analysis !! buffer_name with
  | None => Aborted
  | Some buffer =>
      match TrimBufferLoopNestForAccess op_iter_space (Some new_layout)
              buffer ≫= rank,
            AddDimensionsToBuffer_buffer buffer_name op op_iter_space
              new_layout buffer with
      | Some old_size, Succeeded buffer' =>
          (* Add a dimension to values layout. *)
          match
            foldl (fun acc value =>
                     value_storages ← acc;
                     storage ← value_storages !! value;
                     storage ← AddUnknownPrefixToLayout storage
                                 (size new_layout - old_size);
                     Some (<[value := storage]> value_storages))
              (Some (value_storages_ analysis)) (values_ buffer')
          with
          | Some value_storages =>
              Succeeded (mkStorageAnalysis
                           (<[buffer_name := buffer']> (buffers_ analysis))
                           value_storages (next_buffer_id_ analysis))
          | None => Aborted
          end
      | _, _ => Aborted
      end
  end.

(** [StorageAnalysis::CreateBuffer]: creates a new memory buffer, assigns
    it to the value storage and propagates the information. *)
Definition CreateBuffer (fuel : nat) (value : Value)
  (loop_names : list StringAttr) (analysis : StorageAnalysis)
  : option (Outcome StorageAnalysis) :=
  match GetFreshBufferName analysis with
  | None => None
  | Some (buffer_name, analysis) =>
      let defining_op := getDefiningOp value in
      match op_results defining_op !! value_result value,
            value_storages_ analysis !! value with
      | Some element_type, Some storage =>
          let loop_nest := GetLoopNest loop_names in
          let buffers :=
            try_emplace buffer_name
              (Buffer_new (op_loc defining_op) element_type loop_names
                 loop_nest) (buffers_ analysis) in
          match MergeBufferName storage (Some buffer_name) with
          | (success, storage) =>
              match MergeSpace storage (Some "memory") with
              | (success, storage) =>
                  MergeStorage fuel value storage
                    (with_buffers analysis buffers)
              | (failure, _) => Some Aborted
              end
          | (failure, _) => Some Aborted
          end
      | _, _ => Some Aborted
      end
  end.

(** The four walks of [ComputeValueStorages] that initialize the storage
    information, for one operation of the program. *)
Definition seed_compute_op (fuel : nat) (op : Operation)
  (analysis : StorageAnalysis) : option (Outcome StorageAnalysis) :=
  if is_ComputeOp (op_kind op) then
    for_each_fuel
      (fun i analysis =>
         match Storage op i with
         | None => Some (Succeeded analysis)
         | Some buffer =>
             match GetBufferLayout op buffer with
             | None => Some Aborted
             | Some layout =>
                 SetStorage fuel (mkValue (op_order op) i)
                   (mkValueStorage (Some (attr_space buffer))
                      (attr_name buffer) layout) analysis
             end
         end)
      (seq 0 (length (op_results op))) analysis
  else Some (Succeeded analysis).

Definition seed_from_memref (fuel : nat) (op : Operation)
  (analysis : StorageAnalysis) : option (Outcome StorageAnalysis) :=
  match op_kind op with
  | SairFromMemRefOp info =>
      let iter_space := iteration_spaces op in
      let layout := Compose (Inverse (mapping iter_space)) (info_Layout info) in
      SetStorage fuel (mkValue (op_order op) 0)
        (mkValueStorage (Some "memory") (Some (info_buffer_name info))
           (Some layout)) analysis
  | _ => Some (Succeeded analysis)
  end.

Definition seed_from_scalar (fuel : nat) (op : Operation)
  (analysis : StorageAnalysis) : option (Outcome StorageAnalysis) :=
  match op_kind op with
  | SairFromScalarOp =>
      SetStorage fuel (mkValue (op_order op) 0)
        (mkValueStorage (Some "register") None (Some (mkMapping 0 [])))
        analysis
  | _ => Some (Succeeded analysis)
  end.

Definition seed_to_memref (fuel : nat) (op : Operation)
  (analysis : StorageAnalysis) : option (Outcome StorageAnalysis) :=
  match op_kind op with
  | SairToMemRefOp info value =>
      let iter_space := iteration_spaces op in
      let layout := Compose (Inverse (mapping iter_space)) (info_Layout info) in
      let operand_storage :=
        mkValueStorage (Some "memory") (Some (info_buffer_name info))
          (Some layout) in
      let defining_op := getDefiningOp (operand_value value) in
      match Map operand_storage op defining_op
              (Inverse (operand_mapping value)) with
      | None => Some Aborted
      | Some storage => SetStorage fuel (operand_value value) storage analysis
      end
  | _ => Some (Succeeded analysis)
  end.

(** The last walk of [ComputeValueStorages]: ensures all sair values have
    an entry. *)
Definition ensure_entries (program : list Operation)
  (value_storages : gmap Value ValueStorage) : gmap Value ValueStorage :=
  foldl (fun value_storages op =>
           foldl (fun value_storages i =>
                    (storage_entry value_storages (mkValue (op_order op) i)).2)
             value_storages (seq 0 (length (op_results op))))
    value_storages program.

(** [StorageAnalysis::ComputeValueStorages]. *)
Definition ComputeValueStorages (fuel : nat) (program : list Operation)
  (analysis : StorageAnalysis) : option (Outcome StorageAnalysis) :=
  (* Initialize storage information from compute operations. *)
  and_then_fuel (for_each_fuel (seed_compute_op fuel) program analysis)
    (fun analysis =>
  (* Initialize from from_memref operations. *)
  and_then_fuel (for_each_fuel (seed_from_memref fuel) program analysis)
    (fun analysis =>
  (* Initialize from from_scalar operations. *)
  and_then_fuel (for_each_fuel (seed_from_scalar fuel) program analysis)
    (fun analysis =>
  (* Initialize from to_memref operations. *)
  and_then_fuel (for_each_fuel (seed_to_memref fuel) program analysis)
    (fun analysis =>
  (* Ensure all sair values have an entry. *)
  Some (Succeeded
          (mkStorageAnalysis (buffers_ analysis)
             (ensure_entries program (value_storages_ analysis))
             (next_buffer_id_ analysis))))))).

(** *** Loop-nest legality and minimization *)

(** The first compute op writting to the buffer. *)
Definition first_write_of (writes : list (Operation * nat)) : option Operation :=
  match writes with
  | [] => None
  | (front, _) :: _ =>
      Some (foldl (fun first_write p =>
                     if isBeforeInBlock p.1 first_write then p.1
                     else first_write) front writes)
  end.

(** The loop [for (; new_min > 0; --new_min)] of
    [CheckMallocInsertionPoint]. *)
Fixpoint last_common_loop (operand_loops write_loops : list StringAttr)
  (new_min : nat) : nat :=
  match new_min with
  | 0 => 0
  | S k =>
      if decide (operand_loops !! k = write_loops !! k) then new_min
      else last_common_loop operand_loops write_loops k
  end.

Definition used_before_dimension (first_write dimension_op : Operation)
  (buffer_name : StringAttr) : Diagnostic :=
  mkDiagnostic (op_loc first_write)
    [Text "buffer "; Name (Some buffer_name);
     Text " is used before one of its dimensions is defined"]
    (Some (op_loc dimension_op, "dimension defined here")).

Definition dimension_defined_after (first_write dimension_op : Operation)
  (buffer_name : StringAttr) : Diagnostic :=
  mkDiagnostic (op_loc first_write)
    [Text "buffer "; Name (Some buffer_name);
     Text " depends on a dimension that is defined after the buffer is allocated"]
    (Some (op_loc dimension_op, "dimension defined here")).

(** [CheckMallocInsertionPoint]: the state is [min_num_loops]. *)
Definition CheckMallocInsertionPoint (buffer_name : StringAttr)
  (buffer : Buffer) (used_dimensions : SmallBitVector) (min_num_loops : nat)
  : Outcome nat :=
  match first_write_of (writes_ buffer) with
  | None => Aborted
  | Some first_write =>
      let write_loops := loop_names (iteration_spaces first_write) in
      for_each
        (fun dim min_num_loops =>
           match domain_ buffer !! dim with
           | None => Aborted
           | Some access =>
               let dimension_op := getDefiningOp (access_value access) in
               if isBeforeInBlock first_write dimension_op then
                 Failed (used_before_dimension first_write dimension_op
                           buffer_name) min_num_loops
               else
                 for_each
                   (fun operand min_num_loops =>
                      let defining_op := getDefiningOp (operand_value operand) in
                      let operand_loops :=
                        loop_names (iteration_spaces defining_op) in
                      let new_min :=
                        last_common_loop operand_loops write_loops
                          (length write_loops `min` length operand_loops) in
                      if decide (length (loop_nest_ buffer) < new_min) then
                        Failed (dimension_defined_after first_write
                                  dimension_op buffer_name) min_num_loops
                      else Succeeded (min_num_loops `max` new_min))
                   (op_operands dimension_op) min_num_loops
           end)
        (set_bits used_dimensions) min_num_loops
  end.

(** [BufferInstanceLayout]; [None] when the buffer has no layout. *)
Definition BufferInstanceLayout (buffer : Buffer) : option MappingAttr :=
  l ← layout_ buffer;
  let loop_nest := GetLoopNest (loop_nest_ buffer) in
  Some (AddPrefix l (Dimensions (domain_to_loops loop_nest))).

Definition cannot_be_nested (name : StringAttr) (buffer : Buffer) : Diagnostic :=
  mkDiagnostic (getLoc buffer)
    [Text "buffer "; Name (Some name);
     Text " layout depends on loops it cannot be nested in"] None.

(** The body of the loop of
    [StorageAnalysis::VerifyAndMinimizeBufferLoopNests], for one buffer. *)
Definition VerifyAndMinimizeBufferLoopNest (name : StringAttr) (buffer : Buffer)
  : Outcome Buffer :=
  match layout_ buffer with
  | None => Succeeded buffer
  | Some l =>
      let min_num_loops := 0 in
      (* Update [min_num_loops] based on domain dimensions layout depends
         on. *)
      let used_dimensions := DependencyMask l in
      and_then
        (for_each
           (fun dim min_num_loops =>
              match domain_ buffer !! dim with
              | None => Aborted
              | Some access =>
                  let dim_mapping := access_mapping access in
                  if HasNoneExprs dim_mapping then
                    Failed (cannot_be_nested name buffer) min_num_loops
                  else
                    let new_min := MinDomainSize dim_mapping in
                    Succeeded (new_min `max` min_num_loops)
              end)
           (set_bits used_dimensions) min_num_loops)
        buffer
        (fun min_num_loops =>
      (* Update [min_num_loop] to account for dependencies accross layout
         and loop-nest dimensions. *)
      match BufferInstanceLayout buffer with
      | None => Aborted
      | Some instance_layout =>
      let inverse := Inverse instance_layout in
      and_then
        (for_each
           (fun layout_expr min_num_loops =>
              let new_min :=
                AccessedShapeMinDomainSize layout_expr
                  (length (domain_ buffer)) inverse in
              if decide (length (loop_nest_ buffer) < new_min) then
                Failed (cannot_be_nested name buffer) min_num_loops
              else Succeeded (new_min `max` min_num_loops))
           (Dimensions l) min_num_loops)
        buffer
        (fun min_num_loops =>
      (* We cannot minimize external buffers loop nests. *)
      if is_external buffer then Succeeded buffer
      else
        and_then
          (CheckMallocInsertionPoint name buffer used_dimensions min_num_loops)
          buffer
          (fun min_num_loops =>
             (* Minimize layout loop-nest. *)
             let new_loop_nest :=
               GetLoopNest (take min_num_loops (loop_nest_ buffer)) in
             of_assert (SetLoopNest buffer new_loop_nest)))
      end)
  end.

(** [StorageAnalysis::VerifyAndMinimizeBufferLoopNests]: the loop visits
    every name of the table, and [buffer] is a reference to the entry of
    the name. *)
Definition VerifyAndMinimizeBufferLoopNests (buffers : gmap StringAttr Buffer)
  : Outcome (gmap StringAttr Buffer) :=
  for_each
    (fun name buffers =>
       match buffers !! name with
       | None => Aborted
       | Some buffer =>
           and_then (VerifyAndMinimizeBufferLoopNest name buffer) buffers
             (fun buffer => Succeeded (<[name := buffer]> buffers))
       end)
    (map_to_list buffers).*1 buffers.

(** *** Writes to external buffers *)

Definition used_before_defined (write defining_op : Operation)
  (name : StringAttr) : Diagnostic :=
  mkDiagnostic (op_loc write)
    [Text "buffer "; Name (Some name); Text " used before it is defined"]
    (Some (op_loc defining_op, "buffer defined here")).

(** The body of the last loop of [StorageAnalysis::Init], for one buffer:
    ensures that writes to an external buffer occur after the buffer is
    defined.  The loop reads the buffer and leaves it as it is. *)
Definition check_external_writes (name : StringAttr) (buffer : Buffer)
  : Outcome unit :=
  match import_op_ buffer with
  | None => Succeeded ()
  | Some import_op =>
      match as_FromToMemRefOp import_op with
      | None => Aborted
      | Some info =>
          let defining_op := getDefiningOp (info_MemRef info) in
          (* We only need to check writes as reads always occure after
             writes. *)
          for_each
            (fun write _ =>
               if isBeforeInBlock write.1 defining_op then
                 Failed (used_before_defined write.1 defining_op name) ()
               else Succeeded ())
            (writes_ buffer) ()
      end
  end.

(** The last loop of [StorageAnalysis::Init]. *)
Definition Init_check_external_writes (buffers : gmap StringAttr Buffer)
  : Outcome unit :=
  for_each (fun entry _ => check_external_writes entry.1 entry.2)
    (map_to_list buffers) ().

(** [StorageAnalysis::Init], with the analyses of the loop fusion and of
    the iteration spaces as the collaborators of the section. *)
Definition Init (fuel : nat) (program : list Operation)
  (analysis : StorageAnalysis) : option (Outcome StorageAnalysis) :=
  match DeclareBuffers program (buffers_ analysis) with
  | Aborted => Some Aborted
  | Failed diag buffers => Some (Failed diag (with_buffers analysis buffers))
  | Succeeded buffers =>
      and_then_fuel
        (ComputeValueStorages fuel program (with_buffers analysis buffers))
        (fun analysis =>
           match VerifyAndMinimizeBufferLoopNests (buffers_ analysis) with
           | Aborted => Some Aborted
           | Failed diag buffers =>
               Some (Failed diag (with_buffers analysis buffers))
           | Succeeded buffers =>
               let analysis := with_buffers analysis buffers in
               (* Ensure that writes to external buffers occure after the
                  buffer is defined. *)
               match Init_check_external_writes buffers with
               | Succeeded _ => Some (Succeeded analysis)
               | Failed diag _ => Some (Failed diag analysis)
               | Aborted => Some Aborted
               end
           end)
  end.

(** *** Verification of the storages *)

(** [StorageAnalysis::GetStorage]. *)
Definition GetStorage (value_storages : gmap Value ValueStorage)
  (value : Value) : option ValueStorage :=
  value_storages !! value.

(** [IterationSpace::NumCommonLoops(const IterationSpace &)]. *)
Definition NumCommonLoops_space (iter_space other : IterationSpace) : nat :=
  NumCommonLoops iter_space (loop_names other).

(** [CommunicationVolume]. *)
Definition CommunicationVolume (value_rank : nat)
  (def_iter_space use_iter_space : IterationSpace) : MappingAttr :=
  let num_common_loops := NumCommonLoops_space def_iter_space use_iter_space in
  (* Mapping from the domain of the operand to common loops. *)
  let domain_to_common_loops :=
    Resize (ResizeUseDomain (mapping def_iter_space) value_rank)
      num_common_loops in
  DropFront (Inverse (MakeSurjective (Inverse domain_to_common_loops)))
    num_common_loops.

Definition incomplete_storage (loc : Location) (operand : ValueAccess)
  : Diagnostic :=
  mkDiagnostic loc
    [Text "operand storage must cover all operand dimensions that are not covered by loops common to both operand and user"]
    (Some (op_loc (getDefiningOp (access_value operand)), "operand defined here")).

(** The mapping [layout_to_communication_volume] of
    [VerifyCommunicationVolume]. *)
Definition layout_to_communication_volume (use_iter_space : IterationSpace)
  (operand : ValueAccess) (storage_layout : MappingAttr) : MappingAttr :=
  let def_iter_space :=
    iteration_spaces (getDefiningOp (access_value operand)) in
  let communication_volume :=
    CommunicationVolume (size (access_mapping operand)) def_iter_space
      use_iter_space in
  let layout_to_operand :=
    Inverse (Compose (mapping def_iter_space) storage_layout) in
  Canonicalize (Compose layout_to_operand communication_volume).

(** [VerifyCommunicationVolume] for one operand: ensures that
    communication between the producer and the user of operand only occurs
    within the same loop iteration or along dimensions that are
    materialized in memory. *)
Definition VerifyCommunicationVolume (loc : Location)
  (use_iter_space : IterationSpace) (operand : ValueAccess)
  (value_storages : gmap Value ValueStorage) : Outcome unit :=
  let def_iter_space :=
    iteration_spaces (getDefiningOp (access_value operand)) in
  (* Only check if loop nest are specified. *)
  if negb (fully_specified use_iter_space)
     || negb (fully_specified def_iter_space)
  then Succeeded ()
  else
    match GetStorage value_storages (access_value operand) with
    | None => Aborted
    | Some storage =>
        (* Success if storage is not yet specified. *)
        match storage_layout storage with
        | None => Succeeded ()
        | Some l =>
            (* Check that the layout covers the sub-domain of the operand
               that is not covered by common dimensions. *)
            if HasNoneExprs (layout_to_communication_volume use_iter_space
                               operand l)
            then Failed (incomplete_storage loc operand) ()
            else Succeeded ()
        end
    end.

(** [VerifyCommunicationVolume] for the program. *)
Definition VerifyCommunicationVolume_program (program : list Operation)
  (value_storages : gmap Value ValueStorage) : Outcome unit :=
  for_each
    (fun op _ =>
       let iter_space := iteration_spaces op in
       (* Check dependencies for value operands. *)
       do _ <-
         for_each
           (fun operand _ =>
              VerifyCommunicationVolume (op_loc op) iter_space
                (operand_Get operand) value_storages)
           (op_operands op) ();
       (* Check dependencies for domain dimensions. *)
       for_each
         (fun dimension _ =>
            let dim_op := getDefiningOp dimension in
            for_each
              (fun operand _ =>
                 VerifyCommunicationVolume (op_loc op) iter_space
                   (operand_Get operand) value_storages)
              (op_operands dim_op) ())
         (op_domain op) ())
    program ().

Definition in_place_conflict (op : Operation)
  (result_storage mapped_storage : ValueStorage) : Diagnostic :=
  mkDiagnostic (op_loc op)
    [Text "in-place update of buffer "; Name (buffer_name result_storage);
     Text " must use the same layout in input and output (";
     Layout (storage_layout mapped_storage); Text " vs ";
     Layout (storage_layout result_storage); Text ")"] None.

(** The check of [VerifyStorages] on one operand of a compute operation
    whose result has the storage [result_storage]. *)
Definition verify_in_place_operand (op : Operation)
  (value_storages : gmap Value ValueStorage) (result_storage : ValueStorage)
  (operand : ValueOperand) : Outcome unit :=
  match GetStorage value_storages (operand_value operand) with
  | None => Aborted
  | Some operand_storage =>
      if decide (buffer_name operand_storage ≠ buffer_name result_storage)
      then Succeeded ()
      else
        match Map_operand operand_storage op operand with
        | None => Aborted
        | Some mapped_storage =>
            if decide (storage_layout mapped_storage
                       ≠ storage_layout result_storage)
            then Failed (in_place_conflict op result_storage mapped_storage) ()
            else Succeeded ()
        end
  end.

(** The check of [VerifyStorages] on one result of a compute operation. *)
Definition verify_in_place_result (op : Operation)
  (value_storages : gmap Value ValueStorage) (result : Value) : Outcome unit :=
  match GetStorage value_storages result with
  | None => Aborted
  | Some result_storage =>
      match buffer_name result_storage with
      | None => Succeeded ()
      | Some _ =>
          for_each
            (fun operand _ =>
               verify_in_place_operand op value_storages result_storage operand)
            (op_operands op) ()
      end
  end.

(** The results of an operation, as values. *)
Definition getResults (op : Operation) : list Value :=
  mkValue (op_order op) <$> seq 0 (length (op_results op)).

(** The walk of [VerifyStorages] that ensures that operations updating a
    buffer in place use the same layout for both inputs and outputs. *)
Definition VerifyStorages_in_place (program : list Operation)
  (value_storages : gmap Value ValueStorage) : Outcome unit :=
  for_each
    (fun op _ =>
       if is_ComputeOp (op_kind op) then
         for_each (fun result _ => verify_in_place_result op value_storages result)
           (getResults op) ()
       else Succeeded ())
    program ().

(** *** Well-formedness of the storage attributes *)

(** An entry of the [storage] array attribute of a compute operation: a
    unit attribute, a buffer attribute, or an attribute of another kind. *)
Inductive Attribute : Type :=
| UnitAttr
| BufferAttribute (buffer : BufferAttr)
| OtherAttribute.

(** [SairDialect::register_attr] and [SairDialect::memory_attr]. *)
Definition register_attr : StringAttr := "register".
Definition memory_attr : StringAttr := "memory".

(** [op.emitError() << message]. *)
Definition emitError (op : Operation) (message : list DiagnosticArgument)
  : Diagnostic :=
  mkDiagnostic (op_loc op) message None.

(** The body of the loop of [VerifyStorageAttrWellFormed], for one entry of
    the storage array and the element type of the result it annotates.  The
    state is the set [buffer_names] of the names seen so far. *)
Definition verify_storage_entry (op : Operation) (loop_names : gset StringAttr)
  (entry : Attribute * ElementType) (buffer_names : gset StringAttr)
  : Outcome (gset StringAttr) :=
  match entry.1 with
  | UnitAttr => Succeeded buffer_names
  | OtherAttribute =>
      Failed (emitError op
                [Text "storage attribute must be an array of buffers or unit attributes"])
        buffer_names
  | BufferAttribute buffer =>
      if decide (attr_space buffer ≠ register_attr
                 ∧ attr_space buffer ≠ memory_attr) then
        Failed (emitError op
                  [Text "invalid memory space "; Name (Some (attr_space buffer))])
          buffer_names
      else if decide (attr_space buffer = memory_attr
                      ∧ (entry.2 = IndexType ∨ entry.2 = MemRefType)) then
        Failed (emitError op
                  [Text "index and memref variables cannot be allocated in memory"])
          buffer_names
      else if xorb (bool_decide (attr_space buffer = memory_attr))
                (bool_decide (is_Some (attr_name buffer))) then
        Failed (emitError op
                  [Text "buffers must have a name if and only if they are stored in memory"])
          buffer_names
      else
        do buffer_names <-
          match attr_name buffer with
          | Some name =>
              if decide (name ∈ buffer_names) then
                Failed (emitError op
                          [Text "operation cannot store two results in the same buffer"])
                  buffer_names
              else Succeeded ({[name]} ∪ buffer_names)
          | None => Succeeded buffer_names
          end;
        match attr_layout buffer with
        | None => Succeeded buffer_names
        | Some layout =>
            if HasUnknownExprs (named_mapping layout) then
              Failed (emitError op
                        [Text "layouts cannot contain `?` expressions"])
                buffer_names
            else if bool_decide (attr_space buffer = register_attr)
                    && negb (empty (named_mapping layout)) then
              Failed (emitError op
                        [Text "only 0D buffers can be stored in registers"])
                buffer_names
            else
              match List.find (fun loop_name =>
                                 bool_decide (loop_name ∉ loop_names))
                      (names layout) with
              | Some loop_name =>
                  Failed (emitError op
                            [Text "unknown loop name "; Name (Some loop_name)])
                    buffer_names
              | None => Succeeded buffer_names
              end
        end
  end.

(** [VerifyStorageAttrWellFormed], given the [storage] attribute of the
    operation, when it has one, and the names of the loops of its
    [loop_nest] attribute, when it has one. *)
Definition VerifyStorageAttrWellFormed (op : Operation)
  (storage : option (list Attribute)) (loop_nest : option (list StringAttr))
  : Outcome unit :=
  match storage with
  | None => Succeeded ()
  | Some storage =>
      if decide (length storage ≠ length (op_results op)) then
        Failed (emitError op [Text "wrong number of storage entries"]) ()
      else
        let loop_names : gset StringAttr :=
          match loop_nest with
          | Some loops => list_to_set loops
          | None => ∅
          end in
        match for_each (verify_storage_entry op loop_names)
                (zip storage (op_results op)) ∅ with
        | Succeeded _ => Succeeded ()
        | Failed diag _ => Failed diag ()
        | Aborted => Aborted
        end
  end.

(** What a well-formed buffer attribute of a result of type
    [element_type] satisfies, for an operation nested in [loops]. *)
Definition well_formed_buffer (loops : list StringAttr)
  (element_type : ElementType) (buffer : BufferAttr) : Prop :=
  (attr_space buffer = register_attr ∨ attr_space buffer = memory_attr)
  ∧ (attr_space buffer = memory_attr ->
     element_type ≠ IndexType ∧ element_type ≠ MemRefType)
  ∧ (attr_space buffer = memory_attr <-> is_Some (attr_name buffer))
  ∧ (forall layout,
        attr_layout buffer = Some layout ->
        HasUnknownExprs (named_mapping layout) = false
        ∧ (attr_space buffer = register_attr ->
           Dimensions (named_mapping layout) = [])
        ∧ forall loop_name, loop_name ∈ names layout -> loop_name ∈ loops).

Definition well_formed_entry (loops : list StringAttr)
  (entry : Attribute) (element_type : ElementType) : Prop :=
  match entry with
  | UnitAttr => True
  | BufferAttribute buffer => well_formed_buffer loops element_type buffer
  | OtherAttribute => False
  end.

(** The buffer names of the entries of a storage attribute. *)
Definition entry_names (entries : list Attribute) : list StringAttr :=
  omap (fun entry =>
          match entry with
          | BufferAttribute buffer => attr_name buffer
          | _ => None
          end) entries.

(** *** Notions used to state the properties *)

(** [first_indexed_loop layout f]: [f] is the position of the first loop
    that [layout] references. *)
Definition first_indexed_loop (layout : MappingAttr) (f : nat) : Prop :=
  f < UseDomainSize layout
  /\ existsb (ExprDependsOn f) (Dimensions layout) = true
  /\ forall j, j < f -> existsb (ExprDependsOn j) (Dimensions layout) = false.

(** [indexes_no_loop layout]: [layout] references no loop. *)
Definition indexes_no_loop (layout : MappingAttr) : Prop :=
  forall j, j < UseDomainSize layout ->
            existsb (ExprDependsOn j) (Dimensions layout) = false.

(** The bound that [TrimBufferLoopNestForAccess] computes. *)
Definition trim_bound (iter_space : IterationSpace)
  (layout : option MappingAttr) (buffer : Buffer) : nat :=
  let k := NumCommonLoops iter_space (loop_nest_ buffer) in
  match layout ≫= (fun l => find_first (DependencyMask l)) with
  | Some f => k `min` f
  | None => k
  end.

(** [trimmed_for_access iter_space layout loops loops']: [loops'] is what
    an access from [iter_space] with [layout] leaves of the loop nest
    [loops]: its first [k] loops, for the number [k] of leading loops that
    [iter_space] and [loops] have in common, or its first [min k f] loops
    when the layout is given and [f] is the position of the first loop that
    it references.  These are also the first loops of [iter_space]. *)
Definition trimmed_for_access (iter_space : IterationSpace)
  (layout : option MappingAttr) (loops loops' : list StringAttr) : Prop :=
  let k := NumCommonLoops iter_space loops in
  exists bound,
    loops' = take bound loops
    /\ loops' = take bound (loop_names iter_space)
    /\ length loops' = bound
    /\ match layout with
       | None => bound = k
       | Some l =>
           (indexes_no_loop l /\ bound = k)
           \/ (exists f, first_indexed_loop l f /\ bound = k `min` f)
       end.

(** The trims of [register_buffer_use], on the loop nest alone. *)
Definition trim_to_common_loops (loops : list StringAttr)
  (iter_spaces : list IterationSpace) : list StringAttr :=
  foldl (fun loops iter_space => take (NumCommonLoops iter_space loops) loops)
    loops iter_spaces.

(** [stable b b']: [b'] has the location, the element type and the import
    operation of [b], and a loop nest that is not longer. *)
Definition stable (b b' : Buffer) : Prop :=
  loc_ b' = loc_ b
  /\ element_type_ b' = element_type_ b
  /\ import_op_ b' = import_op_ b
  /\ length (loop_nest_ b') <= length (loop_nest_ b).

(** Every buffer of [m] is a buffer of [m'], and is stable. *)
Definition buffers_stable (m m' : gmap StringAttr Buffer) : Prop :=
  forall name b,
    m !! name = Some b -> exists b', m' !! name = Some b' /\ stable b b'.

(** Every buffer of [m] is a buffer of [m'], with a loop nest that is not
    longer. *)
Definition loop_nests_shrink (m m' : gmap StringAttr Buffer) : Prop :=
  forall name b,
    m !! name = Some b ->
    exists b', m' !! name = Some b'
               /\ length (loop_nest_ b') <= length (loop_nest_ b).

(** [R] relates the state before a call to the state it reaches, when it
    returns. *)
Definition outcome_rel {S : Type} (R : S -> S -> Prop) (s : S)
  (o : Outcome S) : Prop :=
  match o with
  | Succeeded s' => R s s'
  | Failed _ s' => R s s'
  | Aborted => True
  end.

(** [R] relates the state before a call to the state it reaches, when the
    loops of the call end within the fuel and the call returns. *)
Definition fuel_rel {S : Type} (R : S -> S -> Prop) (s : S)
  (o : option (Outcome S)) : Prop :=
  match o with
  | Some o => outcome_rel R s o
  | None => True
  end.

(** The buffers of an analysis are stable. *)
Definition analysis_stable (analysis analysis' : StorageAnalysis) : Prop :=
  buffers_stable (buffers_ analysis) (buffers_ analysis').

(** The relation that the steps of [SetStorage] keep between the states of
    the propagation: the work list is free. *)
Definition propagation_stable (s s' : StorageAnalysis * list Value) : Prop :=
  analysis_stable s.1 s'.1.

(** One mutation of the table of buffers by the analysis: the declaration
    of the buffers, an update of the storage of a value, the propagation of
    the storage of a value by [SetStorage], the computation of the storages
    of the values of a program, and the operations that passes call on the
    analysis: [MergeStorage], [CreateBuffer], [AddDimensionsToBuffer] and
    the minimization of the loop nests. *)
Inductive analysis_step
  : gmap StringAttr Buffer -> gmap StringAttr Buffer -> Prop :=
| step_DeclareBuffers program m m' :
    DeclareBuffers program m = Succeeded m' -> analysis_step m m'
| step_UpdateStorage value new_storage storage storage' m m' :
    UpdateStorage value new_storage (storage, m) = Succeeded (storage', m') ->
    analysis_step m m'
| step_SetStorage fuel value storage analysis analysis' :
    SetStorage fuel value storage analysis = Some (Succeeded analysis') ->
    analysis_step (buffers_ analysis) (buffers_ analysis')
| step_ComputeValueStorages fuel program analysis analysis' :
    ComputeValueStorages fuel program analysis = Some (Succeeded analysis') ->
    analysis_step (buffers_ analysis) (buffers_ analysis')
| step_MergeStorage fuel value new_storage analysis analysis' :
    MergeStorage fuel value new_storage analysis = Some (Succeeded analysis') ->
    analysis_step (buffers_ analysis) (buffers_ analysis')
| step_CreateBuffer fuel value loop_names analysis analysis' :
    CreateBuffer fuel value loop_names analysis = Some (Succeeded analysis') ->
    analysis_step (buffers_ analysis) (buffers_ analysis')
| step_AddDimensionsToBuffer name op iter_space new_layout analysis analysis' :
    AddDimensionsToBuffer name op iter_space new_layout analysis
    = Succeeded analysis' ->
    analysis_step (buffers_ analysis) (buffers_ analysis')
| step_VerifyAndMinimize m m' :
    VerifyAndMinimizeBufferLoopNests m = Succeeded m' -> analysis_step m m'.

(** *** Notions used to state the invariants of the analysis *)

(** One operation of [Buffer] on a buffer of the table, as the analysis
    calls it: [SetLoopNest], [AppendToDomain], and [UnifyLayout] with a
    layout over the domain of the buffer that has the rank of the buffer
    when the buffer has one. *)
Inductive buffer_step : Buffer -> Buffer -> Prop :=
| buffer_SetLoopNest b loop_nest b' :
    SetLoopNest b loop_nest = Some b' -> buffer_step b b'
| buffer_UnifyLayout b layout b' :
    UnifyLayout b layout = Some b' ->
    UseDomainSize layout = length (domain_ b) ->
    (forall r, rank b = Some r -> size layout = r) ->
    buffer_step b b'
| buffer_AppendToDomain b new_values :
    buffer_step b (AppendToDomain b new_values).

(** The operations of [buffer_step], and [AddValue]. *)
Inductive access_step : Buffer -> Buffer -> Prop :=
| access_buffer_step b b' : buffer_step b b' -> access_step b b'
| access_AddValue b value :
    access_step b (AddValue b value (getDefiningOp value) (getUses value)).

(** The operations of [access_step], and [AddNonePrefixToLayout]. *)
Inductive extension_step : Buffer -> Buffer -> Prop :=
| extension_access_step b b' : access_step b b' -> extension_step b b'
| extension_AddNonePrefixToLayout b num_new_dims b' :
    AddNonePrefixToLayout b num_new_dims = Some b' -> extension_step b b'.

(** A buffer as its constructors leave it: no layout and no value. *)
Definition fresh_buffer (b : Buffer) : Prop :=
  layout_ b = None /\ writes_ b = [] /\ reads_ b = [] /\ values_ b = [].

(** [evolves R m m']: every buffer of [m] is still in [m'], and every
    buffer of [m'] comes from the buffer of [m] of the same name, or from a
    fresh buffer, by operations of [R]. *)
Definition evolves (R : relation Buffer) (m m' : gmap StringAttr Buffer)
  : Prop :=
  (forall name, is_Some (m !! name) -> is_Some (m' !! name))
  /\ forall name b',
      m' !! name = Some b' ->
      match m !! name with
      | Some b => rtc R b b'
      | None => exists b0, fresh_buffer b0 /\ rtc R b0 b'
      end.

(** The writes and the reads that [AddValue] records for a list of
    values. *)
Definition writes_of (values : list Value) : list (Operation * nat) :=
  omap (fun value =>
          if is_ComputeOp (op_kind (getDefiningOp value))
          then Some (getDefiningOp value, value_result value) else None)
    values.

Definition reads_of (values : list Value) : list (Operation * nat) :=
  values ≫= fun value =>
    omap (fun use =>
            if is_ComputeOp (op_kind (use_owner use))
            then Some (use_owner use, use_position use) else None)
      (getUses value).

(** The writes and the reads of the buffer are the ones of its values. *)
Definition accesses_consistent (b : Buffer) : Prop :=
  writes_ b = writes_of (values_ b) /\ reads_ b = reads_of (values_ b).

(** The layout of the buffer is a mapping from the domain of the buffer. *)
Definition layout_scoped (b : Buffer) : Prop :=
  forall l, layout_ b = Some l -> UseDomainSize l = length (domain_ b).

(** The rank of a buffer that has one is kept. *)
Definition rank_kept (b b' : Buffer) : Prop :=
  forall r, rank b = Some r -> rank b' = Some r.

(** The values, the writes and the reads of a buffer are kept. *)
Definition accesses_kept (b b' : Buffer) : Prop :=
  values_ b' = values_ b /\ writes_ b' = writes_ b /\ reads_ b' = reads_ b.

(** The values of the buffers are the values whose storage names the
    buffer, each of them once. *)
Definition values_registered (analysis : StorageAnalysis) : Prop :=
  (forall name b value,
      buffers_ analysis !! name = Some b ->
      value ∈ values_ b ->
      exists storage,
        value_storages_ analysis !! value = Some storage
        /\ buffer_name storage = Some name)
  /\ (forall value storage name,
         value_storages_ analysis !! value = Some storage ->
         buffer_name storage = Some name ->
         exists b, buffers_ analysis !! name = Some b /\ value ∈ values_ b)
  /\ (forall name b, buffers_ analysis !! name = Some b -> NoDup (values_ b)).

(** [storage_le st st']: the space and the buffer name that [st] gives are
    the ones of [st'], and [st'] has a layout when [st] has one. *)
Definition storage_le (st st' : ValueStorage) : Prop :=
  (forall s, space st = Some s -> space st' = Some s)
  /\ (forall name, buffer_name st = Some name -> buffer_name st' = Some name)
  /\ (is_Some (storage_layout st) -> is_Some (storage_layout st')).

(** Every value keeps its entry, and what its storage gives. *)
Definition storages_grow (vs vs' : gmap Value ValueStorage) : Prop :=
  forall value st,
    vs !! value = Some st ->
    exists st', vs' !! value = Some st' /\ storage_le st st'.

(** The storages of the values of an analysis grow. *)
Definition storages_rel (analysis analysis' : StorageAnalysis) : Prop :=
  storages_grow (value_storages_ analysis) (value_storages_ analysis').

(** The operands that [VerifyCommunicationVolume] checks for an operation
    of the program: its value operands, and the value operands of the
    operations that define the dimensions of its domain. *)
Definition checked_operand (program : list Operation) (op : Operation)
  (operand : ValueOperand) : Prop :=
  op ∈ program
  /\ (operand ∈ op_operands op
      \/ exists dimension,
          dimension ∈ op_domain op
          /\ operand ∈ op_operands (getDefiningOp dimension)).

(** The dimensions of the domain of a value of rank [value_rank] that none
    of the loops common to the iteration spaces of its producer and of its
    user iterates over, in increasing order. *)
Definition uncovered_dimensions (value_rank : nat)
  (def_iter_space use_iter_space : IterationSpace) : list nat :=
  filter
    (fun d =>
       MappingDimExpr d
       ∉ take (NumCommonLoops_space def_iter_space use_iter_space)
           (Dimensions (mapping def_iter_space)))
    (seq 0 value_rank).

(** [stored_dimension def_iter_space layout d]: a dimension of the buffer
    is indexed by a loop of the producer that iterates over the dimension
    [d] of its domain. *)
Definition stored_dimension (def_iter_space : IterationSpace)
  (layout : MappingAttr) (d : nat) : Prop :=
  exists i j,
    Dimensions layout !! i = Some (MappingDimExpr j)
    /\ Dimensions (mapping def_iter_space) !! j = Some (MappingDimExpr d).

(** [neighbour value target]: the propagation of [SetStorage] sends the
    storage of [value] to [target]: forward, to the result of a user of
    the value that is a projection or a [fby] operation, or a [map_reduce]
    operation that uses the value as an initial value; backward, to the
    operands of the projection or [fby] operation that defines the value,
    or to the initial value of the result of a [map_reduce] operation. *)
Definition neighbour (value target : Value) : Prop :=
  (exists use result,
      use ∈ getUses value
      /\ forwarded_result use = Some result
      /\ target = mkValue (op_order (use_owner use)) result)
  \/ (exists operand,
         target = operand_value operand
         /\ match op_kind (getDefiningOp value) with
            | SairMapReduceOp _ =>
                Inits (getDefiningOp value) !! value_result value
                = Some operand
            | SairProjAnyOp | SairProjLastOp | SairFbyOp =>
                operand ∈ op_operands (getDefiningOp value)
            | _ => False
            end).

(** The storage of the value, when it says anything, has been sent to the
    neighbours of the value. *)
Definition linked (vs : gmap Value ValueStorage) (value : Value) : Prop :=
  forall storage target,
    vs !! value = Some storage ->
    neighbour value target ->
    storage = ValueStorage_default
    \/ exists storage', vs !! target = Some storage'
                        /\ storage_le storage storage'.

(** The storage of the value in [vs'] says nothing, or nothing more than
    the storage of the value in [vs]. *)
Definition storage_back (vs vs' : gmap Value ValueStorage) (value : Value)
  : Prop :=
  forall storage',
    vs' !! value = Some storage' ->
    storage' = ValueStorage_default
    \/ exists storage, vs !! value = Some storage
                       /\ storage_le storage' storage.

(** The steps of the loop of [SetStorage]: the storages grow, the work
    list keeps its values, and the storage of a value that is not in the
    work list is left as it is. *)
Definition propagation_step (s s' : StorageAnalysis * list Value) : Prop :=
  storages_grow (value_storages_ s.1) (value_storages_ s'.1)
  /\ (forall value, value ∈ s.2 -> value ∈ s'.2)
  /\ forall value,
      value ∉ s'.2 ->
      storage_back (value_storages_ s.1) (value_storages_ s'.1) value.

(** One successful call of a public method that changes the analysis:
    [CreateBuffer], [MergeStorage], [GetFreshBufferName],
    [VerifyAndMinimizeBufferLoopNests] and [AddDimensionsToBuffer]. *)
Inductive analysis_call : StorageAnalysis -> StorageAnalysis -> Prop :=
| call_CreateBuffer fuel value loop_names analysis analysis' :
    CreateBuffer fuel value loop_names analysis = Some (Succeeded analysis') ->
    analysis_call analysis analysis'
| call_MergeStorage fuel value new_storage analysis analysis' :
    MergeStorage fuel value new_storage analysis = Some (Succeeded analysis') ->
    analysis_call analysis analysis'
| call_GetFreshBufferName name analysis analysis' :
    GetFreshBufferName analysis = Some (name, analysis') ->
    analysis_call analysis analysis'
| call_VerifyAndMinimizeBufferLoopNests analysis buffers :
    VerifyAndMinimizeBufferLoopNests (buffers_ analysis) = Succeeded buffers ->
    analysis_call analysis (with_buffers analysis buffers)
| call_AddDimensionsToBuffer name op iter_space new_layout
    analysis analysis' :
    AddDimensionsToBuffer name op iter_space new_layout analysis
    = Succeeded analysis' ->
    analysis_call analysis analysis'.

(** The analyses that [StorageAnalysis::Create] returns for a program, and
    the ones that successful calls of the public methods make of them. *)
Definition created (analysis : StorageAnalysis) : Prop :=
  exists fuel program analysis0,
    Init fuel program StorageAnalysis_empty = Some (Succeeded analysis0)
    /\ rtc analysis_call analysis0 analysis.

(** The import operation of every external buffer of the table is a
    [from_memref] or a [to_memref] operation, as the type [FromToMemRefOp]
    of [import_op_] has it. *)
Definition imports_typed (m : gmap StringAttr Buffer) : Prop :=
  forall name b op,
    m !! name = Some b -> import_op_ b = Some op ->
    is_Some (as_FromToMemRefOp op).

(** *** Contracts of the collaborators *)

(** The contract of the loop-fusion analysis that the storage analysis
    relies on: the loop nest of a list of loops maps its domain to exactly
    these loops. *)
Hypothesis GetLoopNest_size :
  forall loops, size (domain_to_loops (GetLoopNest loops)) = length loops.

(** The contract of [MappingAttr::Canonicalize] that the rank of a buffer
    relies on: canonicalization rewrites the expressions of a mapping and
    keeps their number. *)
Hypothesis Canonicalize_size : forall m, size (Canonicalize m) = size m.

(** The contracts of the mapping algebra that the verification of the
    communication volume relies on, for the mappings without stripes:
    [Inverse] and [MakeSurjective] are the inversion and the completion of
    partial injections, and a mapping made of dimensions and none
    placeholders is canonical. *)
Hypothesis Inverse_partial_injection :
  forall m, partial_injection m = true -> Inverse m = Inverse_dims m.
Hypothesis MakeSurjective_partial_injection :
  forall m, partial_injection m = true ->
            MakeSurjective m = MakeSurjective_dims m.
Hypothesis Canonicalize_stripe_free :
  forall m, stripe_free m = true -> Canonicalize m = m.

(* ===================================================================== *)
(** ** Properties of the mapping expressions *)
(* ===================================================================== *)

(** Induction on mapping expressions, with the operands of an unstripe
    expression. *)
Lemma MappingExpr_nested_ind (P : MappingExpr -> Prop) :
  (forall i, P (MappingDimExpr i)) ->
  P MappingNoneExpr ->
  P MappingUnknownExpr ->
  (forall operand factors, P operand -> P (MappingStripeExpr operand factors)) ->
  (forall operands factors,
      Forall P operands -> P (MappingUnStripeExpr operands factors)) ->
  forall e, P e.
Proof.
  intros Hdim Hnone Hunknown Hstripe Hunstripe.
  fix IH 1. intros [i | | | operand factors | operands factors].
  - apply Hdim.
  - apply Hnone.
  - apply Hunknown.
  - apply Hstripe, IH.
  - apply Hunstripe. induction operands as [|o os IHos]; constructor.
    + apply IH.
    + apply IHos.
Qed.

(** The unification of two unstripe expressions is the unification of
    their operands. *)
Lemma ExprUnify_unstripe on_mismatch operands factors operands' factors' :
  ExprUnify on_mismatch (MappingUnStripeExpr operands factors)
    (MappingUnStripeExpr operands' factors')
  = if decide (factors = factors' /\ length operands = length operands')
    then (fun os => MappingUnStripeExpr os factors)
           <$> UnifyList on_mismatch operands operands'
    else on_mismatch (MappingUnStripeExpr operands factors)
           (MappingUnStripeExpr operands' factors').
Proof.
  simpl. case_decide; [|done]. f_equal.
  clear. revert operands'.
  induction operands as [|o os IH]; intros [|o' os']; simpl; try done.
  by rewrite IH.
Qed.

Lemma ExprRefines_unstripe operands factors operands' factors' :
  ExprRefines (MappingUnStripeExpr operands factors)
    (MappingUnStripeExpr operands' factors')
  = bool_decide (factors = factors') && RefinesList operands operands'.
Proof.
  reflexivity.
Qed.

Lemma ExprRefines_refl (e : MappingExpr) : ExprRefines e e = true.
Proof.
  induction e as [i | | | operand factors IHo | operands factors IHos]
    using MappingExpr_nested_ind; try done.
  - simpl. by rewrite bool_decide_eq_true.
  - simpl. rewrite IHo, andb_true_r. by rewrite bool_decide_eq_true.
  - rewrite ExprRefines_unstripe, bool_decide_true by done. simpl.
    induction IHos as [|o os Ho _ IH]; [done|]. simpl. by rewrite Ho, IH.
Qed.

(** Unification of [?] placeholders returns an expression that refines
    both sides. *)
Lemma ExprUnify_unknown_refines (x : MappingExpr) :
  forall y e,
    ExprUnify resolve_unknown x y = Some e ->
    ExprRefines x e = true /\ ExprRefines y e = true.
Proof.
  induction x as [i | | | operand factors IHo | operands factors IHos]
    using MappingExpr_nested_ind; intros y e H.
  - destruct y; simpl in H; try case_decide; simplify_eq;
      auto using ExprRefines_refl.
  - destruct y; simpl in H; try case_decide; simplify_eq;
      auto using ExprRefines_refl.
  - destruct y; simpl in H; try case_decide; simplify_eq;
      auto using ExprRefines_refl.
  - destruct y as [j | | | operand' factors' | operands' factors'];
      simpl in H; try case_decide; simplify_eq; auto using ExprRefines_refl.
    destruct (ExprUnify resolve_unknown operand operand') as [o|] eqn:Ho;
      simplify_eq/=.
    destruct (IHo _ _ Ho) as [H1 H2].
    rewrite H1, H2. by rewrite bool_decide_true.
  - destruct y as [j | | | operand' factors' | operands' factors'];
      try (simpl in H; try case_decide; simplify_eq;
           auto using ExprRefines_refl; fail).
    rewrite ExprUnify_unstripe in H. case_decide as Hd; [|done].
    destruct Hd as [-> Hlen].
    destruct (UnifyList resolve_unknown operands operands') as [es|] eqn:Hes;
      [|done].
    injection H as <-.
    rewrite !ExprRefines_unstripe, !bool_decide_true by done.
    rewrite !andb_true_l.
    revert operands' es Hes Hlen.
    induction IHos as [|o os Ho _ IH]; intros [|o' os'] es Hes Hlen;
      simplify_eq/=; try done.
    destruct (ExprUnify resolve_unknown o o') as [e'|] eqn:He; [|done].
    destruct (UnifyList resolve_unknown os os') as [es'|] eqn:Hes'; [|done].
    simplify_eq/=. destruct (Ho _ _ He) as [-> ->].
    destruct (IH _ _ Hes' Hlen) as [-> ->]. done.
Qed.

Lemma Compose_size (m other : MappingAttr) :
  size (Compose m other) = size other.
Proof. unfold size, Compose. simpl. by rewrite length_fmap. Qed.

Lemma ResizeUseDomain_size (m : MappingAttr) (new_size : nat) :
  size (ResizeUseDomain m new_size) = size m.
Proof.
  unfold size, ResizeUseDomain. case_decide; simpl; [done|].
  by rewrite length_fmap.
Qed.

Lemma UnifyList_length on_mismatch (xs : list MappingExpr) :
  forall ys es,
    UnifyList on_mismatch xs ys = Some es ->
    length es = length xs `min` length ys.
Proof.
  induction xs as [|x xs IH]; intros [|y ys] es H; simplify_eq/=; try done.
  destruct (ExprUnify on_mismatch x y); [|done].
  destruct (UnifyList on_mismatch xs ys) as [es'|] eqn:Hes; simplify_eq/=.
  by rewrite (IH _ _ Hes).
Qed.

Lemma Unify_size (m other unified : MappingAttr) :
  Unify m other = Some unified -> size unified = size m `min` size other.
Proof.
  unfold Unify, size. intros H.
  destruct (UnifyList _ _ _) as [es|] eqn:Hes; simplify_eq/=.
  by apply UnifyList_length in Hes.
Qed.

Lemma UnifyList_unknown_refines (xs : list MappingExpr) :
  forall ys es,
    length xs = length ys ->
    UnifyList resolve_unknown xs ys = Some es ->
    RefinesList xs es = true /\ RefinesList ys es = true.
Proof.
  induction xs as [|x xs IH]; intros [|y ys] es Hlen H; simplify_eq/=; try done.
  destruct (ExprUnify resolve_unknown x y) as [e|] eqn:He; [|done].
  destruct (UnifyList resolve_unknown xs ys) as [es'|] eqn:Hes; [|done].
  simplify_eq/=.
  destruct (ExprUnify_unknown_refines _ _ _ He) as [-> ->].
  destruct (IH _ _ Hlen Hes) as [-> ->]. done.
Qed.

(** Two expressions that have a common refinement unify. *)
Lemma ExprUnify_unknown_complete (x : MappingExpr) :
  forall y z,
    ExprRefines x z = true -> ExprRefines y z = true ->
    is_Some (ExprUnify resolve_unknown x y).
Proof.
  induction x as [i | | | operand factors IHo | operands factors IHos]
    using MappingExpr_nested_ind; intros y z Hx Hy.
  - destruct z, y; simplify_eq/=; try done;
      repeat case_bool_decide; simplify_eq/=; try done;
      case_decide; by eauto.
  - destruct z, y; simplify_eq/=; by eauto.
  - destruct y; simpl; by eauto.
  - destruct z as [| | |oz fz|], y as [| | |oy fy|]; simplify_eq/=;
      try done; try by eauto.
    apply andb_true_iff in Hx as [Hf1 Hx]. apply andb_true_iff in Hy as [Hf2 Hy].
    apply bool_decide_eq_true in Hf1 as ->. apply bool_decide_eq_true in Hf2 as ->.
    rewrite decide_True by done.
    destruct (IHo _ _ Hx Hy) as [o ->]. by eauto.
  - destruct z as [| | | |osz fz]; try done.
    destruct y as [| | | |osy fy]; try done; try (simpl; by eauto).
    rewrite ExprRefines_unstripe in Hx, Hy. rewrite ExprUnify_unstripe.
    apply andb_true_iff in Hx as [Hf1 Hx]. apply andb_true_iff in Hy as [Hf2 Hy].
    apply bool_decide_eq_true in Hf1 as ->. apply bool_decide_eq_true in Hf2 as ->.
    assert (length operands = length osy
            /\ is_Some (UnifyList resolve_unknown operands osy)) as [Hlen [es ->]].
    { clear -IHos Hx Hy. revert osy osz Hx Hy.
      induction IHos as [|o os Ho _ IH]; intros [|oy osy] [|oz osz] Hx Hy;
        simplify_eq/=; try done; try by eauto.
      apply andb_true_iff in Hx as [Hx1 Hx]. apply andb_true_iff in Hy as [Hy1 Hy].
      destruct (Ho _ _ Hx1 Hy1) as [e ->].
      destruct (IH _ _ Hx Hy) as [-> [es ->]]. by eauto. }
    rewrite decide_True by done. by eauto.
Qed.

Lemma UnifyList_unknown_complete (xs : list MappingExpr) :
  forall ys zs,
    RefinesList xs zs = true -> RefinesList ys zs = true ->
    is_Some (UnifyList resolve_unknown xs ys).
Proof.
  induction xs as [|x xs IH]; intros [|y ys] [|z zs] Hx Hy;
    simplify_eq/=; try done; try by eauto.
  apply andb_true_iff in Hx as [Hx1 Hx]. apply andb_true_iff in Hy as [Hy1 Hy].
  destruct (ExprUnify_unknown_complete _ _ _ Hx1 Hy1) as [e ->].
  destruct (IH _ _ Hx Hy) as [es ->]. by eauto.
Qed.

Lemma RefinesList_length (xs ys : list MappingExpr) :
  RefinesList xs ys = true -> length xs = length ys.
Proof.
  revert ys. induction xs as [|x xs IH]; intros [|y ys] H; simplify_eq/=;
    try done.
  apply andb_true_iff in H as [_ H]. by rewrite (IH _ H).
Qed.

(** [UnifyUnknownExprs] returns a mapping that refines both mappings. *)
Lemma UnifyUnknownExprs_refines (new_layout old unified : MappingAttr) :
  UnifyUnknownExprs new_layout old = Some unified ->
  Refines old unified = true /\ Refines new_layout unified = true.
Proof.
  unfold UnifyUnknownExprs, Refines, size. intros H.
  case_decide as Hd; [|done]. destruct Hd as [Hdom Hsize].
  destruct (UnifyList resolve_unknown (Dimensions new_layout) (Dimensions old))
    as [es|] eqn:Hes; simplify_eq/=.
  destruct (UnifyList_unknown_refines _ _ _ Hsize Hes) as [-> ->].
  rewrite Hdom. by rewrite !bool_decide_true.
Qed.

(** [UnifyUnknownExprs] succeeds on two mappings that have a common
    refinement. *)
Lemma UnifyUnknownExprs_complete (new_layout old common : MappingAttr) :
  Refines old common = true -> Refines new_layout common = true ->
  is_Some (UnifyUnknownExprs new_layout old).
Proof.
  unfold UnifyUnknownExprs, Refines, size. intros Ho Hn.
  apply andb_true_iff in Ho as [Hdo Ho]. apply andb_true_iff in Hn as [Hdn Hn].
  apply bool_decide_eq_true in Hdo, Hdn.
  rewrite decide_True.
  - destruct (UnifyList_unknown_complete _ _ _ Hn Ho) as [es ->]. by eauto.
  - split; [congruence|].
    apply RefinesList_length in Ho, Hn. congruence.
Qed.

(** An expression without [?] placeholder is refined by itself only. *)
Lemma ExprRefines_known (old : MappingExpr) :
  forall new,
    ExprHasUnknownExprs old = false -> ExprRefines old new = true -> new = old.
Proof.
  induction old as [i | | | operand factors IHo | operands factors IHos]
    using MappingExpr_nested_ind; intros new Hknown H.
  - destruct new; simplify_eq/=. by apply bool_decide_eq_true in H as ->.
  - by destruct new.
  - done.
  - destruct new as [| | |operand' factors'|]; simplify_eq/=.
    apply andb_true_iff in H as [Hf H].
    apply bool_decide_eq_true in Hf as ->. by rewrite (IHo _ Hknown H).
  - destruct new as [| | | |operands' factors']; try done.
    rewrite ExprRefines_unstripe in H.
    apply andb_true_iff in H as [Hf H].
    apply bool_decide_eq_true in Hf as ->. f_equal.
    simpl in Hknown. revert operands' H.
    induction IHos as [|o os Ho _ IH]; intros [|o' os'] H; simplify_eq/=;
      try done.
    apply orb_false_iff in Hknown as [Hk1 Hk2].
    apply andb_true_iff in H as [H1 H2].
    by rewrite (Ho _ Hk1 H1), (IH Hk2 _ H2).
Qed.

(** A mapping without [?] placeholder is refined by itself only. *)
Lemma Refines_known (old new : MappingAttr) :
  HasUnknownExprs old = false -> Refines old new = true -> new = old.
Proof.
  unfold HasUnknownExprs, Refines. destruct old as [d xs], new as [d' ys].
  simpl. intros Hknown H.
  apply andb_true_iff in H as [Hd H]. apply bool_decide_eq_true in Hd as ->.
  f_equal. revert ys H.
  induction xs as [|x xs IH]; intros [|y ys] H; simplify_eq/=; try done.
  apply orb_false_iff in Hknown as [Hk1 Hk2].
  apply andb_true_iff in H as [H1 H2].
  by rewrite (ExprRefines_known _ _ Hk1 H1), (IH Hk2 _ H2).
Qed.

Lemma RefinesList_refl (xs : list MappingExpr) : RefinesList xs xs = true.
Proof.
  induction xs as [|x xs IH]; [done|]. simpl. by rewrite ExprRefines_refl, IH.
Qed.

Lemma Refines_refl (m : MappingAttr) : Refines m m = true.
Proof.
  unfold Refines. by rewrite bool_decide_true, RefinesList_refl.
Qed.

(** *** Inversion of the mappings without stripes *)

Lemma position_of_Some (d : nat) (exprs : list MappingExpr) (i : nat) :
  position_of d exprs = Some i <->
  exprs !! i = Some (MappingDimExpr d)
  /\ forall j, j < i -> exprs !! j <> Some (MappingDimExpr d).
Proof.
  revert i. induction exprs as [|e exprs IH]; intros i; simpl.
  - split; [done|]. by intros [? _].
  - case_decide as He.
    + subst e. split.
      * intros [= <-]. split; [done|]. intros j Hj. lia.
      * intros [Hi Hfirst]. destruct i as [|i]; [done|].
        specialize (Hfirst 0 ltac:(lia)). done.
    + destruct i as [|i].
      * split; [by destruct (position_of d exprs)|].
        intros [[= ->] _]. done.
      * transitivity (position_of d exprs = Some i).
        { destruct (position_of d exprs); simpl; split; congruence. }
        rewrite IH. simpl. split; intros [H1 H2]; (split; [done|]).
        -- intros [|j] Hj; [simpl; congruence|]. apply H2. lia.
        -- intros j Hj. apply (H2 (S j)). lia.
Qed.

Lemma position_of_None (d : nat) (exprs : list MappingExpr) :
  position_of d exprs = None <-> MappingDimExpr d ∉ exprs.
Proof.
  induction exprs as [|e exprs IH]; simpl.
  - split; [intros _; apply not_elem_of_nil|done].
  - case_decide as He.
    + subst e. split; [done|]. intros H. exfalso. apply H, list_elem_of_here.
    + rewrite not_elem_of_cons, <- IH.
      destruct (position_of d exprs); simpl; split; try done;
        try (by intros [_ ?]); try (intros _; split; [congruence|done]).
Qed.

Lemma position_of_lt (d : nat) (exprs : list MappingExpr) (i : nat) :
  position_of d exprs = Some i -> i < length exprs.
Proof.
  intros H. apply position_of_Some in H as [H _].
  by apply lookup_lt_Some in H.
Qed.

(** The two properties of a partial injection. *)
Lemma partial_injection_spec (m : MappingAttr) :
  partial_injection m = true <->
  (forall i e,
      Dimensions m !! i = Some e ->
      e = MappingNoneExpr
      \/ exists d, e = MappingDimExpr d /\ d < UseDomainSize m)
  /\ (forall i j d,
         Dimensions m !! i = Some (MappingDimExpr d) ->
         Dimensions m !! j = Some (MappingDimExpr d) -> i = j).
Proof.
  unfold partial_injection, size. rewrite forallb_forall. split.
  - intros H.
    assert (forall i e,
               Dimensions m !! i = Some e ->
               e = MappingNoneExpr
               \/ exists d, e = MappingDimExpr d /\ d < UseDomainSize m
                            /\ position_of d (Dimensions m) = Some i) as H'.
    { intros i e Hi. specialize (H i).
      rewrite Hi in H.
      assert (In i (seq 0 (length (Dimensions m)))) as Hin.
      { apply in_seq. apply lookup_lt_Some in Hi. lia. }
      specialize (H Hin). destruct e; try done; [|by left].
      apply bool_decide_eq_true in H as [? ?]. right. by eexists. }
    split.
    + intros i e Hi. destruct (H' i e Hi) as [?|(d & ? & ? & _)]; [by left|].
      right. by exists d.
    + intros i j d Hi Hj.
      destruct (H' i _ Hi) as [?|(d1 & [= <-] & _ & H1)]; [done|].
      destruct (H' j _ Hj) as [?|(d2 & [= <-] & _ & H2)]; [done|].
      congruence.
  - intros [Hrange Hinj] i Hin. apply in_seq in Hin as [_ Hin]. simpl in Hin.
    destruct (lookup_lt_is_Some_2 (Dimensions m) i Hin) as [e He].
    rewrite He. destruct (Hrange i e He) as [->|(d & -> & Hd)]; [done|].
    apply bool_decide_eq_true. split; [done|].
    apply position_of_Some. split; [done|].
    intros j Hj Hj'. specialize (Hinj i j d He Hj'). lia.
Qed.

Lemma partial_injection_position (m : MappingAttr) (i d : nat) :
  partial_injection m = true ->
  Dimensions m !! i = Some (MappingDimExpr d) ->
  position_of d (Dimensions m) = Some i.
Proof.
  intros Hm Hi. apply partial_injection_spec in Hm as [_ Hinj].
  apply position_of_Some. split; [done|].
  intros j Hj Hj'. specialize (Hinj i j d Hi Hj'). lia.
Qed.

(** The expressions of the inverse. *)
Lemma Inverse_dims_lookup (m : MappingAttr) (d : nat) :
  d < UseDomainSize m ->
  Dimensions (Inverse_dims m) !! d
  = Some (match position_of d (Dimensions m) with
          | Some i => MappingDimExpr i
          | None => MappingNoneExpr
          end).
Proof.
  intros Hd. unfold Inverse_dims. simpl. rewrite list_lookup_fmap.
  by rewrite lookup_seq_lt.
Qed.

Lemma Inverse_dims_lookup_ge (m : MappingAttr) (d : nat) :
  UseDomainSize m <= d -> Dimensions (Inverse_dims m) !! d = None.
Proof.
  intros Hd. unfold Inverse_dims. simpl. rewrite list_lookup_fmap.
  by rewrite lookup_seq_ge.
Qed.

(** The inverse of a partial injection is a partial injection. *)
Lemma Inverse_dims_partial_injection (m : MappingAttr) :
  partial_injection (Inverse_dims m) = true.
Proof.
  apply partial_injection_spec. split.
  - intros d e Hd.
    assert (d < UseDomainSize m) as Hlt.
    { destruct (decide (d < UseDomainSize m)); [done|].
      rewrite Inverse_dims_lookup_ge in Hd by lia. done. }
    rewrite Inverse_dims_lookup in Hd by done. injection Hd as <-.
    destruct (position_of d (Dimensions m)) as [i|] eqn:Hi; [|by left].
    right. exists i. split; [done|]. simpl. by apply position_of_lt in Hi.
  - intros d d' i Hd Hd'.
    assert (forall x,
               Dimensions (Inverse_dims m) !! x = Some (MappingDimExpr i) ->
               Dimensions m !! i = Some (MappingDimExpr x)) as H.
    { intros x Hx.
      assert (x < UseDomainSize m) as Hlt.
      { destruct (decide (x < UseDomainSize m)); [done|].
        rewrite Inverse_dims_lookup_ge in Hx by lia. done. }
      rewrite Inverse_dims_lookup in Hx by done. injection Hx as Hx.
      destruct (position_of x (Dimensions m)) as [i'|] eqn:Hi; [|done].
      injection Hx as ->. by apply position_of_Some in Hi as [? _]. }
    apply H in Hd, Hd'. congruence.
Qed.

Lemma fill_none_lookup (exprs : list MappingExpr) :
  forall next,
    (fill_none next exprs).1
    = next + length (filter (fun e => e = MappingNoneExpr) exprs)
    /\ forall i,
        (fill_none next exprs).2 !! i
        = match exprs !! i with
          | Some MappingNoneExpr =>
              Some (MappingDimExpr
                      (next + length (filter (fun e => e = MappingNoneExpr)
                                        (take i exprs))))
          | o => o
          end.
Proof.
  induction exprs as [|e exprs IH]; intros next; simpl.
  - split; [lia|]. intros i. by rewrite lookup_nil.
  - assert (forall next',
               (let '(n, filled) := fill_none next' exprs in (n, e :: filled))
               = ((fill_none next' exprs).1, e :: (fill_none next' exprs).2))
      as Hkeep by (intros next'; by destruct (fill_none next' exprs)).
    destruct e; rewrite ?Hkeep; simpl;
      try (rewrite filter_cons_False by done;
           destruct (IH next) as [-> Hi]; split; [done|];
           intros [|i]; simpl; [done|];
           rewrite filter_cons_False by done; apply Hi).
    destruct (fill_none (S next) exprs) as [n filled] eqn:Hf.
    destruct (IH (S next)) as [Hn Hi]. rewrite Hf in Hn, Hi. simpl in *.
    split; [lia|].
    intros [|i]; simpl.
    + f_equal. f_equal. lia.
    + rewrite Hi. destruct (exprs !! i) as [[]|]; try done.
      simpl. f_equal. f_equal. lia.
Qed.

Lemma MakeSurjective_dims_eq (m : MappingAttr) :
  MakeSurjective_dims m
  = mkMapping (fill_none (UseDomainSize m) (Dimensions m)).1
      (fill_none (UseDomainSize m) (Dimensions m)).2.
Proof. unfold MakeSurjective_dims. by destruct (fill_none _ _). Qed.

(** The number of none placeholders grows along the list. *)
Lemma count_none_take_le (exprs : list MappingExpr) (i j : nat) :
  i <= j ->
  length (filter (fun e => e = MappingNoneExpr) (take i exprs))
  <= length (filter (fun e => e = MappingNoneExpr) (take j exprs)).
Proof.
  intros Hij. rewrite <- (take_drop i (take j exprs)).
  rewrite take_take, Nat.min_l by done.
  rewrite filter_app, length_app. lia.
Qed.

(** A none placeholder at the position [i] counts in every longer
    prefix. *)
Lemma count_none_take_lt (exprs : list MappingExpr) (i j : nat) :
  exprs !! i = Some MappingNoneExpr ->
  i < j ->
  length (filter (fun e => e = MappingNoneExpr) (take i exprs))
  < length (filter (fun e => e = MappingNoneExpr) (take j exprs)).
Proof.
  intros Hi Hij.
  pose proof (count_none_take_le exprs (S i) j ltac:(lia)) as Hle.
  rewrite (take_S_r _ _ _ Hi), filter_app, length_app in Hle.
  rewrite filter_cons_True, length_cons in Hle by done. lia.
Qed.

Lemma count_none_take (exprs : list MappingExpr) (i : nat) :
  length (filter (fun e => e = MappingNoneExpr) (take i exprs))
  <= length (filter (fun e => e = MappingNoneExpr) exprs).
Proof.
  rewrite <- (take_drop i exprs) at 2. rewrite filter_app, length_app. lia.
Qed.

(** [MakeSurjective_dims] makes a partial injection of a partial
    injection. *)
Lemma MakeSurjective_dims_partial_injection (m : MappingAttr) :
  partial_injection m = true ->
  partial_injection (MakeSurjective_dims m) = true.
Proof.
  intros Hm. apply partial_injection_spec in Hm as [Hrange Hinj].
  rewrite MakeSurjective_dims_eq.
  destruct (fill_none_lookup (Dimensions m) (UseDomainSize m)) as [Hn Hi].
  apply partial_injection_spec. simpl. rewrite Hn.
  assert (forall i e,
             (fill_none (UseDomainSize m) (Dimensions m)).2 !! i = Some e ->
             (Dimensions m !! i = Some MappingNoneExpr
              /\ e = MappingDimExpr
                       (UseDomainSize m
                        + length (filter (fun e => e = MappingNoneExpr)
                                    (take i (Dimensions m)))))
             \/ (exists d, Dimensions m !! i = Some (MappingDimExpr d)
                           /\ e = MappingDimExpr d
                           /\ d < UseDomainSize m)) as Hcases.
  { intros i e He. rewrite Hi in He.
    destruct (Dimensions m !! i) as [e0|] eqn:He0; [|done].
    destruct (Hrange i e0 He0) as [->|(d & -> & Hd)].
    - left. split; [done|]. by injection He as <-.
    - right. exists d. split; [done|]. split; [by injection He as <-|done]. }
  split.
  - intros i e He. right.
    destruct (Hcases i e He) as [[Hnone ->]|(d & _ & -> & Hd)].
    + eexists. split; [done|].
      pose proof (count_none_take_lt (Dimensions m) i (length (Dimensions m))
                    Hnone) as Hlt.
      rewrite firstn_all in Hlt.
      apply lookup_lt_Some in Hnone. specialize (Hlt Hnone). lia.
    + exists d. split; [done|]. lia.
  - intros i j d Hi' Hj'.
    destruct (Hcases i _ Hi') as [[Hni [= ->]]|(di & Hdi & [= <-] & Hlti)];
      destruct (Hcases j _ Hj') as [[Hnj [= Hd]]|(dj & Hdj & [= Hd] & Hltj)].
    + destruct (Nat.lt_trichotomy i j) as [Hlt|[->|Hlt]]; [|done|].
      * pose proof (count_none_take_lt _ _ _ Hni Hlt). lia.
      * pose proof (count_none_take_lt _ _ _ Hnj Hlt). lia.
    + lia.
    + lia.
    + subst dj. by eapply Hinj.
Qed.


Lemma filter_ext_in {A : Type} (P Q : A -> Prop)
  `{!forall x, Decision (P x)} `{!forall x, Decision (Q x)} (l : list A) :
  (forall x, x ∈ l -> P x <-> Q x) -> filter P l = filter Q l.
Proof.
  induction l as [|x l IH]; intros Hext; [done|].
  rewrite !filter_cons.
  rewrite IH by (intros y Hy; apply Hext; by apply list_elem_of_further).
  pose proof (Hext x (list_elem_of_here _ _)) as Hx.
  destruct (decide (P x)), (decide (Q x)); tauto.
Qed.

(** The positions of the none placeholders of a list, and their number. *)
Lemma none_positions (exprs : list MappingExpr) :
  let positions :=
    filter (fun d => exprs !! d = Some MappingNoneExpr)
      (seq 0 (length exprs)) in
  length positions = length (filter (fun e => e = MappingNoneExpr) exprs)
  /\ forall t d,
      positions !! t = Some d ->
      exprs !! d = Some MappingNoneExpr
      /\ length (filter (fun e => e = MappingNoneExpr) (take d exprs)) = t.
Proof.
  induction exprs as [|e exprs IH] using rev_ind; [done|].
  cbv zeta in *. destruct IH as [IHlen IHpos].
  rewrite length_app. simpl. rewrite Nat.add_1_r, seq_S. simpl.
  rewrite filter_app.
  assert (filter (fun d => (exprs ++ [e]) !! d = Some MappingNoneExpr)
            (seq 0 (length exprs))
          = filter (fun d => exprs !! d = Some MappingNoneExpr)
              (seq 0 (length exprs))) as ->.
  { apply filter_ext_in. intros d Hd. apply elem_of_seq in Hd.
    by rewrite lookup_app_l by lia. }
  set (positions := filter (fun d => exprs !! d = Some MappingNoneExpr)
                      (seq 0 (length exprs))) in *.
  assert ((exprs ++ [e]) !! length exprs = Some e) as Hlast.
  { by rewrite lookup_app_r, Nat.sub_diag by lia. }
  rewrite filter_app, !length_app. split.
  - rewrite IHlen. f_equal.
    rewrite !filter_cons, !filter_nil, Hlast.
    destruct (decide (e = MappingNoneExpr)) as [->|Hne].
    + by rewrite decide_True by done.
    + by rewrite decide_False by congruence.
  - intros t d Ht.
    destruct (decide (t < length positions)) as [Hlt|Hge].
    + rewrite lookup_app_l in Ht by done.
      destruct (IHpos t d Ht) as [Hd Hcount].
      pose proof (lookup_lt_Some _ _ _ Hd) as Hdlt.
      rewrite lookup_app_l by done. split; [done|].
      by rewrite take_app_le by lia.
    + rewrite lookup_app_r in Ht by lia.
      rewrite filter_cons, filter_nil, Hlast in Ht.
      destruct (decide (Some e = Some MappingNoneExpr)) as [[= ->]|Hne];
        [|by rewrite lookup_nil in Ht].
      apply list_lookup_singleton_Some in Ht as [Ht <-].
      split; [done|].
      rewrite take_app_length. rewrite <- IHlen. lia.
Qed.

(** The inverse of the surjective completion of the inverse of a partial
    injection lists, after the positions of the mapping, the dimensions
    that the mapping does not have, in increasing order. *)
Lemma uncovered_dimensions_of (m : MappingAttr) :
  DropFront (Inverse_dims (MakeSurjective_dims (Inverse_dims m))) (size m)
  = mkMapping (UseDomainSize m)
      (MappingDimExpr
         <$> filter (fun d => MappingDimExpr d ∉ Dimensions m)
               (seq 0 (UseDomainSize m))).
Proof.
  pose proof (MakeSurjective_dims_partial_injection _
                (Inverse_dims_partial_injection m)) as Hinj.
  rewrite MakeSurjective_dims_eq in Hinj |- *.
  set (inverse := Dimensions (Inverse_dims m)) in *.
  assert (length inverse = UseDomainSize m) as Hlength.
  { unfold inverse, Inverse_dims. simpl. by rewrite length_fmap, length_seq. }
  assert (UseDomainSize (Inverse_dims m) = size m) as -> by done.
  destruct (fill_none_lookup inverse (size m)) as [Hn Hfilled].
  set (filled := (fill_none (size m) inverse).2) in *.
  assert (length filled = UseDomainSize m) as Hfilled_length.
  { rewrite <- Hlength. apply Nat.le_antisymm.
    - destruct (decide (length filled <= length inverse)); [done|].
      destruct (lookup_lt_is_Some_2 filled (length inverse)) as [e He]; [lia|].
      rewrite Hfilled, lookup_ge_None_2 in He by lia. done.
    - destruct (decide (length inverse <= length filled)); [done|].
      destruct (lookup_lt_is_Some_2 inverse (length filled)) as [e He]; [lia|].
      pose proof (Hfilled (length filled)) as Hl.
      rewrite He, lookup_ge_None_2 in Hl by lia. by destruct e. }
  destruct (none_positions inverse) as [Hcount Hpositions].
  cbv zeta in Hcount, Hpositions. rewrite Hlength in Hcount, Hpositions.
  assert (filter (fun d => inverse !! d = Some MappingNoneExpr)
            (seq 0 (UseDomainSize m))
          = filter (fun d => MappingDimExpr d ∉ Dimensions m)
              (seq 0 (UseDomainSize m))) as Hsame.
  { apply filter_ext_in. intros d Hd. apply elem_of_seq in Hd.
    unfold inverse. rewrite Inverse_dims_lookup by lia.
    rewrite <- position_of_None.
    destruct (position_of d (Dimensions m)); split; congruence. }
  rewrite Hsame in Hcount, Hpositions.
  set (uncovered := filter (fun d => MappingDimExpr d ∉ Dimensions m)
                      (seq 0 (UseDomainSize m))) in *.
  unfold DropFront, Inverse_dims. cbn [UseDomainSize Dimensions].
  unfold size at 1. cbn [Dimensions].
  rewrite Hfilled_length. f_equal.
  rewrite Hn, <- Hcount. unfold size.
  rewrite <- fmap_drop, drop_seq. simpl.
  replace (length (Dimensions m) + length uncovered - length (Dimensions m))
    with (length uncovered) by lia.
  apply list_eq. intros t. rewrite !list_lookup_fmap.
  destruct (uncovered !! t) as [d|] eqn:Hd; simpl.
  - pose proof (lookup_lt_Some _ _ _ Hd) as Ht.
    rewrite lookup_seq_lt by done. simpl.
    destruct (Hpositions t d Hd) as [Hnone Htake].
    assert (filled !! d
            = Some (MappingDimExpr (length (Dimensions m) + t))) as Hfd.
    { rewrite Hfilled, Hnone. unfold size. by rewrite Htake. }
    assert (position_of (length (Dimensions m) + t) filled = Some d) as ->.
    { apply (partial_injection_position
               (mkMapping (fill_none (size m) inverse).1 filled));
        [exact Hinj|exact Hfd]. }
    done.
  - apply lookup_ge_None in Hd. by rewrite lookup_seq_ge by lia.
Qed.

(** The expressions of the mapping from the domain of a value to the
    common loops. *)
Lemma domain_to_common_loops_lookup (m : MappingAttr) (value_rank k i : nat) :
  partial_injection m = true ->
  Dimensions (Resize (ResizeUseDomain m value_rank) k) !! i
  = if decide (i < k)
    then Some (match Dimensions m !! i with
               | Some (MappingDimExpr d) =>
                   if decide (d < value_rank) then MappingDimExpr d
                   else MappingNoneExpr
               | _ => MappingNoneExpr
               end)
    else None.
Proof.
  intros Hm. apply partial_injection_spec in Hm as [Hrange _].
  assert (forall j,
             Dimensions (ResizeUseDomain m value_rank) !! j
             = (fun e =>
                  match e with
                  | MappingDimExpr d =>
                      if decide (d < value_rank) then MappingDimExpr d
                      else MappingNoneExpr
                  | _ => MappingNoneExpr
                  end) <$> Dimensions m !! j) as Hresized.
  { intros j. unfold ResizeUseDomain. case_decide as Hle; simpl.
    - destruct (Dimensions m !! j) as [e|] eqn:He; [|done]. simpl.
      destruct (Hrange j e He) as [->|(d & -> & Hd)]; [done|].
      by rewrite decide_True by lia.
    - rewrite list_lookup_fmap.
      destruct (Dimensions m !! j) as [e|] eqn:He; [|done]. simpl.
      destruct (Hrange j e He) as [->|(d & -> & Hd)]; [done|]. simpl.
      rewrite list_lookup_fmap. case_decide.
      + by rewrite lookup_seq_lt by done.
      + by rewrite lookup_seq_ge by lia. }
  unfold Resize. cbn [Dimensions].
  pose proof (ResizeUseDomain_size m value_rank) as Hsize. unfold size in Hsize.
  unfold size. rewrite Hsize.
  destruct (decide (i < length (Dimensions m))) as [Hi|Hi].
  - case_decide as Hk.
    + rewrite lookup_app_l by (rewrite length_take; lia).
      rewrite lookup_take_lt by done. rewrite Hresized.
      destruct (lookup_lt_is_Some_2 _ _ Hi) as [e ->]. simpl.
      by destruct e.
    + apply lookup_ge_None_2.
      rewrite length_app, length_take, length_replicate, Hsize. lia.
  - rewrite (lookup_ge_None_2 (Dimensions m)) by lia.
    rewrite lookup_app_r by (rewrite length_take; lia).
    rewrite length_take, Hsize.
    case_decide as Hk.
    + rewrite lookup_replicate_2; [done|lia].
    + apply lookup_replicate_None. lia.
Qed.

Lemma domain_to_common_loops_injection (m : MappingAttr) (value_rank k : nat) :
  partial_injection m = true ->
  partial_injection (Resize (ResizeUseDomain m value_rank) k) = true.
Proof.
  intros Hm. pose proof Hm as Hspec.
  apply partial_injection_spec in Hspec as [_ Hinj].
  assert (UseDomainSize (Resize (ResizeUseDomain m value_rank) k) = value_rank)
    as Hdomain.
  { unfold Resize, ResizeUseDomain. by case_decide. }
  assert (forall i d,
             Dimensions (Resize (ResizeUseDomain m value_rank) k) !! i
             = Some (MappingDimExpr d) ->
             Dimensions m !! i = Some (MappingDimExpr d) /\ d < value_rank)
    as Hdims.
  { intros i d. rewrite domain_to_common_loops_lookup by done.
    case_decide; [|done].
    destruct (Dimensions m !! i) as [[d'| | | |]|]; try done.
    case_decide; [|done]. by intros [= <-]. }
  apply partial_injection_spec. split.
  - intros i e. rewrite Hdomain.
    rewrite domain_to_common_loops_lookup by done.
    case_decide; [|done]. intros [= <-].
    destruct (Dimensions m !! i) as [[d| | | |]|]; try by left.
    case_decide; [|by left]. right. by exists d.
  - intros i j d Hi Hj. apply Hdims in Hi as [Hi _], Hj as [Hj _].
    by eapply Hinj.
Qed.

Lemma domain_to_common_loops_covered (m : MappingAttr)
  (value_rank k d : nat) :
  partial_injection m = true ->
  d < value_rank ->
  MappingDimExpr d ∈ Dimensions (Resize (ResizeUseDomain m value_rank) k)
  <-> MappingDimExpr d ∈ take k (Dimensions m).
Proof.
  intros Hm Hd. rewrite !list_elem_of_lookup. split.
  - intros [i Hi]. rewrite domain_to_common_loops_lookup in Hi by done.
    case_decide; [|done]. exists i. rewrite lookup_take_lt by done.
    destruct (Dimensions m !! i) as [[d'| | | |]|]; try done.
    case_decide; [|done]. by injection Hi as <-.
  - intros [i Hi]. exists i.
    assert (i < k) as Hk.
    { destruct (decide (i < k)); [done|].
      rewrite lookup_take_ge in Hi by lia. done. }
    rewrite lookup_take_lt in Hi by done.
    rewrite domain_to_common_loops_lookup by done.
    rewrite decide_True by done. rewrite Hi. by rewrite decide_True.
Qed.

(** The composition of two partial injections. *)
Lemma Compose_lookup_dim (m other : MappingAttr) (i d : nat) :
  partial_injection m = true ->
  partial_injection other = true ->
  Dimensions (Compose m other) !! i = Some (MappingDimExpr d)
  <-> exists j,
      Dimensions other !! i = Some (MappingDimExpr j)
      /\ Dimensions m !! j = Some (MappingDimExpr d).
Proof.
  intros Hm Ho. apply partial_injection_spec in Hm as [Hm _].
  apply partial_injection_spec in Ho as [Ho _].
  unfold Compose. simpl. rewrite list_lookup_fmap.
  destruct (Dimensions other !! i) as [e|] eqn:He; simpl.
  - destruct (Ho i e He) as [->|(j & -> & _)]; simpl.
    + split; [done|]. by intros (j & ? & _).
    + destruct (Dimensions m !! j) as [e'|] eqn:He'; simpl.
      * split.
        -- intros [= ->]. by exists j.
        -- intros (j' & [= <-] & Hj'). congruence.
      * split; [done|]. intros (j' & [= <-] & Hj'). congruence.
  - split; [done|]. by intros (j & ? & _).
Qed.

Lemma Compose_partial_injection (m other : MappingAttr) :
  partial_injection m = true ->
  partial_injection other = true ->
  partial_injection (Compose m other) = true.
Proof.
  intros Hm Ho. pose proof Hm as [Hrange Hinj]%partial_injection_spec.
  pose proof Ho as [Hrange' Hinj']%partial_injection_spec.
  apply partial_injection_spec. split.
  - intros i e He. unfold Compose in He |- *. simpl in *.
    rewrite list_lookup_fmap in He.
    destruct (Dimensions other !! i) as [e'|] eqn:He'; [|done].
    simpl in He. injection He as <-.
    destruct (Hrange' i e' He') as [->|(j & -> & _)]; [by left|]. simpl.
    destruct (Dimensions m !! j) as [e|] eqn:Hj; [|by left]. simpl.
    by apply (Hrange j).
  - intros i i' d Hi Hi'.
    apply Compose_lookup_dim in Hi as (j & Hij & Hj); [|done..].
    apply Compose_lookup_dim in Hi' as (j' & Hij' & Hj'); [|done..].
    assert (j = j') as <- by (by eapply Hinj).
    by eapply Hinj'.
Qed.

(** The layout covers the dimensions [dims] when every one of them is an
    expression of the layout. *)
Lemma inverse_covers (layout : MappingAttr) (value_rank : nat)
  (dims : list nat) :
  partial_injection layout = true ->
  HasNoneExprs
    (Compose (Inverse_dims layout)
       (mkMapping value_rank (MappingDimExpr <$> dims)))
  = true
  <-> exists d, d ∈ dims /\ MappingDimExpr d ∉ Dimensions layout.
Proof.
  intros Hl. apply partial_injection_spec in Hl as [Hrange _].
  unfold HasNoneExprs, Compose. cbn [Dimensions].
  rewrite existsb_exists. setoid_rewrite <- list_elem_of_In.
  setoid_rewrite list_elem_of_fmap.
  assert (forall d,
             ExprHasNoneExprs
               (SubstituteDims (Dimensions (Inverse_dims layout))
                  (MappingDimExpr d)) = true
             <-> MappingDimExpr d ∉ Dimensions layout) as Hnone.
  { intros d. cbn [SubstituteDims]. rewrite <- position_of_None.
    destruct (decide (d < UseDomainSize layout)) as [Hd|Hd].
    - rewrite Inverse_dims_lookup by done. simpl.
      destruct (position_of d (Dimensions layout)); simpl; split; congruence.
    - rewrite Inverse_dims_lookup_ge by lia. simpl. split; [|done].
      intros _. apply position_of_None. intros Hin.
      apply list_elem_of_lookup in Hin as [i Hi].
      destruct (Hrange i _ Hi) as [?|(d' & [= <-] & ?)]; [done|lia]. }
  split.
  - intros (e & (e' & -> & (d & -> & Hd)%list_elem_of_fmap) & He).
    exists d. split; [done|]. by apply Hnone.
  - intros (d & Hd & Hlayout). eexists. split.
    + eexists. split; [done|]. apply list_elem_of_fmap. by exists d.
    + by apply Hnone.
Qed.

Lemma stripe_free_Compose_Inverse_dims (layout : MappingAttr)
  (value_rank : nat) (dims : list nat) :
  stripe_free
    (Compose (Inverse_dims layout)
       (mkMapping value_rank (MappingDimExpr <$> dims)))
  = true.
Proof.
  unfold stripe_free, Compose. cbn [Dimensions].
  apply forallb_forall. intros e He. apply list_elem_of_In in He.
  apply list_elem_of_fmap in He as (e' & -> & He').
  apply list_elem_of_fmap in He' as (d & -> & _). cbn [SubstituteDims].
  destruct (decide (d < UseDomainSize layout)) as [Hd|Hd].
  - rewrite Inverse_dims_lookup by done. simpl.
    by destruct (position_of d (Dimensions layout)).
  - by rewrite Inverse_dims_lookup_ge by lia.
Qed.

(* ===================================================================== *)
(** ** Merging value storages *)
(* ===================================================================== *)

(** C10: merging a null attribute is the identity.  [MergeSpace],
    [MergeBufferName] and [MergeLayout] called with a null attribute
    succeed and leave the storage as it is; merging a default-constructed
    storage (every attribute null) into the storage of a value, as
    [UpdateStorage] does, succeeds and changes neither the storage nor the
    buffers. *)
Theorem merge_null_is_identity (st : ValueStorage) :
  MergeSpace st None = (success, st)
  /\ MergeBufferName st None = (success, st)
  /\ MergeLayout st None = (success, st)
  /\ (forall value, merge_storage value ValueStorage_default st = Succeeded st)
  /\ (forall value buffers,
         UpdateStorage value ValueStorage_default (st, buffers)
         = Succeeded (st, buffers)).
Proof.
  repeat split; try done.
  intros value buffers. unfold UpdateStorage. simpl.
  by destruct (buffer_name st).
Qed.

(** C1: merge monotonicity.  Once the space (or the buffer name) of a
    storage is set, merging succeeds exactly when the new attribute is null
    or equal to the current one, and in both cases the storage is left as
    it is.  Once the layout is set, merging any layout either fails and
    leaves the storage as it is, or succeeds and replaces the layout by one
    that differs from it only where it had [?] placeholders (and that
    refines the new layout too); it succeeds exactly when the two layouts
    have such a common refinement, which a layout of another rank or use
    domain never has.  In particular a layout without [?] placeholder is
    never changed, and merging the current layout succeeds. *)
Theorem merge_monotonicity (st : ValueStorage) :
  (forall cur new_space,
      space st = Some cur ->
      MergeSpace st new_space
      = (success_if (bool_decide (new_space = None \/ new_space = Some cur)),
         st))
  /\ (forall cur new_name,
         buffer_name st = Some cur ->
         MergeBufferName st new_name
         = (success_if (bool_decide (new_name = None \/ new_name = Some cur)),
            st))
  /\ (forall cur new_layout,
         storage_layout st = Some cur ->
         exists result st',
           MergeLayout st (Some new_layout) = (result, st')
           /\ space st' = space st
           /\ buffer_name st' = buffer_name st
           /\ (HasUnknownExprs cur = false -> st' = st)
           /\ (new_layout = cur -> result = success)
           /\ match result with
              | success =>
                  exists refined,
                    storage_layout st' = Some refined
                    /\ size refined = size cur
                    /\ UseDomainSize refined = UseDomainSize cur
                    /\ Refines cur refined = true
                    /\ Refines new_layout refined = true
              | failure =>
                  st' = st
                  /\ forall common,
                      Refines cur common = true ->
                      Refines new_layout common = true -> False
              end).
Proof.
  destruct st as [sp name lay]. simpl. split; [|split].
  - intros cur new_space Hcur. subst sp.
    destruct new_space as [new_space|]; simpl; [|done].
    f_equal. f_equal. apply bool_decide_ext.
    split; [intros [= ->]; by right | intros [?|[= ->]]; done].
  - intros cur new_name Hcur. subst name.
    destruct new_name as [new_name|]; simpl; [|done].
    f_equal. f_equal. apply bool_decide_ext.
    split; [intros [= ->]; by right | intros [?|[= ->]]; done].
  - intros cur new_layout ->. unfold MergeLayout. simpl.
    destruct (UnifyUnknownExprs new_layout cur) as [unified|] eqn:Hu.
    + exists success, (mkValueStorage sp name (Some unified)).
      destruct (UnifyUnknownExprs_refines _ _ _ Hu) as [H1 H2].
      split; [done|]. split; [done|]. split; [done|].
      split; [intros Hknown; by rewrite (Refines_known _ _ Hknown H1)|].
      split; [done|].
      exists unified. split; [done|].
      pose proof H1 as H1'. unfold Refines in H1'.
      apply andb_true_iff in H1' as [Hd Hl].
      apply bool_decide_eq_true in Hd. apply RefinesList_length in Hl.
      unfold size. by rewrite Hd, Hl.
    + exists failure, (mkValueStorage sp name (Some cur)).
      split; [done|]. split; [done|]. split; [done|]. split; [done|].
      split.
      * intros ->.
        destruct (UnifyUnknownExprs_complete cur cur cur) as [u Hu'];
          [apply Refines_refl..|]. congruence.
      * split; [done|]. intros common Hc Hn.
        destruct (UnifyUnknownExprs_complete _ _ _ Hc Hn) as [u Hu'].
        congruence.
Qed.

(* ===================================================================== *)
(** ** Loop nests of buffers *)
(* ===================================================================== *)

Lemma common_prefix_length_le_l (xs ys : list StringAttr) :
  common_prefix_length xs ys <= length xs.
Proof.
  revert ys. induction xs as [|x xs IH]; intros [|y ys]; simpl; try lia.
  case_decide; [|lia]. specialize (IH ys). lia.
Qed.

Lemma common_prefix_length_le_r (xs ys : list StringAttr) :
  common_prefix_length xs ys <= length ys.
Proof.
  revert ys. induction xs as [|x xs IH]; intros [|y ys]; simpl; try lia.
  case_decide; [|lia]. specialize (IH ys). lia.
Qed.

(** The two lists agree on every prefix that is not longer than their
    common prefix. *)
Lemma take_common_prefix (xs ys : list StringAttr) (n : nat) :
  n <= common_prefix_length xs ys -> take n xs = take n ys.
Proof.
  revert xs ys. induction n as [|n IH]; intros [|x xs] [|y ys]; simpl;
    try done; try lia.
  case_decide; [|lia]. intros Hn. subst. f_equal. apply IH. lia.
Qed.

(** [find_first] returns the first set bit. *)
Lemma find_first_Some (bits : SmallBitVector) (f : nat) :
  find_first bits = Some f <->
  bits !! f = Some true /\ forall j, j < f -> bits !! j = Some false.
Proof.
  revert f. induction bits as [|b bits IH]; intros f; simpl.
  - split; [done|]. by intros [? _].
  - destruct b.
    + split.
      * intros [= <-]. split; [done|]. lia.
      * intros [Hf Hlt]. destruct f as [|f]; [done|].
        specialize (Hlt 0 ltac:(lia)). done.
    + destruct f as [|f].
      * split; [by destruct (find_first bits)|]. by intros [? _].
      * transitivity (find_first bits = Some f).
        { destruct (find_first bits); simpl; split; congruence. }
        rewrite IH. simpl. split; intros [H1 H2]; (split; [done|]).
        -- intros [|j] Hj; [done|]. apply H2. lia.
        -- intros j Hj. apply (H2 (S j)). lia.
Qed.

Lemma find_first_None (bits : SmallBitVector) :
  find_first bits = None <-> forall j, bits !! j <> Some true.
Proof.
  induction bits as [|b bits IH]; simpl.
  - split; [by intros _ j|done].
  - destruct b.
    + split; [done|]. intros H. by specialize (H 0).
    + transitivity (find_first bits = None).
      { destruct (find_first bits); simpl; split; congruence. }
      rewrite IH. split.
      * intros H [|j]; [done|]. apply H.
      * intros H j. apply (H (S j)).
Qed.

Lemma DependencyMask_lookup (m : MappingAttr) (d : nat) (b : bool) :
  DependencyMask m !! d = Some b <->
  d < UseDomainSize m /\ existsb (ExprDependsOn d) (Dimensions m) = b.
Proof.
  unfold DependencyMask. rewrite list_lookup_fmap.
  destruct (seq 0 (UseDomainSize m) !! d) as [d'|] eqn:Hd; simpl.
  - apply lookup_seq in Hd as [-> Hlt]. simpl. split.
    + by intros [= <-].
    + by intros [_ <-].
  - split; [done|]. intros [Hlt _].
    by rewrite lookup_seq_lt in Hd.
Qed.

Lemma find_first_DependencyMask_Some (layout : MappingAttr) (f : nat) :
  find_first (DependencyMask layout) = Some f <-> first_indexed_loop layout f.
Proof.
  rewrite find_first_Some, DependencyMask_lookup. unfold first_indexed_loop.
  split.
  - intros [[Hf Hd] Hlt]. repeat split; try done.
    intros j Hj. by apply Hlt, DependencyMask_lookup in Hj as [_ ?].
  - intros (Hf & Hd & Hlt). repeat split; try done.
    intros j Hj. apply DependencyMask_lookup. split; [lia|]. by apply Hlt.
Qed.

Lemma find_first_DependencyMask_None (layout : MappingAttr) :
  find_first (DependencyMask layout) = None <-> indexes_no_loop layout.
Proof.
  rewrite find_first_None. unfold indexes_no_loop. split.
  - intros H j Hj.
    destruct (existsb (ExprDependsOn j) (Dimensions layout)) eqn:He; [|done].
    exfalso. apply (H j). by apply DependencyMask_lookup.
  - intros H j Hj. apply DependencyMask_lookup in Hj as [Hlt Hd].
    rewrite (H j Hlt) in Hd. done.
Qed.

(** [SetLoopNest] truncates the loop nest of the buffer to the size of the
    new loop nest, which is not larger than the current one. *)
Lemma SetLoopNest_loop_nest (b b' : Buffer) (ln : LoopNest) :
  SetLoopNest b ln = Some b' ->
  size (domain_to_loops ln) <= length (loop_nest_ b)
  /\ loop_nest_ b' = take (size (domain_to_loops ln)) (loop_nest_ b).
Proof.
  unfold SetLoopNest. intros H.
  case_decide as Heq.
  { simplify_eq. rewrite Heq. split; [lia|]. by rewrite firstn_all. }
  case_decide as Hle; [|done]. split; [done|].
  case_decide; [by simplify_eq|].
  destruct (trim_domain _ _ _ _ _) as [renaming new_domain].
  destruct (layout_ b); by simplify_eq.
Qed.

Lemma SetLoopNest_is_Some (b : Buffer) (ln : LoopNest) :
  size (domain_to_loops ln) <= length (loop_nest_ b) ->
  is_Some (SetLoopNest b ln).
Proof.
  unfold SetLoopNest. intros H.
  case_decide; [by eauto|]. rewrite decide_True by done.
  case_decide; [by eauto|].
  destruct (trim_domain _ _ _ _ _) as [renaming new_domain].
  destruct (layout_ b); by eauto.
Qed.

Lemma TrimBufferLoopNestForAccess_take (iter_space : IterationSpace)
  (layout : option MappingAttr) (buffer : Buffer) :
  exists buffer',
    TrimBufferLoopNestForAccess iter_space layout buffer = Some buffer'
    /\ loop_nest_ buffer'
       = take (trim_bound iter_space layout buffer) (loop_nest_ buffer)
    /\ loop_nest_ buffer'
       = take (trim_bound iter_space layout buffer) (loop_names iter_space).
Proof using GetLoopNest_size.
  unfold TrimBufferLoopNestForAccess, trim_bound.
  set (k := NumCommonLoops iter_space (loop_nest_ buffer)).
  set (bound := match layout with
                | Some l =>
                    match find_first (DependencyMask l) with
                    | Some f => if decide (f < k) then f else k
                    | None => k
                    end
                | None => k
                end).
  assert (bound = match layout ≫= (fun l => find_first (DependencyMask l)) with
                  | Some f => k `min` f
                  | None => k
                  end) as Hbound.
  { subst bound. destruct layout as [l|]; simpl; [|done].
    destruct (find_first (DependencyMask l)) as [f|]; [|done].
    case_decide; lia. }
  rewrite <- Hbound.
  assert (bound <= k) as Hk.
  { rewrite Hbound. destruct (_ ≫= _); lia. }
  pose proof (common_prefix_length_le_l (loop_names iter_space)
                (loop_nest_ buffer)) as Hl.
  pose proof (common_prefix_length_le_r (loop_names iter_space)
                (loop_nest_ buffer)) as Hr.
  fold (NumCommonLoops iter_space (loop_nest_ buffer)) in Hl, Hr. fold k in Hl, Hr.
  assert (size (domain_to_loops
                  (GetLoopNest (take bound (loop_names iter_space)))) = bound)
    as Hsize.
  { rewrite GetLoopNest_size, length_take. lia. }
  destruct (SetLoopNest_is_Some buffer
              (GetLoopNest (take bound (loop_names iter_space))))
    as [buffer' Hb']; [lia|].
  exists buffer'. split; [done|].
  apply SetLoopNest_loop_nest in Hb' as [_ Hb']. rewrite Hsize in Hb'.
  split; [done|]. rewrite Hb'. symmetry. by apply take_common_prefix.
Qed.

Lemma trim_without_layout (iter_spaces : list IterationSpace) :
  forall buffer,
  exists buffer',
    foldl (fun acc iter_space =>
             buffer ← acc; TrimBufferLoopNestForAccess iter_space None buffer)
      (Some buffer) iter_spaces = Some buffer'
    /\ loop_nest_ buffer'
       = trim_to_common_loops (loop_nest_ buffer) iter_spaces.
Proof using GetLoopNest_size.
  induction iter_spaces as [|sp sps IH]; intros buffer; simpl.
  - by exists buffer.
  - destruct (TrimBufferLoopNestForAccess_take sp None buffer)
      as (b1 & -> & Hb1 & _).
    destruct (IH b1) as (b2 & -> & Hb2).
    exists b2. split; [done|]. rewrite Hb2, Hb1. done.
Qed.

(** *** What the analysis keeps of a buffer *)

Lemma stable_refl (b : Buffer) : stable b b.
Proof. by repeat split. Qed.

Lemma stable_trans (b1 b2 b3 : Buffer) :
  stable b1 b2 -> stable b2 b3 -> stable b1 b3.
Proof.
  intros (? & ? & ? & ?) (? & ? & ? & ?).
  repeat split; try congruence. lia.
Qed.

Lemma buffers_stable_refl (m : gmap StringAttr Buffer) : buffers_stable m m.
Proof. intros name b Hb. exists b. split; [done|apply stable_refl]. Qed.

Lemma buffers_stable_trans (m1 m2 m3 : gmap StringAttr Buffer) :
  buffers_stable m1 m2 -> buffers_stable m2 m3 -> buffers_stable m1 m3.
Proof.
  intros H12 H23 name b Hb.
  destruct (H12 _ _ Hb) as (b2 & Hb2 & Hs2).
  destruct (H23 _ _ Hb2) as (b3 & Hb3 & Hs3).
  exists b3. split; [done|]. by eapply stable_trans.
Qed.

Lemma buffers_stable_insert (m : gmap StringAttr Buffer) name b b' :
  m !! name = Some b -> stable b b' -> buffers_stable m (<[name := b']> m).
Proof.
  intros Hb Hs name' b0 Hb0. destruct (decide (name = name')) as [<-|Hne].
  - rewrite lookup_insert_eq. exists b'. split; [done|]. by simplify_eq.
  - rewrite lookup_insert_ne by done. exists b0. split; [done|apply stable_refl].
Qed.

Lemma buffers_stable_insert_fresh (m : gmap StringAttr Buffer) name b :
  m !! name = None -> buffers_stable m (<[name := b]> m).
Proof.
  intros Hnone name' b0 Hb0. destruct (decide (name = name')) as [<-|Hne].
  - by simplify_eq.
  - rewrite lookup_insert_ne by done. exists b0. split; [done|apply stable_refl].
Qed.

Lemma buffers_stable_try_emplace (m : gmap StringAttr Buffer) name b :
  buffers_stable m (try_emplace name b m).
Proof.
  unfold try_emplace. destruct (m !! name) eqn:Hm.
  - apply buffers_stable_refl.
  - by apply buffers_stable_insert_fresh.
Qed.

Lemma buffers_stable_shrink (m m' : gmap StringAttr Buffer) :
  buffers_stable m m' -> loop_nests_shrink m m'.
Proof.
  intros H name b Hb. destruct (H _ _ Hb) as (b' & Hb' & _ & _ & _ & Hle).
  by exists b'.
Qed.

Lemma for_each_rel {A S : Type} (R : S -> S -> Prop)
  (body : A -> S -> Outcome S) (xs : list A) :
  (forall s, R s s) ->
  (forall s1 s2 s3, R s1 s2 -> R s2 s3 -> R s1 s3) ->
  (forall x s, outcome_rel R s (body x s)) ->
  forall s, outcome_rel R s (for_each body xs s).
Proof.
  intros Hrefl Htrans Hbody.
  induction xs as [|x xs IH]; intros s; simpl; [apply Hrefl|].
  pose proof (Hbody x s) as Hx.
  destruct (body x s) as [s'|d s'|]; simpl in *; try done.
  pose proof (IH s') as Hxs.
  destruct (for_each body xs s') as [s''|d s''|]; simpl in *; eauto.
Qed.

(** [SetLoopNest] changes the loop nest, the domain and the expressions of
    the layout only; the rank of the buffer stays. *)
Lemma SetLoopNest_stable (b b' : Buffer) (ln : LoopNest) :
  SetLoopNest b ln = Some b' -> stable b b' /\ rank b' = rank b.
Proof.
  intros H. pose proof (SetLoopNest_loop_nest _ _ _ H) as [_ Hln].
  assert (length (loop_nest_ b') <= length (loop_nest_ b)) as Hle.
  { rewrite Hln, length_take. lia. }
  unfold SetLoopNest in H.
  case_decide; [simplify_eq; by repeat split|].
  case_decide; [|done].
  case_decide; [simplify_eq; by repeat split|].
  destruct (trim_domain _ _ _ _ _) as [renaming new_domain].
  unfold rank, stable.
  destruct (layout_ b) as [l|] eqn:Hl; simplify_eq; simpl in *;
    rewrite ?Hl; simpl; repeat split; try done.
  by rewrite Compose_size.
Qed.

Lemma TrimBufferLoopNestForAccess_stable iter_space layout buffer buffer' :
  TrimBufferLoopNestForAccess iter_space layout buffer = Some buffer' ->
  stable buffer buffer' /\ rank buffer' = rank buffer.
Proof. apply SetLoopNest_stable. Qed.

Lemma TrimBufferLoopNestForAccess_shrinks iter_space layout buffer buffer' :
  TrimBufferLoopNestForAccess iter_space layout buffer = Some buffer' ->
  length (loop_nest_ buffer') <= length (loop_nest_ buffer).
Proof. intros H. by apply TrimBufferLoopNestForAccess_stable in H as [(_&_&_&?) _]. Qed.

Lemma UnifyLayout_stable buffer layout buffer' :
  UnifyLayout buffer layout = Some buffer' ->
  stable buffer buffer' /\ loop_nest_ buffer' = loop_nest_ buffer.
Proof.
  unfold UnifyLayout. intros H.
  destruct (layout_ buffer); [destruct (Unify _ _)|]; simplify_eq;
    by repeat split.
Qed.

Lemma AppendToDomain_stable buffer new_values :
  stable buffer (AppendToDomain buffer new_values).
Proof. by repeat split. Qed.

(** [UnifyBufferShape] keeps the buffer stable, and leaves the whole buffer
    as it is when it fails. *)
Lemma UnifyBufferShape_stable name op layout iter_space buffer :
  match UnifyBufferShape name op layout iter_space buffer with
  | Succeeded buffer' => stable buffer buffer'
  | Failed _ buffer' => buffer' = buffer
  | Aborted => True
  end.
Proof.
  unfold UnifyBufferShape.
  destruct (match layout_ buffer with Some _ => _ | None => _ end); [|done].
  destruct (resolve_constraints _ _ _ _ _ _ _) as [[constraints new_domain]| |];
    try done.
  destruct (UnifyLayout _ _) as [buffer'|] eqn:Hu; simpl; [|done].
  apply UnifyLayout_stable in Hu as [Hu _].
  eapply stable_trans; [|done]. apply AppendToDomain_stable.
Qed.

Lemma DeclareBuffer_stable op result attr buffer_map :
  outcome_rel buffers_stable buffer_map
    (DeclareBuffer op result attr buffer_map).
Proof.
  unfold DeclareBuffer.
  destruct attr as [attr|]; [|apply buffers_stable_refl].
  destruct (attr_name attr) as [name|]; [|apply buffers_stable_refl].
  destruct (op_results op !! result) as [ty|]; [|done].
  set (m := try_emplace name _ buffer_map).
  assert (buffers_stable buffer_map m) as Hm
    by apply buffers_stable_try_emplace.
  destruct (m !! name) as [buffer|] eqn:Hbuffer; [|done].
  case_decide; [done|].
  destruct (GetBufferLayout op attr) as [layout|]; [|done].
  case_decide; [done|].
  destruct (TrimBufferLoopNestForAccess _ _ _) as [trimmed|] eqn:Htrim; [|done].
  apply TrimBufferLoopNestForAccess_stable in Htrim as [Htrim _].
  destruct layout as [layout|].
  - pose proof (UnifyBufferShape_stable name op layout
                  (iteration_spaces op) trimmed) as Hu.
    destruct (UnifyBufferShape _ _ _ _ _) as [unified|d unified|]; simpl;
      try done.
    + eapply buffers_stable_trans; [done|].
      eapply buffers_stable_insert; [done|]. by eapply stable_trans.
    + subst. eapply buffers_stable_trans; [done|].
      by eapply buffers_stable_insert.
  - simpl. eapply buffers_stable_trans; [done|].
    by eapply buffers_stable_insert.
Qed.

Lemma DeclareExternalBuffer_stable op info buffers :
  outcome_rel buffers_stable buffers (DeclareExternalBuffer op info buffers).
Proof.
  unfold DeclareExternalBuffer.
  destruct (buffers !! info_buffer_name info) eqn:Hb;
    [apply buffers_stable_refl|].
  destruct (UnifyBufferShape _ _ _ _ _) as [unified|d unified|]; simpl;
    try done; rewrite insert_insert_eq;
    by apply buffers_stable_insert_fresh.
Qed.

Lemma declare_all_stable program buffers :
  outcome_rel buffers_stable buffers (declare_all program buffers).
Proof.
  unfold declare_all.
  pose proof (for_each_rel buffers_stable
    (fun op buffers =>
       match as_FromToMemRefOp op with
       | Some info => DeclareExternalBuffer op info buffers
       | None => Succeeded buffers
       end) program buffers_stable_refl buffers_stable_trans) as H1.
  pose proof (for_each_rel buffers_stable
    (fun op buffers =>
       if is_ComputeOp (op_kind op) then DeclareInternalBuffers op buffers
       else Succeeded buffers) program
    buffers_stable_refl buffers_stable_trans) as H2.
  cbv beta in H1, H2.
  assert (forall op m,
             outcome_rel buffers_stable m
               match as_FromToMemRefOp op with
               | Some info => DeclareExternalBuffer op info m
               | None => Succeeded m
               end) as Hext.
  { intros op m. destruct (as_FromToMemRefOp op).
    - apply DeclareExternalBuffer_stable.
    - apply buffers_stable_refl. }
  assert (forall op m,
             outcome_rel buffers_stable m
               (if is_ComputeOp (op_kind op) then DeclareInternalBuffers op m
                else Succeeded m)) as Hint.
  { intros op m. destruct (is_ComputeOp (op_kind op)).
    - apply for_each_rel.
      + apply buffers_stable_refl.
      + apply buffers_stable_trans.
      + intros. apply DeclareBuffer_stable.
    - apply buffers_stable_refl. }
  specialize (H1 Hext buffers).
  destruct (for_each _ program buffers) as [m1|d m1|]; simpl in *; try done.
  specialize (H2 Hint m1).
  destruct (for_each _ program m1) as [m2|d m2|]; simpl in *; try done;
    by eapply buffers_stable_trans.
Qed.

Lemma DeclareBuffers_stable program buffers :
  outcome_rel buffers_stable buffers (DeclareBuffers program buffers).
Proof.
  unfold DeclareBuffers.
  pose proof (declare_all_stable program buffers) as H.
  destruct (declare_all program buffers) as [m|d m|]; simpl in *; try done.
  by destruct (check_fully_specified _).
Qed.

Lemma trims_stable (iter_spaces : list IterationSpace) :
  forall buffer buffer',
    foldl (fun acc iter_space =>
             buffer ← acc; TrimBufferLoopNestForAccess iter_space None buffer)
      (Some buffer) iter_spaces = Some buffer' ->
    stable buffer buffer'.
Proof.
  induction iter_spaces as [|sp sps IH]; intros b0 b' H; simpl in H.
  - simplify_eq. apply stable_refl.
  - destruct (TrimBufferLoopNestForAccess sp None b0) as [b1|] eqn:Hb1;
      simpl in H.
    + apply TrimBufferLoopNestForAccess_stable in Hb1 as [Hb1 _].
      apply IH in H. by eapply stable_trans.
    + exfalso. clear -H. induction sps as [|? ? IH]; simpl in H; [done|].
      by apply IH.
Qed.

Lemma register_buffer_use_stable value buffer buffer' :
  register_buffer_use value buffer = Some buffer' -> stable buffer buffer'.
Proof.
  unfold register_buffer_use. intros H. apply trims_stable in H.
  eapply stable_trans; [|done]. by repeat split.
Qed.

Lemma UpdateStorage_stable value new_storage storage buffers :
  outcome_rel (fun s s' => buffers_stable s.2 s'.2) (storage, buffers)
    (UpdateStorage value new_storage (storage, buffers)).
Proof.
  unfold UpdateStorage.
  assert (forall st m,
             buffers_stable buffers m ->
             outcome_rel (fun s s' => buffers_stable s.2 s'.2)
               (storage, buffers)
               (match merge_storage value new_storage st with
                | Succeeded st' => Succeeded (st', m)
                | Failed diag st' => Failed diag (st', m)
                | Aborted => Aborted
                end)) as Hmerge.
  { intros st m Hm. by destruct (merge_storage _ _ _). }
  destruct (buffer_name storage), (buffer_name new_storage) as [name|]; simpl;
    try (apply Hmerge, buffers_stable_refl).
  destruct (buffers !! name) as [buffer|] eqn:Hb; simpl; [|done].
  destruct (register_buffer_use value buffer) as [buffer'|] eqn:Hr; simpl;
    [|done].
  apply Hmerge. eapply buffers_stable_insert; [done|].
  by apply register_buffer_use_stable in Hr.
Qed.

Lemma VerifyAndMinimizeBufferLoopNest_stable name buffer :
  outcome_rel stable buffer (VerifyAndMinimizeBufferLoopNest name buffer).
Proof.
  unfold VerifyAndMinimizeBufferLoopNest.
  destruct (layout_ buffer) as [l|]; simpl; [|apply stable_refl].
  destruct (for_each _ _ _) as [n1|d n1|]; simpl; try done;
    try apply stable_refl.
  destruct (BufferInstanceLayout buffer) as [instance_layout|]; [|done].
  destruct (for_each _ _ _) as [n2|d n2|]; simpl; try done;
    try apply stable_refl.
  destruct (is_external buffer); simpl; [apply stable_refl|].
  destruct (CheckMallocInsertionPoint _ _ _ _) as [n3|d n3|]; simpl; try done;
    try apply stable_refl.
  destruct (SetLoopNest _ _) as [b'|] eqn:Hb'; simpl; [|done].
  by apply SetLoopNest_stable in Hb' as [? _].
Qed.

Lemma VerifyAndMinimizeBufferLoopNests_stable buffers :
  outcome_rel buffers_stable buffers
    (VerifyAndMinimizeBufferLoopNests buffers).
Proof.
  unfold VerifyAndMinimizeBufferLoopNests.
  apply for_each_rel.
  - apply buffers_stable_refl.
  - apply buffers_stable_trans.
  - intros name m. destruct (m !! name) as [buffer|] eqn:Hb; [|done].
    pose proof (VerifyAndMinimizeBufferLoopNest_stable name buffer) as H.
    destruct (VerifyAndMinimizeBufferLoopNest name buffer) as [b'|d b'|];
      simpl in *; try done.
    + by eapply buffers_stable_insert.
    + apply buffers_stable_refl.
Qed.

Lemma MergeStorage_buffer_stable new_storage buffers buffers' :
  MergeStorage_buffer new_storage buffers = Some buffers' ->
  buffers_stable buffers buffers'.
Proof.
  unfold MergeStorage_buffer. intros H.
  destruct (buffer_name new_storage) as [name|];
    [|simplify_eq; apply buffers_stable_refl].
  destruct (storage_layout new_storage) as [new_layout|];
    [|simplify_eq; apply buffers_stable_refl].
  destruct (buffers !! name) as [buffer|] eqn:Hb; simpl in H; [|done].
  destruct (rank buffer).
  - case_decide; simplify_eq. apply buffers_stable_refl.
  - destruct (empty new_layout); [|done].
    destruct (UnifyLayout _ _) as [b'|] eqn:Hu; simpl in H; [|done].
    simplify_eq. eapply buffers_stable_insert; [done|].
    by apply UnifyLayout_stable in Hu as [? _].
Qed.

Lemma AddDimensionsToBuffer_buffer_stable name op iter_space new_layout
  buffer buffer' :
  AddDimensionsToBuffer_buffer name op iter_space new_layout buffer
  = Succeeded buffer' ->
  stable buffer buffer'.
Proof.
  unfold AddDimensionsToBuffer_buffer. intros H.
  destruct (layout_ buffer) as [old|]; [|done].
  case_decide; [|done].
  destruct (TrimBufferLoopNestForAccess _ _ _) as [b1|] eqn:Hb1; [|done].
  apply TrimBufferLoopNestForAccess_stable in Hb1 as [Hb1 _].
  destruct (rank b1); [|done].
  destruct (AddNonePrefixToLayout b1 _) as [b2|] eqn:Hb2; [|done].
  assert (stable b1 b2) as H12.
  { unfold AddNonePrefixToLayout in Hb2.
    destruct (layout_ b1); simplify_eq. by repeat split. }
  pose proof (UnifyBufferShape_stable name op new_layout iter_space b2) as Hu.
  destruct (UnifyBufferShape _ _ _ _ _) as [b3| |]; simplify_eq.
  eapply stable_trans; [done|]. by eapply stable_trans.
Qed.

Lemma and_then_fuel_rel {S : Type} (R : S -> S -> Prop)
  (o : option (Outcome S)) (k : S -> option (Outcome S)) (s : S) :
  (forall s1 s2 s3, R s1 s2 -> R s2 s3 -> R s1 s3) ->
  fuel_rel R s o ->
  (forall s', fuel_rel R s' (k s')) ->
  fuel_rel R s (and_then_fuel o k).
Proof.
  intros Htrans Ho Hk.
  destruct o as [[s'|d s'|]|]; simpl in *; try done.
  pose proof (Hk s') as Hk'.
  destruct (k s') as [[s''|d s''|]|]; simpl in *; eauto.
Qed.

Lemma for_each_fuel_rel {A S : Type} (R : S -> S -> Prop)
  (body : A -> S -> option (Outcome S)) (xs : list A) :
  (forall s, R s s) ->
  (forall s1 s2 s3, R s1 s2 -> R s2 s3 -> R s1 s3) ->
  (forall x s, fuel_rel R s (body x s)) ->
  forall s, fuel_rel R s (for_each_fuel body xs s).
Proof.
  intros Hrefl Htrans Hbody.
  induction xs as [|x xs IH]; intros s; cbn [for_each_fuel]; [apply Hrefl|].
  by apply and_then_fuel_rel.
Qed.

Lemma analysis_stable_refl analysis : analysis_stable analysis analysis.
Proof. apply buffers_stable_refl. Qed.

Lemma analysis_stable_trans a1 a2 a3 :
  analysis_stable a1 a2 -> analysis_stable a2 a3 -> analysis_stable a1 a3.
Proof. apply buffers_stable_trans. Qed.

Lemma update_storage_stable value new_storage state :
  outcome_rel propagation_stable state (update_storage value new_storage state).
Proof.
  unfold update_storage, propagation_stable. destruct state as [analysis wl].
  destruct (storage_entry _ _) as [storage value_storages].
  case_decide; [apply buffers_stable_refl|].
  pose proof (UpdateStorage_stable value new_storage storage
                (buffers_ analysis)) as Hs.
  destruct (UpdateStorage value new_storage (storage, buffers_ analysis))
    as [[st m]|d [st m]|]; simpl in *; done.
Qed.

Lemma propagate_forward_stable value storage use state :
  outcome_rel propagation_stable state
    (propagate_forward value storage use state).
Proof.
  unfold propagate_forward.
  destruct (forwarded_result use); [|apply buffers_stable_refl].
  destruct (Map _ _ _ _); [|done]. apply update_storage_stable.
Qed.

Lemma propagate_backward_stable storage defining_op operand state :
  outcome_rel propagation_stable state
    (propagate_backward storage defining_op operand state).
Proof.
  unfold propagate_backward.
  destruct (Map _ _ _ _); [|done]. apply update_storage_stable.
Qed.

Lemma propagate_stable value state :
  outcome_rel propagation_stable state (propagate value state).
Proof.
  unfold propagate. destruct state as [analysis wl].
  destruct (storage_entry _ _) as [storage value_storages].
  set (state := (mkStorageAnalysis _ _ _, wl)).
  assert (propagation_stable (analysis, wl) state) as H0
      by apply buffers_stable_refl.
  pose proof (for_each_rel propagation_stable
                (propagate_forward value storage) (getUses value)
                (fun s => buffers_stable_refl _)
                (fun s1 s2 s3 => buffers_stable_trans _ _ _)
                (propagate_forward_stable value storage) state) as Hf.
  destruct (for_each _ _ state) as [s1|d s1|]; simpl in *; [| |done].
  - assert (propagation_stable (analysis, wl) s1) as H1
        by (eapply buffers_stable_trans; [exact H0|exact Hf]).
    assert (forall o, outcome_rel propagation_stable s1 o ->
                      outcome_rel propagation_stable (analysis, wl) o) as Hk.
    { intros [s2|d s2|] Ho; simpl in *; try done;
        (eapply buffers_stable_trans; [exact H1|exact Ho]). }
    destruct (op_kind (getDefiningOp value)); try exact H1.
    + destruct (_ !! _); [|done]. apply Hk, propagate_backward_stable.
    + apply Hk, for_each_rel;
        [intros; apply buffers_stable_refl
        |intros ???; apply buffers_stable_trans
        |intros; apply propagate_backward_stable].
    + apply Hk, for_each_rel;
        [intros; apply buffers_stable_refl
        |intros ???; apply buffers_stable_trans
        |intros; apply propagate_backward_stable].
    + apply Hk, for_each_rel;
        [intros; apply buffers_stable_refl
        |intros ???; apply buffers_stable_trans
        |intros; apply propagate_backward_stable].
  - eapply buffers_stable_trans; [exact H0|exact Hf].
Qed.

Lemma drain_work_list_stable fuel state :
  fuel_rel analysis_stable state.1 (drain_work_list fuel state).
Proof.
  revert state.
  induction fuel as [|fuel IH]; intros [analysis wl];
    cbn [drain_work_list fst snd].
  - destruct wl; [apply buffers_stable_refl|done].
  - destruct wl as [|value wl]; [apply buffers_stable_refl|].
    pose proof (propagate_stable value (analysis, wl)) as Hp.
    destruct (propagate value (analysis, wl)) as [s1|d s1|]; simpl in *;
      [|exact Hp|done].
    pose proof (IH s1) as Hd.
    destruct (drain_work_list fuel s1) as [[a2|d a2|]|]; simpl in *;
      try done; (eapply buffers_stable_trans; [exact Hp|exact Hd]).
Qed.

(** [SetStorage] keeps the buffers of the analysis stable. *)
Lemma SetStorage_stable fuel value storage analysis :
  fuel_rel analysis_stable analysis (SetStorage fuel value storage analysis).
Proof.
  unfold SetStorage.
  pose proof (update_storage_stable value storage (analysis, [])) as Hu.
  destruct (update_storage _ _ _) as [s1|d s1|]; simpl in *;
    [|exact Hu|done].
  pose proof (drain_work_list_stable fuel s1) as Hd.
  destruct (drain_work_list fuel s1) as [[a2|d a2|]|]; simpl in *;
    try done; (eapply buffers_stable_trans; [exact Hu|exact Hd]).
Qed.

Lemma ComputeValueStorages_stable fuel program analysis :
  fuel_rel analysis_stable analysis
    (ComputeValueStorages fuel program analysis).
Proof.
  assert (forall body : Operation -> StorageAnalysis ->
                        option (Outcome StorageAnalysis),
             (forall op a, fuel_rel analysis_stable a (body op a)) ->
             forall a, fuel_rel analysis_stable a
                         (for_each_fuel body program a)) as Hwalk.
  { intros body Hbody. apply for_each_fuel_rel;
      [apply analysis_stable_refl|apply analysis_stable_trans|done]. }
  unfold ComputeValueStorages.
  apply and_then_fuel_rel; [apply analysis_stable_trans| |].
  { apply Hwalk. intros op a. unfold seed_compute_op.
    destruct (is_ComputeOp _); [|apply analysis_stable_refl].
    apply for_each_fuel_rel;
      [apply analysis_stable_refl|apply analysis_stable_trans|].
    intros i a0. destruct (Storage op i); [|apply analysis_stable_refl].
    destruct (GetBufferLayout _ _); [|done]. apply SetStorage_stable. }
  intros a1. apply and_then_fuel_rel; [apply analysis_stable_trans| |].
  { apply Hwalk. intros op a. unfold seed_from_memref.
    destruct (op_kind op); try apply analysis_stable_refl.
    apply SetStorage_stable. }
  intros a2. apply and_then_fuel_rel; [apply analysis_stable_trans| |].
  { apply Hwalk. intros op a. unfold seed_from_scalar.
    destruct (op_kind op); try apply analysis_stable_refl.
    apply SetStorage_stable. }
  intros a3. apply and_then_fuel_rel; [apply analysis_stable_trans| |].
  { apply Hwalk. intros op a. unfold seed_to_memref.
    destruct (op_kind op); try apply analysis_stable_refl.
    destruct (Map _ _ _ _); [|done]. apply SetStorage_stable. }
  intros a4. apply buffers_stable_refl.
Qed.

Lemma MergeStorage_stable fuel value new_storage analysis :
  fuel_rel analysis_stable analysis
    (MergeStorage fuel value new_storage analysis).
Proof.
  unfold MergeStorage.
  destruct (MergeStorage_buffer _ _) as [buffers|] eqn:Hm; [|done].
  apply MergeStorage_buffer_stable in Hm.
  pose proof (SetStorage_stable fuel value new_storage
                (with_buffers analysis buffers)) as Hs.
  destruct (SetStorage _ _ _ _) as [[a'|d a'|]|]; simpl in *; try done.
  eapply buffers_stable_trans; [exact Hm|exact Hs].
Qed.

(** The loop of [GetFreshBufferName] looks at the names from
    [next_buffer_id] on only. *)
Lemma fresh_buffer_name_ext fuel (m m' : gmap StringAttr Buffer) next :
  (forall id, next <= id ->
              is_Some (m !! ("buffer_" +:+ pretty id))
              <-> is_Some (m' !! ("buffer_" +:+ pretty id))) ->
  fresh_buffer_name fuel m next = fresh_buffer_name fuel m' next.
Proof.
  revert next. induction fuel as [|fuel IH]; intros next Hext; simpl; [done|].
  pose proof (Hext next (le_n _)) as Hnext.
  destruct (m !! _) as [b|] eqn:Hm, (m' !! _) as [b'|] eqn:Hm'.
  - apply IH. intros id Hid. apply Hext. lia.
  - destruct Hnext as [Hnext _]. by destruct (Hnext (mk_is_Some _ _ eq_refl)).
  - destruct Hnext as [_ Hnext]. by destruct (Hnext (mk_is_Some _ _ eq_refl)).
  - done.
Qed.

(** The loop of [GetFreshBufferName] ends: one more name than there are
    buffers is enough. *)
Lemma fresh_buffer_name_is_Some fuel (m : gmap StringAttr Buffer) next :
  base.size m < fuel -> is_Some (fresh_buffer_name fuel m next).
Proof.
  revert m next. induction fuel as [|fuel IH]; intros m next Hsize; [lia|].
  simpl. destruct (m !! _) as [b|] eqn:Hm; [|by eauto].
  rewrite (fresh_buffer_name_ext fuel m
             (delete ("buffer_" +:+ pretty next) m) (S next)).
  - apply IH. rewrite map_size_delete_Some by eauto.
    destruct (base.size m) eqn:Hs; simpl; [|lia].
    apply map_size_empty_inv in Hs. by rewrite Hs in Hm.
  - intros id Hid. rewrite lookup_delete_ne; [done|].
    intros Heq. apply (inj (String.append "buffer_")) in Heq.
    apply (inj pretty) in Heq. lia.
Qed.

(** The name that [GetFreshBufferName] returns is not the name of a
    buffer, and the buffers and the storages are left as they are. *)
Lemma fresh_buffer_name_fresh fuel (m : gmap StringAttr Buffer) next name next' :
  fresh_buffer_name fuel m next = Some (name, next') ->
  m !! name = None /\ next < next'.
Proof.
  revert next.
  induction fuel as [|fuel IH]; intros next; cbn [fresh_buffer_name]; [done|].
  intros H. case_match eqn:Hm.
  - apply IH in H as [? ?]. split; [done|lia].
  - injection H as <- <-. split; [done|lia].
Qed.

Lemma GetFreshBufferName_returns analysis :
  exists name analysis',
    GetFreshBufferName analysis = Some (name, analysis')
    /\ buffers_ analysis !! name = None
    /\ buffers_ analysis' = buffers_ analysis
    /\ value_storages_ analysis' = value_storages_ analysis
    /\ next_buffer_id_ analysis < next_buffer_id_ analysis'.
Proof.
  unfold GetFreshBufferName.
  destruct (fresh_buffer_name_is_Some (S (base.size (buffers_ analysis)))
              (buffers_ analysis) (next_buffer_id_ analysis) (le_n _))
    as [[name next'] Hfresh].
  rewrite Hfresh. simpl. eexists _, _. split; [done|].
  apply fresh_buffer_name_fresh in Hfresh as [? ?]. by repeat split.
Qed.

Lemma CreateBuffer_stable fuel value loop_names analysis :
  fuel_rel analysis_stable analysis
    (CreateBuffer fuel value loop_names analysis).
Proof.
  unfold CreateBuffer, GetFreshBufferName.
  destruct (fresh_buffer_name _ _ _) as [[name next]|];
    cbn -[MergeBufferName MergeSpace MergeStorage try_emplace]; [|done].
  destruct (_ !! _) as [element_type|]; [|done].
  destruct (_ !! _) as [storage|]; [|done].
  destruct (MergeBufferName _ _) as [[] storage1]; [|done].
  destruct (MergeSpace _ _) as [[] storage2]; [|done].
  match goal with
  | |- context [MergeStorage fuel value storage2 ?a] =>
      pose proof (MergeStorage_stable fuel value storage2 a) as Hs;
      destruct (MergeStorage fuel value storage2 a) as [[a'|d a'|]|]
  end; simpl in *; try done;
    (eapply buffers_stable_trans; [apply buffers_stable_try_emplace|exact Hs]).
Qed.

Lemma AddDimensionsToBuffer_stable name op iter_space new_layout analysis :
  outcome_rel analysis_stable analysis
    (AddDimensionsToBuffer name op iter_space new_layout analysis).
Proof.
  unfold AddDimensionsToBuffer.
  destruct (buffers_ analysis !! name) as [buffer|] eqn:Hb; [|done].
  destruct (_ ≫= rank); [|done].
  destruct (AddDimensionsToBuffer_buffer _ _ _ _ _) as [buffer'| |] eqn:Ha;
    [|done|done].
  destruct (foldl _ _ _); [|done]. simpl.
  eapply buffers_stable_insert; [done|].
  by eapply AddDimensionsToBuffer_buffer_stable.
Qed.

(** [Init] keeps the buffers of the analysis stable. *)
Lemma Init_stable fuel program analysis :
  fuel_rel analysis_stable analysis (Init fuel program analysis).
Proof.
  unfold Init.
  pose proof (DeclareBuffers_stable program (buffers_ analysis)) as Hd.
  destruct (DeclareBuffers _ _) as [m1|d m1|]; simpl in Hd; [|done|done].
  assert (forall o,
             fuel_rel analysis_stable (with_buffers analysis m1) o ->
             fuel_rel analysis_stable analysis o) as Hlift.
  { intros [[a'|d a'|]|] Ho; simpl in *; try done;
      (eapply buffers_stable_trans; [exact Hd|exact Ho]). }
  apply Hlift.
  apply and_then_fuel_rel;
    [apply analysis_stable_trans|apply ComputeValueStorages_stable|].
  intros a2.
  pose proof (VerifyAndMinimizeBufferLoopNests_stable (buffers_ a2)) as Hv.
  destruct (VerifyAndMinimizeBufferLoopNests _) as [m3|d m3|];
    simpl in Hv; [|done|done].
  by destruct (Init_check_external_writes m3).
Qed.

(** The calls of a successful [Init]. *)
Lemma Init_Succeeded fuel program analysis analysis' :
  Init fuel program analysis = Some (Succeeded analysis') ->
  exists declared computed,
    DeclareBuffers program (buffers_ analysis) = Succeeded declared
    /\ ComputeValueStorages fuel program (with_buffers analysis declared)
       = Some (Succeeded computed)
    /\ VerifyAndMinimizeBufferLoopNests (buffers_ computed)
       = Succeeded (buffers_ analysis')
    /\ Init_check_external_writes (buffers_ analysis') = Succeeded ()
    /\ value_storages_ analysis' = value_storages_ computed.
Proof.
  unfold Init. intros H.
  destruct (DeclareBuffers _ _) as [declared|d declared|]; [|done|done].
  destruct (ComputeValueStorages _ _ _) as [[computed|d computed|]|]
    eqn:Hcomputed; cbn [and_then_fuel] in H; [|done|done|done].
  destruct (VerifyAndMinimizeBufferLoopNests _) as [minimized|d m|]
    eqn:Hminimized; [|done|done].
  destruct (Init_check_external_writes minimized) as [[]|d u|] eqn:Hcheck;
    [|done|done].
  injection H as <-. by exists declared, computed.
Qed.

(** *** The fuel of the propagation

    A call that returns within some fuel returns the same result with more
    fuel: the result of the analysis does not depend on the bound of its
    loops. *)

Lemma and_then_fuel_mono {S : Type} (o o' : option (Outcome S))
  (k k' : S -> option (Outcome S)) (r : Outcome S) :
  (forall r, o = Some r -> o' = Some r) ->
  (forall s r, k s = Some r -> k' s = Some r) ->
  and_then_fuel o k = Some r -> and_then_fuel o' k' = Some r.
Proof.
  intros Ho Hk H. destruct o as [[s|d s|]|]; simpl in H; [| | |done].
  - rewrite (Ho _ eq_refl). simpl. by apply Hk.
  - rewrite (Ho _ eq_refl). done.
  - rewrite (Ho _ eq_refl). done.
Qed.

Lemma for_each_fuel_mono {A S : Type}
  (body body' : A -> S -> option (Outcome S)) (xs : list A) :
  (forall x s r, body x s = Some r -> body' x s = Some r) ->
  forall s r,
    for_each_fuel body xs s = Some r -> for_each_fuel body' xs s = Some r.
Proof.
  intros Hbody. induction xs as [|x xs IH]; intros s r; simpl; [done|].
  apply and_then_fuel_mono; [apply Hbody|apply IH].
Qed.

Lemma drain_work_list_fuel_mono fuel fuel' state r :
  fuel <= fuel' ->
  drain_work_list fuel state = Some r -> drain_work_list fuel' state = Some r.
Proof.
  revert fuel' state.
  induction fuel as [|fuel IH]; intros fuel' [analysis wl] Hle;
    cbn [drain_work_list fst snd].
  - destruct wl; [|done]. intros <-. by destruct fuel'.
  - destruct fuel' as [|fuel']; [lia|]. cbn [drain_work_list fst snd].
    destruct wl as [|value wl]; [done|].
    destruct (propagate value (analysis, wl)) as [s1|d s1|]; [|done|done].
    apply IH. lia.
Qed.

Lemma SetStorage_fuel_mono fuel fuel' value storage analysis r :
  fuel <= fuel' ->
  SetStorage fuel value storage analysis = Some r ->
  SetStorage fuel' value storage analysis = Some r.
Proof.
  intros Hle. unfold SetStorage.
  destruct (update_storage _ _ _) as [s1|d s1|]; [|done|done].
  by apply drain_work_list_fuel_mono.
Qed.

Lemma ComputeValueStorages_fuel_mono fuel fuel' program analysis r :
  fuel <= fuel' ->
  ComputeValueStorages fuel program analysis = Some r ->
  ComputeValueStorages fuel' program analysis = Some r.
Proof.
  intros Hle. unfold ComputeValueStorages.
  apply and_then_fuel_mono.
  { apply for_each_fuel_mono. intros op a r'. unfold seed_compute_op.
    destruct (is_ComputeOp _); [|done].
    apply for_each_fuel_mono. intros i a0 r''.
    destruct (Storage op i); [|done].
    destruct (GetBufferLayout _ _); [|done].
    by apply SetStorage_fuel_mono. }
  intros a1 r1. apply and_then_fuel_mono.
  { apply for_each_fuel_mono. intros op a r'. unfold seed_from_memref.
    destruct (op_kind op); try done. by apply SetStorage_fuel_mono. }
  intros a2 r2. apply and_then_fuel_mono.
  { apply for_each_fuel_mono. intros op a r'. unfold seed_from_scalar.
    destruct (op_kind op); try done. by apply SetStorage_fuel_mono. }
  intros a3 r3. apply and_then_fuel_mono; [|done].
  apply for_each_fuel_mono. intros op a r'. unfold seed_to_memref.
  destruct (op_kind op); try done.
  destruct (Map _ _ _ _); [|done]. by apply SetStorage_fuel_mono.
Qed.

Lemma Init_fuel_mono fuel fuel' program analysis r :
  fuel <= fuel' ->
  Init fuel program analysis = Some r -> Init fuel' program analysis = Some r.
Proof.
  intros Hle. unfold Init.
  destruct (DeclareBuffers _ _) as [declared|d declared|]; [|done|done].
  apply and_then_fuel_mono; [|done].
  intros r'. by apply ComputeValueStorages_fuel_mono.
Qed.

Lemma analysis_step_stable m m' :
  analysis_step m m' -> buffers_stable m m'.
Proof.
  intros [program m1 m2 H|value new_storage storage storage' m1 m2 H
         |fuel value storage a a' H|fuel program a a' H
         |fuel value storage a a' H|fuel value loop_names a a' H
         |name op iter_space new_layout a a' H|m1 m2 H].
  - pose proof (DeclareBuffers_stable program m1) as Hs. by rewrite H in Hs.
  - pose proof (UpdateStorage_stable value new_storage storage m1) as Hs.
    by rewrite H in Hs.
  - pose proof (SetStorage_stable fuel value storage a) as Hs.
    by rewrite H in Hs.
  - pose proof (ComputeValueStorages_stable fuel program a) as Hs.
    by rewrite H in Hs.
  - pose proof (MergeStorage_stable fuel value storage a) as Hs.
    by rewrite H in Hs.
  - pose proof (CreateBuffer_stable fuel value loop_names a) as Hs.
    by rewrite H in Hs.
  - pose proof (AddDimensionsToBuffer_stable name op iter_space new_layout a)
      as Hs.
    by rewrite H in Hs.
  - pose proof (VerifyAndMinimizeBufferLoopNests_stable m1) as Hs.
    by rewrite H in Hs.
Qed.

Lemma analysis_steps_stable m m' :
  rtc analysis_step m m' -> buffers_stable m m'.
Proof.
  induction 1 as [|m1 m2 m3 Hstep _ IH].
  - apply buffers_stable_refl.
  - eapply buffers_stable_trans; [|done]. by apply analysis_step_stable.
Qed.

(** C6: the loop nest of a buffer only shrinks.  A call to [SetLoopNest]
    that returns sets a loop nest that is a prefix of the current one; the
    two callers, [TrimBufferLoopNestForAccess] and the minimization, always
    call it with a loop nest that is not longer than the current one; and
    after any sequence of mutations of the table of buffers by the analysis
    that ends with [VerifyAndMinimizeBufferLoopNests], every buffer that
    was in the table at the start is still there with a loop nest that is
    not longer.  In particular, when [Init] succeeds, every buffer has a
    loop nest that is not longer than the one it had after
    [DeclareBuffers]. *)
Theorem loop_nest_shrinks_only :
  (forall b ln b',
      SetLoopNest b ln = Some b' ->
      length (loop_nest_ b') <= length (loop_nest_ b)
      /\ loop_nest_ b' = take (size (domain_to_loops ln)) (loop_nest_ b))
  /\ (forall iter_space layout buffer,
         is_Some (TrimBufferLoopNestForAccess iter_space layout buffer))
  /\ (forall buffer min_num_loops,
         is_Some (SetLoopNest buffer
                    (GetLoopNest (take min_num_loops (loop_nest_ buffer)))))
  /\ (forall declared current minimized,
         rtc analysis_step declared current ->
         VerifyAndMinimizeBufferLoopNests current = Succeeded minimized ->
         loop_nests_shrink declared minimized)
  /\ (forall fuel program analysis declared analysis',
         DeclareBuffers program (buffers_ analysis) = Succeeded declared ->
         Init fuel program analysis = Some (Succeeded analysis') ->
         loop_nests_shrink declared (buffers_ analysis')).
Proof using GetLoopNest_size.
  repeat split.
  - apply SetLoopNest_loop_nest in H as [_ ->]. rewrite length_take. lia.
  - by apply SetLoopNest_loop_nest in H as [_ ->].
  - intros iter_space layout buffer.
    destruct (TrimBufferLoopNestForAccess_take iter_space layout buffer)
      as (b' & -> & _). by eauto.
  - intros buffer n. apply SetLoopNest_is_Some.
    rewrite GetLoopNest_size, length_take. lia.
  - intros declared current minimized Hsteps Hmin.
    apply buffers_stable_shrink.
    eapply buffers_stable_trans; [by apply analysis_steps_stable|].
    pose proof (VerifyAndMinimizeBufferLoopNests_stable current) as Hs.
    by rewrite Hmin in Hs.
  - intros fuel program analysis declared analysis' Hdeclared Hinit.
    apply Init_Succeeded in Hinit
      as (declared' & computed & Hd & Hc & Hv & _ & _).
    rewrite Hdeclared in Hd. injection Hd as <-.
    apply buffers_stable_shrink.
    pose proof (ComputeValueStorages_stable fuel program
                  (with_buffers analysis declared)) as Hcs.
    rewrite Hc in Hcs.
    pose proof (VerifyAndMinimizeBufferLoopNests_stable (buffers_ computed))
      as Hvs.
    rewrite Hv in Hvs.
    eapply buffers_stable_trans; [exact Hcs|exact Hvs].
Qed.

(* ===================================================================== *)
(** ** Declaration of buffers *)
(* ===================================================================== *)

(** C4: coherence of the element type.  When the result of an operation is
    annotated with the name of a buffer that is already in the table,
    [DeclareBuffer] fails if the element type of the result differs from
    the element type of the buffer, with a diagnostic at the operation that
    names the buffer and a note at the location of the buffer, and leaves
    the table as it is; if the element types are equal the check passes: a
    failure, if any, is the rank conflict or comes from the unification of
    the layouts, and the buffer keeps its element type. *)
Theorem element_type_coherence (op : Operation) (result : nat)
  (attr : BufferAttr) (name : StringAttr) (element_type : ElementType)
  (buffer : Buffer) (buffer_map : gmap StringAttr Buffer) :
  attr_name attr = Some name ->
  op_results op !! result = Some element_type ->
  buffer_map !! name = Some buffer ->
  (element_type_ buffer <> element_type ->
   DeclareBuffer op result (Some attr) buffer_map
   = Failed (element_type_conflict op name buffer) buffer_map
   /\ diag_loc (element_type_conflict op name buffer) = op_loc op
   /\ Name (Some name) ∈ diag_message (element_type_conflict op name buffer)
   /\ diag_note (element_type_conflict op name buffer)
      = Some (loc_ buffer, "previous occurence here"))
  /\ (element_type_ buffer = element_type ->
      outcome_rel
        (fun _ m' =>
           exists buffer', m' !! name = Some buffer'
                           /\ element_type_ buffer' = element_type_ buffer)
        buffer_map (DeclareBuffer op result (Some attr) buffer_map)
      /\ forall d m',
          DeclareBuffer op result (Some attr) buffer_map = Failed d m' ->
          d = rank_conflict op name buffer
          \/ exists layout trimmed,
              GetBufferLayout op attr = Some (Some layout)
              /\ TrimBufferLoopNestForAccess (iteration_spaces op)
                   (Some layout) buffer = Some trimmed
              /\ UnifyBufferShape name op layout (iteration_spaces op) trimmed
                 = Failed d trimmed).
Proof.
  intros Hname Hty Hbuffer.
  unfold DeclareBuffer. rewrite Hname, Hty. unfold try_emplace.
  rewrite Hbuffer, Hbuffer. split.
  - intros Hne. rewrite decide_True by done. repeat split.
    simpl. rewrite !elem_of_cons. by auto.
  - intros Heq. rewrite decide_False by (by intros ?).
    destruct (GetBufferLayout op attr) as [layout|] eqn:Hlayout; [|by split].
    case_decide.
    { split; [by exists buffer|]. intros d m' [= <- <-]. by left. }
    destruct (TrimBufferLoopNestForAccess _ _ _) as [trimmed|] eqn:Htrim;
      [|by split].
    pose proof (TrimBufferLoopNestForAccess_stable _ _ _ _ Htrim)
      as [(_ & Hty' & _) _].
    destruct layout as [layout|].
    + pose proof (UnifyBufferShape_stable name op layout
                    (iteration_spaces op) trimmed) as Hu.
      destruct (UnifyBufferShape _ _ _ _ _) as [unified|d unified|] eqn:Hshape;
        simpl.
      * split; [|done]. exists unified. rewrite lookup_insert_eq.
        split; [done|]. destruct Hu as (_ & -> & _). done.
      * subst unified. split.
        -- exists trimmed. by rewrite lookup_insert_eq.
        -- intros d' m' [= <- <-]. right. by exists layout, trimmed.
      * by split.
    + simpl. split; [|done]. exists trimmed. by rewrite lookup_insert_eq.
Qed.

Lemma UnifyBufferShape_rank name op layout iter_space buffer r :
  rank buffer = Some r ->
  size layout = r ->
  match UnifyBufferShape name op layout iter_space buffer with
  | Succeeded buffer' => rank buffer' = Some r
  | _ => True
  end.
Proof using Canonicalize_size.
  intros Hrank Hsize. unfold UnifyBufferShape.
  destruct (match layout_ buffer with Some _ => _ | None => _ end); [|done].
  destruct (resolve_constraints _ _ _ _ _ _ _) as [[constraints new_domain]| |];
    try done.
  unfold rank in Hrank.
  destruct (layout_ buffer) as [old_layout|] eqn:Hl; [|done].
  simpl in Hrank. simplify_eq.
  unfold UnifyLayout, AppendToDomain. simpl. rewrite Hl. simpl.
  destruct (Unify _ _) as [unified|] eqn:Hu; simpl; [|done].
  apply Unify_size in Hu.
  rewrite ResizeUseDomain_size, Compose_size, Canonicalize_size, Compose_size
    in Hu.
  unfold rank. simpl. f_equal. lia.
Qed.

(** C5: stability of the rank.  When the result of an operation is
    annotated with the name of a buffer of the table that has a rank,
    the buffer has the same rank after [DeclareBuffer], whether it succeeds
    or fails, and the other buffers are left as they are; and when the
    element types agree and the layout that the annotation implies has
    another size than the rank, [DeclareBuffer] fails with the rank
    conflict, at the operation with a note at the location of the buffer,
    and leaves the table as it is. *)
Theorem rank_stability (op : Operation) (result : nat) (attr : BufferAttr)
  (name : StringAttr) (buffer : Buffer) (r : nat)
  (buffer_map : gmap StringAttr Buffer) :
  attr_name attr = Some name ->
  buffer_map !! name = Some buffer ->
  rank buffer = Some r ->
  outcome_rel
    (fun m m' =>
       (exists buffer', m' !! name = Some buffer' /\ rank buffer' = Some r)
       /\ forall name', name' <> name -> m' !! name' = m !! name')
    buffer_map (DeclareBuffer op result (Some attr) buffer_map)
  /\ (forall layout,
         op_results op !! result = Some (element_type_ buffer) ->
         GetBufferLayout op attr = Some (Some layout) ->
         size layout <> r ->
         DeclareBuffer op result (Some attr) buffer_map
         = Failed (rank_conflict op name buffer) buffer_map
         /\ diag_loc (rank_conflict op name buffer) = op_loc op
         /\ diag_note (rank_conflict op name buffer)
            = Some (loc_ buffer, "previous occurence here")).
Proof using Canonicalize_size.
  intros Hname Hbuffer Hrank.
  unfold DeclareBuffer. rewrite Hname. unfold try_emplace.
  rewrite Hbuffer, Hbuffer. split.
  - destruct (op_results op !! result) as [ty|]; [|done].
    case_decide; [by split; [exists buffer|]|].
    destruct (GetBufferLayout op attr) as [layout|]; [|done].
    case_decide as Hconflict; [by split; [exists buffer|]|].
    destruct (TrimBufferLoopNestForAccess _ _ _) as [trimmed|] eqn:Htrim;
      [|done].
    pose proof (TrimBufferLoopNestForAccess_stable _ _ _ _ Htrim)
      as [_ Hrank'].
    rewrite Hrank in Hrank'.
    destruct layout as [layout|].
    + assert (size layout = r) as Hsize.
      { destruct (decide (size layout = r)) as [|Hne]; [done|].
        exfalso. apply Hconflict. rewrite Hrank. repeat split; try by eauto.
        simpl. congruence. }
      pose proof (UnifyBufferShape_rank name op layout (iteration_spaces op)
                    trimmed r Hrank' Hsize) as Hr.
      pose proof (UnifyBufferShape_stable name op layout
                    (iteration_spaces op) trimmed) as Hu.
      destruct (UnifyBufferShape _ _ _ _ _) as [unified|d unified|]; simpl;
        try done.
      * split; [exists unified; by rewrite lookup_insert_eq|].
        intros name' Hne. by rewrite lookup_insert_ne.
      * subst unified. split; [exists trimmed; by rewrite lookup_insert_eq|].
        intros name' Hne. by rewrite lookup_insert_ne.
    + simpl. split; [exists trimmed; by rewrite lookup_insert_eq|].
      intros name' Hne. by rewrite lookup_insert_ne.
  - intros layout Hty Hlayout Hsize. rewrite Hty, Hlayout.
    rewrite decide_False by (by intros ?).
    rewrite decide_True; [done|].
    rewrite Hrank. repeat split; try by eauto. simpl. congruence.
Qed.

Lemma check_fully_specified_None (entries : list (StringAttr * Buffer)) :
  check_fully_specified entries = None <->
  forall name b l,
    (name, b) ∈ entries -> layout_ b = Some l -> HasNoneExprs l = false.
Proof.
  induction entries as [|[name b] entries IH]; simpl.
  - split; [|done]. intros _ name b l Hin. by apply elem_of_nil in Hin.
  - destruct (layout_ b) as [l|] eqn:Hl.
    + destruct (HasNoneExprs l) eqn:Hnone.
      * split; [done|]. intros H.
        specialize (H name b l ltac:(left) Hl). congruence.
      * rewrite IH. split.
        -- intros H name' b' l' Hin Hl'.
           apply elem_of_cons in Hin as [[= -> ->]|Hin]; [congruence|].
           by eapply H.
        -- intros H name' b' l' Hin Hl'. eapply H; [by right|done].
    + rewrite IH. split.
      * intros H name' b' l' Hin Hl'.
        apply elem_of_cons in Hin as [[= -> ->]|Hin]; [congruence|].
        by eapply H.
      * intros H name' b' l' Hin Hl'. eapply H; [by right|done].
Qed.

Lemma check_fully_specified_Some (entries : list (StringAttr * Buffer)) d :
  check_fully_specified entries = Some d ->
  exists name b l,
    (name, b) ∈ entries /\ layout_ b = Some l /\ HasNoneExprs l = true
    /\ d = layout_not_fully_specified name b.
Proof.
  induction entries as [|[name b] entries IH]; simpl; [done|].
  destruct (layout_ b) as [l|] eqn:Hl.
  - destruct (HasNoneExprs l) eqn:Hnone.
    + intros [= <-]. exists name, b, l. repeat split; try done. by left.
    + intros H. destruct (IH H) as (name' & b' & l' & Hin & ?).
      exists name', b', l'. split; [by right|done].
  - intros H. destruct (IH H) as (name' & b' & l' & Hin & ?).
    exists name', b', l'. split; [by right|done].
Qed.

(** A buffer that [DeclareBuffer] creates has the location of the
    operation. *)
Lemma DeclareBuffer_creates op result attr name buffer_map :
  attr_name attr = Some name ->
  buffer_map !! name = None ->
  outcome_rel
    (fun _ m' => exists buffer', m' !! name = Some buffer'
                                 /\ loc_ buffer' = op_loc op)
    buffer_map (DeclareBuffer op result (Some attr) buffer_map).
Proof.
  intros Hname Hnone. unfold DeclareBuffer. rewrite Hname.
  destruct (op_results op !! result) as [ty|]; [|done].
  unfold try_emplace. rewrite Hnone, lookup_insert_eq.
  set (b := Buffer_new _ _ _ _).
  case_decide; [by exists b; rewrite lookup_insert_eq|].
  destruct (GetBufferLayout op attr) as [layout|]; [|done].
  case_decide; [by exists b; rewrite lookup_insert_eq|].
  destruct (TrimBufferLoopNestForAccess _ _ _) as [trimmed|] eqn:Htrim; [|done].
  pose proof (TrimBufferLoopNestForAccess_stable _ _ _ _ Htrim)
    as [(Hloc & _) _].
  destruct layout as [layout|].
  - pose proof (UnifyBufferShape_stable name op layout
                  (iteration_spaces op) trimmed) as Hu.
    destruct (UnifyBufferShape _ _ _ _ _) as [unified|d unified|]; simpl;
      try done.
    + exists unified. rewrite lookup_insert_eq. split; [done|].
      destruct Hu as (-> & _). done.
    + rewrite Hu. exists trimmed. by rewrite lookup_insert_eq.
  - simpl. exists trimmed. by rewrite lookup_insert_eq.
Qed.

(** An external buffer has the location of the operation that imports
    it. *)
Lemma DeclareExternalBuffer_creates op info buffers :
  buffers !! info_buffer_name info = None ->
  outcome_rel
    (fun _ m' => exists buffer', m' !! info_buffer_name info = Some buffer'
                                 /\ loc_ buffer' = op_loc op)
    buffers (DeclareExternalBuffer op info buffers).
Proof.
  intros Hnone. unfold DeclareExternalBuffer. rewrite Hnone.
  match goal with
  | |- context [UnifyBufferShape ?n ?o ?l ?sp ?b] =>
      pose proof (UnifyBufferShape_stable n o l sp b) as Hu;
      destruct (UnifyBufferShape n o l sp b) as [unified|d unified|]
  end; simpl; try done.
  - exists unified. rewrite lookup_insert_eq. split; [done|].
    destruct Hu as (-> & _). done.
  - rewrite Hu. eexists. by rewrite lookup_insert_eq.
Qed.

(** C2: after the declarations, the layout of every buffer is fully
    specified.  Once the two walks of [DeclareBuffers] have succeeded,
    [DeclareBuffers] succeeds exactly when no buffer of the table has a
    none placeholder in its layout; otherwise it fails with the diagnostic
    that the layout of such a buffer is not fully specified, at the
    location of this buffer.  This location is the one of the operation
    that created the buffer: [DeclareBuffer] and the declaration of an
    external buffer give a new buffer the location of the operation, and
    the declarations keep the location of every buffer of the table. *)
Theorem layouts_fully_specified (program : list Operation)
  (buffers : gmap StringAttr Buffer) :
  match declare_all program buffers with
  | Succeeded declared =>
      (DeclareBuffers program buffers = Succeeded declared
       /\ forall name b l,
           declared !! name = Some b -> layout_ b = Some l ->
           HasNoneExprs l = false)
      \/ (exists name b l,
             declared !! name = Some b /\ layout_ b = Some l
             /\ HasNoneExprs l = true
             /\ DeclareBuffers program buffers
                = Failed (layout_not_fully_specified name b) declared
             /\ diag_loc (layout_not_fully_specified name b) = loc_ b)
  | Failed d m => DeclareBuffers program buffers = Failed d m
  | Aborted => DeclareBuffers program buffers = Aborted
  end
  /\ outcome_rel buffers_stable buffers (declare_all program buffers)
  /\ (forall op result attr name m,
         attr_name attr = Some name ->
         m !! name = None ->
         outcome_rel
           (fun _ m' => exists buffer', m' !! name = Some buffer'
                                        /\ loc_ buffer' = op_loc op)
           m (DeclareBuffer op result (Some attr) m))
  /\ (forall op info m,
         m !! info_buffer_name info = None ->
         outcome_rel
           (fun _ m' => exists buffer',
                m' !! info_buffer_name info = Some buffer'
                /\ loc_ buffer' = op_loc op)
           m (DeclareExternalBuffer op info m)).
Proof.
  split; [|split; [apply declare_all_stable|split]].
  - unfold DeclareBuffers.
    destruct (declare_all program buffers) as [declared|d m|]; simpl;
      try done.
    destruct (check_fully_specified (map_to_list declared)) as [d|] eqn:Hc.
    + right. apply check_fully_specified_Some in Hc
        as (name & b & l & Hin & Hl & Hnone & ->).
      apply elem_of_map_to_list in Hin. by exists name, b, l.
    + left. split; [done|]. intros name b l Hb Hl.
      eapply check_fully_specified_None; [done| |done].
      by apply elem_of_map_to_list.
  - intros. by apply DeclareBuffer_creates.
  - intros. by apply DeclareExternalBuffer_creates.
Qed.

(* ===================================================================== *)
(** ** Verification passes *)
(* ===================================================================== *)

(** A loop of checks succeeds when every check does, and otherwise returns
    what the first check that does not succeed returns. *)
Lemma for_each_unit_cases {A : Type} (body : A -> unit -> Outcome unit)
  (xs : list A) :
  match for_each body xs () with
  | Succeeded _ => Forall (fun x => body x () = Succeeded ()) xs
  | Failed d _ =>
      exists before x after,
        xs = before ++ x :: after
        /\ Forall (fun x => body x () = Succeeded ()) before
        /\ body x () = Failed d ()
  | Aborted =>
      exists before x after,
        xs = before ++ x :: after
        /\ Forall (fun x => body x () = Succeeded ()) before
        /\ body x () = Aborted
  end.
Proof.
  induction xs as [|x xs IH]; simpl; [done|].
  destruct (body x ()) as [[]|d []|] eqn:Hx; simpl.
  - destruct (for_each body xs ()) as [[]|d []|].
    + by constructor.
    + destruct IH as (before & y & after & -> & Hbefore & Hy).
      exists (x :: before), y, after. repeat split; try done.
      by constructor.
    + destruct IH as (before & y & after & -> & Hbefore & Hy).
      exists (x :: before), y, after. repeat split; try done.
      by constructor.
  - by exists [], x, xs.
  - by exists [], x, xs.
Qed.

Lemma for_each_unit_Succeeded {A : Type} (body : A -> unit -> Outcome unit)
  (xs : list A) :
  for_each body xs () = Succeeded ()
  <-> Forall (fun x => body x () = Succeeded ()) xs.
Proof.
  split.
  - intros H. pose proof (for_each_unit_cases body xs) as Hc.
    by rewrite H in Hc.
  - induction 1 as [|x xs Hx _ IH]; simpl; [done|]. by rewrite Hx.
Qed.

(** The communication volume of a value, when every loop of the producer
    iterates over one dimension of its domain: the dimensions of the domain
    of the value that no common loop iterates over. *)
Lemma CommunicationVolume_uncovered (value_rank : nat)
  (def_iter_space use_iter_space : IterationSpace) :
  partial_injection (mapping def_iter_space) = true ->
  CommunicationVolume value_rank def_iter_space use_iter_space
  = mkMapping value_rank
      (MappingDimExpr
         <$> uncovered_dimensions value_rank def_iter_space use_iter_space).
Proof using Inverse_partial_injection MakeSurjective_partial_injection.
  intros Hm. unfold CommunicationVolume, uncovered_dimensions.
  set (k := NumCommonLoops_space def_iter_space use_iter_space).
  set (loops := Resize (ResizeUseDomain (mapping def_iter_space) value_rank) k).
  pose proof (domain_to_common_loops_injection _ value_rank k Hm) as Hloops.
  fold loops in Hloops.
  rewrite (Inverse_partial_injection loops Hloops).
  rewrite (MakeSurjective_partial_injection _
             (Inverse_dims_partial_injection loops)).
  rewrite (Inverse_partial_injection _
             (MakeSurjective_dims_partial_injection _
                (Inverse_dims_partial_injection loops))).
  assert (size loops = k) as Hsize.
  { unfold loops, Resize, size. cbn [Dimensions].
    rewrite length_app, length_take, length_replicate. unfold size. lia. }
  assert (UseDomainSize loops = value_rank) as Hdomain.
  { unfold loops, Resize, ResizeUseDomain. by case_decide. }
  rewrite <- Hsize at 1. rewrite uncovered_dimensions_of, Hdomain.
  f_equal. f_equal. apply filter_ext_in. intros d Hd.
  apply elem_of_seq in Hd.
  unfold loops. rewrite domain_to_common_loops_covered; [done|done|lia].
Qed.

Lemma stored_dimension_Compose (def_iter_space : IterationSpace)
  (layout : MappingAttr) (d : nat) :
  partial_injection (mapping def_iter_space) = true ->
  partial_injection layout = true ->
  stored_dimension def_iter_space layout d
  <-> MappingDimExpr d ∈ Dimensions (Compose (mapping def_iter_space) layout).
Proof.
  intros Hm Hl. unfold stored_dimension. rewrite list_elem_of_lookup.
  split.
  - intros (i & j & Hi & Hj). exists i.
    apply Compose_lookup_dim; [done..|]. by exists j.
  - intros (i & Hi). apply Compose_lookup_dim in Hi as (j & ? & ?); [|done..].
    by exists i, j.
Qed.

(** The layout composed with the communication volume has a none
    expression exactly when a dimension of the value is neither iterated
    over by a common loop nor stored in the buffer. *)
Lemma layout_to_communication_volume_none (use_iter_space : IterationSpace)
  (operand : ValueAccess) (layout : MappingAttr) :
  let def_iter_space :=
    iteration_spaces (getDefiningOp (access_value operand)) in
  partial_injection (mapping def_iter_space) = true ->
  partial_injection layout = true ->
  HasNoneExprs (layout_to_communication_volume use_iter_space operand layout)
  = true
  <-> exists d,
      d ∈ uncovered_dimensions (size (access_mapping operand))
            def_iter_space use_iter_space
      /\ ~ stored_dimension def_iter_space layout d.
Proof using Inverse_partial_injection MakeSurjective_partial_injection
  Canonicalize_stripe_free.
  intros def_iter_space Hm Hl. unfold layout_to_communication_volume.
  fold def_iter_space.
  rewrite CommunicationVolume_uncovered by done.
  pose proof (Compose_partial_injection _ _ Hm Hl) as Hcompose.
  rewrite (Inverse_partial_injection _ Hcompose).
  rewrite Canonicalize_stripe_free
    by apply stripe_free_Compose_Inverse_dims.
  rewrite inverse_covers by done.
  split; intros (d & Hd & Hstored); exists d; (split; [done|]);
    by rewrite stored_dimension_Compose in * by done.
Qed.

(** C7: verification of the communication volume of one operand.  The
    check succeeds when the iteration space of the user or the one of the
    producer is not fully specified, and when the layout of the storage of
    the value is null.  When both iteration spaces are fully specified and
    the layout is not null, it fails exactly when the layout composed with
    the communication volume has a none expression, with a diagnostic at
    the location of the use and a note at the operation that defines the
    value.  When every loop of the producer iterates over one dimension of
    its domain, the communication volume is the mapping from the domain of
    the value to its dimensions that no loop common to the producer and the
    user iterates over; when moreover every dimension of the layout is
    indexed by one loop, the check fails exactly when one of these
    dimensions is not stored in any dimension of the buffer, and succeeds
    exactly when the buffer stores them all. *)
Theorem communication_volume_coverage (loc : Location)
  (use_iter_space : IterationSpace) (operand : ValueAccess)
  (value_storages : gmap Value ValueStorage) :
  let def_iter_space :=
    iteration_spaces (getDefiningOp (access_value operand)) in
  let verify :=
    VerifyCommunicationVolume loc use_iter_space operand value_storages in
  let value_rank := size (access_mapping operand) in
  let uncovered :=
    uncovered_dimensions value_rank def_iter_space use_iter_space in
  (fully_specified use_iter_space = false
   \/ fully_specified def_iter_space = false ->
   verify = Succeeded ())
  /\ (forall storage,
         GetStorage value_storages (access_value operand) = Some storage ->
         storage_layout storage = None ->
         verify = Succeeded ())
  /\ (forall storage l,
         fully_specified use_iter_space = true ->
         fully_specified def_iter_space = true ->
         GetStorage value_storages (access_value operand) = Some storage ->
         storage_layout storage = Some l ->
         (HasNoneExprs (layout_to_communication_volume use_iter_space operand l)
          = true ->
          verify = Failed (incomplete_storage loc operand) ())
         /\ (HasNoneExprs
               (layout_to_communication_volume use_iter_space operand l)
             = false ->
             verify = Succeeded ()))
  /\ diag_loc (incomplete_storage loc operand) = loc
  /\ diag_note (incomplete_storage loc operand)
     = Some (op_loc (getDefiningOp (access_value operand)),
             "operand defined here")
  /\ (forall d,
         d ∈ uncovered
         <-> d < value_rank
             /\ forall j,
                 j < NumCommonLoops_space def_iter_space use_iter_space ->
                 Dimensions (mapping def_iter_space) !! j
                 <> Some (MappingDimExpr d))
  /\ (partial_injection (mapping def_iter_space) = true ->
      CommunicationVolume value_rank def_iter_space use_iter_space
      = mkMapping value_rank (MappingDimExpr <$> uncovered))
  /\ (forall storage l,
         fully_specified use_iter_space = true ->
         fully_specified def_iter_space = true ->
         GetStorage value_storages (access_value operand) = Some storage ->
         storage_layout storage = Some l ->
         partial_injection (mapping def_iter_space) = true ->
         partial_injection l = true ->
         (verify = Failed (incomplete_storage loc operand) ()
          <-> exists d,
              d ∈ uncovered /\ ~ stored_dimension def_iter_space l d)
         /\ (verify = Succeeded ()
             <-> forall d,
                 d ∈ uncovered -> stored_dimension def_iter_space l d)).
Proof using Inverse_partial_injection MakeSurjective_partial_injection
  Canonicalize_stripe_free.
  intros def_iter_space verify value_rank uncovered.
  subst verify. unfold VerifyCommunicationVolume. fold def_iter_space.
  split; [|split; [|split; [|split; [|split; [|split; [|split]]]]]].
  - intros [-> | ->]; simpl; [done|]. by rewrite orb_true_r.
  - intros storage -> ->. by destruct (negb _ || negb _).
  - intros storage l Huse Hdef Hstorage Hlayout.
    rewrite Huse, Hdef, Hstorage, Hlayout. simpl.
    split; intros ->; done.
  - done.
  - done.
  - intros d. unfold uncovered, uncovered_dimensions.
    rewrite list_elem_of_filter, elem_of_seq, list_elem_of_lookup.
    split.
    + intros [Hnot Hd]. split; [lia|]. intros j Hj Hlookup.
      apply Hnot. exists j. by rewrite lookup_take_lt.
    + intros [Hd Hnot]. split; [|lia]. intros [j Hj].
      destruct (decide (j < NumCommonLoops_space def_iter_space
                             use_iter_space)) as [Hlt|Hge].
      * rewrite lookup_take_lt in Hj by done. by apply (Hnot j).
      * rewrite lookup_take_ge in Hj by lia. done.
  - apply CommunicationVolume_uncovered.
  - intros storage l Huse Hdef Hstorage Hlayout Hm Hl.
    rewrite Huse, Hdef, Hstorage, Hlayout. simpl.
    pose proof (layout_to_communication_volume_none use_iter_space operand l
                  Hm Hl) as Hnone.
    cbv zeta in Hnone. fold def_iter_space value_rank uncovered in Hnone.
    destruct (HasNoneExprs _) eqn:Hhas.
    + split.
      * split; [intros _; by apply Hnone|done].
      * split; [done|]. intros Hall.
        destruct (proj1 Hnone eq_refl) as (d & Hd & Hstored).
        exfalso. by apply Hstored, Hall.
    + split.
      * split; [done|]. intros Hex. apply Hnone in Hex. done.
      * split; [|done]. intros _ d Hd.
        destruct (decide (MappingDimExpr d
                          ∈ Dimensions (Compose (mapping def_iter_space) l)))
          as [Hin|Hnotin].
        -- by apply stored_dimension_Compose.
        -- exfalso. assert (false = true) as Habs; [|done].
           apply Hnone. exists d.
           split; [done|]. by rewrite stored_dimension_Compose.
Qed.

(** C8: in-place updates use one layout.  For a result of a compute
    operation whose storage has a buffer name, and an operand whose storage
    has the same buffer name, the check succeeds when the layout of the
    storage of the operand, mapped through the mapping of the operand, is
    equal to the layout of the result, and fails otherwise with the
    in-place diagnostic at the operation; two layouts whose expressions are
    a permutation of each other and differ fail.  The walk over the program
    succeeds when every such pair passes the check, and a failure of the
    walk is the failure of such a pair. *)
Theorem in_place_update_layout (program : list Operation)
  (value_storages : gmap Value ValueStorage) :
  (forall op result_storage operand operand_storage mapped,
      GetStorage value_storages (operand_value operand) = Some operand_storage ->
      buffer_name operand_storage = buffer_name result_storage ->
      Map_operand operand_storage op operand = Some mapped ->
      (storage_layout mapped = storage_layout result_storage ->
       verify_in_place_operand op value_storages result_storage operand
       = Succeeded ())
      /\ (storage_layout mapped <> storage_layout result_storage ->
          verify_in_place_operand op value_storages result_storage operand
          = Failed (in_place_conflict op result_storage mapped) ()
          /\ diag_loc (in_place_conflict op result_storage mapped) = op_loc op)
      /\ (forall l1 l2,
             storage_layout mapped = Some l1 ->
             storage_layout result_storage = Some l2 ->
             Dimensions l1 ≡ₚ Dimensions l2 ->
             Dimensions l1 <> Dimensions l2 ->
             verify_in_place_operand op value_storages result_storage operand
             = Failed (in_place_conflict op result_storage mapped) ()))
  /\ (VerifyStorages_in_place program value_storages = Succeeded () ->
      forall op result result_storage operand operand_storage,
        op ∈ program ->
        is_ComputeOp (op_kind op) = true ->
        result ∈ getResults op ->
        GetStorage value_storages result = Some result_storage ->
        is_Some (buffer_name result_storage) ->
        operand ∈ op_operands op ->
        GetStorage value_storages (operand_value operand)
        = Some operand_storage ->
        buffer_name operand_storage = buffer_name result_storage ->
        exists mapped,
          Map_operand operand_storage op operand = Some mapped
          /\ storage_layout mapped = storage_layout result_storage)
  /\ (forall d,
         VerifyStorages_in_place program value_storages = Failed d () ->
         exists op result result_storage operand operand_storage mapped,
           op ∈ program
           /\ is_ComputeOp (op_kind op) = true
           /\ result ∈ getResults op
           /\ GetStorage value_storages result = Some result_storage
           /\ is_Some (buffer_name result_storage)
           /\ operand ∈ op_operands op
           /\ GetStorage value_storages (operand_value operand)
              = Some operand_storage
           /\ buffer_name operand_storage = buffer_name result_storage
           /\ Map_operand operand_storage op operand = Some mapped
           /\ storage_layout mapped <> storage_layout result_storage
           /\ d = in_place_conflict op result_storage mapped).
Proof.
  split; [|split].
  - intros op result_storage operand operand_storage mapped Hos Hname Hmap.
    unfold verify_in_place_operand. rewrite Hos.
    rewrite decide_False by (by intros ?). rewrite Hmap.
    split; [|split].
    + intros Heq. by rewrite decide_False by (by intros ?).
    + intros Hne. by rewrite decide_True.
    + intros l1 l2 H1 H2 _ Hne. rewrite decide_True; [done|].
      rewrite H1, H2. congruence.
  - intros Hok op result result_storage operand operand_storage
      Hop Hcompute Hresult Hrs Hname Hoperand Hos Hsame.
    unfold VerifyStorages_in_place in Hok.
    apply for_each_unit_Succeeded in Hok.
    rewrite Forall_forall in Hok. specialize (Hok op Hop). simpl in Hok.
    rewrite Hcompute in Hok. apply for_each_unit_Succeeded in Hok.
    rewrite Forall_forall in Hok. specialize (Hok result Hresult).
    unfold verify_in_place_result in Hok. rewrite Hrs in Hok.
    destruct Hname as [name Hname]. rewrite Hname in Hok.
    apply for_each_unit_Succeeded in Hok.
    rewrite Forall_forall in Hok. specialize (Hok operand Hoperand).
    unfold verify_in_place_operand in Hok. rewrite Hos in Hok.
    rewrite decide_False in Hok by (by intros ?).
    destruct (Map_operand operand_storage op operand) as [mapped|]; [|done].
    exists mapped. split; [done|]. by case_decide.
  - intros d Hfail. unfold VerifyStorages_in_place in Hfail.
    pose proof (for_each_unit_cases
      (fun op (_ : unit) =>
         if is_ComputeOp (op_kind op) then
           for_each
             (fun result _ => verify_in_place_result op value_storages result)
             (getResults op) ()
         else Succeeded ()) program) as Hc.
    rewrite Hfail in Hc.
    destruct Hc as (before & op & after & -> & _ & Hop). simpl in Hop.
    destruct (is_ComputeOp (op_kind op)) eqn:Hcompute; [|done].
    pose proof (for_each_unit_cases
      (fun result (_ : unit) => verify_in_place_result op value_storages result)
      (getResults op)) as Hc.
    rewrite Hop in Hc.
    destruct Hc as (rbefore & result & rafter & Hresults & _ & Hresult).
    simpl in Hresult. unfold verify_in_place_result in Hresult.
    destruct (GetStorage value_storages result) as [result_storage|] eqn:Hrs;
      [|done].
    destruct (buffer_name result_storage) as [name|] eqn:Hname; [|done].
    pose proof (for_each_unit_cases
      (fun operand (_ : unit) =>
         verify_in_place_operand op value_storages result_storage operand)
      (op_operands op)) as Hc.
    rewrite Hresult in Hc.
    destruct Hc as (obefore & operand & oafter & Hoperands & _ & Hoperand).
    simpl in Hoperand. unfold verify_in_place_operand in Hoperand.
    destruct (GetStorage value_storages (operand_value operand))
      as [operand_storage|] eqn:Hos; [|done].
    case_decide as Hsame; [done|].
    destruct (Map_operand operand_storage op operand) as [mapped|] eqn:Hmap;
      [|done].
    case_decide as Hne; [|done].
    exists op, result, result_storage, operand, operand_storage, mapped.
    split; [rewrite elem_of_app, elem_of_cons; by auto|]. split; [done|].
    split; [rewrite Hresults, elem_of_app, elem_of_cons; by auto|].
    split; [done|]. split; [by eauto|].
    split; [rewrite Hoperands, elem_of_app, elem_of_cons; by auto|].
    split; [done|].
    split.
    { destruct (decide (buffer_name operand_storage
                        = buffer_name result_storage)) as [|Hn]; [done|].
      by destruct Hsame. }
    split; [done|]. split; [done|]. by simplify_eq.
Qed.

(** When the last loop of [Init] succeeds, the check of every buffer of
    the table does. *)
(* ===================================================================== *)
(** ** Well-formedness of the storage attributes *)
(* ===================================================================== *)

Lemma find_None_iff {A} (f : A -> bool) (l : list A) :
  List.find f l = None <-> forall x, x ∈ l -> f x = false.
Proof.
  induction l as [|y l IH]; simpl.
  - split; [intros _ x Hx; inversion Hx|done].
  - destruct (f y) eqn:Hy.
    + split; [done|]. intros H. rewrite H in Hy; [done|].
      apply elem_of_cons; by left.
    + rewrite IH. split.
      * intros H x [->|Hx]%elem_of_cons; auto.
      * intros H x Hx. apply H, elem_of_cons. by right.
Qed.

(** The checks of the layout of a buffer attribute. *)
Lemma verify_storage_layout_Succeeded op loops (buffer : BufferAttr)
  (buffer_names buffer_names' : gset StringAttr) :
  match attr_layout buffer with
  | Some layout =>
      if HasUnknownExprs (named_mapping layout) then
        Failed (emitError op [Text "layouts cannot contain `?` expressions"])
          buffer_names
      else if bool_decide (attr_space buffer = register_attr)
              && negb (empty (named_mapping layout)) then
        Failed (emitError op
                  [Text "only 0D buffers can be stored in registers"])
          buffer_names
      else
        match List.find (fun loop_name : StringAttr =>
                           bool_decide (loop_name
                                          ∉ (list_to_set loops : gset StringAttr)))
                (names layout) with
        | Some loop_name =>
            Failed (emitError op
                      [Text "unknown loop name "; Name (Some loop_name)])
              buffer_names
        | None => Succeeded buffer_names
        end
  | None => Succeeded buffer_names
  end = Succeeded buffer_names'
  <-> buffer_names' = buffer_names
      /\ forall layout,
          attr_layout buffer = Some layout ->
          HasUnknownExprs (named_mapping layout) = false
          /\ (attr_space buffer = register_attr ->
              Dimensions (named_mapping layout) = [])
          /\ forall loop_name, loop_name ∈ names layout -> loop_name ∈ loops.
Proof.
  destruct (attr_layout buffer) as [layout|].
  2:{ split; [intros H; injection H as <-; done|]. by intros [-> _]. }
  destruct (HasUnknownExprs _) eqn:Hu.
  { split; [done|]. intros [_ H]. destruct (H layout eq_refl) as [? _]. congruence. }
  destruct (_ && _) eqn:Hr.
  { split; [done|]. intros [_ H]. destruct (H layout eq_refl) as (_ & Hd & _).
    apply andb_true_iff in Hr as [Hreg Hne].
    apply bool_decide_eq_true in Hreg. apply negb_true_iff in Hne.
    apply bool_decide_eq_false in Hne. by destruct Hne; auto. }
  destruct (List.find _ _) as [loop_name|] eqn:Hf.
  { split; [done|]. intros [_ H]. destruct (H layout eq_refl) as (_ & _ & Hl).
    apply List.find_some in Hf as [Hin Hnot].
    apply bool_decide_eq_true in Hnot. destruct Hnot.
    apply elem_of_list_to_set, Hl. by apply list_elem_of_In. }
  split; [|by intros [-> _]].
  intros H. injection H as <-. split; [done|].
  intros ? [= <-]. split; [done|]. split.
  - intros Hreg. apply andb_false_iff in Hr as [Hr|Hr].
    + by apply bool_decide_eq_false in Hr.
    + apply negb_false_iff in Hr. by apply bool_decide_eq_true in Hr.
  - intros loop_name Hin.
    pose proof (proj1 (find_None_iff _ _) Hf loop_name Hin) as Hnot.
    apply bool_decide_eq_false in Hnot. apply dec_stable in Hnot.
    by apply elem_of_list_to_set in Hnot.
Qed.

Lemma verify_storage_entry_Succeeded op loops entry element_type
  (buffer_names buffer_names' : gset StringAttr) :
  verify_storage_entry op (list_to_set loops) (entry, element_type)
    buffer_names = Succeeded buffer_names'
  <-> well_formed_entry loops entry element_type
      /\ (forall name, name ∈ entry_names [entry] -> name ∉ buffer_names)
      /\ buffer_names' = list_to_set (entry_names [entry]) ∪ buffer_names.
Proof.
  unfold verify_storage_entry, entry_names. simpl.
  destruct entry as [|buffer|]; simpl.
  - split.
    + intros H. injection H as <-. split; [done|].
      split; [intros ? Hx; inversion Hx|]. by rewrite (left_id_L ∅ (∪)).
    + intros (_ & _ & ->). by rewrite (left_id_L ∅ (∪)).
  - unfold well_formed_buffer. split.
    + intros H.
      case_decide as Hspace; [done|].
      case_decide as Htype; [done|].
      destruct (xorb _ _) eqn:Hxor; [done|].
      apply xorb_eq in Hxor.
      assert (attr_space buffer = memory_attr <-> is_Some (attr_name buffer))
        as Hiff.
      { rewrite <- (bool_decide_eq_true (attr_space buffer = memory_attr)), Hxor.
        apply bool_decide_eq_true. }
      clear Hxor.
      assert (attr_space buffer = register_attr
              ∨ attr_space buffer = memory_attr) as Hs.
      { destruct (decide (attr_space buffer = register_attr)); [by left|].
        destruct (decide (attr_space buffer = memory_attr)); [by right|].
        by destruct Hspace. }
      assert (attr_space buffer = memory_attr ->
              element_type ≠ IndexType ∧ element_type ≠ MemRefType) as Hty.
      { intros Hm. split; intros ->; apply Htype; auto. }
      destruct (attr_name buffer) as [name|] eqn:Hname; simpl in *.
      * case_decide as Hin; [done|]. simpl in H.
        apply verify_storage_layout_Succeeded in H as [-> Hl].
        split; [done|]. split.
        -- intros name' Hn. by apply list_elem_of_singleton in Hn as ->.
        -- by rewrite (right_id_L ∅ (∪)).
      * apply verify_storage_layout_Succeeded in H as [-> Hl].
        split; [done|]. split; [intros ? Hx; inversion Hx|].
        by rewrite (left_id_L ∅ (∪)).
    + intros ((Hs & Hty & Hiff & Hl) & Hfresh & ->).
      rewrite decide_False by (intros [? ?]; by destruct Hs).
      rewrite decide_False by (intros [Hm [?|?]]; by destruct (Hty Hm)).
      rewrite (bool_decide_ext _ _ Hiff), xorb_nilpotent.
      destruct (attr_name buffer) as [name|] eqn:Hname; simpl in *.
      * rewrite decide_False
          by (apply Hfresh, list_elem_of_singleton; done).
        simpl. rewrite (right_id_L ∅ (∪)).
        by apply verify_storage_layout_Succeeded.
      * rewrite (left_id_L ∅ (∪)).
        by apply verify_storage_layout_Succeeded.
  - split; [done|]. by intros [[] _].
Qed.

(** The name of the buffer of an entry joins the names of the entries. *)
Lemma entry_names_cons entry entries :
  entry_names (entry :: entries) = entry_names [entry] ++ entry_names entries.
Proof.
  unfold entry_names. simpl.
  by destruct (match entry with
               | BufferAttribute b => attr_name b
               | _ => None
               end).
Qed.

Lemma entry_names_one entry :
  entry_names [entry] = [] \/ exists name, entry_names [entry] = [name].
Proof.
  unfold entry_names. simpl.
  destruct (match entry with
            | BufferAttribute b => attr_name b
            | _ => None
            end); eauto.
Qed.

(** The loop over the entries of the storage attribute. *)
Lemma verify_storage_entries_Succeeded op loops
  (entries : list (Attribute * ElementType)) :
  forall buffer_names buffer_names' : gset StringAttr,
    for_each (verify_storage_entry op (list_to_set loops)) entries
      buffer_names = Succeeded buffer_names'
    <-> Forall (fun entry => well_formed_entry loops entry.1 entry.2) entries
        /\ NoDup (entry_names entries.*1)
        /\ (forall name, name ∈ entry_names entries.*1 -> name ∉ buffer_names)
        /\ buffer_names'
           = list_to_set (entry_names entries.*1) ∪ buffer_names.
Proof.
  induction entries as [|[entry element_type] entries IH];
    intros buffer_names buffer_names'.
  - simpl. split.
    + intros H. injection H as <-. split; [done|]. split; [constructor|].
      split; [intros ? Hx; inversion Hx|]. by rewrite (left_id_L ∅ (∪)).
    + intros (_ & _ & _ & ->). by rewrite (left_id_L ∅ (∪)).
  - cbn [for_each fmap list_fmap fst]. rewrite entry_names_cons.
    pose proof (verify_storage_entry_Succeeded op loops entry element_type
                  buffer_names) as Hentry.
    rewrite Forall_cons. cbn [fst snd].
    rewrite NoDup_app, list_to_set_app_L.
    destruct (verify_storage_entry _ _ _ buffer_names) as [names1|d names1|];
      cbn [bind_outcome].
    + destruct (Hentry names1) as [Hentry1 _].
      destruct (Hentry1 eq_refl) as (Hwf & Hfresh & ->). clear Hentry Hentry1.
      rewrite IH. split.
      * intros (Hall & Hnodup & Hf & ->).
        split; [done|]. split; [|split].
        -- split; [|split; [|done]].
           ++ destruct (entry_names_one entry) as [->|[name ->]];
                [constructor|apply NoDup_singleton].
           ++ intros name Hin Hin'. apply (Hf name Hin').
              apply elem_of_union. left. by apply elem_of_list_to_set.
        -- intros name [Hin|Hin]%elem_of_app; [by apply Hfresh|].
           intros Hb. apply (Hf name Hin), elem_of_union. by right.
        -- by rewrite (assoc_L (∪)), (comm_L (∪) (list_to_set (entry_names entries.*1))).
      * intros ([_ Hall] & (Hn1 & Hdisj & Hnodup) & Hf & ->).
        split; [done|]. split; [done|]. split.
        -- intros name Hin [Hb|Hb]%elem_of_union.
           ++ apply elem_of_list_to_set in Hb. by apply (Hdisj name).
           ++ apply (Hf name); [|done]. apply elem_of_app. by right.
        -- by rewrite (assoc_L (∪)), (comm_L (∪) (list_to_set (entry_names entries.*1))).
    + split; [done|]. intros ([Hwf _] & _ & Hf & _).
      assert (Failed d names1 = Succeeded (list_to_set (entry_names [entry]) ∪ buffer_names));
        [|done].
      apply Hentry. split; [done|]. split; [|done].
      intros name Hin. apply Hf, elem_of_app. by left.
    + split; [done|]. intros ([Hwf _] & _ & Hf & _).
      assert (Aborted = Succeeded (list_to_set (entry_names [entry]) ∪ buffer_names));
        [|done].
      apply Hentry. split; [done|]. split; [|done].
      intros name Hin. apply Hf, elem_of_app. by left.
Qed.

(** The checks of one entry never stop on a failed assertion. *)
Lemma verify_storage_entry_returns op loop_names entry
  (buffer_names : gset StringAttr) :
  verify_storage_entry op loop_names entry buffer_names <> Aborted.
Proof.
  unfold verify_storage_entry.
  destruct entry.1 as [|buffer|]; try done.
  case_decide; [done|]. case_decide; [done|].
  destruct (xorb _ _); [done|].
  assert (forall seen : gset StringAttr,
             bind_outcome (Succeeded seen)
               (fun buffer_names0 : gset StringAttr =>
                  match attr_layout buffer with
                  | Some layout =>
                      if HasUnknownExprs (named_mapping layout) then
                        Failed (emitError op
                                  [Text "layouts cannot contain `?` expressions"])
                          buffer_names0
                      else if bool_decide (attr_space buffer = register_attr)
                              && negb (empty (named_mapping layout)) then
                        Failed (emitError op
                                  [Text "only 0D buffers can be stored in registers"])
                          buffer_names0
                      else
                        match List.find
                                (fun loop_name : StringAttr =>
                                   bool_decide (loop_name ∉ loop_names))
                                (names layout) with
                        | Some loop_name =>
                            Failed (emitError op
                                      [Text "unknown loop name ";
                                       Name (Some loop_name)]) buffer_names0
                        | None => Succeeded buffer_names0
                        end
                  | None => Succeeded buffer_names0
                  end) <> Aborted) as Hlayout.
  { intros seen. simpl. destruct (attr_layout buffer); [|done].
    destruct (HasUnknownExprs _); [done|].
    destruct (_ && _); [done|]. by destruct (List.find _ _). }
  destruct (attr_name buffer) as [name|]; [|apply Hlayout].
  destruct (decide (name ∈ buffer_names)); [done|apply Hlayout].
Qed.

(** X1: the storage attribute of a compute operation is accepted exactly
    when the operation has no storage attribute, or the attribute has one
    entry per result, every entry is a unit attribute or a well-formed
    buffer attribute (a known memory space, no index or memref in memory, a
    name exactly for the buffers in memory, a layout without [?], of rank 0
    in registers, over loops of the operation), and no two entries name the
    same buffer.  The check never stops on a failed assertion. *)
Theorem storage_attr_well_formed (op : Operation)
  (storage : option (list Attribute)) (loop_nest : option (list StringAttr)) :
  (VerifyStorageAttrWellFormed op storage loop_nest = Succeeded ()
   <-> match storage with
       | None => True
       | Some entries =>
           length entries = length (op_results op)
           /\ Forall2 (well_formed_entry (default [] loop_nest)) entries
                (op_results op)
           /\ NoDup (entry_names entries)
       end)
  /\ VerifyStorageAttrWellFormed op storage loop_nest <> Aborted.
Proof.
  unfold VerifyStorageAttrWellFormed.
  destruct storage as [entries|]; [|done].
  case_decide as Hlen.
  { split; [|done]. split; [done|]. by intros [? _]. }
  assert (match loop_nest with
          | Some loops => list_to_set loops
          | None => ∅
          end = (list_to_set (default [] loop_nest) : gset StringAttr)) as ->.
  { by destruct loop_nest. }
  pose proof (verify_storage_entries_Succeeded op (default [] loop_nest)
                (zip entries (op_results op)) ∅) as Hloop.
  assert ((zip entries (op_results op)).*1 = entries) as Hfst.
  { apply fst_zip. lia. }
  assert (Forall (fun entry : Attribute * ElementType =>
                    well_formed_entry (default [] loop_nest) entry.1 entry.2)
            (zip entries (op_results op))
          <-> Forall2 (well_formed_entry (default [] loop_nest)) entries
                (op_results op)) as Hall.
  { clear Hloop Hfst. revert Hlen. generalize (op_results op).
    induction entries as [|e es IH]; intros [|ty tys] Hlen; simpl in *;
      try done.
    injection Hlen as Hlen. rewrite Forall_cons, Forall2_cons, (IH _ Hlen).
    done. }
  rewrite Hfst in Hloop.
  destruct (for_each _ _ _) as [names|d names|] eqn:Hfor.
  - split; [|done]. split; [|done]. intros _.
    destruct (Hloop names) as [(? & ? & _) _]; [done|].
    split; [done|]. split; [by apply Hall|done].
  - split; [|done]. split; [done|]. intros (_ & Hwf & Hnodup).
    assert (Failed d names
            = Succeeded (list_to_set (entry_names entries) ∪ ∅)); [|done].
    apply Hloop. split; [by apply Hall|]. split; [done|].
    split; [|done]. intros name _ Hin. by apply elem_of_empty in Hin.
  - exfalso. clear Hloop Hall Hfst.
    revert Hfor. generalize (∅ : gset StringAttr).
    generalize (zip entries (op_results op)).
    intros pairs. induction pairs as [|e pairs IH]; intros names;
      simpl; [done|].
    pose proof (verify_storage_entry_returns op
                  (list_to_set (default [] loop_nest)) e names) as He.
    destruct (verify_storage_entry _ _ _ _) as [names1|d1 names1|];
      simpl; [by apply IH|done|done].
Qed.

(* ===================================================================== *)
(** ** How the analysis changes the table of buffers *)
(* ===================================================================== *)

Lemma evolves_refl (R : relation Buffer) m : evolves R m m.
Proof.
  split; [done|]. intros name b' Hb'. rewrite Hb'. apply rtc_refl.
Qed.

Lemma evolves_trans (R : relation Buffer) m1 m2 m3 :
  evolves R m1 m2 -> evolves R m2 m3 -> evolves R m1 m3.
Proof.
  intros [Hdom12 H12] [Hdom23 H23]. split; [by auto|].
  intros name b3 Hb3. specialize (H23 name b3 Hb3).
  destruct (m2 !! name) as [b2|] eqn:Hb2.
  - specialize (H12 name b2 Hb2).
    destruct (m1 !! name) as [b1|]; [by etrans|].
    destruct H12 as (b0 & ? & ?). exists b0. split; [done|]. by etrans.
  - destruct (m1 !! name) as [b1|] eqn:Hb1; [|done].
    destruct (Hdom12 name) as [b2 Hb2']; [by eauto|]. congruence.
Qed.

Lemma evolves_mono (R R' : relation Buffer) m m' :
  (forall b b', R b b' -> R' b b') -> evolves R m m' -> evolves R' m m'.
Proof.
  intros Hsub [Hdom H]. split; [done|].
  intros name b' Hb'. specialize (H name b' Hb').
  assert (forall b1 b2, rtc R b1 b2 -> rtc R' b1 b2) as Hrtc.
  { induction 1; [apply rtc_refl|]. eapply rtc_l; eauto. }
  destruct (m !! name); [by auto|].
  destruct H as (b0 & ? & ?). eauto.
Qed.

Lemma evolves_insert (R : relation Buffer) m name b b' :
  m !! name = Some b -> rtc R b b' -> evolves R m (<[name := b']> m).
Proof.
  intros Hb Hsteps. split.
  - intros name' Hname'.
    destruct (decide (name' = name)) as [->|Hne].
    + rewrite lookup_insert_eq. by eauto.
    + by rewrite lookup_insert_ne.
  - intros name' b1.
    destruct (decide (name' = name)) as [->|Hne].
    + rewrite lookup_insert_eq, Hb. by intros [= <-].
    + rewrite lookup_insert_ne by done. intros ->. apply rtc_refl.
Qed.

Lemma evolves_insert_fresh (R : relation Buffer) m name b0 b' :
  m !! name = None -> fresh_buffer b0 -> rtc R b0 b' ->
  evolves R m (<[name := b']> m).
Proof.
  intros Hb Hfresh Hsteps. split.
  - intros name' Hname'.
    destruct (decide (name' = name)) as [->|Hne].
    + rewrite lookup_insert_eq. by eauto.
    + by rewrite lookup_insert_ne.
  - intros name' b1.
    destruct (decide (name' = name)) as [->|Hne].
    + rewrite lookup_insert_eq, Hb. intros [= <-]. by eauto.
    + rewrite lookup_insert_ne by done. intros ->. apply rtc_refl.
Qed.

Lemma evolves_try_emplace (R : relation Buffer) m name b0 :
  fresh_buffer b0 -> evolves R m (try_emplace name b0 m).
Proof.
  intros Hfresh. unfold try_emplace.
  destruct (m !! name) eqn:Hm; [apply evolves_refl|].
  eapply evolves_insert_fresh; [done..|apply rtc_refl].
Qed.

Lemma Buffer_new_fresh loc element_type loops loop_nest :
  fresh_buffer (Buffer_new loc element_type loops loop_nest).
Proof. done. Qed.

Lemma Buffer_import_fresh op info loops loop_nest :
  fresh_buffer (Buffer_import op info loops loop_nest).
Proof. done. Qed.

Lemma TrimBufferLoopNestForAccess_step iter_space layout buffer buffer' :
  TrimBufferLoopNestForAccess iter_space layout buffer = Some buffer' ->
  buffer_step buffer buffer'.
Proof. unfold TrimBufferLoopNestForAccess. apply buffer_SetLoopNest. Qed.

(** [UnifyBufferShape] appends to the domain of the buffer and unifies its
    layout with a layout over the new domain. *)
Lemma UnifyBufferShape_steps name op layout iter_space buffer :
  (forall r, rank buffer = Some r -> size layout = r) ->
  match UnifyBufferShape name op layout iter_space buffer with
  | Succeeded buffer' => rtc buffer_step buffer buffer'
  | Failed _ buffer' => buffer' = buffer
  | Aborted => True
  end.
Proof using Canonicalize_size.
  intros Hrank. unfold UnifyBufferShape.
  destruct (match layout_ buffer with
            | Some old_layout => unification_constraints _ _
            | None => Some _
            end) as [constraints|]; [|done].
  destruct (resolve_constraints _ _ _ _ _ _ _)
    as [[constraints' new_domain]|d s|]; [|done|done].
  destruct (UnifyLayout _ _) as [buffer'|] eqn:Hunify; simpl; [|done].
  eapply rtc_l; [apply buffer_AppendToDomain|].
  apply rtc_once. eapply buffer_UnifyLayout; [exact Hunify|done|].
  intros r Hr. rewrite Compose_size, Canonicalize_size, Compose_size.
  apply Hrank. revert Hr. unfold rank, AppendToDomain. simpl.
  destruct (layout_ buffer) as [l|]; simpl; [|done].
  by rewrite ResizeUseDomain_size.
Qed.

Lemma for_each_evolves {A : Type} (R : relation Buffer)
  (body : A -> gmap StringAttr Buffer -> Outcome (gmap StringAttr Buffer))
  (xs : list A) :
  (forall x m, outcome_rel (evolves R) m (body x m)) ->
  forall m, outcome_rel (evolves R) m (for_each body xs m).
Proof.
  intros Hbody. apply for_each_rel;
    [apply evolves_refl|apply evolves_trans|done].
Qed.

Lemma DeclareBuffer_evolves op result attr buffer_map :
  outcome_rel (evolves buffer_step) buffer_map
    (DeclareBuffer op result attr buffer_map).
Proof using Canonicalize_size.
  unfold DeclareBuffer.
  destruct attr as [attr|]; [|apply evolves_refl].
  destruct (attr_name attr) as [name|]; [|apply evolves_refl].
  destruct (op_results op !! result) as [element_type|]; [|done].
  set (m := try_emplace name _ buffer_map).
  assert (evolves buffer_step buffer_map m) as Hm
      by apply evolves_try_emplace, Buffer_new_fresh.
  destruct (m !! name) as [buffer|] eqn:Hb; [|done].
  case_decide; [done|].
  destruct (GetBufferLayout op attr) as [layout|]; [|done].
  case_decide as Hrank; [done|].
  destruct (TrimBufferLoopNestForAccess _ _ _) as [b1|] eqn:Hb1; [|done].
  pose proof (TrimBufferLoopNestForAccess_step _ _ _ _ Hb1) as Hstep.
  assert (rank b1 = rank buffer) as Hrank1.
  { unfold TrimBufferLoopNestForAccess in Hb1.
    by apply SetLoopNest_stable in Hb1 as [_ ?]. }
  destruct layout as [layout|]; simpl.
  - pose proof (UnifyBufferShape_steps name op layout (iteration_spaces op) b1)
      as Hu.
    destruct (UnifyBufferShape _ _ _ _ _) as [b2|d b2|]; simpl; [| |done].
    + eapply evolves_trans; [exact Hm|].
      eapply evolves_insert; [done|]. eapply rtc_l; [exact Hstep|].
      apply Hu. intros r Hr. rewrite Hrank1 in Hr.
      destruct (decide (size layout = r)) as [|Hne]; [done|].
      destruct Hrank. split; [by eauto|]. split; [by eauto|].
      rewrite Hr. simpl. congruence.
    + eapply evolves_trans; [exact Hm|].
      eapply evolves_insert; [done|]. apply rtc_once.
      rewrite Hu; [done|]. intros r Hr. rewrite Hrank1 in Hr.
      destruct (decide (size layout = r)) as [|Hne]; [done|].
      destruct Hrank. split; [by eauto|]. split; [by eauto|].
      rewrite Hr. simpl. congruence.
  - eapply evolves_trans; [exact Hm|].
    eapply evolves_insert; [done|]. by apply rtc_once.
Qed.

Lemma DeclareExternalBuffer_evolves op info buffers :
  outcome_rel (evolves buffer_step) buffers
    (DeclareExternalBuffer op info buffers).
Proof using Canonicalize_size.
  unfold DeclareExternalBuffer.
  destruct (buffers !! info_buffer_name info) eqn:Hb; [apply evolves_refl|].
  set (buffer := Buffer_import _ _ _ _).
  match goal with
  | |- context [UnifyBufferShape ?n ?o ?l ?i ?b] =>
      pose proof (UnifyBufferShape_steps n o l i b) as Hu;
      destruct (UnifyBufferShape n o l i b) as [b1|d b1|]
  end; simpl; [| |done].
  - rewrite insert_insert_eq.
    eapply evolves_insert_fresh; [done|apply Buffer_import_fresh|].
    by apply Hu.
  - rewrite insert_insert_eq.
    eapply evolves_insert_fresh; [done|apply Buffer_import_fresh|].
    rewrite Hu by done. apply rtc_refl.
Qed.

Lemma DeclareBuffers_evolves program buffers :
  outcome_rel (evolves buffer_step) buffers (DeclareBuffers program buffers).
Proof using Canonicalize_size.
  unfold DeclareBuffers, declare_all.
  assert (forall m,
             outcome_rel (evolves buffer_step) m
               (for_each (fun op buffers =>
                            match as_FromToMemRefOp op with
                            | Some info => DeclareExternalBuffer op info buffers
                            | None => Succeeded buffers
                            end) program m)) as H1.
  { apply for_each_evolves. intros op m.
    destruct (as_FromToMemRefOp op);
      [apply DeclareExternalBuffer_evolves|apply evolves_refl]. }
  assert (forall m,
             outcome_rel (evolves buffer_step) m
               (for_each (fun op buffers =>
                            if is_ComputeOp (op_kind op)
                            then DeclareInternalBuffers op buffers
                            else Succeeded buffers) program m)) as H2.
  { apply for_each_evolves. intros op m.
    destruct (is_ComputeOp _); [|apply evolves_refl].
    apply for_each_evolves. intros i m'. apply DeclareBuffer_evolves. }
  specialize (H1 buffers).
  destruct (for_each _ program buffers) as [m1|d m1|]; simpl in *;
    [|done|done].
  specialize (H2 m1).
  destruct (for_each _ program m1) as [m2|d m2|]; simpl in *;
    [|by eapply evolves_trans|done].
  destruct (check_fully_specified _); simpl; by eapply evolves_trans.
Qed.

Lemma VerifyAndMinimizeBufferLoopNest_steps name buffer :
  outcome_rel (rtc buffer_step) buffer
    (VerifyAndMinimizeBufferLoopNest name buffer).
Proof.
  unfold VerifyAndMinimizeBufferLoopNest.
  destruct (layout_ buffer) as [l|]; simpl; [|apply rtc_refl].
  destruct (for_each _ _ _) as [n1|d n1|]; simpl; try done;
    try apply rtc_refl.
  destruct (BufferInstanceLayout buffer) as [instance_layout|]; [|done].
  destruct (for_each _ _ _) as [n2|d n2|]; simpl; try done;
    try apply rtc_refl.
  destruct (is_external buffer); simpl; [apply rtc_refl|].
  destruct (CheckMallocInsertionPoint _ _ _ _) as [n3|d n3|]; simpl; try done;
    try apply rtc_refl.
  destruct (SetLoopNest _ _) as [b'|] eqn:Hb'; simpl; [|done].
  apply rtc_once. by eapply buffer_SetLoopNest.
Qed.

Lemma VerifyAndMinimizeBufferLoopNests_evolves buffers :
  outcome_rel (evolves buffer_step) buffers
    (VerifyAndMinimizeBufferLoopNests buffers).
Proof.
  unfold VerifyAndMinimizeBufferLoopNests.
  apply for_each_evolves.
  intros name m. destruct (m !! name) as [buffer|] eqn:Hb; [|done].
  pose proof (VerifyAndMinimizeBufferLoopNest_steps name buffer) as H.
  destruct (VerifyAndMinimizeBufferLoopNest name buffer) as [b'|d b'|];
    simpl in *; try done.
  - by eapply evolves_insert.
  - apply evolves_refl.
Qed.

Lemma MergeStorage_buffer_evolves new_storage buffers buffers' :
  MergeStorage_buffer new_storage buffers = Some buffers' ->
  evolves buffer_step buffers buffers'.
Proof.
  unfold MergeStorage_buffer. intros H.
  destruct (buffer_name new_storage) as [name|];
    [|injection H as <-; apply evolves_refl].
  destruct (storage_layout new_storage) as [new_layout|];
    [|injection H as <-; apply evolves_refl].
  destruct (buffers !! name) as [buffer|] eqn:Hb; simpl in H; [|done].
  destruct (rank buffer) eqn:Hrank.
  - case_decide; [|done]. injection H as <-. apply evolves_refl.
  - destruct (empty new_layout); [|done].
    destruct (UnifyLayout _ _) as [b'|] eqn:Hu; simpl in H; [|done].
    injection H as <-. eapply evolves_insert; [done|].
    apply rtc_once. eapply buffer_UnifyLayout; [exact Hu|done|].
    intros r Hr. congruence.
Qed.

(** [UpdateStorage] adds the value to the buffer, then trims its loop
    nest. *)
Lemma register_buffer_use_steps value buffer buffer' :
  register_buffer_use value buffer = Some buffer' ->
  rtc buffer_step
    (AddValue buffer value (getDefiningOp value) (getUses value)) buffer'.
Proof.
  unfold register_buffer_use.
  generalize (iteration_spaces (getDefiningOp value)
                :: ((fun use => iteration_spaces (use_owner use))
                      <$> getUses value)).
  generalize (AddValue buffer value (getDefiningOp value) (getUses value)).
  intros b spaces. revert b.
  induction spaces as [|space spaces IH]; intros b; simpl.
  - intros [= <-]. apply rtc_refl.
  - destruct (TrimBufferLoopNestForAccess space None b) as [b1|] eqn:Hb1;
      simpl.
    + intros H. eapply rtc_l; [|by apply IH].
      by eapply TrimBufferLoopNestForAccess_step.
    + intros H. exfalso. clear -H. induction spaces; simpl in *; [done|auto].
Qed.

(* ===================================================================== *)
(** ** What the propagation of the storages keeps *)
(* ===================================================================== *)

Lemma for_each_Succeeded_rel {A S : Type} (R : relation S)
  (body : A -> S -> Outcome S) (xs : list A) :
  (forall s, R s s) ->
  (forall s1 s2 s3, R s1 s2 -> R s2 s3 -> R s1 s3) ->
  (forall x s s', body x s = Succeeded s' -> R s s') ->
  forall s s', for_each body xs s = Succeeded s' -> R s s'.
Proof.
  intros Hrefl Htrans Hbody.
  induction xs as [|x xs IH]; intros s s'; simpl.
  - intros [= <-]. apply Hrefl.
  - destruct (body x s) as [s1|d s1|] eqn:Hx; simpl; [|done|done].
    intros Hxs. eapply Htrans; [by eapply Hbody|by apply IH].
Qed.

Lemma for_each_fuel_Succeeded_rel {A S : Type} (R : relation S)
  (body : A -> S -> option (Outcome S)) (xs : list A) :
  (forall s, R s s) ->
  (forall s1 s2 s3, R s1 s2 -> R s2 s3 -> R s1 s3) ->
  (forall x s s', body x s = Some (Succeeded s') -> R s s') ->
  forall s s', for_each_fuel body xs s = Some (Succeeded s') -> R s s'.
Proof.
  intros Hrefl Htrans Hbody.
  induction xs as [|x xs IH]; intros s s'; simpl.
  - intros [= <-]. apply Hrefl.
  - destruct (body x s) as [[s1|d s1|]|] eqn:Hx; simpl; [|done|done|done].
    intros Hxs. eapply Htrans; [by eapply Hbody|by apply IH].
Qed.

(** A relation between the states of the analysis that the two writes of
    [update_storage] to the analysis keep is kept by [SetStorage] and by
    [ComputeValueStorages], when they succeed. *)
Section Propagation.

Variable R : relation StorageAnalysis.
Hypothesis R_refl : forall analysis, R analysis analysis.
Hypothesis R_trans : forall a1 a2 a3, R a1 a2 -> R a2 a3 -> R a1 a3.
Hypothesis R_entry :
  forall analysis value,
    R analysis
      (mkStorageAnalysis (buffers_ analysis)
         (storage_entry (value_storages_ analysis) value).2
         (next_buffer_id_ analysis)).
Hypothesis R_UpdateStorage :
  forall analysis value new_storage storage' buffers',
    UpdateStorage value new_storage
      ((storage_entry (value_storages_ analysis) value).1, buffers_ analysis)
    = Succeeded (storage', buffers') ->
    R analysis
      (mkStorageAnalysis buffers'
         (<[value := storage']>
            (storage_entry (value_storages_ analysis) value).2)
         (next_buffer_id_ analysis)).

Lemma update_storage_Succeeded_rel value new_storage analysis wl analysis' wl' :
  update_storage value new_storage (analysis, wl) = Succeeded (analysis', wl') ->
  R analysis analysis'.
Proof using R_entry R_UpdateStorage.
  unfold update_storage.
  pose proof (R_entry analysis value) as Hentry.
  pose proof (R_UpdateStorage analysis value new_storage) as Hupdate.
  destruct (storage_entry _ _) as [storage value_storages].
  cbn [fst snd] in Hentry, Hupdate.
  case_decide.
  - by intros [= <- <-].
  - destruct (UpdateStorage value new_storage (storage, buffers_ analysis))
      as [[st m]|d [st m]|]; [|done|done].
    intros [= <- <-]. by apply Hupdate.
Qed.

Lemma propagate_forward_Succeeded_rel value storage use state state' :
  propagate_forward value storage use state = Succeeded state' ->
  R state.1 state'.1.
Proof using R_refl R_entry R_UpdateStorage.
  unfold propagate_forward.
  destruct (forwarded_result use); [|by intros [= <-]].
  destruct (Map _ _ _ _); [|done].
  destruct state, state'. by apply update_storage_Succeeded_rel.
Qed.

Lemma propagate_backward_Succeeded_rel storage defining_op operand
  state state' :
  propagate_backward storage defining_op operand state = Succeeded state' ->
  R state.1 state'.1.
Proof using R_entry R_UpdateStorage.
  unfold propagate_backward.
  destruct (Map _ _ _ _); [|done].
  destruct state, state'. by apply update_storage_Succeeded_rel.
Qed.

Lemma propagate_Succeeded_rel value state state' :
  propagate value state = Succeeded state' -> R state.1 state'.1.
Proof using R_refl R_trans R_entry R_UpdateStorage.
  unfold propagate. destruct state as [analysis wl].
  pose proof (R_entry analysis value) as Hentry.
  destruct (storage_entry _ _) as [storage value_storages]. simpl in Hentry.
  set (state0 := (mkStorageAnalysis _ _ _, wl)).
  destruct (for_each (propagate_forward value storage) (getUses value) state0)
    as [state1|d state1|] eqn:Hforward; simpl; [|done|done].
  assert (R analysis state1.1) as H1.
  { eapply R_trans; [exact Hentry|].
    eapply (for_each_Succeeded_rel (fun s s' => R s.1 s'.1)) in Hforward;
      [exact Hforward|by auto|by eauto|].
    intros x s s'. apply propagate_forward_Succeeded_rel. }
  assert (forall operands state2,
             for_each (propagate_backward storage (getDefiningOp value))
               operands state1 = Succeeded state2 ->
             R state1.1 state2.1) as Hbackward.
  { intros operands state2.
    apply (for_each_Succeeded_rel (fun s s' => R s.1 s'.1));
      [by auto|by eauto|].
    intros x s s'. apply propagate_backward_Succeeded_rel. }
  destruct (op_kind (getDefiningOp value));
    try (intros [= <-]; exact H1);
    try (intros H2; eapply R_trans; [exact H1|by eapply Hbackward]).
  destruct (_ !! _); [|done].
  intros H2. eapply R_trans; [exact H1|].
  by eapply propagate_backward_Succeeded_rel.
Qed.

Lemma drain_work_list_Succeeded_rel fuel state analysis' :
  drain_work_list fuel state = Some (Succeeded analysis') ->
  R state.1 analysis'.
Proof using R_refl R_trans R_entry R_UpdateStorage.
  revert state.
  induction fuel as [|fuel IH]; intros [analysis wl];
    cbn [drain_work_list fst snd].
  - destruct wl; [|done]. by intros [= <-].
  - destruct wl as [|value wl]; [by intros [= <-]|].
    destruct (propagate value (analysis, wl)) as [state1|d state1|] eqn:Hp;
      [|done|done].
    intros H. eapply R_trans; [|by apply IH].
    by apply propagate_Succeeded_rel in Hp.
Qed.

Lemma SetStorage_Succeeded_rel fuel value storage analysis analysis' :
  SetStorage fuel value storage analysis = Some (Succeeded analysis') ->
  R analysis analysis'.
Proof using R_refl R_trans R_entry R_UpdateStorage.
  unfold SetStorage.
  destruct (update_storage _ _ _) as [[a1 wl1]|d s1|] eqn:Hu; [|done|done].
  intros H. eapply R_trans; [by eapply update_storage_Succeeded_rel|].
  by apply drain_work_list_Succeeded_rel in H.
Qed.

Lemma ensure_entries_rel program analysis :
  R analysis
    (mkStorageAnalysis (buffers_ analysis)
       (ensure_entries program (value_storages_ analysis))
       (next_buffer_id_ analysis)).
Proof using R_refl R_trans R_entry.
  unfold ensure_entries. destruct analysis as [buffers vs next]. simpl.
  revert vs. induction program as [|op program IH]; intros vs; simpl;
    [apply R_refl|].
  eapply R_trans; [|apply IH].
  generalize (seq 0 (length (op_results op))). intros results. revert vs.
  induction results as [|i results IHr]; intros vs; simpl; [apply R_refl|].
  eapply R_trans; [|apply IHr].
  apply (R_entry (mkStorageAnalysis buffers vs next)).
Qed.

Lemma ComputeValueStorages_Succeeded_rel fuel program analysis analysis' :
  ComputeValueStorages fuel program analysis = Some (Succeeded analysis') ->
  R analysis analysis'.
Proof using R_refl R_trans R_entry R_UpdateStorage.
  unfold ComputeValueStorages.
  assert (forall body : Operation -> StorageAnalysis ->
                        option (Outcome StorageAnalysis),
             (forall op a a', body op a = Some (Succeeded a') -> R a a') ->
             forall a a',
               for_each_fuel body program a = Some (Succeeded a') -> R a a')
    as Hwalk.
  { intros body Hbody. by apply for_each_fuel_Succeeded_rel. }
  destruct (for_each_fuel (seed_compute_op fuel) program analysis)
    as [[a1|d a1|]|] eqn:H1; simpl; [|done|done|done].
  destruct (for_each_fuel (seed_from_memref fuel) program a1)
    as [[a2|d a2|]|] eqn:H2; simpl; [|done|done|done].
  destruct (for_each_fuel (seed_from_scalar fuel) program a2)
    as [[a3|d a3|]|] eqn:H3; simpl; [|done|done|done].
  destruct (for_each_fuel (seed_to_memref fuel) program a3)
    as [[a4|d a4|]|] eqn:H4; simpl; [|done|done|done].
  intros [= <-].
  apply Hwalk in H1, H2, H3, H4.
  - eapply R_trans; [exact H1|]. eapply R_trans; [exact H2|].
    eapply R_trans; [exact H3|]. eapply R_trans; [exact H4|].
    apply ensure_entries_rel.
  - intros op a a'. unfold seed_to_memref.
    destruct (op_kind op); try (by intros [= <-]).
    destruct (Map _ _ _ _); [|done]. apply SetStorage_Succeeded_rel.
  - intros op a a'. unfold seed_from_scalar.
    destruct (op_kind op); try (by intros [= <-]).
    apply SetStorage_Succeeded_rel.
  - intros op a a'. unfold seed_from_memref.
    destruct (op_kind op); try (by intros [= <-]).
    apply SetStorage_Succeeded_rel.
  - intros op a a'. unfold seed_compute_op.
    destruct (is_ComputeOp _); [|by intros [= <-]].
    apply for_each_fuel_Succeeded_rel; [done..|].
    intros i a0 a0'. destruct (Storage op i); [|by intros [= <-]].
    destruct (GetBufferLayout _ _); [|done]. apply SetStorage_Succeeded_rel.
Qed.

End Propagation.

(* ===================================================================== *)
(** ** What the operations on a buffer keep *)
(* ===================================================================== *)

Lemma SetLoopNest_accesses_kept b loop_nest b' :
  SetLoopNest b loop_nest = Some b' -> accesses_kept b b'.
Proof.
  unfold SetLoopNest. intros H.
  case_decide; [by injection H as <-|].
  case_decide; [|done].
  case_decide; [by injection H as <-|].
  destruct (trim_domain _ _ _ _ _) as [renaming new_domain].
  destruct (layout_ b); by injection H as <-.
Qed.

Lemma buffer_step_accesses_kept b b' : buffer_step b b' -> accesses_kept b b'.
Proof.
  intros [b0 loop_nest b1 H|b0 layout b1 H _ _|b0 new_values].
  - by eapply SetLoopNest_accesses_kept.
  - unfold UnifyLayout in H. destruct (layout_ b0).
    + destruct (Unify _ _); [|done]. by injection H as <-.
    + by injection H as <-.
  - done.
Qed.

Lemma buffer_steps_accesses_kept b b' :
  rtc buffer_step b b' -> accesses_kept b b'.
Proof.
  induction 1 as [|b1 b2 b3 Hstep _ IH]; [done|].
  apply buffer_step_accesses_kept in Hstep as (? & ? & ?).
  destruct IH as (? & ? & ?). repeat split; congruence.
Qed.

Lemma buffer_step_rank_kept b b' : buffer_step b b' -> rank_kept b b'.
Proof.
  intros [b0 loop_nest b1 H|b0 layout b1 H _ Hrank|b0 new_values] r Hr.
  - apply SetLoopNest_stable in H as [_ ->]. done.
  - unfold UnifyLayout in H. unfold rank in *.
    destruct (layout_ b0) as [l|] eqn:Hl; [|done].
    destruct (Unify l layout) as [u|] eqn:Hu; [|done].
    injection H as <-. simpl. apply Unify_size in Hu.
    injection Hr as Hr. specialize (Hrank r).
    simpl in Hrank. rewrite Hrank in Hu by (by rewrite Hr).
    f_equal. lia.
  - unfold rank, AppendToDomain in *. simpl.
    destruct (layout_ b0) as [l|]; [|done]. simpl in *.
    by rewrite ResizeUseDomain_size.
Qed.

Lemma access_step_rank_kept b b' : access_step b b' -> rank_kept b b'.
Proof.
  intros [b0 b1 H|b0 value]; [by apply buffer_step_rank_kept|].
  by intros r Hr.
Qed.

Lemma rank_kept_steps (R : relation Buffer) b b' :
  (forall b1 b2, R b1 b2 -> rank_kept b1 b2) -> rtc R b b' -> rank_kept b b'.
Proof.
  intros HR. induction 1 as [|b1 b2 b3 Hstep _ IH]; [by intros r Hr|].
  intros r Hr. by apply IH, (HR _ _ Hstep).
Qed.

Lemma ResizeUseDomain_UseDomainSize m new_size :
  UseDomainSize (ResizeUseDomain m new_size) = new_size.
Proof. unfold ResizeUseDomain. by case_decide. Qed.

Lemma buffer_step_layout_scoped b b' :
  buffer_step b b' -> layout_scoped b -> layout_scoped b'.
Proof.
  intros [b0 loop_nest b1 H|b0 layout b1 H Hdomain _|b0 new_values] Hb l.
  - unfold SetLoopNest in H.
    case_decide; [injection H as <-; by apply Hb|].
    case_decide; [|done].
    case_decide; [injection H as <-; by apply Hb|].
    destruct (trim_domain _ _ _ _ _) as [renaming new_domain].
    destruct (layout_ b0) eqn:Hl0; injection H as <-; simpl.
    + by intros [= <-].
    + intros Hl. by rewrite Hl0 in Hl.
  - unfold UnifyLayout in H.
    destruct (layout_ b0) as [l0|] eqn:Hl0.
    + destruct (Unify l0 layout) as [u|] eqn:Hu; [|done].
      injection H as <-. simpl. intros [= <-].
      unfold Unify in Hu. destruct (UnifyList _ _ _); [|done].
      injection Hu as <-. simpl. by apply Hb.
    + injection H as <-. simpl. by intros [= <-].
  - unfold AppendToDomain. simpl.
    destruct (layout_ b0); simpl; [|done].
    intros [= <-]. apply ResizeUseDomain_UseDomainSize.
Qed.

Lemma extension_step_layout_scoped b b' :
  extension_step b b' -> layout_scoped b -> layout_scoped b'.
Proof.
  intros [b0 b1 [b2 b3 H|b2 value]|b0 n b1 H] Hb.
  - by eapply buffer_step_layout_scoped.
  - done.
  - unfold AddNonePrefixToLayout in H.
    destruct (layout_ b0) as [l0|] eqn:Hl0; [|done].
    injection H as <-. intros l. simpl. intros [= <-]. exact (Hb l0 Hl0).
Qed.

Lemma writes_of_app values values' :
  writes_of (values ++ values') = writes_of values ++ writes_of values'.
Proof. apply omap_app. Qed.

Lemma reads_of_app values values' :
  reads_of (values ++ values') = reads_of values ++ reads_of values'.
Proof. apply bind_app. Qed.

Lemma extension_step_accesses_consistent b b' :
  extension_step b b' -> accesses_consistent b -> accesses_consistent b'.
Proof.
  intros [b0 b1 [b2 b3 H|b2 value]|b0 n b1 H] [Hw Hr].
  - apply buffer_step_accesses_kept in H as (Hv & Hw' & Hr').
    unfold accesses_consistent. by rewrite Hv, Hw', Hr'.
  - unfold accesses_consistent. simpl.
    rewrite writes_of_app, reads_of_app, Hw, Hr.
    unfold writes_of, reads_of. simpl.
    destruct (is_ComputeOp _); by rewrite ?app_nil_r.
  - unfold AddNonePrefixToLayout in H.
    destruct (layout_ b0); [|done]. by injection H as <-.
Qed.

(** An invariant of the buffers that the operations keep and that the
    fresh buffers have holds in a table that evolves from a table where it
    holds. *)
Lemma evolves_invariant (R : relation Buffer) (P : Buffer -> Prop) m m' :
  (forall b b', R b b' -> P b -> P b') ->
  (forall b0, fresh_buffer b0 -> P b0) ->
  evolves R m m' ->
  (forall name b, m !! name = Some b -> P b) ->
  forall name b', m' !! name = Some b' -> P b'.
Proof.
  intros Hstep Hfresh [_ Hm'] Hm name b' Hb'.
  assert (forall b1 b2, rtc R b1 b2 -> P b1 -> P b2) as Hsteps.
  { induction 1; eauto. }
  specialize (Hm' name b' Hb').
  destruct (m !! name) as [b|] eqn:Hb.
  - eapply Hsteps; [done|]. by eapply Hm.
  - destruct Hm' as (b0 & ? & ?). eapply Hsteps; eauto.
Qed.

(** A relation between the buffers that the operations keep relates every
    buffer of a table to the buffer of its name in a table that evolves from
    it. *)
Lemma evolves_related (R Q : relation Buffer) m m' :
  (forall b, Q b b) ->
  (forall b1 b2 b3, Q b1 b2 -> Q b2 b3 -> Q b1 b3) ->
  (forall b b', R b b' -> Q b b') ->
  evolves R m m' ->
  forall name b,
    m !! name = Some b -> exists b', m' !! name = Some b' /\ Q b b'.
Proof.
  intros Hrefl Htrans Hstep [Hdom Hm'] name b Hb.
  destruct (Hdom name) as [b' Hb']; [by eauto|].
  exists b'. split; [done|].
  specialize (Hm' name b' Hb'). rewrite Hb in Hm'.
  clear -Hm' Hrefl Htrans Hstep. induction Hm'; eauto.
Qed.

(* ===================================================================== *)
(** ** Updates of the storage of a value *)
(* ===================================================================== *)

Lemma MergeSpace_success st new_space st' :
  MergeSpace st new_space = (success, st') ->
  space st' = match space st with Some s => Some s | None => new_space end
  /\ (new_space = None \/ space st' = new_space)
  /\ buffer_name st' = buffer_name st
  /\ storage_layout st' = storage_layout st.
Proof.
  unfold MergeSpace. destruct new_space as [s'|].
  - destruct (space st) as [s|] eqn:Hs.
    + case_bool_decide as Heq; simpl; [|done]. intros [= <-]. simpl.
      rewrite Heq. by auto.
    + rewrite bool_decide_eq_true_2 by done. intros [= <-]. simpl. by auto.
  - intros [= <-]. destruct (space st); by auto.
Qed.

Lemma MergeBufferName_success st new_name st' :
  MergeBufferName st new_name = (success, st') ->
  buffer_name st'
  = match buffer_name st with Some name => Some name | None => new_name end
  /\ (new_name = None \/ buffer_name st' = new_name)
  /\ space st' = space st
  /\ storage_layout st' = storage_layout st.
Proof.
  unfold MergeBufferName. destruct new_name as [name'|].
  - destruct (buffer_name st) as [name|] eqn:Hs.
    + case_bool_decide as Heq; simpl; [|done]. intros [= <-]. simpl.
      rewrite Heq. by auto.
    + rewrite bool_decide_eq_true_2 by done. intros [= <-]. simpl. by auto.
  - intros [= <-]. destruct (buffer_name st); by auto.
Qed.

Lemma MergeLayout_success st new_layout st' :
  MergeLayout st new_layout = (success, st') ->
  (is_Some (storage_layout st) \/ is_Some new_layout ->
   is_Some (storage_layout st'))
  /\ space st' = space st
  /\ buffer_name st' = buffer_name st.
Proof.
  unfold MergeLayout. destruct new_layout as [l'|].
  - destruct (storage_layout st) as [l|] eqn:Hl.
    + destruct (UnifyUnknownExprs l' l); [|done].
      intros [= <-]. simpl. by eauto.
    + intros [= <-]. simpl. by eauto.
  - intros [= <-]. split; [|done]. intros [?|[? ?]]; done.
Qed.

(** A merge that succeeds gives a storage above the old and the new one;
    its buffer name is the old one, or the new one when there was none. *)
Lemma merge_storage_Succeeded value new_storage storage storage' :
  merge_storage value new_storage storage = Succeeded storage' ->
  storage_le storage storage'
  /\ storage_le new_storage storage'
  /\ buffer_name storage'
     = match buffer_name storage with
       | Some name => Some name
       | None => buffer_name new_storage
       end.
Proof.
  unfold merge_storage.
  destruct (MergeSpace storage (space new_storage)) as [[] st1] eqn:H1;
    [|done].
  destruct (MergeBufferName st1 (buffer_name new_storage)) as [[] st2] eqn:H2;
    [|done].
  destruct (MergeLayout st2 (storage_layout new_storage)) as [[] st3] eqn:H3;
    [|done].
  intros [= <-].
  apply MergeSpace_success in H1 as (Hs1 & Hs1' & Hn1 & Hl1).
  apply MergeBufferName_success in H2 as (Hn2 & Hn2' & Hs2 & Hl2).
  apply MergeLayout_success in H3 as (Hl3 & Hs3 & Hn3).
  unfold storage_le. rewrite Hs3, Hs2, Hn3, Hn2, Hn1, Hs1.
  split; [|split; [|done]].
  - split; [by intros s ->|]. split; [by intros name ->|].
    intros Hl. apply Hl3. left. by rewrite Hl2, Hl1.
  - split; [|split].
    + intros s Hs. destruct Hs1' as [Hnone|Heq]; [congruence|].
      by rewrite <- Hs1, Heq.
    + intros name Hname. destruct Hn2' as [Hnone|Heq]; [congruence|].
      by rewrite <- Hn1, <- Hn2, Heq.
    + intros Hl. apply Hl3. by right.
Qed.

(** What a call of [UpdateStorage] that succeeds does: the storage is
    merged, and the value is registered in the buffer that the new storage
    names when the value had no buffer. *)
Lemma UpdateStorage_Succeeded value new_storage storage buffers
  storage' buffers' :
  UpdateStorage value new_storage (storage, buffers)
  = Succeeded (storage', buffers') ->
  merge_storage value new_storage storage = Succeeded storage'
  /\ match buffer_name storage, buffer_name new_storage with
     | None, Some name =>
         exists b b',
           buffers !! name = Some b
           /\ register_buffer_use value b = Some b'
           /\ buffers' = <[name := b']> buffers
     | _, _ => buffers' = buffers
     end.
Proof.
  unfold UpdateStorage.
  assert (forall m,
             match merge_storage value new_storage storage with
             | Succeeded st => Succeeded (st, m)
             | Failed diag st => Failed diag (st, m)
             | Aborted => Aborted
             end = Succeeded (storage', buffers') ->
             merge_storage value new_storage storage = Succeeded storage'
             /\ buffers' = m) as Hmerge.
  { intros m. destruct (merge_storage _ _ _); [|done|done].
    by intros [= <- <-]. }
  destruct (buffer_name storage) as [old_name|],
           (buffer_name new_storage) as [name|]; simpl;
    try (intros H; by apply Hmerge in H).
  destruct (buffers !! name) as [b|] eqn:Hb; [|done].
  destruct (register_buffer_use value b) as [b'|] eqn:Hr; [|done].
  simpl. intros H. apply Hmerge in H as [? ->].
  split; [done|]. by exists b, b'.
Qed.

(** A call of [UpdateStorage] that succeeds adds the value to a buffer and
    trims the loop nest of this buffer, or leaves the buffers as they
    are. *)
Lemma UpdateStorage_evolves value new_storage storage buffers
  storage' buffers' :
  UpdateStorage value new_storage (storage, buffers)
  = Succeeded (storage', buffers') ->
  evolves access_step buffers buffers'.
Proof.
  intros H. apply UpdateStorage_Succeeded in H as [_ H].
  destruct (buffer_name storage), (buffer_name new_storage) as [name|];
    try (rewrite H; apply evolves_refl).
  destruct H as (b & b' & Hb & Hr & ->).
  eapply evolves_insert; [done|].
  eapply rtc_l; [apply access_AddValue|].
  apply register_buffer_use_steps in Hr.
  eapply rtc_subrel; [|exact Hr]. apply access_buffer_step.
Qed.

Lemma SetStorage_evolves fuel value storage analysis analysis' :
  SetStorage fuel value storage analysis = Some (Succeeded analysis') ->
  evolves access_step (buffers_ analysis) (buffers_ analysis').
Proof.
  apply (SetStorage_Succeeded_rel
           (fun a a' => evolves access_step (buffers_ a) (buffers_ a'))).
  - intros a. apply evolves_refl.
  - intros a1 a2 a3. apply evolves_trans.
  - intros a v. apply evolves_refl.
  - intros a v new_storage storage' buffers'. apply UpdateStorage_evolves.
Qed.

Lemma ComputeValueStorages_evolves fuel program analysis analysis' :
  ComputeValueStorages fuel program analysis = Some (Succeeded analysis') ->
  evolves access_step (buffers_ analysis) (buffers_ analysis').
Proof.
  apply (ComputeValueStorages_Succeeded_rel
           (fun a a' => evolves access_step (buffers_ a) (buffers_ a'))).
  - intros a. apply evolves_refl.
  - intros a1 a2 a3. apply evolves_trans.
  - intros a v. apply evolves_refl.
  - intros a v new_storage storage' buffers'. apply UpdateStorage_evolves.
Qed.

Lemma buffer_step_access_step_evolves m m' :
  evolves buffer_step m m' -> evolves access_step m m'.
Proof. apply evolves_mono. apply access_buffer_step. Qed.

Lemma access_step_extension_step_evolves m m' :
  evolves access_step m m' -> evolves extension_step m m'.
Proof. apply evolves_mono. apply extension_access_step. Qed.

Lemma Init_evolves fuel program analysis analysis' :
  Init fuel program analysis = Some (Succeeded analysis') ->
  evolves access_step (buffers_ analysis) (buffers_ analysis').
Proof using Canonicalize_size.
  intros H. apply Init_Succeeded in H
    as (declared & computed & Hd & Hc & Hv & _ & _).
  pose proof (DeclareBuffers_evolves program (buffers_ analysis)) as H1.
  rewrite Hd in H1.
  apply ComputeValueStorages_evolves in Hc.
  pose proof (VerifyAndMinimizeBufferLoopNests_evolves (buffers_ computed))
    as H3.
  rewrite Hv in H3.
  eapply evolves_trans; [by apply buffer_step_access_step_evolves|].
  eapply evolves_trans; [exact Hc|].
  by apply buffer_step_access_step_evolves.
Qed.

Lemma MergeStorage_evolves fuel value new_storage analysis analysis' :
  MergeStorage fuel value new_storage analysis = Some (Succeeded analysis') ->
  evolves access_step (buffers_ analysis) (buffers_ analysis').
Proof.
  unfold MergeStorage.
  destruct (MergeStorage_buffer _ _) as [buffers|] eqn:Hm; [|done].
  apply MergeStorage_buffer_evolves in Hm.
  destruct (SetStorage _ _ _ _) as [[a1|d a1|]|] eqn:Hs; [|done..].
  intros [= <-]. apply SetStorage_evolves in Hs.
  eapply evolves_trans; [by apply buffer_step_access_step_evolves|done].
Qed.

Lemma CreateBuffer_evolves fuel value loop_names analysis analysis' :
  CreateBuffer fuel value loop_names analysis = Some (Succeeded analysis') ->
  evolves access_step (buffers_ analysis) (buffers_ analysis').
Proof.
  unfold CreateBuffer.
  destruct (GetFreshBufferName_returns analysis)
    as (name & a1 & -> & Hfresh & Hbuffers & _ & _).
  destruct (op_results _ !! _) as [element_type|]; [|done].
  destruct (value_storages_ a1 !! value) as [storage|]; [|done].
  destruct (MergeBufferName _ _) as [[] storage1]; [|done].
  destruct (MergeSpace _ _) as [[] storage2]; [|done].
  intros H. apply MergeStorage_evolves in H. simpl in H.
  eapply evolves_trans; [|exact H].
  rewrite Hbuffers. apply evolves_try_emplace, Buffer_new_fresh.
Qed.

Lemma AddDimensionsToBuffer_evolves name op iter_space new_layout
  analysis analysis' :
  AddDimensionsToBuffer name op iter_space new_layout analysis
  = Succeeded analysis' ->
  evolves extension_step (buffers_ analysis) (buffers_ analysis').
Proof using Canonicalize_size.
  unfold AddDimensionsToBuffer.
  destruct (buffers_ analysis !! name) as [buffer|] eqn:Hb; [|done].
  destruct (_ ≫= rank); [|done].
  destruct (AddDimensionsToBuffer_buffer _ _ _ _ _) as [buffer'| |] eqn:Ha;
    [|done|done].
  destruct (foldl _ _ _); [|done]. intros [= <-]. simpl.
  eapply evolves_insert; [done|].
  unfold AddDimensionsToBuffer_buffer in Ha.
  destruct (layout_ buffer) as [old_layout|] eqn:Hl; [|done].
  case_decide as Hsize; [|done]. destruct Hsize as [Hsize _].
  destruct (TrimBufferLoopNestForAccess _ _ _) as [b1|] eqn:Hb1; [|done].
  destruct (rank b1) as [old_size|] eqn:Hrank1; [|done].
  destruct (AddNonePrefixToLayout b1 _) as [b2|] eqn:Hb2; [|done].
  pose proof (UnifyBufferShape_steps name op new_layout iter_space b2) as Hu.
  destruct (UnifyBufferShape _ _ _ _ _) as [b3| |]; [|done|done].
  injection Ha as <-.
  eapply rtc_l.
  { apply extension_access_step, access_buffer_step.
    by eapply TrimBufferLoopNestForAccess_step. }
  eapply rtc_l; [by eapply extension_AddNonePrefixToLayout|].
  assert (rtc buffer_step b2 b3) as Hsteps.
  { apply Hu. intros r Hr.
    assert (old_size = size old_layout) as ->.
    { unfold TrimBufferLoopNestForAccess in Hb1.
      apply SetLoopNest_stable in Hb1 as [_ Hrank].
      rewrite Hrank1 in Hrank. unfold rank in Hrank. rewrite Hl in Hrank.
      by injection Hrank. }
    unfold AddNonePrefixToLayout in Hb2. unfold rank in Hrank1, Hr.
    destruct (layout_ b1) as [l1|]; [|done].
    injection Hb2 as <-. simpl in Hr. injection Hr as <-.
    injection Hrank1 as Hrank1.
    unfold size, AddPrefix. simpl. rewrite length_app, length_replicate.
    unfold size in *. lia. }
  eapply rtc_subrel; [|exact Hsteps].
  intros b4 b5 H45. by apply extension_access_step, access_buffer_step.
Qed.

(** Every step of the analysis on the table of buffers is made of
    operations on the buffers of the table and of fresh buffers. *)
Lemma analysis_step_evolves m m' :
  analysis_step m m' -> evolves extension_step m m'.
Proof using Canonicalize_size.
  intros [program m1 m2 H|value new_storage storage storage' m1 m2 H
         |fuel value storage a a' H|fuel program a a' H
         |fuel value storage a a' H|fuel value loop_names a a' H
         |name op iter_space new_layout a a' H|m1 m2 H].
  - pose proof (DeclareBuffers_evolves program m1) as Hs. rewrite H in Hs.
    by apply access_step_extension_step_evolves,
      buffer_step_access_step_evolves.
  - by apply UpdateStorage_evolves, access_step_extension_step_evolves in H.
  - by apply SetStorage_evolves, access_step_extension_step_evolves in H.
  - by apply ComputeValueStorages_evolves,
      access_step_extension_step_evolves in H.
  - by apply MergeStorage_evolves, access_step_extension_step_evolves in H.
  - by apply CreateBuffer_evolves, access_step_extension_step_evolves in H.
  - by apply AddDimensionsToBuffer_evolves in H.
  - pose proof (VerifyAndMinimizeBufferLoopNests_evolves m1) as Hs.
    rewrite H in Hs.
    by apply access_step_extension_step_evolves,
      buffer_step_access_step_evolves.
Qed.

Lemma analysis_steps_evolve m m' :
  rtc analysis_step m m' -> evolves extension_step m m'.
Proof using Canonicalize_size.
  induction 1 as [|m1 m2 m3 Hstep _ IH]; [apply evolves_refl|].
  eapply evolves_trans; [by apply analysis_step_evolves|done].
Qed.

(* ===================================================================== *)
(** ** Invariants of the buffers *)
(* ===================================================================== *)

Lemma fresh_buffer_accesses_consistent b :
  fresh_buffer b -> accesses_consistent b.
Proof.
  intros (_ & Hw & Hr & Hv). unfold accesses_consistent.
  by rewrite Hw, Hr, Hv.
Qed.

Lemma fresh_buffer_layout_scoped b : fresh_buffer b -> layout_scoped b.
Proof. intros (Hl & _) l. by rewrite Hl. Qed.

(** X2: the writes and the reads of a buffer are the ones of its values.
    In every table of buffers that the analysis reaches from the empty
    table, and in the analysis that [Init] builds, the list [writes_] of a
    buffer holds, in the order of [values_], the defining operation and the
    result number of every value of the buffer that a compute operation
    defines, and [reads_] holds the uses of these values by compute
    operations. *)
Theorem accesses_follow_values :
  (forall m,
      rtc analysis_step ∅ m ->
      forall name b, m !! name = Some b -> accesses_consistent b)
  /\ (forall fuel program analysis,
         Init fuel program StorageAnalysis_empty = Some (Succeeded analysis) ->
         forall name b,
           buffers_ analysis !! name = Some b -> accesses_consistent b).
Proof using Canonicalize_size.
  split.
  - intros m Hsteps. apply analysis_steps_evolve in Hsteps.
    eapply (evolves_invariant extension_step accesses_consistent);
      [apply extension_step_accesses_consistent
      |apply fresh_buffer_accesses_consistent|exact Hsteps|].
    intros name b Hb. by rewrite lookup_empty in Hb.
  - intros fuel program analysis Hinit. apply Init_evolves in Hinit.
    apply access_step_extension_step_evolves in Hinit.
    eapply (evolves_invariant extension_step accesses_consistent);
      [apply extension_step_accesses_consistent
      |apply fresh_buffer_accesses_consistent|exact Hinit|].
    intros name b Hb. simpl in Hb. by rewrite lookup_empty in Hb.
Qed.

(** X3: the layout of a buffer is a mapping from the domain of the buffer.
    In every table of buffers that the analysis reaches from the empty
    table, and in the analysis that [Init] builds, the use domain of the
    layout of a buffer has the size of the domain of the buffer. *)
Theorem layout_maps_buffer_domain :
  (forall m,
      rtc analysis_step ∅ m ->
      forall name b, m !! name = Some b -> layout_scoped b)
  /\ (forall fuel program analysis,
         Init fuel program StorageAnalysis_empty = Some (Succeeded analysis) ->
         forall name b,
           buffers_ analysis !! name = Some b -> layout_scoped b).
Proof using Canonicalize_size.
  split.
  - intros m Hsteps. apply analysis_steps_evolve in Hsteps.
    eapply (evolves_invariant extension_step layout_scoped);
      [apply extension_step_layout_scoped
      |apply fresh_buffer_layout_scoped|exact Hsteps|].
    intros name b Hb. by rewrite lookup_empty in Hb.
  - intros fuel program analysis Hinit. apply Init_evolves in Hinit.
    apply access_step_extension_step_evolves in Hinit.
    eapply (evolves_invariant extension_step layout_scoped);
      [apply extension_step_layout_scoped
      |apply fresh_buffer_layout_scoped|exact Hinit|].
    intros name b Hb. simpl in Hb. by rewrite lookup_empty in Hb.
Qed.

(* ===================================================================== *)
(** ** The values of the buffers *)
(* ===================================================================== *)

(** The registration of the values depends on the values of the buffers
    and on the buffer names of the storages only. *)
Lemma values_registered_same analysis analysis' :
  (forall name b,
      buffers_ analysis !! name = Some b ->
      exists b', buffers_ analysis' !! name = Some b'
                 /\ values_ b' = values_ b) ->
  (forall name b',
      buffers_ analysis' !! name = Some b' ->
      (exists b, buffers_ analysis !! name = Some b /\ values_ b' = values_ b)
      \/ values_ b' = []) ->
  (forall value,
      value_storages_ analysis' !! value ≫= buffer_name
      = value_storages_ analysis !! value ≫= buffer_name) ->
  values_registered analysis -> values_registered analysis'.
Proof.
  intros Hdom Hm Hvs (I1 & I2 & I3). split; [|split].
  - intros name b' value Hb' Hin.
    destruct (Hm name b' Hb') as [(b & Hb & Hv)|Hnil].
    + rewrite Hv in Hin. destruct (I1 name b value Hb Hin) as (st & Hst & Hn).
      specialize (Hvs value). rewrite Hst in Hvs. simpl in Hvs.
      destruct (value_storages_ analysis' !! value) as [st'|]; [|by rewrite Hn in Hvs].
      exists st'. split; [done|]. simpl in Hvs. congruence.
    + rewrite Hnil in Hin. inversion Hin.
  - intros value st' name Hst' Hn.
    specialize (Hvs value). rewrite Hst' in Hvs. simpl in Hvs.
    destruct (value_storages_ analysis !! value) as [st|] eqn:Hst;
      [|simpl in Hvs; congruence].
    simpl in Hvs. destruct (I2 value st name Hst) as (b & Hb & Hin);
      [congruence|].
    destruct (Hdom name b Hb) as (b' & Hb' & Hv).
    exists b'. split; [done|]. by rewrite Hv.
  - intros name b' Hb'.
    destruct (Hm name b' Hb') as [(b & Hb & Hv)|Hnil].
    + rewrite Hv. by eapply I3.
    + rewrite Hnil. constructor.
Qed.

(** The operations of [buffer_step] keep the registration of the values. *)
Lemma values_registered_evolves analysis buffers :
  evolves buffer_step (buffers_ analysis) buffers ->
  values_registered analysis ->
  values_registered (with_buffers analysis buffers).
Proof.
  intros [Hdom Hm]. apply values_registered_same; simpl; [| |done].
  - intros name b Hb. destruct (Hdom name) as [b' Hb']; [by eauto|].
    exists b'. split; [done|]. specialize (Hm name b' Hb').
    rewrite Hb in Hm. by apply buffer_steps_accesses_kept in Hm as [? _].
  - intros name b' Hb'. specialize (Hm name b' Hb').
    destruct (buffers_ analysis !! name) as [b|].
    + left. exists b. split; [done|].
      by apply buffer_steps_accesses_kept in Hm as [? _].
    + right. destruct Hm as (b0 & (_ & _ & _ & Hv) & Hsteps).
      apply buffer_steps_accesses_kept in Hsteps as [-> _]. done.
Qed.

Lemma values_registered_entry analysis value :
  values_registered analysis ->
  values_registered
    (mkStorageAnalysis (buffers_ analysis)
       (storage_entry (value_storages_ analysis) value).2
       (next_buffer_id_ analysis)).
Proof.
  apply values_registered_same; simpl; [by eauto..|].
  intros value'. unfold storage_entry.
  destruct (value_storages_ analysis !! value) eqn:Hv; simpl; [done|].
  destruct (decide (value' = value)) as [->|Hne].
  - by rewrite lookup_insert_eq, Hv.
  - by rewrite lookup_insert_ne.
Qed.

Lemma register_buffer_use_values value buffer buffer' :
  register_buffer_use value buffer = Some buffer' ->
  values_ buffer' = values_ buffer ++ [value].
Proof.
  intros H. apply register_buffer_use_steps in H.
  by apply buffer_steps_accesses_kept in H as [-> _].
Qed.

Lemma values_registered_UpdateStorage analysis value new_storage
  storage' buffers' :
  UpdateStorage value new_storage
    ((storage_entry (value_storages_ analysis) value).1, buffers_ analysis)
  = Succeeded (storage', buffers') ->
  values_registered analysis ->
  values_registered
    (mkStorageAnalysis buffers'
       (<[value := storage']>
          (storage_entry (value_storages_ analysis) value).2)
       (next_buffer_id_ analysis)).
Proof.
  intros Hupdate Hregistered.
  apply (values_registered_entry analysis value) in Hregistered.
  assert ((storage_entry (value_storages_ analysis) value).2 !! value
          = Some (storage_entry (value_storages_ analysis) value).1) as Hst.
  { unfold storage_entry.
    destruct (value_storages_ analysis !! value) eqn:Hv; simpl; [done|].
    by rewrite lookup_insert_eq. }
  destruct (storage_entry (value_storages_ analysis) value) as [st vs].
  simpl in *.
  apply UpdateStorage_Succeeded in Hupdate as [Hmerge Hbuffers].
  apply merge_storage_Succeeded in Hmerge as (_ & _ & Hname).
  destruct Hregistered as (I1 & I2 & I3). simpl in *.
  destruct (buffer_name st) as [old_name|] eqn:Hold.
  { (* The value keeps its buffer. *)
    assert (buffers' = buffers_ analysis) as -> by (by destruct (buffer_name new_storage)).
    split; [|split]; simpl; [| |done].
    - intros name b value' Hb Hin.
      destruct (I1 name b value' Hb Hin) as (st1 & Hst1 & Hn1).
      destruct (decide (value' = value)) as [->|Hne].
      + rewrite lookup_insert_eq. exists storage'. split; [done|]. congruence.
      + rewrite lookup_insert_ne by done. by eauto.
    - intros value' st1 name.
      destruct (decide (value' = value)) as [->|Hne].
      + rewrite lookup_insert_eq. intros [= <-] Hn.
        apply (I2 value st name Hst). congruence.
      + rewrite lookup_insert_ne by done. apply I2. }
  destruct (buffer_name new_storage) as [name|] eqn:Hnew.
  2:{ (* The value has no buffer. *)
    subst buffers'.
    split; [|split]; simpl; [| |done].
    - intros name b value' Hb Hin.
      destruct (I1 name b value' Hb Hin) as (st1 & Hst1 & Hn1).
      destruct (decide (value' = value)) as [->|Hne]; [congruence|].
      rewrite lookup_insert_ne by done. by eauto.
    - intros value' st1 name.
      destruct (decide (value' = value)) as [->|Hne].
      + rewrite lookup_insert_eq. intros [= <-] Hn. congruence.
      + rewrite lookup_insert_ne by done. apply I2. }
  (* The value is registered in the buffer [name]. *)
  destruct Hbuffers as (b & b' & Hb & Hr & ->).
  apply register_buffer_use_values in Hr.
  assert (forall name1 b1, buffers_ analysis !! name1 = Some b1 ->
                           value ∉ values_ b1) as Hfresh.
  { intros name1 b1 Hb1 Hin.
    destruct (I1 name1 b1 value Hb1 Hin) as (st1 & Hst1 & Hn1). congruence. }
  split; [|split]; simpl.
  - intros name1 b1 value' Hb1 Hin.
    destruct (decide (value' = value)) as [->|Hne].
    + rewrite lookup_insert_eq. exists storage'. split; [done|].
      rewrite Hname. f_equal.
      destruct (decide (name1 = name)) as [->|Hne1]; [done|].
      rewrite lookup_insert_ne in Hb1 by done.
      by destruct (Hfresh name1 b1 Hb1).
    + rewrite lookup_insert_ne by done.
      destruct (decide (name1 = name)) as [->|Hne1].
      * rewrite lookup_insert_eq in Hb1. injection Hb1 as <-.
        rewrite Hr in Hin. apply elem_of_app in Hin as [Hin|Hin].
        -- by apply (I1 name b).
        -- apply list_elem_of_singleton in Hin. done.
      * rewrite lookup_insert_ne in Hb1 by done. by apply (I1 name1 b1).
  - intros value' st1 name1.
    destruct (decide (value' = value)) as [->|Hne].
    + rewrite lookup_insert_eq. intros [= <-] Hn.
      assert (name1 = name) as -> by congruence.
      exists b'. rewrite lookup_insert_eq. split; [done|].
      rewrite Hr. apply elem_of_app. right. by apply list_elem_of_singleton.
    + rewrite lookup_insert_ne by done. intros Hst1 Hn1.
      destruct (I2 value' st1 name1 Hst1 Hn1) as (b1 & Hb1 & Hin).
      destruct (decide (name1 = name)) as [->|Hne1].
      * exists b'. rewrite lookup_insert_eq. split; [done|].
        rewrite Hr. apply elem_of_app. left. congruence.
      * exists b1. by rewrite lookup_insert_ne.
  - intros name1 b1.
    destruct (decide (name1 = name)) as [->|Hne1].
    + rewrite lookup_insert_eq. intros [= <-]. rewrite Hr.
      apply NoDup_app. split; [by eapply I3|]. split; [|apply NoDup_singleton].
      intros value' Hin Hin'. apply list_elem_of_singleton in Hin' as ->.
      by destruct (Hfresh name b Hb).
    + rewrite lookup_insert_ne by done. apply I3.
Qed.

Lemma SetStorage_values_registered fuel value storage analysis analysis' :
  SetStorage fuel value storage analysis = Some (Succeeded analysis') ->
  values_registered analysis -> values_registered analysis'.
Proof.
  apply (SetStorage_Succeeded_rel
           (fun a a' => values_registered a -> values_registered a')).
  - done.
  - by auto.
  - intros a v. apply values_registered_entry.
  - intros a v new_storage storage' buffers'.
    apply values_registered_UpdateStorage.
Qed.

Lemma ComputeValueStorages_values_registered fuel program analysis analysis' :
  ComputeValueStorages fuel program analysis = Some (Succeeded analysis') ->
  values_registered analysis -> values_registered analysis'.
Proof.
  apply (ComputeValueStorages_Succeeded_rel
           (fun a a' => values_registered a -> values_registered a')).
  - done.
  - by auto.
  - intros a v. apply values_registered_entry.
  - intros a v new_storage storage' buffers'.
    apply values_registered_UpdateStorage.
Qed.

Lemma Init_values_registered fuel program analysis analysis' :
  Init fuel program analysis = Some (Succeeded analysis') ->
  values_registered analysis -> values_registered analysis'.
Proof using Canonicalize_size.
  intros H Hregistered. apply Init_Succeeded in H
    as (declared & computed & Hd & Hc & Hv & _ & Hvs).
  pose proof (DeclareBuffers_evolves program (buffers_ analysis)) as H1.
  rewrite Hd in H1.
  apply (values_registered_evolves _ _ H1) in Hregistered.
  apply (ComputeValueStorages_values_registered _ _ _ _ Hc) in Hregistered.
  pose proof (VerifyAndMinimizeBufferLoopNests_evolves (buffers_ computed))
    as H3.
  rewrite Hv in H3.
  apply (values_registered_evolves _ _ H3) in Hregistered.
  revert Hregistered. apply values_registered_same; simpl; [by eauto..|].
  intros value. by rewrite Hvs.
Qed.

Lemma MergeStorage_values_registered fuel value new_storage
  analysis analysis' :
  MergeStorage fuel value new_storage analysis = Some (Succeeded analysis') ->
  values_registered analysis -> values_registered analysis'.
Proof.
  unfold MergeStorage.
  destruct (MergeStorage_buffer _ _) as [buffers|] eqn:Hm; [|done].
  apply MergeStorage_buffer_evolves in Hm.
  destruct (SetStorage _ _ _ _) as [[a1|d a1|]|] eqn:Hs; [|done..].
  intros [= <-] Hregistered.
  apply (SetStorage_values_registered _ _ _ _ _ Hs).
  by apply values_registered_evolves.
Qed.

Lemma CreateBuffer_values_registered fuel value loop_names
  analysis analysis' :
  CreateBuffer fuel value loop_names analysis = Some (Succeeded analysis') ->
  values_registered analysis -> values_registered analysis'.
Proof.
  unfold CreateBuffer.
  destruct (GetFreshBufferName_returns analysis)
    as (name & a1 & -> & Hfresh & Hbuffers & Hstorages & _).
  destruct (op_results _ !! _) as [element_type|]; [|done].
  destruct (value_storages_ a1 !! value) as [storage|]; [|done].
  destruct (MergeBufferName _ _) as [[] storage1]; [|done].
  destruct (MergeSpace _ _) as [[] storage2]; [|done].
  intros H Hregistered.
  apply (MergeStorage_values_registered _ _ _ _ _ H).
  apply values_registered_evolves.
  { apply evolves_try_emplace, Buffer_new_fresh. }
  revert Hregistered. apply values_registered_same.
  - rewrite Hbuffers. by eauto.
  - rewrite Hbuffers. by eauto.
  - intros value'. by rewrite Hstorages.
Qed.

Lemma AddDimensionsToBuffer_buffer_accesses_kept name op iter_space
  new_layout buffer buffer' :
  AddDimensionsToBuffer_buffer name op iter_space new_layout buffer
  = Succeeded buffer' ->
  accesses_kept buffer buffer'.
Proof using Canonicalize_size.
  unfold AddDimensionsToBuffer_buffer. intros Ha.
  destruct (layout_ buffer) as [old_layout|] eqn:Hl; [|done].
  case_decide as Hsize; [|done]. destruct Hsize as [Hsize _].
  destruct (TrimBufferLoopNestForAccess _ _ _) as [b1|] eqn:Hb1; [|done].
  destruct (rank b1) as [old_size|] eqn:Hrank1; [|done].
  destruct (AddNonePrefixToLayout b1 _) as [b2|] eqn:Hb2; [|done].
  pose proof (UnifyBufferShape_steps name op new_layout iter_space b2) as Hu.
  destruct (UnifyBufferShape _ _ _ _ _) as [b3| |]; [|done|done].
  injection Ha as <-.
  assert (rtc buffer_step b2 b3) as Hsteps.
  { apply Hu. intros r Hr.
    assert (old_size = size old_layout) as ->.
    { unfold TrimBufferLoopNestForAccess in Hb1.
      apply SetLoopNest_stable in Hb1 as [_ Hrank].
      rewrite Hrank1 in Hrank. unfold rank in Hrank. rewrite Hl in Hrank.
      by injection Hrank. }
    unfold AddNonePrefixToLayout in Hb2. unfold rank in Hrank1, Hr.
    destruct (layout_ b1) as [l1|]; [|done].
    injection Hb2 as <-. simpl in Hr. injection Hr as <-.
    injection Hrank1 as Hrank1.
    unfold size, AddPrefix. simpl. rewrite length_app, length_replicate.
    unfold size in *. lia. }
  apply buffer_steps_accesses_kept in Hsteps as (H1 & H2 & H3).
  apply TrimBufferLoopNestForAccess_step, buffer_step_accesses_kept in Hb1
    as (H4 & H5 & H6).
  unfold AddNonePrefixToLayout in Hb2.
  destruct (layout_ b1); [|done]. injection Hb2 as <-. simpl in *.
  unfold accesses_kept. by rewrite H1, H2, H3.
Qed.

(** The loop of [AddDimensionsToBuffer] over the values of the buffer keeps
    the entries, the spaces and the buffer names of the storages. *)
Lemma add_unknown_prefix_names num_new_dims values :
  forall vs vs',
    foldl (fun acc value =>
             value_storages ← acc;
             storage ← value_storages !! value;
             storage ← AddUnknownPrefixToLayout storage num_new_dims;
             Some (<[value := storage]> value_storages))
      (Some vs) values = Some vs' ->
    storages_grow vs vs'
    /\ forall value,
        vs' !! value ≫= buffer_name = vs !! value ≫= buffer_name.
Proof.
  induction values as [|value values IH]; intros vs vs'; simpl.
  - intros [= <-]. split; [|done]. intros value st Hst. exists st.
    split; [done|]. by repeat split.
  - destruct (vs !! value) as [storage|] eqn:Hv; simpl.
    2:{ intros H. exfalso. clear -H. induction values; simpl in H; [done|auto]. }
    destruct (AddUnknownPrefixToLayout storage num_new_dims)
      as [storage'|] eqn:Hs; simpl.
    2:{ intros H. exfalso. clear -H. induction values; simpl in H; [done|auto]. }
    intros H. apply IH in H as [Hgrow Hnames].
    unfold AddUnknownPrefixToLayout in Hs.
    destruct (storage_layout storage) as [l|] eqn:Hl; [|done].
    injection Hs as <-.
    split.
    + intros value1 st1 Hst1.
      destruct (decide (value1 = value)) as [->|Hne].
      * destruct (Hgrow value
                    (mkValueStorage (space storage) (buffer_name storage)
                       (Some (AddPrefix l
                                (replicate num_new_dims MappingUnknownExpr)))))
          as (st' & Hst' & Hle1 & Hle2 & Hle3);
          [by rewrite lookup_insert_eq|].
        exists st'. split; [done|]. simpl in *.
        assert (st1 = storage) as -> by congruence.
        repeat split; [done|done|]. intros _. apply Hle3. by eauto.
      * apply Hgrow. by rewrite lookup_insert_ne.
    + intros value1. rewrite Hnames.
      destruct (decide (value1 = value)) as [->|Hne].
      * by rewrite lookup_insert_eq, Hv.
      * by rewrite lookup_insert_ne.
Qed.

Lemma AddDimensionsToBuffer_values_registered name op iter_space new_layout
  analysis analysis' :
  AddDimensionsToBuffer name op iter_space new_layout analysis
  = Succeeded analysis' ->
  values_registered analysis -> values_registered analysis'.
Proof using Canonicalize_size.
  unfold AddDimensionsToBuffer.
  destruct (buffers_ analysis !! name) as [buffer|] eqn:Hb; [|done].
  destruct (_ ≫= rank); [|done].
  destruct (AddDimensionsToBuffer_buffer _ _ _ _ _) as [buffer'| |] eqn:Ha;
    [|done|done].
  apply AddDimensionsToBuffer_buffer_accesses_kept in Ha as [Hvalues _].
  destruct (foldl _ _ _) as [vs'|] eqn:Hfold; [|done]. intros [= <-].
  apply add_unknown_prefix_names in Hfold as [_ Hnames].
  apply values_registered_same; simpl; [| |done].
  - intros name1 b1 Hb1. destruct (decide (name1 = name)) as [->|Hne].
    + exists buffer'. rewrite lookup_insert_eq. split; [done|]. congruence.
    + exists b1. by rewrite lookup_insert_ne.
  - intros name1 b1. destruct (decide (name1 = name)) as [->|Hne].
    + rewrite lookup_insert_eq. intros [= <-]. left. by exists buffer.
    + rewrite lookup_insert_ne by done. intros Hb1. left. by exists b1.
Qed.

Lemma analysis_call_values_registered analysis analysis' :
  analysis_call analysis analysis' ->
  values_registered analysis -> values_registered analysis'.
Proof using Canonicalize_size.
  intros [fuel value loop_names a a' H|fuel value new_storage a a' H
         |name a a' H|a buffers H|name op iter_space new_layout a a' H].
  - by eapply CreateBuffer_values_registered.
  - by eapply MergeStorage_values_registered.
  - destruct (GetFreshBufferName_returns a)
      as (name' & a1 & Heq & _ & Hbuffers & Hstorages & _).
    rewrite Heq in H. injection H as <- <-.
    apply values_registered_same.
    + rewrite Hbuffers. by eauto.
    + rewrite Hbuffers. by eauto.
    + intros value'. by rewrite Hstorages.
  - apply values_registered_evolves.
    pose proof (VerifyAndMinimizeBufferLoopNests_evolves (buffers_ a)) as He.
    by rewrite H in He.
  - by eapply AddDimensionsToBuffer_values_registered.
Qed.

(** X4: in an analysis that [Create] returns, and after any successful
    calls of its public methods, the values of a buffer are exactly the
    values whose storage names the buffer, and no value is twice among the
    values of a buffer. *)
Theorem buffer_values_are_stored_values analysis :
  created analysis ->
  (forall name b value,
      buffers_ analysis !! name = Some b ->
      (value ∈ values_ b
       <-> exists storage,
             value_storages_ analysis !! value = Some storage
             /\ buffer_name storage = Some name))
  /\ (forall name b, buffers_ analysis !! name = Some b -> NoDup (values_ b))
  /\ (forall value storage name,
         value_storages_ analysis !! value = Some storage ->
         buffer_name storage = Some name ->
         is_Some (buffers_ analysis !! name)).
Proof using Canonicalize_size.
  intros (fuel & program & analysis0 & Hinit & Hcalls).
  assert (values_registered analysis) as (I1 & I2 & I3).
  { apply Init_values_registered in Hinit.
    2:{ split; [|split]; simpl; intros *; by rewrite ?lookup_empty. }
    induction Hcalls as [|a1 a2 a3 Hcall _ IH]; [done|].
    apply IH. by eapply analysis_call_values_registered. }
  split; [|split].
  - intros name b value Hb. split; [by apply I1|].
    intros (storage & Hst & Hname).
    destruct (I2 value storage name Hst Hname) as (b' & Hb' & Hin).
    congruence.
  - exact I3.
  - intros value storage name Hst Hname.
    destruct (I2 value storage name Hst Hname) as (b' & Hb' & _). by eauto.
Qed.

(* ===================================================================== *)
(** ** The trims of the loop nests *)
(* ===================================================================== *)


Lemma TrimBufferLoopNestForAccess_trimmed (iter_space : IterationSpace)
  (layout : option MappingAttr) (buffer : Buffer) :
  exists buffer',
    TrimBufferLoopNestForAccess iter_space layout buffer = Some buffer'
    /\ trimmed_for_access iter_space layout (loop_nest_ buffer)
         (loop_nest_ buffer').
Proof using GetLoopNest_size.
  destruct (TrimBufferLoopNestForAccess_take iter_space layout buffer)
    as (buffer' & Hb & H1 & H2).
  exists buffer'. split; [done|].
  exists (trim_bound iter_space layout buffer).
  split; [done|]. split; [done|].
  pose proof (common_prefix_length_le_r (loop_names iter_space)
                (loop_nest_ buffer)) as Hr.
  fold (NumCommonLoops iter_space (loop_nest_ buffer)) in Hr.
  unfold trim_bound in *.
  set (k := NumCommonLoops iter_space (loop_nest_ buffer)) in *.
  split.
  - rewrite H1, length_take. destruct (layout ≫= _); lia.
  - destruct layout as [l|]; simpl; [|done].
    destruct (find_first (DependencyMask l)) as [f|] eqn:Hf.
    + right. exists f. split; [|done]. by apply find_first_DependencyMask_Some.
    + left. split; [|done]. by apply find_first_DependencyMask_None.
Qed.

(** [UnifyBufferShape] leaves the loop nest of the buffer as it is. *)
Lemma UnifyBufferShape_loop_nest name op layout iter_space buffer buffer' :
  UnifyBufferShape name op layout iter_space buffer = Succeeded buffer' ->
  loop_nest_ buffer' = loop_nest_ buffer.
Proof.
  unfold UnifyBufferShape.
  destruct (match layout_ buffer with Some _ => _ | None => _ end); [|done].
  destruct (resolve_constraints _ _ _ _ _ _ _) as [[constraints new_domain]| |];
    try done.
  destruct (UnifyLayout _ _) as [b'|] eqn:Hu; simpl; [|done].
  intros [= <-]. by apply UnifyLayout_stable in Hu as [_ ->].
Qed.

(** C3: trimming of the loop nest of a buffer.  An access to a buffer from
    an iteration space with a layout trims the loop nest of the buffer to
    its prefix of length [k], the number of leading loops common to the
    iteration space and the loop nest of the buffer, or of length
    [min k f] when the layout is given and references a first loop at
    position [f]; the prefix is also a prefix of the loops of the iteration
    space.  [DeclareBuffer] applies this trim to the buffer that it
    declares, for the iteration space of the operation and the layout of
    the attribute, and [AddDimensionsToBuffer] to the buffer that it
    extends, for the iteration space and the new layout it is given: the
    buffer of the table has the trimmed loop nest when they return.
    Registering a value as a new use of a buffer applies the bound [k]
    alone, for the iteration space of the operation that defines the value
    and then for the one of each of its users; [UpdateStorage] does so,
    before it merges the storages, exactly when the storage of the value
    has no buffer name and the new storage has one, and leaves the other
    buffers as they are. *)
Theorem trim_buffer_loop_nest (iter_space : IterationSpace)
  (layout : option MappingAttr) (buffer : Buffer) (value : Value) :
  let users :=
    iteration_spaces (getDefiningOp value)
      :: ((fun use => iteration_spaces (use_owner use)) <$> getUses value) in
  (exists buffer',
      TrimBufferLoopNestForAccess iter_space layout buffer = Some buffer'
      /\ trimmed_for_access iter_space layout (loop_nest_ buffer)
           (loop_nest_ buffer'))
  /\ (exists buffer',
         register_buffer_use value buffer = Some buffer'
         /\ loop_nest_ buffer'
            = trim_to_common_loops (loop_nest_ buffer) users)
  /\ (forall op result attr name element_type buffer_map buffer_map',
         attr_name attr = Some name ->
         op_results op !! result = Some element_type ->
         DeclareBuffer op result (Some attr) buffer_map
         = Succeeded buffer_map' ->
         let declared :=
           default
             (Buffer_new (op_loc op) element_type
                (loop_names (iteration_spaces op))
                (GetLoopNest (loop_names (iteration_spaces op))))
             (buffer_map !! name) in
         exists attr_layout buffer',
           GetBufferLayout op attr = Some attr_layout
           /\ buffer_map' !! name = Some buffer'
           /\ trimmed_for_access (iteration_spaces op) attr_layout
                (loop_nest_ declared) (loop_nest_ buffer')
           /\ forall other,
               other <> name -> buffer_map' !! other = buffer_map !! other)
  /\ (forall name op op_iter_space new_layout analysis analysis',
         AddDimensionsToBuffer name op op_iter_space new_layout analysis
         = Succeeded analysis' ->
         exists extended buffer',
           buffers_ analysis !! name = Some extended
           /\ buffers_ analysis' !! name = Some buffer'
           /\ trimmed_for_access op_iter_space (Some new_layout)
                (loop_nest_ extended) (loop_nest_ buffer')
           /\ forall other,
               other <> name ->
               buffers_ analysis' !! other = buffers_ analysis !! other)
  /\ (forall new_storage storage buffers,
         match UpdateStorage value new_storage (storage, buffers) with
         | Succeeded (_, buffers') | Failed _ (_, buffers') =>
             match buffer_name storage, buffer_name new_storage with
             | None, Some name =>
                 exists used buffer',
                   buffers !! name = Some used
                   /\ buffers' !! name = Some buffer'
                   /\ values_ buffer' = values_ used ++ [value]
                   /\ loop_nest_ buffer'
                      = trim_to_common_loops (loop_nest_ used) users
                   /\ forall other,
                       other <> name -> buffers' !! other = buffers !! other
             | _, _ => buffers' = buffers
             end
         | Aborted =>
             exists name,
               buffer_name storage = None
               /\ buffer_name new_storage = Some name
               /\ buffers !! name = None
         end).
Proof using GetLoopNest_size.
  intros users. split; [|split; [|split; [|split]]].
  - apply TrimBufferLoopNestForAccess_trimmed.
  - unfold register_buffer_use.
    set (b0 := AddValue buffer value (getDefiningOp value) (getUses value)).
    destruct (trim_without_layout users b0) as (b' & Hb' & Hln).
    exists b'. split; [done|]. by rewrite Hln.
  - intros op result attr name element_type buffer_map buffer_map'
      Hname Hresult. unfold DeclareBuffer. rewrite Hname, Hresult.
    cbv zeta.
    set (new := Buffer_new _ _ _ _).
    assert (try_emplace name new buffer_map !! name
            = Some (default new (buffer_map !! name))) as Hdeclared.
    { unfold try_emplace. destruct (buffer_map !! name) eqn:Hb; [done|].
      by rewrite lookup_insert_eq. }
    rewrite Hdeclared.
    set (declared := default new (buffer_map !! name)).
    case_decide; [done|].
    destruct (GetBufferLayout op attr) as [attr_layout|]; [|done].
    case_decide; [done|].
    destruct (TrimBufferLoopNestForAccess_trimmed (iteration_spaces op)
                attr_layout declared) as (trimmed & -> & Htrimmed).
    assert (forall b m',
               loop_nest_ b = loop_nest_ trimmed ->
               Succeeded (<[name := b]> (try_emplace name new buffer_map))
               = Succeeded m' ->
               exists attr_layout0 buffer',
                 Some attr_layout = Some attr_layout0
                 /\ m' !! name = Some buffer'
                 /\ trimmed_for_access (iteration_spaces op) attr_layout0
                      (loop_nest_ declared) (loop_nest_ buffer')
                 /\ forall other,
                     other <> name -> m' !! other = buffer_map !! other)
      as Hdone.
    { intros b m' Hb [= <-]. exists attr_layout, b.
      split; [done|]. split; [by rewrite lookup_insert_eq|].
      split; [by rewrite Hb|].
      intros other Hother. rewrite lookup_insert_ne by done.
      unfold try_emplace. destruct (buffer_map !! name); [done|].
      by rewrite lookup_insert_ne. }
    destruct attr_layout as [l|]; [|by apply Hdone].
    destruct (UnifyBufferShape _ _ _ _ _) as [unified|d unified|] eqn:Hu;
      [|done|done].
    apply Hdone. by apply UnifyBufferShape_loop_nest in Hu.
  - intros name op op_iter_space new_layout analysis analysis'.
    unfold AddDimensionsToBuffer.
    destruct (buffers_ analysis !! name) as [extended|] eqn:Hextended; [|done].
    destruct (TrimBufferLoopNestForAccess_trimmed op_iter_space
                (Some new_layout) extended) as (trimmed & Htrim & Htrimmed).
    rewrite Htrim. simpl.
    destruct (rank trimmed) as [old_size|] eqn:Hrank; simpl; [|done].
    destruct (AddDimensionsToBuffer_buffer _ _ _ _ _) as [b'| |] eqn:Hb';
      [|done|done].
    destruct (foldl _ _ _) as [value_storages|]; [|done].
    intros [= <-]. simpl. exists extended, b'.
    split; [done|]. split; [by rewrite lookup_insert_eq|].
    split; [|by intros other Hother; rewrite lookup_insert_ne].
    unfold AddDimensionsToBuffer_buffer in Hb'.
    destruct (layout_ extended); [|done]. case_decide; [|done].
    rewrite Htrim, Hrank in Hb'.
    destruct (AddNonePrefixToLayout trimmed _) as [b2|] eqn:Hb2; [|done].
    destruct (UnifyBufferShape _ _ _ _ _) as [b3| |] eqn:Hb3; [|done|done].
    injection Hb' as <-. apply UnifyBufferShape_loop_nest in Hb3.
    unfold AddNonePrefixToLayout in Hb2.
    destruct (layout_ trimmed); [|done]. injection Hb2 as <-.
    by rewrite Hb3.
  - intros new_storage storage buffers. unfold UpdateStorage.
    assert (forall st m,
               match
                 (match merge_storage value new_storage st with
                  | Succeeded st' => Succeeded (st', m)
                  | Failed diag st' => Failed diag (st', m)
                  | Aborted => Aborted
                  end : Outcome (ValueStorage * gmap StringAttr Buffer))
               with
               | Succeeded (_, buffers') | Failed _ (_, buffers') =>
                   buffers' = m
               | Aborted => False
               end) as Hmerge.
    { intros st m. unfold merge_storage.
      destruct (MergeSpace _ _) as [[] ?]; [|done].
      destruct (MergeBufferName _ _) as [[] ?]; [|done].
      by destruct (MergeLayout _ _) as [[] ?]. }
    destruct (buffer_name storage) as [old_name|] eqn:Hold.
    { simpl. specialize (Hmerge storage buffers).
      destruct (merge_storage _ _ _); simpl in *; done. }
    destruct (buffer_name new_storage) as [name|] eqn:Hnew.
    2:{ simpl. specialize (Hmerge storage buffers).
        destruct (merge_storage _ _ _); simpl in *; done. }
    destruct (buffers !! name) as [used|] eqn:Hused; simpl; [|by exists name].
    set (b0 := AddValue used value (getDefiningOp value) (getUses value)).
    destruct (trim_without_layout users b0) as (b' & Hb' & Hln).
    assert (register_buffer_use value used = Some b') as Hreg by exact Hb'.
    rewrite Hreg. simpl.
    pose proof (register_buffer_use_values _ _ _ Hreg) as Hvalues.
    specialize (Hmerge storage (<[name := b']> buffers)).
    destruct (merge_storage _ _ _) as [st'|d st'|]; simpl in *; [| |done].
    + subst. exists used, b'. rewrite lookup_insert_eq.
      repeat split; try done.
      by intros other Hother; rewrite lookup_insert_ne.
    + subst. exists used, b'. rewrite lookup_insert_eq.
      repeat split; try done.
      by intros other Hother; rewrite lookup_insert_ne.
Qed.

(* ===================================================================== *)
(** ** The storages of the values only grow *)
(* ===================================================================== *)

Lemma storage_le_refl st : storage_le st st.
Proof. by repeat split. Qed.

Lemma storage_le_trans st1 st2 st3 :
  storage_le st1 st2 -> storage_le st2 st3 -> storage_le st1 st3.
Proof.
  intros (H1 & H2 & H3) (H4 & H5 & H6). repeat split; by auto.
Qed.

Lemma storages_grow_refl vs : storages_grow vs vs.
Proof. intros value st Hst. exists st. split; [done|apply storage_le_refl]. Qed.

Lemma storages_grow_trans vs1 vs2 vs3 :
  storages_grow vs1 vs2 -> storages_grow vs2 vs3 -> storages_grow vs1 vs3.
Proof.
  intros H12 H23 value st1 Hst1.
  destruct (H12 value st1 Hst1) as (st2 & Hst2 & Hle12).
  destruct (H23 value st2 Hst2) as (st3 & Hst3 & Hle23).
  exists st3. split; [done|]. by eapply storage_le_trans.
Qed.

Lemma storage_entry_lookup vs value :
  (storage_entry vs value).2 !! value = Some (storage_entry vs value).1.
Proof.
  unfold storage_entry. destruct (vs !! value) eqn:Hv; simpl; [done|].
  by rewrite lookup_insert_eq.
Qed.

Lemma storage_entry_grow vs value :
  storages_grow vs (storage_entry vs value).2.
Proof.
  unfold storage_entry. destruct (vs !! value) eqn:Hv; simpl;
    [apply storages_grow_refl|].
  intros value' st Hst. exists st. split; [|apply storage_le_refl].
  rewrite lookup_insert_ne; [done|congruence].
Qed.

Lemma UpdateStorage_storages_grow vs value new_storage storage' buffers
  buffers' :
  UpdateStorage value new_storage ((storage_entry vs value).1, buffers)
  = Succeeded (storage', buffers') ->
  storages_grow vs (<[value := storage']> (storage_entry vs value).2).
Proof.
  intros H. apply UpdateStorage_Succeeded in H as [H _].
  apply merge_storage_Succeeded in H as (Hle & _ & _).
  intros value' st Hst.
  destruct (storage_entry_grow vs value value' st Hst) as (st1 & Hst1 & Hle1).
  destruct (decide (value' = value)) as [->|Hne].
  - rewrite lookup_insert_eq. exists storage'. split; [done|].
    rewrite storage_entry_lookup in Hst1. injection Hst1 as <-.
    by eapply storage_le_trans.
  - rewrite lookup_insert_ne by done. by eauto.
Qed.

Lemma SetStorage_storages_grow fuel value storage analysis analysis' :
  SetStorage fuel value storage analysis = Some (Succeeded analysis') ->
  storages_grow (value_storages_ analysis) (value_storages_ analysis').
Proof.
  apply (SetStorage_Succeeded_rel
           (fun a a' => storages_grow (value_storages_ a) (value_storages_ a'))).
  - intros a. apply storages_grow_refl.
  - intros a1 a2 a3. apply storages_grow_trans.
  - intros a v. apply storage_entry_grow.
  - intros a v new_storage storage' buffers'. apply UpdateStorage_storages_grow.
Qed.

Lemma ComputeValueStorages_storages_grow fuel program analysis analysis' :
  ComputeValueStorages fuel program analysis = Some (Succeeded analysis') ->
  storages_grow (value_storages_ analysis) (value_storages_ analysis').
Proof.
  apply (ComputeValueStorages_Succeeded_rel
           (fun a a' => storages_grow (value_storages_ a) (value_storages_ a'))).
  - intros a. apply storages_grow_refl.
  - intros a1 a2 a3. apply storages_grow_trans.
  - intros a v. apply storage_entry_grow.
  - intros a v new_storage storage' buffers'. apply UpdateStorage_storages_grow.
Qed.

(** [SetStorage] gives the value what the storage gives. *)
Lemma SetStorage_sets fuel value storage analysis analysis' :
  SetStorage fuel value storage analysis = Some (Succeeded analysis') ->
  exists storage',
    value_storages_ analysis' !! value = Some storage'
    /\ storage_le storage storage'.
Proof.
  unfold SetStorage.
  destruct (update_storage _ _ _) as [[a1 wl1]|d s1|] eqn:Hu; [|done|done].
  intros Hdrain.
  assert (exists st1, value_storages_ a1 !! value = Some st1
                      /\ storage_le storage st1) as (st1 & Hst1 & Hle1).
  { unfold update_storage in Hu.
    pose proof (storage_entry_lookup (value_storages_ analysis) value) as He.
    destruct (storage_entry _ _) as [st vs]. cbn [fst snd] in He.
    case_decide as Heq.
    - injection Hu as <- _. simpl. exists st. split; [done|].
      subst st. apply storage_le_refl.
    - destruct (UpdateStorage value storage (st, buffers_ analysis))
        as [[st' m]|d [st' m]|] eqn:Hup; [|done|done].
      injection Hu as <- _. simpl. exists st'.
      rewrite lookup_insert_eq. split; [done|].
      apply UpdateStorage_Succeeded in Hup as [Hm _].
      by apply merge_storage_Succeeded in Hm as (_ & ? & _). }
  assert (storages_grow (value_storages_ a1) (value_storages_ analysis'))
    as Hgrow.
  { revert Hdrain.
    apply (drain_work_list_Succeeded_rel
             (fun a a' =>
                storages_grow (value_storages_ a) (value_storages_ a'))
             (fun a => storages_grow_refl _)
             (fun a1 a2 a3 => storages_grow_trans _ _ _)
             (fun a v => storage_entry_grow _ v)
             (fun a v new_storage storage' buffers' =>
                UpdateStorage_storages_grow _ v new_storage storage' _ buffers')
             fuel (a1, wl1)). }
  destruct (Hgrow value st1 Hst1) as (st' & Hst' & Hle').
  exists st'. split; [done|]. by eapply storage_le_trans.
Qed.

Lemma MergeStorage_Succeeded fuel value new_storage analysis analysis' :
  MergeStorage fuel value new_storage analysis = Some (Succeeded analysis') ->
  exists buffers,
    MergeStorage_buffer new_storage (buffers_ analysis) = Some buffers
    /\ SetStorage fuel value new_storage (with_buffers analysis buffers)
       = Some (Succeeded analysis').
Proof.
  unfold MergeStorage.
  destruct (MergeStorage_buffer _ _) as [buffers|]; [|done].
  destruct (SetStorage _ _ _ _) as [[a1|d a1|]|] eqn:Hs; [|done..].
  intros [= <-]. by exists buffers.
Qed.

Lemma CreateBuffer_Succeeded fuel value loop_names analysis analysis' :
  CreateBuffer fuel value loop_names analysis = Some (Succeeded analysis') ->
  exists name analysis1 element_type storage storage1 storage2,
    GetFreshBufferName analysis = Some (name, analysis1)
    /\ op_results (getDefiningOp value) !! value_result value
       = Some element_type
    /\ value_storages_ analysis !! value = Some storage
    /\ MergeBufferName storage (Some name) = (success, storage1)
    /\ MergeSpace storage1 (Some "memory") = (success, storage2)
    /\ MergeStorage fuel value storage2
         (with_buffers analysis1
            (<[name := Buffer_new (op_loc (getDefiningOp value)) element_type
                         loop_names (GetLoopNest loop_names)]>
               (buffers_ analysis)))
       = Some (Succeeded analysis').
Proof.
  unfold CreateBuffer.
  destruct (GetFreshBufferName_returns analysis)
    as (name & a1 & -> & Hfresh & Hbuffers & Hstorages & _).
  destruct (op_results _ !! _) as [element_type|]; [|done].
  rewrite Hstorages.
  destruct (value_storages_ analysis !! value) as [storage|]; [|done].
  destruct (MergeBufferName _ _) as [[] storage1] eqn:H1; [|done].
  destruct (MergeSpace _ _) as [[] storage2] eqn:H2; [|done].
  intros H. exists name, a1, element_type, storage, storage1, storage2.
  repeat split; try done.
  rewrite <- H. unfold try_emplace. by rewrite Hbuffers, Hfresh.
Qed.

Lemma analysis_call_storages_grow analysis analysis' :
  analysis_call analysis analysis' ->
  storages_grow (value_storages_ analysis) (value_storages_ analysis').
Proof.
  intros [fuel value loop_names a a' H|fuel value new_storage a a' H
         |name a a' H|a buffers H|name op iter_space new_layout a a' H].
  - apply CreateBuffer_Succeeded in H
      as (name & a1 & et & st & st1 & st2 & Hf & _ & _ & _ & _ & H).
    destruct (GetFreshBufferName_returns a)
      as (name' & a1' & Heq & _ & _ & Hstorages & _).
    rewrite Heq in Hf. injection Hf as -> ->.
    apply MergeStorage_Succeeded in H as (buffers & _ & H).
    apply SetStorage_storages_grow in H. simpl in H. by rewrite <- Hstorages.
  - apply MergeStorage_Succeeded in H as (buffers & _ & H).
    by apply SetStorage_storages_grow in H.
  - destruct (GetFreshBufferName_returns a)
      as (name' & a1 & Heq & _ & _ & Hstorages & _).
    rewrite Heq in H. injection H as <- <-. rewrite Hstorages.
    apply storages_grow_refl.
  - apply storages_grow_refl.
  - unfold AddDimensionsToBuffer in H.
    destruct (buffers_ a !! name) as [buffer|]; [|done].
    destruct (_ ≫= rank); [|done].
    destruct (AddDimensionsToBuffer_buffer _ _ _ _ _) as [buffer'| |];
      [|done|done].
    destruct (foldl _ _ _) as [vs'|] eqn:Hfold; [|done]. injection H as <-.
    by apply add_unknown_prefix_names in Hfold as [? _].
Qed.

(** X5: a successful call of a public method of the analysis keeps the
    entry of every value, the memory space and the buffer name that the
    storage of the value gives, and the presence of a layout. *)
Theorem storage_information_is_kept analysis analysis' value storage :
  rtc analysis_call analysis analysis' ->
  value_storages_ analysis !! value = Some storage ->
  exists storage',
    value_storages_ analysis' !! value = Some storage'
    /\ (forall s, space storage = Some s -> space storage' = Some s)
    /\ (forall name,
           buffer_name storage = Some name -> buffer_name storage' = Some name)
    /\ (is_Some (storage_layout storage) -> is_Some (storage_layout storage')).
Proof.
  intros Hcalls. revert storage.
  induction Hcalls as [a|a1 a2 a3 Hcall _ IH]; intros storage Hst.
  - exists storage. by repeat split.
  - destruct (analysis_call_storages_grow a1 a2 Hcall value storage Hst)
      as (st2 & Hst2 & Hle2).
    destruct (IH st2 Hst2) as (st3 & Hst3 & Hle3).
    exists st3. split; [done|].
    exact (storage_le_trans _ _ _ Hle2 (conj (proj1 Hle3) (proj2 Hle3))).
Qed.

(** X6: when [MergeStorage] returns, the storage of the value has the
    memory space and the buffer name of the new storage, where the new
    storage gives them, and a layout when the new storage has one; a buffer
    that the new storage names with a layout exists and has the rank of
    this layout. *)
Theorem MergeStorage_merges fuel value new_storage analysis analysis' :
  MergeStorage fuel value new_storage analysis = Some (Succeeded analysis') ->
  (exists storage',
      value_storages_ analysis' !! value = Some storage'
      /\ (forall s, space new_storage = Some s -> space storage' = Some s)
      /\ (forall name,
             buffer_name new_storage = Some name ->
             buffer_name storage' = Some name)
      /\ (is_Some (storage_layout new_storage) ->
          is_Some (storage_layout storage')))
  /\ (forall name layout,
         buffer_name new_storage = Some name ->
         storage_layout new_storage = Some layout ->
         exists buffer,
           buffers_ analysis' !! name = Some buffer
           /\ rank buffer = Some (size layout)).
Proof.
  intros H. apply MergeStorage_Succeeded in H as (buffers & Hm & Hs). split.
  - apply SetStorage_sets in Hs as (storage' & Hst' & Hle).
    exists storage'. split; [done|exact Hle].
  - intros name layout Hname Hlayout.
    apply SetStorage_evolves in Hs. simpl in Hs.
    unfold MergeStorage_buffer in Hm. rewrite Hname, Hlayout in Hm.
    destruct (analysis.(buffers_) !! name) as [buffer|] eqn:Hb; [|done].
    simpl in Hm.
    assert (exists buffer1, buffers !! name = Some buffer1
                            /\ rank buffer1 = Some (size layout))
      as (buffer1 & Hb1 & Hrank1).
    { destruct (rank buffer) as [r|] eqn:Hr.
      - case_decide as Hsize; [|done]. injection Hm as <-.
        exists buffer. split; [done|]. by rewrite Hr, Hsize.
      - destruct (empty layout) eqn:Hempty; [|done].
        destruct (UnifyLayout buffer _) as [buffer1|] eqn:Hu; [|done].
        simpl in Hm. injection Hm as <-. exists buffer1.
        rewrite lookup_insert_eq. split; [done|].
        unfold UnifyLayout in Hu. unfold rank in Hr.
        destruct (layout_ buffer); [done|]. injection Hu as <-.
        unfold rank. simpl. f_equal. unfold empty in Hempty.
        apply bool_decide_eq_true in Hempty. unfold size. simpl.
        by rewrite Hempty. }
    destruct Hs as [Hdom Hs].
    destruct (Hdom name) as [buffer' Hb']; [by eauto|].
    exists buffer'. split; [done|].
    specialize (Hs name buffer' Hb'). rewrite Hb1 in Hs.
    apply (rank_kept_steps access_step _ _ access_step_rank_kept) in Hs.
    by apply Hs.
Qed.

Lemma created_values_registered analysis :
  created analysis -> values_registered analysis.
Proof using Canonicalize_size.
  intros (fuel & program & analysis0 & Hinit & Hcalls).
  apply Init_values_registered in Hinit.
  2:{ split; [|split]; simpl; intros *; by rewrite ?lookup_empty. }
  induction Hcalls as [|a1 a2 a3 Hcall _ IH]; [done|].
  apply IH. by eapply analysis_call_values_registered.
Qed.

(** X7: [CreateBuffer] returns only for a value that has a storage without
    buffer name; it then names a buffer that did not exist, with the
    location and the element type of the value, a loop nest not longer
    than the loops given, that is not external and has the value among its
    values, and the storage of the value names this buffer in memory. *)
Theorem CreateBuffer_creates fuel value loop_names analysis analysis' :
  created analysis ->
  CreateBuffer fuel value loop_names analysis = Some (Succeeded analysis') ->
  exists name buffer storage storage',
    buffers_ analysis !! name = None
    /\ value_storages_ analysis !! value = Some storage
    /\ buffer_name storage = None
    /\ buffers_ analysis' !! name = Some buffer
    /\ loc_ buffer = op_loc (getDefiningOp value)
    /\ op_results (getDefiningOp value) !! value_result value
       = Some (element_type_ buffer)
    /\ is_external buffer = false
    /\ length (loop_nest_ buffer) <= length loop_names
    /\ value ∈ values_ buffer
    /\ value_storages_ analysis' !! value = Some storage'
    /\ buffer_name storage' = Some name
    /\ space storage' = Some "memory".
Proof using Canonicalize_size.
  intros Hcreated Hcreate.
  pose proof (created_values_registered analysis Hcreated) as Hregistered.
  pose proof (CreateBuffer_values_registered _ _ _ _ _ Hcreate Hregistered)
    as (_ & I2' & _).
  destruct Hregistered as (_ & I2 & _).
  apply CreateBuffer_Succeeded in Hcreate
    as (name & a1 & et & st & st1 & st2 & Hf & Het & Hst & H1 & H2 & Hmerge).
  destruct (GetFreshBufferName_returns analysis)
    as (name' & a1' & Heq & Hfresh & _ & _ & _).
  rewrite Heq in Hf. injection Hf as -> ->.
  apply MergeBufferName_success in H1
    as (Hname1 & [?|Hname1'] & Hspace1 & _); [done|].
  apply MergeSpace_success in H2 as (_ & [?|Hspace2] & Hname2 & _); [done|].
  assert (buffer_name st = None) as Hnone.
  { destruct (buffer_name st) as [old|] eqn:Hold; [|done].
    destruct (I2 value st old Hst Hold) as (b & Hb & _). congruence. }
  pose proof (MergeStorage_stable fuel value st2
                (with_buffers a1
                   (<[name := Buffer_new (op_loc (getDefiningOp value)) et
                                loop_names (GetLoopNest loop_names)]>
                      (buffers_ analysis)))) as Hstable.
  rewrite Hmerge in Hstable. simpl in Hstable.
  destruct (Hstable name _ (lookup_insert_eq _ _ _))
    as (buffer & Hbuffer & Hloc & Htype & Himport & Hloops).
  apply MergeStorage_Succeeded in Hmerge as (buffers & _ & Hs).
  apply SetStorage_sets in Hs as (st' & Hst' & Hle1 & Hle2 & _).
  exists name, buffer, st, st'. simpl in *.
  assert (buffer_name st' = Some name) as Hname'.
  { apply Hle2. congruence. }
  destruct (I2' value st' name Hst' Hname') as (b & Hb & Hin).
  assert (b = buffer) as -> by congruence.
  repeat split; try done.
  - congruence.
  - unfold is_external. by rewrite Himport.
  - by apply Hle1.
Qed.

(* ===================================================================== *)
(** ** Fresh buffer names *)
(* ===================================================================== *)

(** The loop of [GetFreshBufferName] returns the name of the first
    identifier, from the counter on, whose name is not the name of a
    buffer. *)
Lemma fresh_buffer_name_first fuel (m : gmap StringAttr Buffer) next
  name next' :
  fresh_buffer_name fuel m next = Some (name, next') ->
  exists id,
    name = "buffer_" +:+ pretty id
    /\ next <= id
    /\ next' = S id
    /\ m !! name = None
    /\ forall id', next <= id' < id ->
                   is_Some (m !! ("buffer_" +:+ pretty id')).
Proof.
  revert next.
  induction fuel as [|fuel IH]; intros next; cbn [fresh_buffer_name]; [done|].
  intros H. case_match eqn:Hm.
  - apply IH in H as (id & -> & Hle & -> & Hnone & Hfirst).
    exists id. repeat split; [lia|done|].
    intros id' Hid'. destruct (decide (id' = next)) as [->|Hne].
    + by eauto.
    + apply Hfirst. lia.
  - injection H as <- <-. exists next. repeat split; [lia|done|].
    intros id' Hid'. lia.
Qed.

Lemma next_buffer_id_SetStorage fuel value storage analysis analysis' :
  SetStorage fuel value storage analysis = Some (Succeeded analysis') ->
  next_buffer_id_ analysis <= next_buffer_id_ analysis'.
Proof.
  apply (SetStorage_Succeeded_rel
           (fun a a' => next_buffer_id_ a <= next_buffer_id_ a'));
    simpl; intros; lia.
Qed.

Lemma next_buffer_id_MergeStorage fuel value storage analysis analysis' :
  MergeStorage fuel value storage analysis = Some (Succeeded analysis') ->
  next_buffer_id_ analysis <= next_buffer_id_ analysis'.
Proof.
  intros H. apply MergeStorage_Succeeded in H as (buffers & _ & H).
  by apply next_buffer_id_SetStorage in H.
Qed.

Lemma next_buffer_id_call analysis analysis' :
  analysis_call analysis analysis' ->
  next_buffer_id_ analysis <= next_buffer_id_ analysis'.
Proof.
  intros [fuel value loop_names a a' H|fuel value new_storage a a' H
         |name a a' H|a buffers H|name op iter_space new_layout a a' H].
  - apply CreateBuffer_Succeeded in H
      as (name & a1 & et & st & st1 & st2 & Hf & _ & _ & _ & _ & H).
    destruct (GetFreshBufferName_returns a)
      as (name' & a1' & Heq & _ & _ & _ & Hnext).
    rewrite Heq in Hf. injection Hf as -> ->.
    apply next_buffer_id_MergeStorage in H. simpl in H. lia.
  - by apply next_buffer_id_MergeStorage in H.
  - destruct (GetFreshBufferName_returns a)
      as (name' & a1 & Heq & _ & _ & _ & Hnext).
    rewrite Heq in H. injection H as <- <-. lia.
  - done.
  - unfold AddDimensionsToBuffer in H.
    destruct (buffers_ a !! name) as [buffer|]; [|done].
    destruct (_ ≫= rank); [|done].
    destruct (AddDimensionsToBuffer_buffer _ _ _ _ _) as [buffer'| |];
      [|done|done].
    destruct (foldl _ _ _) as [vs'|]; [|done]. by injection H as <-.
Qed.

Lemma next_buffer_id_calls analysis analysis' :
  rtc analysis_call analysis analysis' ->
  next_buffer_id_ analysis <= next_buffer_id_ analysis'.
Proof.
  induction 1 as [|a1 a2 a3 Hcall _ IH]; [done|].
  apply next_buffer_id_call in Hcall. lia.
Qed.

(** X8: [GetFreshBufferName] always returns: the name [buffer_<id>] of the
    first identifier, from the counter of the analysis on, that is not the
    name of a buffer.  It moves the counter past this identifier and
    leaves the buffers and the storages as they are, and no later call,
    whatever public methods are called in between, returns the same name
    again. *)
Theorem fresh_buffer_names_are_new analysis :
  exists id analysis',
    GetFreshBufferName analysis = Some ("buffer_" +:+ pretty id, analysis')
    /\ next_buffer_id_ analysis <= id
    /\ next_buffer_id_ analysis' = S id
    /\ buffers_ analysis !! ("buffer_" +:+ pretty id) = None
    /\ (forall id',
           next_buffer_id_ analysis <= id' < id ->
           is_Some (buffers_ analysis !! ("buffer_" +:+ pretty id')))
    /\ buffers_ analysis' = buffers_ analysis
    /\ value_storages_ analysis' = value_storages_ analysis
    /\ forall later name later',
        rtc analysis_call analysis' later ->
        GetFreshBufferName later = Some (name, later') ->
        name <> "buffer_" +:+ pretty id.
Proof.
  destruct (GetFreshBufferName_returns analysis)
    as (name & analysis' & Heq & _ & Hbuffers & Hstorages & _).
  pose proof Heq as Hfirst. unfold GetFreshBufferName in Hfirst.
  destruct (fresh_buffer_name _ _ _) as [[name1 next1]|] eqn:Hf; [|done].
  simpl in Hfirst. injection Hfirst as -> <-.
  apply fresh_buffer_name_first in Hf
    as (id & -> & Hle & -> & Hnone & Hbefore).
  exists id, {| buffers_ := buffers_ analysis;
                value_storages_ := value_storages_ analysis;
                next_buffer_id_ := S id |}.
  repeat split; try done.
  intros later name later' Hcalls Hlater Hname.
  apply next_buffer_id_calls in Hcalls. simpl in Hcalls.
  unfold GetFreshBufferName in Hlater.
  destruct (fresh_buffer_name _ _ _) as [[name2 next2]|] eqn:Hf2; [|done].
  simpl in Hlater. injection Hlater as -> <-.
  apply fresh_buffer_name_first in Hf2 as (id2 & -> & Hle2 & _).
  apply (inj (String.append "buffer_")) in Hname.
  apply (inj pretty) in Hname. lia.
Qed.

(* ===================================================================== *)
(** ** The rank of the buffers *)
(* ===================================================================== *)

Lemma AddDimensionsToBuffer_buffer_rank name op iter_space new_layout
  buffer buffer' :
  AddDimensionsToBuffer_buffer name op iter_space new_layout buffer
  = Succeeded buffer' ->
  exists r,
    rank buffer = Some r
    /\ r <= size new_layout
    /\ is_external buffer = false
    /\ rank buffer' = Some (size new_layout).
Proof using Canonicalize_size.
  unfold AddDimensionsToBuffer_buffer. intros Ha.
  destruct (layout_ buffer) as [old_layout|] eqn:Hl; [|done].
  case_decide as Hsize; [|done]. destruct Hsize as [Hsize Hexternal].
  destruct (TrimBufferLoopNestForAccess _ _ _) as [b1|] eqn:Hb1; [|done].
  destruct (rank b1) as [old_size|] eqn:Hrank1; [|done].
  destruct (AddNonePrefixToLayout b1 _) as [b2|] eqn:Hb2; [|done].
  pose proof (UnifyBufferShape_steps name op new_layout iter_space b2) as Hu.
  destruct (UnifyBufferShape _ _ _ _ _) as [b3| |]; [|done|done].
  injection Ha as <-.
  assert (old_size = size old_layout) as ->.
  { unfold TrimBufferLoopNestForAccess in Hb1.
    apply SetLoopNest_stable in Hb1 as [_ Hrank].
    rewrite Hrank1 in Hrank. unfold rank in Hrank. rewrite Hl in Hrank.
    by injection Hrank. }
  assert (rank b2 = Some (size new_layout)) as Hrank2.
  { unfold AddNonePrefixToLayout in Hb2. unfold rank in Hrank1 |- *.
    destruct (layout_ b1) as [l1|]; [|done].
    injection Hb2 as <-. simpl. f_equal.
    injection Hrank1 as Hrank1.
    unfold size, AddPrefix. simpl. rewrite length_app, length_replicate.
    unfold size in *. lia. }
  exists (size old_layout). unfold rank at 1. rewrite Hl.
  repeat split; [done|done|].
  assert (rtc buffer_step b2 b3) as Hsteps.
  { apply Hu. intros r Hr. congruence. }
  apply (rank_kept_steps buffer_step _ _ buffer_step_rank_kept) in Hsteps.
  by apply Hsteps.
Qed.

Lemma rank_kept_evolves (R : relation Buffer) m m' name b r :
  (forall b1 b2, R b1 b2 -> rank_kept b1 b2) ->
  evolves R m m' ->
  m !! name = Some b ->
  rank b = Some r ->
  exists b', m' !! name = Some b' /\ rank b' = Some r.
Proof.
  intros HR [Hdom Hm'] Hb Hr.
  destruct (Hdom name) as [b' Hb']; [by eauto|].
  exists b'. split; [done|].
  specialize (Hm' name b' Hb'). rewrite Hb in Hm'.
  apply (rank_kept_steps R _ _ HR) in Hm'. by apply Hm'.
Qed.

(** X9: a successful call of a public method keeps every buffer, and
    keeps its rank once it has one, but for [AddDimensionsToBuffer], which
    gives the buffer it extends the size of the new layout as rank; this
    size is not smaller than the rank the buffer had. *)
Theorem rank_changes_by_extension_only analysis analysis' name buffer r :
  analysis_call analysis analysis' ->
  buffers_ analysis !! name = Some buffer ->
  rank buffer = Some r ->
  exists buffer',
    buffers_ analysis' !! name = Some buffer'
    /\ (rank buffer' = Some r
        \/ exists op iter_space new_layout,
            AddDimensionsToBuffer name op iter_space new_layout analysis
            = Succeeded analysis'
            /\ r <= size new_layout
            /\ rank buffer' = Some (size new_layout)).
Proof using Canonicalize_size.
  intros [fuel value loop_names a a' H|fuel value new_storage a a' H
         |name' a a' H|a buffers H|name' op iter_space new_layout a a' H]
    Hb Hr.
  - apply CreateBuffer_evolves in H.
    destruct (rank_kept_evolves _ _ _ _ _ _ access_step_rank_kept H Hb Hr)
      as (b' & Hb' & Hr'). by eauto.
  - apply MergeStorage_evolves in H.
    destruct (rank_kept_evolves _ _ _ _ _ _ access_step_rank_kept H Hb Hr)
      as (b' & Hb' & Hr'). by eauto.
  - destruct (GetFreshBufferName_returns a)
      as (name1 & a1 & Heq & _ & Hbuffers & _ & _).
    rewrite Heq in H. injection H as <- <-. rewrite Hbuffers. by eauto.
  - pose proof (VerifyAndMinimizeBufferLoopNests_evolves (buffers_ a)) as He.
    rewrite H in He. simpl in He.
    destruct (rank_kept_evolves _ _ _ _ _ _ buffer_step_rank_kept He Hb Hr)
      as (b' & Hb' & Hr'). by eauto.
  - pose proof H as Hcall. unfold AddDimensionsToBuffer in H.
    destruct (buffers_ a !! name') as [b0|] eqn:Hb0; [|done].
    destruct (_ ≫= rank); [|done].
    destruct (AddDimensionsToBuffer_buffer _ _ _ _ _) as [b0'| |] eqn:Ha;
      [|done|done].
    destruct (foldl _ _ _) as [vs'|]; [|done]. injection H as <-. simpl.
    destruct (decide (name = name')) as [->|Hne].
    + rewrite lookup_insert_eq. exists b0'. split; [done|]. right.
      apply AddDimensionsToBuffer_buffer_rank in Ha
        as (r0 & Hr0 & Hle & _ & Hr').
      exists op, iter_space, new_layout. split; [exact Hcall|].
      split; [|done]. congruence.
    + rewrite lookup_insert_ne by done. by eauto.
Qed.

(** The loop of [AddDimensionsToBuffer] over values that are all
    different. *)
Lemma add_unknown_prefix_values num_new_dims (values : list Value) :
  NoDup values ->
  forall vs vs' : gmap Value ValueStorage,
    foldl (fun acc value =>
             value_storages ← acc;
             storage ← value_storages !! value;
             storage ← AddUnknownPrefixToLayout storage num_new_dims;
             Some (<[value := storage]> value_storages))
      (Some vs) values = Some vs' ->
    (forall value,
        value ∈ values ->
        exists storage layout,
          vs !! value = Some storage
          /\ storage_layout storage = Some layout
          /\ vs' !! value
             = Some (mkValueStorage (space storage) (buffer_name storage)
                       (Some (AddPrefix layout
                                (replicate num_new_dims MappingUnknownExpr)))))
    /\ (forall value, value ∉ values -> vs' !! value = vs !! value).
Proof.
  induction 1 as [|value values Hnotin Hnodup IH]; intros vs vs'; simpl.
  - intros [= <-]. split; [|done]. intros value Hin. inversion Hin.
  - destruct (vs !! value) as [storage|] eqn:Hv; simpl.
    2:{ intros H. exfalso. clear -H. induction values; simpl in H; [done|auto]. }
    destruct (AddUnknownPrefixToLayout storage num_new_dims)
      as [storage'|] eqn:Hs; simpl.
    2:{ intros H. exfalso. clear -H. induction values; simpl in H; [done|auto]. }
    intros H. apply IH in H as [Hin Hout].
    unfold AddUnknownPrefixToLayout in Hs.
    destruct (storage_layout storage) as [l|] eqn:Hl; [|done].
    injection Hs as <-.
    split.
    + intros value1 Hin1. apply elem_of_cons in Hin1 as [->|Hin1].
      * exists storage, l. repeat split; [done..|].
        rewrite (Hout value Hnotin). by rewrite lookup_insert_eq.
      * destruct (Hin value1 Hin1) as (st1 & l1 & Hst1 & Hl1 & Hst1').
        rewrite lookup_insert_ne in Hst1 by (intros ->; done).
        by exists st1, l1.
    + intros value1 Hnotin1. apply not_elem_of_cons in Hnotin1 as [Hne Hnotin1].
      rewrite (Hout value1 Hnotin1). by rewrite lookup_insert_ne.
Qed.

(** X10: when [AddDimensionsToBuffer] returns for an analysis that
    [Create] and the public methods built, the buffer was not external and
    had a rank, not greater than the size of the new layout; the buffer
    alone is replaced, and keeps its values, writes and reads; the layout
    of the storage of every value of the buffer gets as many leading
    unknown dimensions as the rank grows by, and the storages of the other
    values are left as they are. *)
Theorem AddDimensionsToBuffer_extends name op iter_space new_layout
  analysis analysis' :
  created analysis ->
  AddDimensionsToBuffer name op iter_space new_layout analysis
  = Succeeded analysis' ->
  exists buffer buffer' r,
    buffers_ analysis !! name = Some buffer
    /\ rank buffer = Some r
    /\ r <= size new_layout
    /\ is_external buffer = false
    /\ buffers_ analysis' = <[name := buffer']> (buffers_ analysis)
    /\ rank buffer' = Some (size new_layout)
    /\ values_ buffer' = values_ buffer
    /\ writes_ buffer' = writes_ buffer
    /\ reads_ buffer' = reads_ buffer
    /\ (forall value,
           value ∈ values_ buffer ->
           exists storage layout,
             value_storages_ analysis !! value = Some storage
             /\ storage_layout storage = Some layout
             /\ value_storages_ analysis' !! value
                = Some (mkValueStorage (space storage) (buffer_name storage)
                          (Some (AddPrefix layout
                                   (replicate (size new_layout - r)
                                      MappingUnknownExpr)))))
    /\ (forall value,
           value ∉ values_ buffer ->
           value_storages_ analysis' !! value
           = value_storages_ analysis !! value).
Proof using Canonicalize_size.
  intros Hcreated H.
  apply created_values_registered in Hcreated as (_ & _ & Hnodup).
  unfold AddDimensionsToBuffer in H.
  destruct (buffers_ analysis !! name) as [buffer|] eqn:Hb; [|done].
  specialize (Hnodup name buffer Hb).
  destruct (_ ≫= rank) as [old_size|] eqn:Hold; [|done].
  destruct (AddDimensionsToBuffer_buffer _ _ _ _ _) as [buffer'| |] eqn:Ha;
    [|done|done].
  destruct (foldl _ _ _) as [vs'|] eqn:Hfold; [|done]. injection H as <-.
  pose proof (AddDimensionsToBuffer_buffer_accesses_kept _ _ _ _ _ _ Ha)
    as (Hvalues & Hwrites & Hreads).
  apply AddDimensionsToBuffer_buffer_rank in Ha
    as (r & Hr & Hle & Hexternal & Hr').
  assert (old_size = r) as ->.
  { destruct (TrimBufferLoopNestForAccess _ _ _) as [b1|] eqn:Hb1; [|done].
    simpl in Hold. unfold TrimBufferLoopNestForAccess in Hb1.
    apply SetLoopNest_stable in Hb1 as [_ Hrank]. congruence. }
  rewrite Hvalues in Hfold.
  apply (add_unknown_prefix_values _ _ Hnodup) in Hfold as [Hin Hout].
  exists buffer, buffer', r. by repeat split.
Qed.

(* ===================================================================== *)
(** ** The storages that [ComputeValueStorages] initializes *)
(* ===================================================================== *)

Lemma and_then_fuel_Succeeded {S : Type} (o : option (Outcome S))
  (k : S -> option (Outcome S)) s' :
  and_then_fuel o k = Some (Succeeded s') ->
  exists s1, o = Some (Succeeded s1) /\ k s1 = Some (Succeeded s').
Proof. destruct o as [[s1|d s1|]|]; simpl; [by eauto|done..]. Qed.

(** Every call of the body of a walk that returns with success is followed
    by calls that keep [R]. *)
Lemma for_each_fuel_elem {A S : Type} (R : relation S)
  (body : A -> S -> option (Outcome S)) (xs : list A) :
  (forall s, R s s) ->
  (forall s1 s2 s3, R s1 s2 -> R s2 s3 -> R s1 s3) ->
  (forall x s s', body x s = Some (Succeeded s') -> R s s') ->
  forall s s',
    for_each_fuel body xs s = Some (Succeeded s') ->
    forall x, x ∈ xs ->
              exists s1 s2, body x s1 = Some (Succeeded s2) /\ R s2 s'.
Proof.
  intros Hrefl Htrans Hbody.
  induction xs as [|x xs IH]; intros s s' H y Hy; [inversion Hy|].
  simpl in H. apply and_then_fuel_Succeeded in H as (s1 & Hx & Hxs).
  apply elem_of_cons in Hy as [->|Hy].
  - exists s, s1. split; [done|].
    by eapply (for_each_fuel_Succeeded_rel R body xs).
  - by eapply IH.
Qed.

Lemma storages_rel_refl analysis : storages_rel analysis analysis.
Proof. apply storages_grow_refl. Qed.

Lemma storages_rel_trans a1 a2 a3 :
  storages_rel a1 a2 -> storages_rel a2 a3 -> storages_rel a1 a3.
Proof. apply storages_grow_trans. Qed.

Lemma seed_compute_op_body_grow fuel op i analysis analysis' :
  match Storage op i with
  | None => Some (Succeeded analysis)
  | Some buffer =>
      match GetBufferLayout op buffer with
      | None => Some Aborted
      | Some layout =>
          SetStorage fuel (mkValue (op_order op) i)
            (mkValueStorage (Some (attr_space buffer)) (attr_name buffer)
               layout) analysis
      end
  end = Some (Succeeded analysis') ->
  storages_rel analysis analysis'.
Proof.
  destruct (Storage op i) as [buffer|].
  - destruct (GetBufferLayout op buffer) as [layout|]; [|done].
    apply SetStorage_storages_grow.
  - intros [= <-]. apply storages_rel_refl.
Qed.

Lemma seed_compute_op_grow fuel op analysis analysis' :
  seed_compute_op fuel op analysis = Some (Succeeded analysis') ->
  storages_rel analysis analysis'.
Proof.
  unfold seed_compute_op. destruct (is_ComputeOp _).
  - apply (for_each_fuel_Succeeded_rel storages_rel);
      [apply storages_rel_refl|apply storages_rel_trans|].
    intros i s s'. apply seed_compute_op_body_grow.
  - intros [= <-]. apply storages_rel_refl.
Qed.

Lemma seed_from_memref_grow fuel op analysis analysis' :
  seed_from_memref fuel op analysis = Some (Succeeded analysis') ->
  storages_rel analysis analysis'.
Proof.
  unfold seed_from_memref.
  destruct (op_kind op); try (intros [= <-]; apply storages_rel_refl).
  apply SetStorage_storages_grow.
Qed.

Lemma seed_from_scalar_grow fuel op analysis analysis' :
  seed_from_scalar fuel op analysis = Some (Succeeded analysis') ->
  storages_rel analysis analysis'.
Proof.
  unfold seed_from_scalar.
  destruct (op_kind op); try (intros [= <-]; apply storages_rel_refl).
  apply SetStorage_storages_grow.
Qed.

Lemma seed_to_memref_grow fuel op analysis analysis' :
  seed_to_memref fuel op analysis = Some (Succeeded analysis') ->
  storages_rel analysis analysis'.
Proof.
  unfold seed_to_memref.
  destruct (op_kind op); try (intros [= <-]; apply storages_rel_refl).
  destruct (Map _ _ _ _); [|done].
  apply SetStorage_storages_grow.
Qed.

Lemma walk_grow fuel
  (seed : nat -> Operation -> StorageAnalysis ->
          option (Outcome StorageAnalysis)) program analysis analysis' :
  (forall op a a', seed fuel op a = Some (Succeeded a') -> storages_rel a a') ->
  for_each_fuel (seed fuel) program analysis = Some (Succeeded analysis') ->
  storages_rel analysis analysis'.
Proof.
  intros Hseed.
  apply (for_each_fuel_Succeeded_rel storages_rel);
    [apply storages_rel_refl|apply storages_rel_trans|exact Hseed].
Qed.

(** A walk that sets the storage of a value of every operation gives this
    value what the storage gives. *)
Lemma walk_sets fuel
  (seed : nat -> Operation -> StorageAnalysis ->
          option (Outcome StorageAnalysis)) program analysis analysis'
  op value storage :
  (forall op a a', seed fuel op a = Some (Succeeded a') -> storages_rel a a') ->
  (forall a a',
      seed fuel op a = Some (Succeeded a') ->
      exists storage',
        value_storages_ a' !! value = Some storage'
        /\ storage_le storage storage') ->
  for_each_fuel (seed fuel) program analysis = Some (Succeeded analysis') ->
  op ∈ program ->
  exists storage',
    value_storages_ analysis' !! value = Some storage'
    /\ storage_le storage storage'.
Proof.
  intros Hseed Hsets Hwalk Hop.
  destruct (for_each_fuel_elem storages_rel (seed fuel) program
              storages_rel_refl storages_rel_trans Hseed _ _ Hwalk op Hop)
    as (s1 & s2 & Hbody & Hgrow).
  destruct (Hsets s1 s2 Hbody) as (st2 & Hst2 & Hle2).
  destruct (Hgrow value st2 Hst2) as (st' & Hst' & Hle').
  exists st'. split; [done|]. by eapply storage_le_trans.
Qed.

Lemma ensure_entries_grow program vs :
  storages_grow vs (ensure_entries program vs).
Proof.
  apply (ensure_entries_rel storages_rel storages_rel_refl storages_rel_trans
           (fun a v => storage_entry_grow _ v) program
           (mkStorageAnalysis ∅ vs 0)).
Qed.

Lemma ensure_entries_op_grow op vs (indices : list nat) :
  storages_grow vs
    (foldl (fun value_storages i =>
              (storage_entry value_storages (mkValue (op_order op) i)).2)
       vs indices).
Proof.
  revert vs. induction indices as [|i indices IH]; intros vs; simpl;
    [apply storages_grow_refl|].
  eapply storages_grow_trans; [apply storage_entry_grow|apply IH].
Qed.

Lemma ensure_entries_op_entries op (indices : list nat) :
  forall vs i,
    i ∈ indices ->
    is_Some (foldl (fun value_storages i =>
                      (storage_entry value_storages
                         (mkValue (op_order op) i)).2)
               vs indices !! mkValue (op_order op) i).
Proof.
  induction indices as [|j indices IH]; intros vs i Hi; [inversion Hi|].
  simpl. apply elem_of_cons in Hi as [->|Hi]; [|by apply IH].
  destruct (ensure_entries_op_grow op
              (storage_entry vs (mkValue (op_order op) j)).2 indices
              (mkValue (op_order op) j) _ (storage_entry_lookup _ _))
    as (st & Hst & _).
  by eauto.
Qed.

Lemma ensure_entries_entries program :
  forall vs op i,
    op ∈ program ->
    i < length (op_results op) ->
    is_Some (ensure_entries program vs !! mkValue (op_order op) i).
Proof.
  unfold ensure_entries.
  induction program as [|op0 program IH]; intros vs op i Hop Hi;
    [inversion Hop|].
  simpl. apply elem_of_cons in Hop as [->|Hop]; [|by apply IH].
  destruct (ensure_entries_op_entries op0 (seq 0 (length (op_results op0)))
              vs i) as [st Hst].
  { apply elem_of_seq. lia. }
  destruct (ensure_entries_grow program _ _ _ Hst) as (st' & Hst' & _).
  by eauto.
Qed.

(** X11: when [Init] returns with success, every result of every operation
    of the program has a storage.  The storage of a result of a compute
    operation has the memory space and the buffer name of its storage
    attribute, and a layout when the attribute has one; the result of a
    [from_memref] operation and the value of a [to_memref] operation are in
    memory, in the buffer that the operation names, with a layout; and the
    result of a [from_scalar] operation is in a register, with a
    layout. *)
Theorem storages_follow_annotations fuel program analysis analysis' :
  Init fuel program analysis = Some (Succeeded analysis') ->
  (forall op i,
      op ∈ program ->
      i < length (op_results op) ->
      is_Some (value_storages_ analysis' !! mkValue (op_order op) i))
  /\ (forall op i buffer,
         op ∈ program ->
         is_ComputeOp (op_kind op) = true ->
         i < length (op_results op) ->
         Storage op i = Some buffer ->
         exists storage,
           value_storages_ analysis' !! mkValue (op_order op) i = Some storage
           /\ space storage = Some (attr_space buffer)
           /\ (forall name,
                  attr_name buffer = Some name ->
                  buffer_name storage = Some name)
           /\ (is_Some (attr_layout buffer) ->
               is_Some (storage_layout storage)))
  /\ (forall op info,
         op ∈ program ->
         op_kind op = SairFromMemRefOp info ->
         exists storage,
           value_storages_ analysis' !! mkValue (op_order op) 0 = Some storage
           /\ space storage = Some "memory"
           /\ buffer_name storage = Some (info_buffer_name info)
           /\ is_Some (storage_layout storage))
  /\ (forall op,
         op ∈ program ->
         op_kind op = SairFromScalarOp ->
         exists storage,
           value_storages_ analysis' !! mkValue (op_order op) 0 = Some storage
           /\ space storage = Some "register"
           /\ is_Some (storage_layout storage))
  /\ (forall op info value,
         op ∈ program ->
         op_kind op = SairToMemRefOp info value ->
         exists storage,
           value_storages_ analysis' !! operand_value value = Some storage
           /\ space storage = Some "memory"
           /\ buffer_name storage = Some (info_buffer_name info)
           /\ is_Some (storage_layout storage)).
Proof.
  intros H. apply Init_Succeeded in H
    as (declared & computed & _ & Hc & _ & _ & ->).
  unfold ComputeValueStorages in Hc.
  apply and_then_fuel_Succeeded in Hc as (a1 & H1 & Hc).
  apply and_then_fuel_Succeeded in Hc as (a2 & H2 & Hc).
  apply and_then_fuel_Succeeded in Hc as (a3 & H3 & Hc).
  apply and_then_fuel_Succeeded in Hc as (a4 & H4 & Hc).
  injection Hc as <-. simpl.
  pose proof (walk_grow fuel seed_from_memref program a1 a2
                (seed_from_memref_grow fuel) H2) as G2.
  pose proof (walk_grow fuel seed_from_scalar program a2 a3
                (seed_from_scalar_grow fuel) H3) as G3.
  pose proof (walk_grow fuel seed_to_memref program a3 a4
                (seed_to_memref_grow fuel) H4) as G4.
  pose proof (ensure_entries_grow program (value_storages_ a4)) as G5.
  assert (forall a value storage,
             storages_rel a a4 ->
             (exists storage',
                 value_storages_ a !! value = Some storage'
                 /\ storage_le storage storage') ->
             exists storage',
               ensure_entries program (value_storages_ a4) !! value
               = Some storage'
               /\ storage_le storage storage') as Hend.
  { intros a value storage Hgrow (st & Hst & Hle).
    destruct (Hgrow value st Hst) as (st4 & Hst4 & Hle4).
    destruct (G5 value st4 Hst4) as (st' & Hst' & Hle').
    exists st'. split; [done|].
    eapply storage_le_trans; [exact Hle|].
    by eapply storage_le_trans. }
  split; [|split; [|split; [|split]]].
  - intros op i. apply ensure_entries_entries.
  - intros op i buffer Hop Hcompute Hi Hstorage.
    destruct (for_each_fuel_elem storages_rel (seed_compute_op fuel) program
                storages_rel_refl storages_rel_trans
                (seed_compute_op_grow fuel) _ _ H1 op Hop)
      as (s1 & s2 & Hwalk & Hgrow2).
    unfold seed_compute_op in Hwalk. rewrite Hcompute in Hwalk.
    destruct (for_each_fuel_elem storages_rel _ _
                storages_rel_refl storages_rel_trans
                (fun i s s' => seed_compute_op_body_grow fuel op i s s')
                _ _ Hwalk i) as (s3 & s4 & Hbody & Hgrow4).
    { apply elem_of_seq. lia. }
    rewrite Hstorage in Hbody.
    destruct (GetBufferLayout op buffer) as [layout|] eqn:Hlayout; [|done].
    destruct (Hend s4 (mkValue (op_order op) i)
                (mkValueStorage (Some (attr_space buffer)) (attr_name buffer)
                   layout))
      as (st' & Hst' & Hle1 & Hle2 & Hle3).
    { eapply storages_rel_trans; [exact Hgrow4|].
      eapply storages_rel_trans; [exact Hgrow2|].
      eapply storages_rel_trans; [exact G2|].
      eapply storages_rel_trans; [exact G3|exact G4]. }
    { by apply SetStorage_sets in Hbody. }
    exists st'. split; [done|]. simpl in *.
    split; [by apply Hle1|]. split; [exact Hle2|].
    intros [named Hnamed]. apply Hle3.
    unfold GetBufferLayout in Hlayout. rewrite Hnamed in Hlayout.
    destruct (foldl _ _ _); simpl in Hlayout; [|done].
    injection Hlayout as <-. by eauto.
  - intros op info Hop Hkind.
    destruct (Hend a2 (mkValue (op_order op) 0)
                (mkValueStorage (Some "memory") (Some (info_buffer_name info))
                   (Some (Compose (Inverse (mapping (iteration_spaces op)))
                            (info_Layout info)))))
      as (st' & Hst' & Hle1 & Hle2 & Hle3).
    { eapply storages_rel_trans; [exact G3|exact G4]. }
    { eapply (walk_sets fuel seed_from_memref program a1 a2 op);
        [apply seed_from_memref_grow| |exact H2|exact Hop].
      intros a a'. unfold seed_from_memref. rewrite Hkind.
      apply SetStorage_sets. }
    exists st'. split; [done|]. simpl in *.
    split; [by apply Hle1|]. split; [by apply Hle2|]. apply Hle3. by eauto.
  - intros op Hop Hkind.
    destruct (Hend a3 (mkValue (op_order op) 0)
                (mkValueStorage (Some "register") None
                   (Some (mkMapping 0 []))))
      as (st' & Hst' & Hle1 & Hle2 & Hle3).
    { exact G4. }
    { eapply (walk_sets fuel seed_from_scalar program a2 a3 op);
        [apply seed_from_scalar_grow| |exact H3|exact Hop].
      intros a a'. unfold seed_from_scalar. rewrite Hkind.
      apply SetStorage_sets. }
    exists st'. split; [done|]. simpl in *.
    split; [by apply Hle1|]. apply Hle3. by eauto.
  - intros op info value Hop Hkind.
    destruct (for_each_fuel_elem storages_rel (seed_to_memref fuel) program
                storages_rel_refl storages_rel_trans
                (seed_to_memref_grow fuel) _ _ H4 op Hop)
      as (s1 & s2 & Hbody & Hgrow2).
    unfold seed_to_memref in Hbody. rewrite Hkind in Hbody.
    unfold Map in Hbody. simpl in Hbody.
    destruct (TranslateMapping _ _ _) as [m|]; simpl in Hbody; [|done].
    apply SetStorage_sets in Hbody.
    destruct (Hend s2 _ _ Hgrow2 Hbody) as (st' & Hst' & Hle1 & Hle2 & Hle3).
    exists st'. split; [done|]. simpl in *.
    split; [by apply Hle1|]. split; [by apply Hle2|]. apply Hle3. by eauto.
Qed.

(* ===================================================================== *)
(** ** The buffers that [DeclareBuffers] declares *)
(* ===================================================================== *)

(** Every call of the body of a walk that returns with success is followed
    by calls that keep [R]. *)
Lemma for_each_elem {A S : Type} (R : relation S)
  (body : A -> S -> Outcome S) (xs : list A) :
  (forall s, R s s) ->
  (forall s1 s2 s3, R s1 s2 -> R s2 s3 -> R s1 s3) ->
  (forall x s s', body x s = Succeeded s' -> R s s') ->
  forall s s',
    for_each body xs s = Succeeded s' ->
    R s s'
    /\ forall x, x ∈ xs ->
                 exists s1 s2, body x s1 = Succeeded s2 /\ R s2 s'.
Proof.
  intros Hrefl Htrans Hbody.
  induction xs as [|x xs IH]; intros s s' H; simpl in H.
  - injection H as <-. split; [apply Hrefl|]. intros y Hy. inversion Hy.
  - destruct (body x s) as [s1|d s1|] eqn:Hx; simpl in H; [|done|done].
    destruct (IH s1 s' H) as [Hrel Helem]. split.
    + eapply Htrans; [by eapply Hbody|done].
    + intros y Hy. apply elem_of_cons in Hy as [->|Hy]; [|by apply Helem].
      by exists s, s1.
Qed.

Lemma access_step_stable b b' : access_step b b' -> stable b b'.
Proof.
  intros [b0 b1 [b2 loop_nest b3 H|b2 layout b3 H _ _|b2 new_values]
         |b0 value].
  - by apply SetLoopNest_stable in H as [? _].
  - by apply UnifyLayout_stable in H as [? _].
  - apply AppendToDomain_stable.
  - by repeat split.
Qed.

(** The operations of [access_step] keep the location, the element type,
    the import operation and the rank of the buffers of a table. *)
Lemma evolves_kept m m' name b :
  evolves access_step m m' ->
  m !! name = Some b ->
  exists b',
    m' !! name = Some b' /\ stable b b' /\ rank_kept b b'.
Proof.
  intros He Hb.
  apply (evolves_related access_step
           (fun b b' => stable b b' /\ rank_kept b b') m m'); try done.
  - intros b0. split; [apply stable_refl|by intros r Hr].
  - intros b1 b2 b3 [H1 H2] [H3 H4]. split; [by eapply stable_trans|].
    intros r Hr. by apply H4, H2.
  - intros b1 b2 Hstep. split; [by apply access_step_stable|].
    by apply access_step_rank_kept.
Qed.

(** [UnifyBufferShape] gives the buffer the size of the layout as rank. *)
Lemma UnifyBufferShape_sets_rank name op layout iter_space buffer buffer' :
  (forall r, rank buffer = Some r -> size layout = r) ->
  UnifyBufferShape name op layout iter_space buffer = Succeeded buffer' ->
  rank buffer' = Some (size layout).
Proof using Canonicalize_size.
  intros Hrank. unfold UnifyBufferShape.
  destruct (match layout_ buffer with Some _ => _ | None => _ end); [|done].
  destruct (resolve_constraints _ _ _ _ _ _ _) as [[constraints new_domain]| |];
    try done.
  unfold UnifyLayout, AppendToDomain. simpl.
  destruct (layout_ buffer) as [old_layout|] eqn:Hl; simpl.
  - destruct (Unify _ _) as [unified|] eqn:Hu; simpl; [|done].
    intros [= <-]. apply Unify_size in Hu.
    rewrite ResizeUseDomain_size, Compose_size, Canonicalize_size, Compose_size
      in Hu.
    specialize (Hrank (size old_layout)). unfold rank in Hrank.
    rewrite Hl in Hrank. specialize (Hrank eq_refl).
    unfold rank. simpl. f_equal. lia.
  - intros [= <-]. unfold rank. simpl. f_equal.
    by rewrite Compose_size, Canonicalize_size, Compose_size.
Qed.

Lemma DeclareExternalBuffer_declares op info buffers buffers' :
  DeclareExternalBuffer op info buffers = Succeeded buffers' ->
  buffers !! info_buffer_name info = None
  /\ exists b,
      buffers' !! info_buffer_name info = Some b
      /\ import_op_ b = Some op
      /\ loc_ b = op_loc op
      /\ element_type_ b = info_element_type info
      /\ rank b = Some (memref_domain_size info).
Proof using Canonicalize_size.
  unfold DeclareExternalBuffer.
  destruct (buffers !! info_buffer_name info) eqn:Hb; [done|].
  set (layout := Compose _ _). set (buffer := Buffer_import _ _ _ _).
  pose proof (UnifyBufferShape_stable (info_buffer_name info) op layout
                (iteration_spaces op) buffer) as Hstable.
  pose proof (UnifyBufferShape_sets_rank (info_buffer_name info) op layout
                (iteration_spaces op) buffer) as Hrank.
  destruct (UnifyBufferShape _ _ _ _ _) as [b| |]; [|done|done].
  intros [= <-]. split; [done|]. exists b. rewrite lookup_insert_eq.
  destruct Hstable as (Hloc & Htype & Himport & _).
  repeat split; try done.
  rewrite (Hrank b); [|done|done]. f_equal. unfold layout.
  rewrite Compose_size. unfold size, ShiftRight, GetIdentity. simpl.
  by rewrite !length_fmap, length_seq.
Qed.

Lemma DeclareBuffer_declares op result attr name buffer_map buffer_map' :
  DeclareBuffer op result (Some attr) buffer_map = Succeeded buffer_map' ->
  attr_name attr = Some name ->
  exists b,
    buffer_map' !! name = Some b
    /\ op_results op !! result = Some (element_type_ b)
    /\ forall layout,
        GetBufferLayout op attr = Some (Some layout) ->
        rank b = Some (size layout).
Proof using Canonicalize_size.
  unfold DeclareBuffer. intros H Hname. rewrite Hname in H.
  destruct (op_results op !! result) as [element_type|]; [|done].
  destruct (try_emplace _ _ _ !! name) as [buffer|] eqn:Hb; [|done].
  case_decide as Htype; [done|].
  destruct (GetBufferLayout op attr) as [layout|]; [|done].
  case_decide as Hrank; [done|].
  destruct (TrimBufferLoopNestForAccess _ _ _) as [b1|] eqn:Hb1; [|done].
  apply TrimBufferLoopNestForAccess_stable in Hb1
    as [(_ & Htype1 & _ & _) Hrank1].
  destruct layout as [layout|].
  - pose proof (UnifyBufferShape_stable name op layout (iteration_spaces op)
                  b1) as Hstable.
    pose proof (UnifyBufferShape_sets_rank name op layout (iteration_spaces op)
                  b1) as Hsets.
    destruct (UnifyBufferShape _ _ _ _ _) as [b2| |]; [|done|done].
    injection H as <-. exists b2. rewrite lookup_insert_eq.
    destruct Hstable as (_ & Htype2 & _ & _).
    split; [done|]. split; [congruence|].
    intros layout' [= <-]. apply Hsets; [|done].
    intros r Hr. rewrite Hrank1 in Hr.
    destruct (decide (size layout = r)) as [|Hne]; [done|].
    destruct Hrank. split; [by eauto|]. split; [by eauto|].
    rewrite Hr. simpl. congruence.
  - injection H as <-. exists b1. rewrite lookup_insert_eq.
    split; [done|]. split; [congruence|]. intros layout' [=].
Qed.

Lemma DeclareInternalBuffers_evolves op buffers :
  outcome_rel (evolves buffer_step) buffers
    (DeclareInternalBuffers op buffers).
Proof using Canonicalize_size.
  unfold DeclareInternalBuffers. apply for_each_evolves.
  intros i m. apply DeclareBuffer_evolves.
Qed.

Lemma declare_imports_evolves op buffers buffers' :
  match as_FromToMemRefOp op with
  | Some info => DeclareExternalBuffer op info buffers
  | None => Succeeded buffers
  end = Succeeded buffers' ->
  evolves buffer_step buffers buffers'.
Proof using Canonicalize_size.
  destruct (as_FromToMemRefOp op) as [info|].
  - pose proof (DeclareExternalBuffer_evolves op info buffers) as H.
    intros Heq. by rewrite Heq in H.
  - intros [= <-]. apply evolves_refl.
Qed.

Lemma declare_computes_evolves op buffers buffers' :
  (if is_ComputeOp (op_kind op) then DeclareInternalBuffers op buffers
   else Succeeded buffers) = Succeeded buffers' ->
  evolves buffer_step buffers buffers'.
Proof using Canonicalize_size.
  destruct (is_ComputeOp (op_kind op)).
  - pose proof (DeclareInternalBuffers_evolves op buffers) as H.
    intros Heq. by rewrite Heq in H.
  - intros [= <-]. apply evolves_refl.
Qed.

Lemma declare_result_evolves op i buffers buffers' :
  DeclareBuffer op i (Storage op i) buffers = Succeeded buffers' ->
  evolves buffer_step buffers buffers'.
Proof using Canonicalize_size.
  pose proof (DeclareBuffer_evolves op i (Storage op i) buffers) as H.
  intros Heq. by rewrite Heq in H.
Qed.

(** X12: when [Init] returns with success, the buffer that a [from_memref]
    or [to_memref] operation of the program names is the external buffer
    of this operation, with its location, the element type of the memref
    and the size of the memref domain as rank, so that no two such
    operations name the same buffer; and the buffer that the storage
    attribute of a result of a compute operation names has the element type
    of the result, and the size of the layout of the attribute, if it has
    one, as rank. *)
Theorem declared_buffers fuel program analysis analysis' :
  Init fuel program analysis = Some (Succeeded analysis') ->
  (forall op info,
      op ∈ program ->
      as_FromToMemRefOp op = Some info ->
      exists b,
        buffers_ analysis' !! info_buffer_name info = Some b
        /\ import_op_ b = Some op
        /\ loc_ b = op_loc op
        /\ element_type_ b = info_element_type info
        /\ rank b = Some (memref_domain_size info))
  /\ (forall op op' info info',
         op ∈ program ->
         op' ∈ program ->
         as_FromToMemRefOp op = Some info ->
         as_FromToMemRefOp op' = Some info' ->
         info_buffer_name info = info_buffer_name info' ->
         op = op')
  /\ (forall op i attr name,
         op ∈ program ->
         is_ComputeOp (op_kind op) = true ->
         i < length (op_results op) ->
         Storage op i = Some attr ->
         attr_name attr = Some name ->
         exists b,
           buffers_ analysis' !! name = Some b
           /\ op_results op !! i = Some (element_type_ b)
           /\ forall layout,
               GetBufferLayout op attr = Some (Some layout) ->
               rank b = Some (size layout)).
Proof using Canonicalize_size.
  intros H. apply Init_Succeeded in H
    as (declared & computed & Hd & Hc & Hv & _ & _).
  assert (evolves access_step declared (buffers_ analysis')) as Hlater.
  { apply ComputeValueStorages_evolves in Hc. simpl in Hc.
    eapply evolves_trans; [exact Hc|].
    pose proof (VerifyAndMinimizeBufferLoopNests_evolves (buffers_ computed))
      as He.
    rewrite Hv in He. by apply buffer_step_access_step_evolves. }
  unfold DeclareBuffers in Hd.
  destruct (declare_all program (buffers_ analysis)) as [m| |] eqn:Hall;
    simpl in Hd; [|done|done].
  destruct (check_fully_specified _); [done|]. injection Hd as <-.
  unfold declare_all in Hall.
  destruct (for_each _ program (buffers_ analysis)) as [m1| |] eqn:H1;
    simpl in Hall; [|done|done].
  destruct (for_each_elem (evolves buffer_step) _ program
              (evolves_refl _) (evolves_trans _)
              declare_imports_evolves _ _ H1) as [_ Himports].
  destruct (for_each_elem (evolves buffer_step) _ program
              (evolves_refl _) (evolves_trans _)
              declare_computes_evolves _ _ Hall) as [Hinternal Hcomputes].
  assert (forall op info,
             op ∈ program ->
             as_FromToMemRefOp op = Some info ->
             exists b,
               buffers_ analysis' !! info_buffer_name info = Some b
               /\ import_op_ b = Some op
               /\ loc_ b = op_loc op
               /\ element_type_ b = info_element_type info
               /\ rank b = Some (memref_domain_size info)) as Himport.
  { intros op info Hop Hinfo.
    destruct (Himports op Hop) as (s1 & s2 & Hbody & Hrest).
    rewrite Hinfo in Hbody.
    apply DeclareExternalBuffer_declares in Hbody
      as (_ & b2 & Hb2 & Himport & Hloc & Htype & Hrank).
    destruct (evolves_kept s2 (buffers_ analysis') (info_buffer_name info) b2)
      as (b & Hb & Hs & Hr); [|exact Hb2|].
    { apply buffer_step_access_step_evolves in Hrest, Hinternal.
      eapply evolves_trans; [exact Hrest|].
      eapply evolves_trans; [exact Hinternal|exact Hlater]. }
    destruct Hs as (Hloc' & Htype' & Himport' & _).
    exists b. repeat split; try congruence. by apply Hr. }
  split; [exact Himport|]. split.
  - intros op op' info info' Hop Hop' Hinfo Hinfo' Hname.
    destruct (Himport op info Hop Hinfo) as (b & Hb & Hi & _).
    destruct (Himport op' info' Hop' Hinfo') as (b' & Hb' & Hi' & _).
    rewrite Hname in Hb. congruence.
  - intros op i attr name Hop Hcompute Hi Hattr Hname.
    destruct (Hcomputes op Hop) as (s1 & s2 & Hbody & Hrest).
    rewrite Hcompute in Hbody. unfold DeclareInternalBuffers in Hbody.
    destruct (for_each_elem (evolves buffer_step) _ _
                (evolves_refl _) (evolves_trans _)
                (declare_result_evolves op) _ _ Hbody) as [_ Hresults].
    destruct (Hresults i) as (s3 & s4 & Hdeclare & Hrest4).
    { apply elem_of_seq. lia. }
    rewrite Hattr in Hdeclare.
    apply (DeclareBuffer_declares _ _ _ name) in Hdeclare
      as (b4 & Hb4 & Htype & Hrank); [|done].
    destruct (evolves_kept s4 (buffers_ analysis') name b4)
      as (b & Hb & Hs & Hr); [|exact Hb4|].
    { apply buffer_step_access_step_evolves in Hrest, Hrest4.
      eapply evolves_trans; [exact Hrest4|].
      eapply evolves_trans; [exact Hrest|exact Hlater]. }
    destruct Hs as (_ & Htype' & _ & _).
    exists b. split; [done|]. split; [congruence|].
    intros layout Hlayout. by apply Hr, Hrank.
Qed.

(* ===================================================================== *)
(** ** The insertion point of the allocation of a buffer *)
(* ===================================================================== *)

Lemma for_each_Failed {A S : Type} (body : A -> S -> Outcome S)
  (xs : list A) :
  forall s d s',
    for_each body xs s = Failed d s' ->
    exists x s1, x ∈ xs /\ body x s1 = Failed d s'.
Proof.
  induction xs as [|x xs IH]; intros s d s' H; simpl in H; [done|].
  destruct (body x s) as [s1|d1 s1|] eqn:Hx; simpl in H; [| |done].
  - destruct (IH s1 d s' H) as (y & s2 & Hy & Hbody).
    exists y, s2. split; [by apply list_elem_of_further|done].
  - injection H as <- <-. exists x, s. split; [apply list_elem_of_here|done].
Qed.

Lemma for_each_Aborted {A S : Type} (body : A -> S -> Outcome S)
  (xs : list A) :
  forall s,
    for_each body xs s = Aborted ->
    exists x s1, x ∈ xs /\ body x s1 = Aborted.
Proof.
  induction xs as [|x xs IH]; intros s H; simpl in H; [done|].
  destruct (body x s) as [s1|d1 s1|] eqn:Hx; simpl in H; [|done|].
  - destruct (IH s1 H) as (y & s2 & Hy & Hbody).
    exists y, s2. split; [by apply list_elem_of_further|done].
  - exists x, s. split; [apply list_elem_of_here|done].
Qed.

(** The loop that looks for the first write keeps the earliest operation
    seen. *)
Lemma first_write_loop (writes : list (Operation * nat)) :
  forall first_write,
    let result :=
      foldl (fun first_write p =>
               if isBeforeInBlock p.1 first_write then p.1 else first_write)
        first_write writes in
    (result = first_write \/ result ∈ writes.*1)
    /\ op_order result <= op_order first_write
    /\ forall w, w ∈ writes.*1 -> op_order result <= op_order w.
Proof.
  induction writes as [|p writes IH]; intros first_write; simpl.
  - split; [by left|]. split; [done|]. intros w Hw. inversion Hw.
  - destruct (IH (if isBeforeInBlock p.1 first_write then p.1
                  else first_write)) as (Hin & Hle & Hmin).
    unfold isBeforeInBlock in *. case_bool_decide as Hbefore.
    + split; [|split].
      * right. destruct Hin as [->|Hin];
          [apply list_elem_of_here|by apply list_elem_of_further].
      * lia.
      * intros w Hw. apply elem_of_cons in Hw as [->|Hw]; [done|by apply Hmin].
    + split; [|split].
      * destruct Hin as [->|Hin]; [by left|].
        right. by apply list_elem_of_further.
      * done.
      * intros w Hw. apply elem_of_cons in Hw as [->|Hw]; [lia|by apply Hmin].
Qed.

Lemma first_write_of_earliest writes first_write :
  first_write_of writes = Some first_write ->
  first_write ∈ writes.*1
  /\ forall w, w ∈ writes.*1 -> isBeforeInBlock w first_write = false.
Proof.
  unfold first_write_of. destruct writes as [|[front i] writes]; [done|].
  intros [= <-].
  pose proof (first_write_loop ((front, i) :: writes) front) as Hloop.
  cbv zeta in Hloop. cbn [foldl fst] in Hloop |- *.
  destruct Hloop as (Hin & _ & Hmin).
  split.
  - destruct Hin as [->|Hin]; [apply list_elem_of_here|done].
  - intros w Hw. unfold isBeforeInBlock at 1. apply bool_decide_eq_false.
    specialize (Hmin w Hw). lia.
Qed.

(** The loop [for (; new_min > 0; --new_min)]: the last position, below
    the bound, at which the two loop nests have the same loop. *)
Lemma last_common_loop_last operand_loops write_loops new_min :
  let result := last_common_loop operand_loops write_loops new_min in
  result <= new_min
  /\ (0 < result ->
      operand_loops !! (result - 1) = write_loops !! (result - 1))
  /\ forall k,
      result <= k < new_min -> operand_loops !! k <> write_loops !! k.
Proof.
  induction new_min as [|k IH]; simpl.
  - split; [done|]. split; [lia|]. intros k Hk. lia.
  - case_decide as Heq.
    + split; [done|]. split; [|intros k' Hk'; lia].
      intros _. by replace (S k - 1) with k by lia.
    + destruct IH as (Hle & Hsame & Hdiffer). split; [lia|].
      split; [done|]. intros k' Hk'.
      destruct (decide (k' = k)) as [->|Hne]; [done|]. apply Hdiffer. lia.
Qed.

Lemma malloc_operands_bounds first_write dimension_op name buffer
  write_loops (operands : list ValueOperand) :
  forall n,
    match
      for_each
        (fun operand min_num_loops =>
           let defining_op := getDefiningOp (operand_value operand) in
           let operand_loops := loop_names (iteration_spaces defining_op) in
           let new_min :=
             last_common_loop operand_loops write_loops
               (length write_loops `min` length operand_loops) in
           if decide (length (loop_nest_ buffer) < new_min) then
             Failed (dimension_defined_after first_write dimension_op name)
               min_num_loops
           else Succeeded (min_num_loops `max` new_min))
        operands n
    with
    | Succeeded n' => n <= n' <= n `max` length (loop_nest_ buffer)
    | _ => True
    end.
Proof.
  induction operands as [|operand operands IH]; intros n; simpl; [lia|].
  case_decide as Hlt; simpl; [done|].
  match goal with
  | |- context [for_each ?body operands ?n1] =>
      specialize (IH n1); destruct (for_each body operands n1)
  end; [|done|done].
  lia.
Qed.

Lemma CheckMallocInsertionPoint_bounds name buffer used_dimensions n n' :
  CheckMallocInsertionPoint name buffer used_dimensions n = Succeeded n' ->
  n <= n' <= n `max` length (loop_nest_ buffer).
Proof.
  unfold CheckMallocInsertionPoint.
  destruct (first_write_of (writes_ buffer)) as [first_write|]; [|done].
  generalize (set_bits used_dimensions). intros dims. revert n.
  induction dims as [|dim dims IH]; intros n; simpl.
  - intros [= <-]. lia.
  - destruct (domain_ buffer !! dim) as [access|]; [|done].
    destruct (isBeforeInBlock _ _); [done|].
    pose proof (malloc_operands_bounds first_write
                  (getDefiningOp (access_value access)) name buffer
                  (loop_names (iteration_spaces first_write))
                  (op_operands (getDefiningOp (access_value access))) n)
      as Hoperands.
    destruct (for_each _ (op_operands _) n) as [n1|d n1|]; simpl;
      [|done|done].
    intros H. apply IH in H. lia.
Qed.

(** X14: [CheckMallocInsertionPoint] reads the first write of the buffer,
    which is a write of the buffer that no other write precedes, and has
    no defined result for a buffer without writes.  When it succeeds, the
    number of loops is not smaller than it was, and not greater than the
    larger of what it was and the length of the loop nest of the buffer.
    When it fails, the diagnostic is at the first write, with a note at the
    operation that defines a dimension that the layout uses: either the
    first write is before this operation, or the loop nests of the first
    write and of the producer of an operand of this operation both have a
    loop at some position beyond the length of the loop nest of the buffer,
    the same loop for both, and differ at every later position that both
    have. *)
Theorem malloc_insertion_point name buffer used_dimensions n :
  (writes_ buffer = [] ->
   CheckMallocInsertionPoint name buffer used_dimensions n = Aborted)
  /\ (forall first_write,
         first_write_of (writes_ buffer) = Some first_write ->
         first_write ∈ (writes_ buffer).*1
         /\ forall w, w ∈ (writes_ buffer).*1 ->
                      isBeforeInBlock w first_write = false)
  /\ (forall n',
         CheckMallocInsertionPoint name buffer used_dimensions n
         = Succeeded n' ->
         n <= n' <= n `max` length (loop_nest_ buffer))
  /\ (forall d n',
         CheckMallocInsertionPoint name buffer used_dimensions n
         = Failed d n' ->
         exists first_write dim access,
           first_write_of (writes_ buffer) = Some first_write
           /\ dim ∈ set_bits used_dimensions
           /\ domain_ buffer !! dim = Some access
           /\ diag_loc d = op_loc first_write
           /\ diag_note d
              = Some (op_loc (getDefiningOp (access_value access)),
                      "dimension defined here")
           /\ (isBeforeInBlock first_write
                 (getDefiningOp (access_value access)) = true
               \/ exists operand position loop,
                   let operand_loops :=
                     loop_names
                       (iteration_spaces
                          (getDefiningOp (operand_value operand))) in
                   let write_loops :=
                     loop_names (iteration_spaces first_write) in
                   operand ∈ op_operands (getDefiningOp (access_value access))
                   /\ length (loop_nest_ buffer) < position
                   /\ operand_loops !! (position - 1) = Some loop
                   /\ write_loops !! (position - 1) = Some loop
                   /\ forall k,
                       position <= k ->
                       is_Some (operand_loops !! k) ->
                       is_Some (write_loops !! k) ->
                       operand_loops !! k <> write_loops !! k)).
Proof.
  split; [|split; [|split]].
  - intros Hwrites. unfold CheckMallocInsertionPoint. by rewrite Hwrites.
  - apply first_write_of_earliest.
  - intros n'. apply CheckMallocInsertionPoint_bounds.
  - intros d n'. unfold CheckMallocInsertionPoint.
    destruct (first_write_of (writes_ buffer)) as [first_write|]; [|done].
    intros H. apply for_each_Failed in H as (dim & n1 & Hdim & H).
    destruct (domain_ buffer !! dim) as [access|] eqn:Haccess; [|done].
    exists first_write, dim, access.
    destruct (isBeforeInBlock _ _) eqn:Hbefore.
    + injection H as <- <-. repeat split; try done. by left.
    + apply for_each_Failed in H as (operand & n2 & Hoperand & H).
      case_decide as Hlt; [|done]. injection H as <- <-.
      repeat split; try done. right.
      match type of Hlt with
      | _ < last_common_loop ?o ?w ?m =>
          pose proof (last_common_loop_last o w m) as Hlast;
          set (position := last_common_loop o w m) in *;
          set (operand_loops := o) in *; set (write_loops := w) in *
      end.
      cbv zeta in Hlast. destruct Hlast as (Hle & Hsame & Hdiffer).
      specialize (Hsame ltac:(lia)).
      destruct (lookup_lt_is_Some_2 write_loops (position - 1) ltac:(lia))
        as [loop Hloop].
      exists operand, position, loop. cbv zeta.
      fold operand_loops write_loops.
      split; [exact Hoperand|]. split; [exact Hlt|].
      split; [by rewrite Hsame|]. split; [done|].
      intros k Hk Ho Hw. apply Hdiffer.
      apply lookup_lt_is_Some_1 in Ho, Hw. lia.
Qed.

(* ===================================================================== *)
(** ** The minimization of the loop nests *)
(* ===================================================================== *)

(** The loop of [VerifyAndMinimizeBufferLoopNests] replaces every buffer
    by its minimized buffer. *)
Lemma minimize_pointwise (names : list StringAttr) :
  NoDup names ->
  forall m m' : gmap StringAttr Buffer,
    for_each
      (fun name buffers =>
         match buffers !! name with
         | None => Aborted
         | Some buffer =>
             and_then (VerifyAndMinimizeBufferLoopNest name buffer) buffers
               (fun buffer => Succeeded (<[name := buffer]> buffers))
         end)
      names m = Succeeded m' ->
    (forall name, name ∉ names -> m' !! name = m !! name)
    /\ forall name,
        name ∈ names ->
        exists b b',
          m !! name = Some b
          /\ VerifyAndMinimizeBufferLoopNest name b = Succeeded b'
          /\ m' !! name = Some b'.
Proof.
  induction 1 as [|name names Hnotin Hnodup IH]; intros m m' H; simpl in H.
  - injection H as <-. split; [done|]. intros name Hin. inversion Hin.
  - destruct (m !! name) as [b|] eqn:Hb; [|done].
    destruct (VerifyAndMinimizeBufferLoopNest name b) as [b1|d b1|] eqn:Hv;
      simpl in H; [|done|done].
    apply IH in H as [Hout Hin]. split.
    + intros name1 Hnotin1. apply not_elem_of_cons in Hnotin1 as [Hne Hnotin1].
      rewrite (Hout name1 Hnotin1). by rewrite lookup_insert_ne.
    + intros name1 Hin1. apply elem_of_cons in Hin1 as [->|Hin1].
      * exists b, b1. repeat split; [done..|].
        rewrite (Hout name Hnotin). by rewrite lookup_insert_eq.
      * destruct (Hin name1 Hin1) as (b2 & b2' & Hb2 & Hv2 & Hb2').
        rewrite lookup_insert_ne in Hb2 by (intros ->; done).
        by exists b2, b2'.
Qed.

Lemma used_dimensions_bounds name buffer (dims : list nat) n n' :
  for_each
    (fun dim min_num_loops =>
       match domain_ buffer !! dim with
       | None => Aborted
       | Some access =>
           let dim_mapping := access_mapping access in
           if HasNoneExprs dim_mapping then
             Failed (cannot_be_nested name buffer) min_num_loops
           else
             let new_min := MinDomainSize dim_mapping in
             Succeeded (new_min `max` min_num_loops)
       end) dims n = Succeeded n' ->
  n <= n'
  /\ forall dim access,
      dim ∈ dims ->
      domain_ buffer !! dim = Some access ->
      HasNoneExprs (access_mapping access) = false
      /\ MinDomainSize (access_mapping access) <= n'.
Proof.
  revert n. induction dims as [|dim dims IH]; intros n H; simpl in H.
  - injection H as <-. split; [done|]. intros dim access Hdim. inversion Hdim.
  - destruct (domain_ buffer !! dim) as [access|] eqn:Haccess; [|done].
    destruct (HasNoneExprs (access_mapping access)) eqn:Hnone; simpl in H;
      [done|].
    apply IH in H as [Hle Hdims]. split; [lia|].
    intros dim' access' Hdim' Haccess'.
    apply elem_of_cons in Hdim' as [->|Hdim']; [|by eapply Hdims].
    assert (access' = access) as -> by congruence. split; [done|lia].
Qed.

(** The number of loops that the first loop of the minimization computes
    is not larger than what the dimensions it visits need. *)
Lemma used_dimensions_upper name buffer (dims : list nat) bound n n' :
  for_each
    (fun dim min_num_loops =>
       match domain_ buffer !! dim with
       | None => Aborted
       | Some access =>
           let dim_mapping := access_mapping access in
           if HasNoneExprs dim_mapping then
             Failed (cannot_be_nested name buffer) min_num_loops
           else
             let new_min := MinDomainSize dim_mapping in
             Succeeded (new_min `max` min_num_loops)
       end) dims n = Succeeded n' ->
  (forall dim access,
      dim ∈ dims ->
      domain_ buffer !! dim = Some access ->
      MinDomainSize (access_mapping access) <= bound) ->
  n' <= n `max` bound.
Proof.
  revert n. induction dims as [|dim dims IH]; intros n H Hbound; simpl in H.
  - injection H as <-. lia.
  - destruct (domain_ buffer !! dim) as [access|] eqn:Haccess; [|done].
    destruct (HasNoneExprs (access_mapping access)); simpl in H; [done|].
    apply IH in H.
    + pose proof (Hbound dim access (list_elem_of_here _ _) Haccess). lia.
    + intros dim' access' Hdim'. apply Hbound. by apply list_elem_of_further.
Qed.

(** The second loop of the minimization keeps the number of loops below
    the length of the loop nest. *)
Lemma layout_exprs_bounds name buffer inverse (exprs : list MappingExpr) n n' :
  for_each
    (fun layout_expr min_num_loops =>
       let new_min :=
         AccessedShapeMinDomainSize layout_expr (length (domain_ buffer))
           inverse in
       if decide (length (loop_nest_ buffer) < new_min) then
         Failed (cannot_be_nested name buffer) min_num_loops
       else Succeeded (new_min `max` min_num_loops))
    exprs n = Succeeded n' ->
  n <= n' <= n `max` length (loop_nest_ buffer).
Proof.
  revert n. induction exprs as [|e exprs IH]; intros n H; simpl in H.
  - injection H as <-. lia.
  - case_decide; simpl in H; [done|]. apply IH in H. lia.
Qed.

Lemma VerifyAndMinimizeBufferLoopNest_Succeeded name buffer buffer' :
  VerifyAndMinimizeBufferLoopNest name buffer = Succeeded buffer' ->
  (layout_ buffer = None \/ is_external buffer = true -> buffer' = buffer)
  /\ exists k,
      loop_nest_ buffer' = take k (loop_nest_ buffer)
      /\ (forall l dim access,
             layout_ buffer = Some l ->
             is_external buffer = false ->
             dim ∈ set_bits (DependencyMask l) ->
             domain_ buffer !! dim = Some access ->
             HasNoneExprs (access_mapping access) = false
             /\ MinDomainSize (access_mapping access) <= k)
      /\ ((forall l dim access,
              layout_ buffer = Some l ->
              dim ∈ set_bits (DependencyMask l) ->
              domain_ buffer !! dim = Some access ->
              MinDomainSize (access_mapping access)
              <= length (loop_nest_ buffer)) ->
          k <= length (loop_nest_ buffer)
          /\ length (loop_nest_ buffer') = k).
Proof using GetLoopNest_size.
  unfold VerifyAndMinimizeBufferLoopNest.
  destruct (layout_ buffer) as [l|] eqn:Hl.
  2:{ intros [= <-]. split; [done|]. exists (length (loop_nest_ buffer)).
      split; [by rewrite firstn_all|].
      split; [intros l dim access Hl'; done|done]. }
  destruct (for_each _ (set_bits _) _) as [n1| |] eqn:H1; simpl; [|done|done].
  pose proof (used_dimensions_upper _ _ _ (length (loop_nest_ buffer)) _ _ H1)
    as Hupper.
  apply used_dimensions_bounds in H1 as [_ Hdims].
  destruct (BufferInstanceLayout buffer) as [instance_layout|]; [|done].
  destruct (for_each _ (Dimensions l) n1) as [n2| |] eqn:H2; simpl;
    [|done|done].
  apply layout_exprs_bounds in H2 as [Hle2 Hupper2].
  destruct (is_external buffer) eqn:Hexternal.
  { intros [= <-]. split; [done|]. exists (length (loop_nest_ buffer)).
    split; [by rewrite firstn_all|].
    split; [intros l' dim access _; done|done]. }
  destruct (CheckMallocInsertionPoint _ _ _ _) as [n3| |] eqn:H3; simpl;
    [|done|done].
  apply CheckMallocInsertionPoint_bounds in H3 as [Hle3 Hupper3].
  destruct (SetLoopNest _ _) as [b'|] eqn:Hset; simpl; [|done].
  intros [= <-]. split; [by intros [?|?]|].
  apply SetLoopNest_loop_nest in Hset as [_ Hset].
  rewrite GetLoopNest_size, length_take in Hset.
  exists n3. split; [|split].
  - rewrite Hset. destruct (decide (n3 <= length (loop_nest_ buffer))).
    + by rewrite Nat.min_l.
    + rewrite Nat.min_r by lia. rewrite firstn_all.
      by rewrite take_ge by lia.
  - intros l' dim access [= <-] _ Hdim Haccess.
    destruct (Hdims dim access Hdim Haccess) as [Hnone Hmin].
    split; [done|lia].
  - intros Hneed.
    assert (n3 <= length (loop_nest_ buffer)) as Hk.
    { assert (n1 <= 0 `max` length (loop_nest_ buffer)) as Hn1; [|lia].
      apply Hupper. intros dim access Hdim Haccess.
      by apply (Hneed l dim access). }
    split; [done|]. rewrite Hset, length_take. lia.
Qed.

(** X13: when [VerifyAndMinimizeBufferLoopNests] succeeds, the table has
    the same names, and every buffer is replaced by the result of the
    minimization of this buffer alone.  A buffer without layout and an
    external buffer are left as they are; the loop nest of any other
    buffer becomes its first [k] loops (all of them when [k] is larger
    than their number), for a [k] that is not smaller than the number of
    loops that any domain dimension used by the layout depends on, and no
    such dimension has a none expression in its mapping.  When the
    dimensions that the layout uses depend on no more loops than the buffer
    has, [k] is not larger than the loop nest, and is the length of the new
    loop nest: a prefix that is at least as long as what these dimensions
    need. *)
Theorem minimized_loop_nests buffers buffers' :
  VerifyAndMinimizeBufferLoopNests buffers = Succeeded buffers' ->
  forall name,
    match buffers !! name with
    | None => buffers' !! name = None
    | Some buffer =>
        exists buffer',
          buffers' !! name = Some buffer'
          /\ VerifyAndMinimizeBufferLoopNest name buffer = Succeeded buffer'
          /\ (layout_ buffer = None \/ is_external buffer = true ->
              buffer' = buffer)
          /\ exists k,
              loop_nest_ buffer' = take k (loop_nest_ buffer)
              /\ (forall l dim access,
                     layout_ buffer = Some l ->
                     is_external buffer = false ->
                     dim ∈ set_bits (DependencyMask l) ->
                     domain_ buffer !! dim = Some access ->
                     HasNoneExprs (access_mapping access) = false
                     /\ MinDomainSize (access_mapping access) <= k)
              /\ ((forall l dim access,
                      layout_ buffer = Some l ->
                      dim ∈ set_bits (DependencyMask l) ->
                      domain_ buffer !! dim = Some access ->
                      MinDomainSize (access_mapping access)
                      <= length (loop_nest_ buffer)) ->
                  k <= length (loop_nest_ buffer)
                  /\ length (loop_nest_ buffer') = k)
    end.
Proof using GetLoopNest_size.
  unfold VerifyAndMinimizeBufferLoopNests. intros H name.
  apply minimize_pointwise in H as [Hout Hin];
    [|apply NoDup_fst_map_to_list].
  destruct (buffers !! name) as [buffer|] eqn:Hb.
  - destruct (Hin name) as (b & b' & Hb0 & Hv & Hb').
    { apply list_elem_of_fmap. exists (name, buffer). split; [done|].
      by apply elem_of_map_to_list. }
    assert (b = buffer) as -> by congruence.
    exists b'. split; [done|]. split; [done|].
    by apply (VerifyAndMinimizeBufferLoopNest_Succeeded name).
  - rewrite Hout; [done|]. intros Hname.
    apply list_elem_of_fmap in Hname as ([name' b] & -> & Hname).
    apply elem_of_map_to_list in Hname. simpl in Hb. congruence.
Qed.

(* ===================================================================== *)
(** ** Writes to external buffers *)
(* ===================================================================== *)

Lemma Init_check_external_writes_Succeeded buffers name buffer :
  Init_check_external_writes buffers = Succeeded () ->
  buffers !! name = Some buffer ->
  check_external_writes name buffer = Succeeded ().
Proof.
  unfold Init_check_external_writes. intros H Hb.
  apply for_each_unit_Succeeded in H. rewrite Forall_forall in H.
  apply (H (name, buffer)). by apply elem_of_map_to_list.
Qed.

Lemma imports_typed_insert (m : gmap StringAttr Buffer) name b b' :
  m !! name = Some b -> import_op_ b' = import_op_ b ->
  imports_typed m -> imports_typed (<[name := b']> m).
Proof.
  intros Hb Himport Ht name' b0 op Hb0 Hop.
  destruct (decide (name = name')) as [<-|Hne].
  - rewrite lookup_insert_eq in Hb0. simplify_eq.
    apply (Ht name b op Hb). congruence.
  - rewrite lookup_insert_ne in Hb0 by done. by eapply Ht.
Qed.

Lemma imports_typed_insert_new (m : gmap StringAttr Buffer) name b :
  (forall op, import_op_ b = Some op -> is_Some (as_FromToMemRefOp op)) ->
  imports_typed m -> imports_typed (<[name := b]> m).
Proof.
  intros Hb Ht name' b0 op Hb0 Hop.
  destruct (decide (name = name')) as [<-|Hne].
  - rewrite lookup_insert_eq in Hb0. simplify_eq. by apply Hb.
  - rewrite lookup_insert_ne in Hb0 by done. by eapply Ht.
Qed.

(** The declarations give an import operation to the buffers of
    [from_memref] and [to_memref] operations only. *)
Lemma DeclareBuffer_typed op result attr buffer_map buffer_map' :
  DeclareBuffer op result attr buffer_map = Succeeded buffer_map' ->
  imports_typed buffer_map -> imports_typed buffer_map'.
Proof.
  unfold DeclareBuffer. intros H Ht.
  destruct attr as [attr|]; [|by simplify_eq].
  destruct (attr_name attr) as [name|]; [|by simplify_eq].
  destruct (op_results op !! result) as [ty|]; [|done].
  set (m := try_emplace name _ buffer_map) in *.
  assert (imports_typed m) as Hm.
  { unfold m, try_emplace. destruct (buffer_map !! name) eqn:Hn; [done|].
    by apply imports_typed_insert_new. }
  destruct (m !! name) as [buffer|] eqn:Hbuffer; [|done].
  case_decide; [done|].
  destruct (GetBufferLayout op attr) as [layout|]; [|done].
  case_decide; [done|].
  destruct (TrimBufferLoopNestForAccess _ _ _) as [trimmed|] eqn:Htrim; [|done].
  apply TrimBufferLoopNestForAccess_stable in Htrim as [(_ & _ & Himp & _) _].
  destruct layout as [layout|].
  - pose proof (UnifyBufferShape_stable name op layout
                  (iteration_spaces op) trimmed) as Hu.
    destruct (UnifyBufferShape _ _ _ _ _) as [unified|d unified|];
      simplify_eq.
    destruct Hu as (_ & _ & Himp' & _).
    eapply imports_typed_insert; [done|congruence|done].
  - simplify_eq. by eapply imports_typed_insert.
Qed.

Lemma DeclareExternalBuffer_typed op info buffers buffers' :
  as_FromToMemRefOp op = Some info ->
  DeclareExternalBuffer op info buffers = Succeeded buffers' ->
  imports_typed buffers -> imports_typed buffers'.
Proof.
  unfold DeclareExternalBuffer. intros Hinfo H Ht.
  destruct (buffers !! info_buffer_name info) eqn:Hb; [done|].
  match type of H with
  | context [UnifyBufferShape ?n ?o ?l ?sp ?b] =>
      pose proof (UnifyBufferShape_stable n o l sp b) as Hu;
      destruct (UnifyBufferShape n o l sp b) as [unified|d unified|]
  end; simplify_eq.
  destruct Hu as (_ & _ & Himp & _).
  apply imports_typed_insert_new.
  - intros op' Hop'. rewrite Himp in Hop'. simpl in Hop'.
    injection Hop' as <-. by rewrite Hinfo.
  - apply imports_typed_insert_new; [|done].
    intros op' [= <-]. by rewrite Hinfo.
Qed.

Lemma DeclareBuffers_typed program buffers buffers' :
  DeclareBuffers program buffers = Succeeded buffers' ->
  imports_typed buffers -> imports_typed buffers'.
Proof.
  unfold DeclareBuffers, declare_all. intros H.
  destruct (for_each _ program buffers) as [m1|d m1|] eqn:H1; simpl in H;
    [|done|done].
  destruct (for_each _ program m1) as [m2|d m2|] eqn:H2; simpl in H;
    [|done|done].
  destruct (check_fully_specified _); simplify_eq.
  intros Ht.
  eapply (for_each_Succeeded_rel
            (fun m m' => imports_typed m -> imports_typed m'));
    [by auto|by auto| |exact H2|].
  - intros op m m' Hop. cbv beta in Hop.
    destruct (is_ComputeOp (op_kind op)); [|by simplify_eq].
    revert Hop. unfold DeclareInternalBuffers.
    apply (for_each_Succeeded_rel
             (fun m m' => imports_typed m -> imports_typed m'));
      [by auto|by auto|].
    intros i m0 m0'. apply DeclareBuffer_typed.
  - eapply (for_each_Succeeded_rel
              (fun m m' => imports_typed m -> imports_typed m'));
      [by auto|by auto| |exact H1|exact Ht].
    intros op m m' Hop. cbv beta in Hop.
    destruct (as_FromToMemRefOp op) as [info|] eqn:Hinfo; [|by simplify_eq].
    by apply (DeclareExternalBuffer_typed op info).
Qed.

Lemma UpdateStorage_typed value new_storage storage buffers storage' buffers' :
  UpdateStorage value new_storage (storage, buffers)
  = Succeeded (storage', buffers') ->
  imports_typed buffers -> imports_typed buffers'.
Proof.
  intros H Ht. apply UpdateStorage_Succeeded in H as [_ H].
  destruct (buffer_name storage), (buffer_name new_storage) as [name|];
    try (by rewrite H).
  destruct H as (b & b' & Hb & Hr & ->).
  apply register_buffer_use_stable in Hr as (_ & _ & Himp & _).
  by eapply imports_typed_insert.
Qed.

Lemma ComputeValueStorages_typed fuel program analysis analysis' :
  ComputeValueStorages fuel program analysis = Some (Succeeded analysis') ->
  imports_typed (buffers_ analysis) -> imports_typed (buffers_ analysis').
Proof.
  apply (ComputeValueStorages_Succeeded_rel
           (fun a a' =>
              imports_typed (buffers_ a) -> imports_typed (buffers_ a'))).
  - by auto.
  - by auto.
  - by auto.
  - intros a v new_storage storage' buffers'. apply UpdateStorage_typed.
Qed.

Lemma VerifyAndMinimizeBufferLoopNests_typed buffers buffers' :
  VerifyAndMinimizeBufferLoopNests buffers = Succeeded buffers' ->
  imports_typed buffers -> imports_typed buffers'.
Proof.
  unfold VerifyAndMinimizeBufferLoopNests.
  apply (for_each_Succeeded_rel
           (fun m m' => imports_typed m -> imports_typed m'));
    [by auto|by auto|].
  intros name m m' H Ht.
  destruct (m !! name) as [buffer|] eqn:Hb; [|done].
  pose proof (VerifyAndMinimizeBufferLoopNest_stable name buffer) as Hs.
  destruct (VerifyAndMinimizeBufferLoopNest name buffer) as [b'|d b'|];
    simplify_eq/=.
  destruct Hs as (_ & _ & Himp & _). by eapply imports_typed_insert.
Qed.

(** The last loop of [Init] has a defined result on a table whose import
    operations are memref operations. *)
Lemma Init_check_external_writes_typed buffers :
  Init_check_external_writes buffers = Aborted -> imports_typed buffers ->
  False.
Proof.
  unfold Init_check_external_writes. intros H Ht.
  apply for_each_Aborted in H as ([name buffer] & [] & Hin & H).
  apply elem_of_map_to_list in Hin. unfold check_external_writes in H.
  simpl in H. destruct (import_op_ buffer) as [import_op|] eqn:Himport; [|done].
  destruct (Ht name buffer import_op Hin Himport) as [info Hinfo].
  rewrite Hinfo in H.
  apply for_each_Aborted in H as (write & [] & _ & H).
  by destruct (isBeforeInBlock _ _).
Qed.

(** A failure of the last loop of [Init] is the failure of the check of an
    external buffer of the table, at the first write of the buffer that is
    before the definition of its memref. *)
Lemma Init_check_external_writes_Failed buffers d :
  Init_check_external_writes buffers = Failed d () ->
  exists name buffer import_op info before write after,
    buffers !! name = Some buffer
    /\ import_op_ buffer = Some import_op
    /\ as_FromToMemRefOp import_op = Some info
    /\ writes_ buffer = before ++ write :: after
    /\ Forall
         (fun w =>
            isBeforeInBlock w.1 (getDefiningOp (info_MemRef info)) = false)
         before
    /\ isBeforeInBlock write.1 (getDefiningOp (info_MemRef info)) = true
    /\ d = used_before_defined write.1 (getDefiningOp (info_MemRef info)) name.
Proof.
  unfold Init_check_external_writes. intros H.
  apply for_each_Failed in H as ([name buffer] & [] & Hin & H).
  apply elem_of_map_to_list in Hin. unfold check_external_writes in H.
  simpl in H. destruct (import_op_ buffer) as [import_op|] eqn:Himport; [|done].
  destruct (as_FromToMemRefOp import_op) as [info|] eqn:Hinfo; [|done].
  match type of H with
  | for_each ?body _ _ = _ =>
      pose proof (for_each_unit_cases body (writes_ buffer)) as Hc
  end.
  rewrite H in Hc.
  destruct Hc as (before & write & after & Hws & Hbefore & Hwrite).
  exists name, buffer, import_op, info, before, write, after.
  destruct (isBeforeInBlock write.1 _) eqn:Hb; [|done].
  injection Hwrite as <-. repeat split; try done.
  eapply Forall_impl; [exact Hbefore|]. intros w Hw. simpl in Hw.
  by destruct (isBeforeInBlock w.1 _).
Qed.

(** C9, as the code has it: writes to an external buffer come after the
    definition of the memref.  For an external buffer, the check compares
    every write with the operation that defines the memref value of the
    import operation: it succeeds exactly when no write is before this
    operation, and otherwise fails at the first write of the list that is
    before it, with a note at this operation.  The reads of the buffer are
    not looked at.  When [Init] succeeds, no write of an external buffer of
    the analysis is before the operation that defines its memref.  When
    the declaration of the buffers, the computation of the storages and the
    minimization of the loop nests succeed and leave an external buffer
    with a write that is before the operation that defines its memref,
    [Init] fails: the diagnostic is the one of the check of an external
    buffer of the table, at the first write of the list of this buffer that
    is before the definition of its memref, with the note at this
    definition. *)
Theorem external_writes_after_definition (name : StringAttr)
  (buffer : Buffer) (import_op : Operation) (info : MemRefInfo) :
  import_op_ buffer = Some import_op ->
  as_FromToMemRefOp import_op = Some info ->
  let defining_op := getDefiningOp (info_MemRef info) in
  (check_external_writes name buffer = Succeeded ()
   <-> Forall (fun write => isBeforeInBlock write.1 defining_op = false)
         (writes_ buffer))
  /\ (forall d,
         check_external_writes name buffer = Failed d () ->
         exists before write after,
           writes_ buffer = before ++ write :: after
           /\ Forall (fun w => isBeforeInBlock w.1 defining_op = false) before
           /\ isBeforeInBlock write.1 defining_op = true
           /\ d = used_before_defined write.1 defining_op name
           /\ diag_loc d = op_loc write.1
           /\ diag_note d = Some (op_loc defining_op, "buffer defined here"))
  /\ check_external_writes name buffer <> Aborted
  /\ (forall reads,
         check_external_writes name
           {| loc_ := loc_ buffer; element_type_ := element_type_ buffer;
              import_op_ := import_op_ buffer; loop_nest_ := loop_nest_ buffer;
              domain_ := domain_ buffer; layout_ := layout_ buffer;
              writes_ := writes_ buffer; reads_ := reads;
              values_ := values_ buffer |}
         = check_external_writes name buffer)
  /\ (forall fuel program analysis analysis',
         Init fuel program analysis = Some (Succeeded analysis') ->
         buffers_ analysis' !! name = Some buffer ->
         Forall (fun write => isBeforeInBlock write.1 defining_op = false)
           (writes_ buffer))
  /\ (forall fuel program declared computed minimized early_write,
         DeclareBuffers program ∅ = Succeeded declared ->
         ComputeValueStorages fuel program
           (with_buffers StorageAnalysis_empty declared)
         = Some (Succeeded computed) ->
         VerifyAndMinimizeBufferLoopNests (buffers_ computed)
         = Succeeded minimized ->
         minimized !! name = Some buffer ->
         early_write ∈ writes_ buffer ->
         isBeforeInBlock early_write.1 defining_op = true ->
         exists d name' buffer' import_op' info' before write after,
           Init fuel program StorageAnalysis_empty
           = Some (Failed d (with_buffers computed minimized))
           /\ minimized !! name' = Some buffer'
           /\ import_op_ buffer' = Some import_op'
           /\ as_FromToMemRefOp import_op' = Some info'
           /\ writes_ buffer' = before ++ write :: after
           /\ Forall
                (fun w =>
                   isBeforeInBlock w.1 (getDefiningOp (info_MemRef info'))
                   = false) before
           /\ isBeforeInBlock write.1 (getDefiningOp (info_MemRef info'))
              = true
           /\ d = used_before_defined write.1
                    (getDefiningOp (info_MemRef info')) name'
           /\ diag_loc d = op_loc write.1
           /\ diag_note d
              = Some (op_loc (getDefiningOp (info_MemRef info')),
                      "buffer defined here")).
Proof.
  intros Himport Hinfo defining_op.
  assert (forall fuel program analysis analysis',
             Init fuel program analysis = Some (Succeeded analysis') ->
             buffers_ analysis' !! name = Some buffer ->
             check_external_writes name buffer = Succeeded ()) as Hinit.
  { intros fuel program analysis analysis' Hi Hb.
    apply Init_Succeeded in Hi as (? & ? & _ & _ & _ & Hcheck & _).
    by eapply Init_check_external_writes_Succeeded. }
  revert Hinit.
  unfold check_external_writes. simpl. rewrite Himport, Hinfo.
  fold defining_op. intros Hinit.
  set (body := fun (write : Operation * nat) (_ : unit) =>
                 if isBeforeInBlock write.1 defining_op
                 then Failed (used_before_defined write.1 defining_op name) ()
                 else Succeeded ()).
  assert (forall ws,
             Forall (fun x => body x () = Succeeded ()) ws
             <-> Forall (fun w => isBeforeInBlock w.1 defining_op = false) ws)
    as Hbody.
  { intros ws. apply Forall_proper; [|done]. intros w. unfold body.
    by destruct (isBeforeInBlock w.1 defining_op). }
  pose proof (for_each_unit_cases body (writes_ buffer)) as Hc.
  split; [split|split; [|split; [|split; [|split]]]].
  - intros H. apply Hbody. by apply for_each_unit_Succeeded.
  - intros H. apply for_each_unit_Succeeded. by apply Hbody.
  - intros d Hd. rewrite Hd in Hc.
    destruct Hc as (before & write & after & Hws & Hbefore & Hwrite).
    exists before, write, after. unfold body in Hwrite.
    destruct (isBeforeInBlock write.1 defining_op) eqn:Hb; [|done].
    simplify_eq. repeat split; try done. by apply Hbody.
  - intros Ha. rewrite Ha in Hc.
    destruct Hc as (before & write & after & Hws & Hbefore & Hwrite).
    unfold body in Hwrite. by destruct (isBeforeInBlock write.1 defining_op).
  - done.
  - intros fuel program analysis analysis' Hi Hb.
    apply Hbody, for_each_unit_Succeeded. by eapply Hinit.
  - intros fuel program declared computed minimized early_write
      Hdeclared Hcomputed Hminimized Hbuffer Hin Hearly.
    assert (imports_typed minimized) as Htyped.
    { apply (VerifyAndMinimizeBufferLoopNests_typed _ _ Hminimized).
      apply (ComputeValueStorages_typed _ _ _ _ Hcomputed). simpl.
      apply (DeclareBuffers_typed _ _ _ Hdeclared).
      intros name0 b0 op0 Hb0. by rewrite lookup_empty in Hb0. }
    destruct (Init_check_external_writes minimized) as [[]|d []|] eqn:Hcheck.
    + exfalso.
      pose proof (Init_check_external_writes_Succeeded _ _ _ Hcheck Hbuffer)
        as Hok.
      unfold check_external_writes in Hok. rewrite Himport, Hinfo in Hok.
      fold defining_op in Hok. fold body in Hok.
      apply for_each_unit_Succeeded, Hbody in Hok.
      rewrite Forall_forall in Hok. specialize (Hok _ Hin). congruence.
    + destruct (Init_check_external_writes_Failed _ _ Hcheck)
        as (name' & buffer' & import_op' & info' & before & write & after
            & Hb' & Himport' & Hinfo' & Hws & Hbefore & Hwrite & ->).
      exists (used_before_defined write.1
                (getDefiningOp (info_MemRef info')) name'),
        name', buffer', import_op', info', before, write, after.
      split; [|done].
      unfold Init. simpl. rewrite Hdeclared, Hcomputed. simpl.
      by rewrite Hminimized, Hcheck.
    + by apply Init_check_external_writes_typed in Hcheck.
Qed.

(* ===================================================================== *)
(** ** The communication volume of the operands of a program *)
(* ===================================================================== *)

Lemma Init_entries fuel program analysis analysis' op i :
  Init fuel program analysis = Some (Succeeded analysis') ->
  op ∈ program ->
  i < length (op_results op) ->
  is_Some (value_storages_ analysis' !! mkValue (op_order op) i).
Proof.
  intros H. apply Init_Succeeded in H
    as (declared & computed & _ & Hc & _ & _ & ->).
  unfold ComputeValueStorages in Hc.
  apply and_then_fuel_Succeeded in Hc as (a1 & H1 & Hc).
  apply and_then_fuel_Succeeded in Hc as (a2 & H2 & Hc).
  apply and_then_fuel_Succeeded in Hc as (a3 & H3 & Hc).
  apply and_then_fuel_Succeeded in Hc as (a4 & H4 & Hc).
  injection Hc as <-. simpl. apply ensure_entries_entries.
Qed.

Lemma for_each_unit_Failed {A : Type} (body : A -> unit -> Outcome unit)
  (xs : list A) d :
  for_each body xs () = Failed d () ->
  exists x, x ∈ xs /\ body x () = Failed d ().
Proof.
  intros H. apply for_each_Failed in H as (x & [] & Hx & H). by eauto.
Qed.

Lemma for_each_unit_Aborted {A : Type} (body : A -> unit -> Outcome unit)
  (xs : list A) :
  for_each body xs () = Aborted ->
  exists x, x ∈ xs /\ body x () = Aborted.
Proof.
  intros H. apply for_each_Aborted in H as (x & [] & Hx & H). by eauto.
Qed.

(** The two loops of the walk of [VerifyCommunicationVolume], for one
    operation. *)
Lemma verify_operation_cases (op : Operation)
  (check : ValueOperand -> Outcome unit) :
  let verify :=
    do _ <- for_each (fun operand _ => check operand) (op_operands op) ();
    for_each
      (fun dimension _ =>
         for_each (fun operand _ => check operand)
           (op_operands (getDefiningOp dimension)) ())
      (op_domain op) () in
  (verify = Succeeded ()
   <-> forall operand,
       operand ∈ op_operands op
       \/ (exists dimension,
              dimension ∈ op_domain op
              /\ operand ∈ op_operands (getDefiningOp dimension)) ->
       check operand = Succeeded ())
  /\ (forall d,
         verify = Failed d () ->
         exists operand,
           (operand ∈ op_operands op
            \/ exists dimension,
                dimension ∈ op_domain op
                /\ operand ∈ op_operands (getDefiningOp dimension))
           /\ check operand = Failed d ())
  /\ (verify = Aborted ->
      exists operand,
        (operand ∈ op_operands op
         \/ exists dimension,
             dimension ∈ op_domain op
             /\ operand ∈ op_operands (getDefiningOp dimension))
        /\ check operand = Aborted).
Proof.
  cbv zeta. split; [|split].
  - split.
    + intros H operand Hoperand.
      destruct (for_each _ (op_operands op) ()) as [[]| |] eqn:H1;
        simpl in H; [|done|done].
      apply for_each_unit_Succeeded in H1. rewrite Forall_forall in H1.
      apply for_each_unit_Succeeded in H. rewrite Forall_forall in H.
      destruct Hoperand as [Hoperand|(dimension & Hdim & Hoperand)].
      * by apply H1.
      * specialize (H dimension Hdim). simpl in H.
        apply for_each_unit_Succeeded in H. rewrite Forall_forall in H.
        by apply H.
    + intros H.
      assert (for_each (fun operand _ => check operand) (op_operands op) ()
              = Succeeded ()) as ->.
      { apply for_each_unit_Succeeded, Forall_forall.
        intros operand Hoperand. apply H. by left. }
      simpl. apply for_each_unit_Succeeded, Forall_forall.
      intros dimension Hdim. apply for_each_unit_Succeeded, Forall_forall.
      intros operand Hoperand. apply H. right. by eauto.
  - intros d H.
    destruct (for_each _ (op_operands op) ()) as [[]|d1 []|] eqn:H1;
      simpl in H; [| |done].
    + apply for_each_unit_Failed in H as (dimension & Hdim & H).
      apply for_each_unit_Failed in H as (operand & Hoperand & H).
      exists operand. split; [|done]. right. by eauto.
    + injection H as <-.
      apply for_each_unit_Failed in H1 as (operand & Hoperand & H1).
      exists operand. split; [by left|done].
  - intros H.
    destruct (for_each _ (op_operands op) ()) as [[]|d1 []|] eqn:H1;
      simpl in H; [|done|].
    + apply for_each_unit_Aborted in H as (dimension & Hdim & H).
      apply for_each_unit_Aborted in H as (operand & Hoperand & H).
      exists operand. split; [|done]. right. by eauto.
    + apply for_each_unit_Aborted in H1 as (operand & Hoperand & H1).
      exists operand. split; [by left|done].
Qed.

(** X15: [VerifyCommunicationVolume] for a program succeeds exactly when
    the check of every operand of every operation, and of every operand of
    the operations that define the dimensions of its domain, succeeds, for
    the location and the iteration space of the operation; if it fails, the
    diagnostic is the one of such an operand.  It reads a storage that the
    analysis does not have only for such an operand; for the storages of
    an analysis that [Init] built with success for the program, when the
    values of the operands checked are results of operations of the
    program, this does not happen. *)
Theorem communication_volume_of_program (program : list Operation)
  (value_storages : gmap Value ValueStorage) :
  (VerifyCommunicationVolume_program program value_storages = Succeeded ()
   <-> forall op operand,
       checked_operand program op operand ->
       VerifyCommunicationVolume (op_loc op) (iteration_spaces op)
         (operand_Get operand) value_storages = Succeeded ())
  /\ (forall d,
         VerifyCommunicationVolume_program program value_storages
         = Failed d () ->
         exists op operand,
           checked_operand program op operand
           /\ VerifyCommunicationVolume (op_loc op) (iteration_spaces op)
                (operand_Get operand) value_storages = Failed d ()
           /\ d = incomplete_storage (op_loc op) (operand_Get operand))
  /\ (VerifyCommunicationVolume_program program value_storages = Aborted ->
      exists op operand,
        checked_operand program op operand
        /\ value_storages !! operand_value operand = None)
  /\ (forall fuel analysis analysis',
         Init fuel program analysis = Some (Succeeded analysis') ->
         value_storages = value_storages_ analysis' ->
         (forall op operand,
             checked_operand program op operand ->
             exists def i,
               def ∈ program
               /\ i < length (op_results def)
               /\ operand_value operand = mkValue (op_order def) i) ->
         VerifyCommunicationVolume_program program value_storages
         <> Aborted).
Proof.
  assert (forall op,
             let check operand :=
               VerifyCommunicationVolume (op_loc op) (iteration_spaces op)
                 (operand_Get operand) value_storages in
             forall operand,
               check operand = Aborted ->
               value_storages !! operand_value operand = None) as Hmissing.
  { intros op check operand. unfold check, VerifyCommunicationVolume, GetStorage.
    simpl. destruct (_ || _); [done|].
    destruct (value_storages !! operand_value operand) as [storage|]; [|done].
    destruct (storage_layout storage); [|done]. by destruct (HasNoneExprs _). }
  assert (VerifyCommunicationVolume_program program value_storages = Aborted ->
          exists op operand,
            checked_operand program op operand
            /\ value_storages !! operand_value operand = None) as Haborted.
  { unfold VerifyCommunicationVolume_program. intros H.
    apply for_each_unit_Aborted in H as (op & Hop & H).
    pose proof (verify_operation_cases op
                  (fun operand =>
                     VerifyCommunicationVolume (op_loc op)
                       (iteration_spaces op) (operand_Get operand)
                       value_storages)) as Hcases.
    cbv zeta in Hcases. destruct Hcases as (_ & _ & Hcases).
    apply Hcases in H as (operand & Hoperand & H).
    exists op, operand. split; [by split|]. by apply (Hmissing op). }
  split; [|split; [|split]].
  - unfold VerifyCommunicationVolume_program. split.
    + intros H op operand [Hop Hoperand].
      apply for_each_unit_Succeeded in H. rewrite Forall_forall in H.
      specialize (H op Hop).
      pose proof (verify_operation_cases op
                    (fun operand =>
                       VerifyCommunicationVolume (op_loc op)
                         (iteration_spaces op) (operand_Get operand)
                         value_storages)) as Hcases.
      cbv zeta in Hcases. destruct Hcases as (Hcases & _ & _).
      by apply Hcases.
    + intros H. apply for_each_unit_Succeeded, Forall_forall. intros op Hop.
      pose proof (verify_operation_cases op
                    (fun operand =>
                       VerifyCommunicationVolume (op_loc op)
                         (iteration_spaces op) (operand_Get operand)
                         value_storages)) as Hcases.
      cbv zeta in Hcases. destruct Hcases as (Hcases & _ & _).
      apply Hcases. intros operand Hoperand. apply H. by split.
  - unfold VerifyCommunicationVolume_program. intros d H.
    apply for_each_unit_Failed in H as (op & Hop & H).
    pose proof (verify_operation_cases op
                  (fun operand =>
                     VerifyCommunicationVolume (op_loc op)
                       (iteration_spaces op) (operand_Get operand)
                       value_storages)) as Hcases.
    cbv zeta in Hcases. destruct Hcases as (_ & Hcases & _).
    apply Hcases in H as (operand & Hoperand & H).
    exists op, operand. split; [by split|]. split; [done|].
    unfold VerifyCommunicationVolume in H.
    destruct (_ || _); [done|].
    destruct (GetStorage _ _) as [storage|]; [|done].
    destruct (storage_layout storage); [|done].
    destruct (HasNoneExprs _); [|done]. by injection H.
  - exact Haborted.
  - intros fuel analysis analysis' Hinit -> Hdefined H.
    apply Haborted in H as (op & operand & Hchecked & Hnone).
    destruct (Hdefined op operand Hchecked) as (def & i & Hdef & Hi & Hvalue).
    destruct (Init_entries _ _ _ _ def i Hinit Hdef Hi) as [storage Hstorage].
    congruence.
Qed.

(* ===================================================================== *)
(** ** The propagation of the storages *)
(* ===================================================================== *)

Lemma storage_le_default storage :
  storage_le storage ValueStorage_default -> storage = ValueStorage_default.
Proof.
  intros (H1 & H2 & H3). destruct storage as [[s|] [n|] [l|]]; simpl in *.
  all: try (by specialize (H1 s eq_refl)).
  all: try (by specialize (H2 n eq_refl)).
  all: try (by destruct H3 as [? ?]; [eauto|]).
  done.
Qed.

Lemma storage_back_refl vs value : storage_back vs vs value.
Proof.
  intros st Hst. right. exists st. split; [done|apply storage_le_refl].
Qed.

Lemma storage_back_trans vs1 vs2 vs3 value :
  storage_back vs1 vs2 value -> storage_back vs2 vs3 value ->
  storage_back vs1 vs3 value.
Proof.
  intros H12 H23 st3 Hst3.
  destruct (H23 st3 Hst3) as [?|(st2 & Hst2 & Hle2)]; [by left|].
  destruct (H12 st2 Hst2) as [->|(st1 & Hst1 & Hle1)].
  - left. by apply storage_le_default.
  - right. exists st1. split; [done|]. by eapply storage_le_trans.
Qed.

(** A value whose storage is left as it is stays linked when the storages
    grow. *)
Lemma linked_mono vs vs' value :
  storages_grow vs vs' ->
  storage_back vs vs' value ->
  linked vs value -> linked vs' value.
Proof.
  intros Hgrow Hback Hlinked st' target Hst' Hneighbour.
  destruct (Hback st' Hst') as [?|(st & Hst & Hle)]; [by left|].
  destruct (Hlinked st target Hst Hneighbour) as [->|(t & Ht & Hlet)].
  - left. by apply storage_le_default.
  - right. destruct (Hgrow target t Ht) as (t' & Ht' & Hlet').
    exists t'. split; [done|].
    eapply storage_le_trans; [exact Hle|].
    by eapply storage_le_trans.
Qed.

Lemma propagation_step_refl s : propagation_step s s.
Proof.
  split; [apply storages_grow_refl|]. split; [done|].
  intros value _. apply storage_back_refl.
Qed.

Lemma propagation_step_trans s1 s2 s3 :
  propagation_step s1 s2 -> propagation_step s2 s3 -> propagation_step s1 s3.
Proof.
  intros (G12 & W12 & B12) (G23 & W23 & B23).
  split; [by eapply storages_grow_trans|]. split; [by auto|].
  intros value Hvalue. eapply storage_back_trans; [|by apply B23].
  apply B12. intros Hin. by apply Hvalue, W23.
Qed.

Lemma storage_entry_back vs value value' :
  storage_back vs (storage_entry vs value).2 value'.
Proof.
  unfold storage_entry. destruct (vs !! value) eqn:Hv; simpl;
    [apply storage_back_refl|].
  intros st Hst. destruct (decide (value' = value)) as [->|Hne].
  - rewrite lookup_insert_eq in Hst. left. congruence.
  - rewrite lookup_insert_ne in Hst by done. right. exists st.
    split; [done|apply storage_le_refl].
Qed.

(** [update_storage] is a step of the propagation that gives the value
    what the new storage gives. *)
Lemma update_storage_step value new_storage state state' :
  update_storage value new_storage state = Succeeded state' ->
  propagation_step state state'
  /\ exists storage',
      value_storages_ state'.1 !! value = Some storage'
      /\ storage_le new_storage storage'.
Proof.
  destruct state as [analysis wl]. unfold update_storage.
  pose proof (storage_entry_lookup (value_storages_ analysis) value) as He.
  pose proof (storage_entry_grow (value_storages_ analysis) value) as Hg.
  pose proof (storage_entry_back (value_storages_ analysis) value) as Hb.
  pose proof (UpdateStorage_storages_grow (value_storages_ analysis) value
                new_storage) as Hu.
  destruct (storage_entry _ _) as [st vs]. cbn [fst snd] in *.
  case_decide as Heq.
  - intros [= <-]. simpl. split.
    + split; [done|]. split; [done|]. intros value' _. apply Hb.
    + exists st. split; [done|]. subst st. apply storage_le_refl.
  - destruct (UpdateStorage value new_storage (st, buffers_ analysis))
      as [[st' m]|d [st' m]|] eqn:Hup; [|done|done].
    intros [= <-]. simpl. split.
    + split; [by eapply Hu|]. split.
      * intros value' Hin. by apply list_elem_of_further.
      * intros value' Hnotin. apply not_elem_of_cons in Hnotin as [Hne _].
        intros st1. cbn [fst snd value_storages_].
        rewrite lookup_insert_ne by done. apply Hb.
    + exists st'. rewrite lookup_insert_eq. split; [done|].
      apply UpdateStorage_Succeeded in Hup as [Hm _].
      by apply merge_storage_Succeeded in Hm as (_ & ? & _).
Qed.

Lemma Map_le storage from to operand_mapping storage' :
  Map storage from to operand_mapping = Some storage' ->
  storage_le storage storage'.
Proof.
  unfold Map. destruct (storage_layout storage) as [l|] eqn:Hl.
  - destruct (TranslateMapping _ _ _) as [m|]; simpl; [|done].
    intros [= <-]. repeat split; simpl; by eauto.
  - intros [= <-]. repeat split; simpl; try done.
    rewrite Hl. by intros [? ?].
Qed.

Lemma propagate_forward_step value storage use state state' :
  propagate_forward value storage use state = Succeeded state' ->
  propagation_step state state'
  /\ forall result,
      forwarded_result use = Some result ->
      exists storage',
        value_storages_ state'.1 !! mkValue (op_order (use_owner use)) result
        = Some storage'
        /\ storage_le storage storage'.
Proof.
  unfold propagate_forward.
  destruct (forwarded_result use) as [result|].
  - destruct (Map _ _ _ _) as [new_storage|] eqn:Hmap; [|done].
    intros H. apply update_storage_step in H as [Hstep (st' & Hst' & Hle)].
    split; [done|]. intros result' [= <-]. exists st'. split; [done|].
    eapply storage_le_trans; [by eapply Map_le|done].
  - intros [= <-]. split; [apply propagation_step_refl|]. done.
Qed.

Lemma propagate_backward_step storage defining_op operand state state' :
  propagate_backward storage defining_op operand state = Succeeded state' ->
  propagation_step state state'
  /\ exists storage',
      value_storages_ state'.1 !! operand_value operand = Some storage'
      /\ storage_le storage storage'.
Proof.
  unfold propagate_backward.
  destruct (Map _ _ _ _) as [new_storage|] eqn:Hmap; [|done].
  intros H. apply update_storage_step in H as [Hstep (st' & Hst' & Hle)].
  split; [done|]. exists st'. split; [done|].
  eapply storage_le_trans; [by eapply Map_le|done].
Qed.

(** The body of the loop of [SetStorage] is a step of the propagation
    that sends the storage of the value to its neighbours. *)
Lemma propagate_step value analysis wl state' :
  propagate value (analysis, wl) = Succeeded state' ->
  propagation_step (analysis, wl) state'
  /\ forall target,
      neighbour value target ->
      exists storage',
        value_storages_ state'.1 !! target = Some storage'
        /\ storage_le (storage_entry (value_storages_ analysis) value).1
             storage'.
Proof.
  unfold propagate.
  pose proof (storage_entry_grow (value_storages_ analysis) value) as Hg.
  pose proof (storage_entry_back (value_storages_ analysis) value) as Hb.
  destruct (storage_entry _ _) as [storage vs]. cbn [fst snd] in *.
  set (state0 := (mkStorageAnalysis (buffers_ analysis) vs
                    (next_buffer_id_ analysis), wl)).
  assert (propagation_step (analysis, wl) state0) as H0.
  { split; [exact Hg|]. split; [done|]. intros value' _. apply Hb. }
  destruct (for_each (propagate_forward value storage) (getUses value) state0)
    as [state1| |] eqn:Hforward; simpl; [|done|done].
  destruct (for_each_elem propagation_step _ _
              propagation_step_refl propagation_step_trans
              (fun use s s' H => proj1 (propagate_forward_step _ _ _ _ _ H))
              _ _ Hforward) as [H1 Huses].
  assert (forall state',
             propagation_step state1 state' ->
             forall use result,
               use ∈ getUses value ->
               forwarded_result use = Some result ->
               exists storage',
                 value_storages_ state'.1
                 !! mkValue (op_order (use_owner use)) result = Some storage'
                 /\ storage_le storage storage') as Hforwarded.
  { intros state2 (G2 & _ & _) use result Huse Hresult.
    destruct (Huses use Huse) as (s1 & s2 & Hbody & (Gs & _ & _)).
    apply propagate_forward_step in Hbody as [_ Hbody].
    destruct (Hbody result Hresult) as (st2 & Hst2 & Hle2).
    destruct (Gs _ st2 Hst2) as (st1 & Hst1 & Hle1).
    destruct (G2 _ st1 Hst1) as (st' & Hst' & Hle').
    exists st'. split; [done|].
    eapply storage_le_trans; [exact Hle2|]. by eapply storage_le_trans. }
  intros Hbackward.
  assert (propagation_step state1 state'
          /\ forall operand,
              match op_kind (getDefiningOp value) with
              | SairMapReduceOp _ =>
                  Inits (getDefiningOp value) !! value_result value
                  = Some operand
              | SairProjAnyOp | SairProjLastOp | SairFbyOp =>
                  operand ∈ op_operands (getDefiningOp value)
              | _ => False
              end ->
              exists storage',
                value_storages_ state'.1 !! operand_value operand
                = Some storage'
                /\ storage_le storage storage') as [H2 Hoperands].
  { destruct (op_kind (getDefiningOp value)) eqn:Hkind;
      try (injection Hbackward as <-;
           split; [apply propagation_step_refl|done]).
    - destruct (Inits _ !! _) as [operand|] eqn:Hinit; [|done].
      apply propagate_backward_step in Hbackward as [Hstep Hsets].
      split; [done|]. by intros operand' [= <-].
    - destruct (for_each_elem propagation_step _ _
                  propagation_step_refl propagation_step_trans
                  (fun operand s s' H =>
                     proj1 (propagate_backward_step _ _ _ _ _ H))
                  _ _ Hbackward) as [Hstep Hops].
      split; [done|]. intros operand Hoperand.
      destruct (Hops operand Hoperand) as (s1 & s2 & Hbody & (Gs & _ & _)).
      apply propagate_backward_step in Hbody as [_ (st2 & Hst2 & Hle2)].
      destruct (Gs _ st2 Hst2) as (st' & Hst' & Hle').
      exists st'. split; [done|]. by eapply storage_le_trans.
    - destruct (for_each_elem propagation_step _ _
                  propagation_step_refl propagation_step_trans
                  (fun operand s s' H =>
                     proj1 (propagate_backward_step _ _ _ _ _ H))
                  _ _ Hbackward) as [Hstep Hops].
      split; [done|]. intros operand Hoperand.
      destruct (Hops operand Hoperand) as (s1 & s2 & Hbody & (Gs & _ & _)).
      apply propagate_backward_step in Hbody as [_ (st2 & Hst2 & Hle2)].
      destruct (Gs _ st2 Hst2) as (st' & Hst' & Hle').
      exists st'. split; [done|]. by eapply storage_le_trans.
    - destruct (for_each_elem propagation_step _ _
                  propagation_step_refl propagation_step_trans
                  (fun operand s s' H =>
                     proj1 (propagate_backward_step _ _ _ _ _ H))
                  _ _ Hbackward) as [Hstep Hops].
      split; [done|]. intros operand Hoperand.
      destruct (Hops operand Hoperand) as (s1 & s2 & Hbody & (Gs & _ & _)).
      apply propagate_backward_step in Hbody as [_ (st2 & Hst2 & Hle2)].
      destruct (Gs _ st2 Hst2) as (st' & Hst' & Hle').
      exists st'. split; [done|]. by eapply storage_le_trans. }
  split.
  - eapply propagation_step_trans; [exact H0|].
    eapply propagation_step_trans; [exact H1|exact H2].
  - intros target [(use & result & Huse & Hresult & ->)
                  |(operand & -> & Hoperand)].
    + by apply (Hforwarded state' H2).
    + by apply Hoperands.
Qed.

(** When the loop of [SetStorage] ends, every value is linked. *)
Lemma drain_work_list_linked fuel :
  forall state analysis',
    drain_work_list fuel state = Some (Succeeded analysis') ->
    (forall value, value ∉ state.2 -> linked (value_storages_ state.1) value) ->
    forall value, linked (value_storages_ analysis') value.
Proof.
  induction fuel as [|fuel IH]; intros [analysis wl] analysis';
    cbn [drain_work_list fst snd].
  - destruct wl; [|done]. intros [= <-] Hlinked value. apply Hlinked.
    intros Hin. inversion Hin.
  - destruct wl as [|value wl].
    { intros [= <-] Hlinked value. apply Hlinked. intros Hin. inversion Hin. }
    destruct (propagate value (analysis, wl)) as [[a1 wl1]| |] eqn:Hp;
      [|done|done].
    intros Hdrain Hlinked. apply (IH _ _ Hdrain). cbn [fst snd].
    apply propagate_step in Hp as [(Hgrow & Hwl & Hback) Hsent].
    cbn [fst snd] in *.
    intros value' Hnotin.
    destruct (decide (value' = value)) as [->|Hne].
    + intros st target Hst Hneighbour.
      destruct (Hsent target Hneighbour) as (t & Ht & Hle).
      destruct (Hback value Hnotin st Hst) as [?|(st0 & Hst0 & Hle0)];
        [by left|].
      right. exists t. split; [done|].
      destruct (storage_entry_grow (value_storages_ analysis) value value st0
                  Hst0) as (st1 & Hst1 & Hle1).
      rewrite storage_entry_lookup in Hst1. injection Hst1 as <-.
      eapply storage_le_trans; [exact Hle0|].
      by eapply storage_le_trans.
    + apply (linked_mono (value_storages_ analysis)); [done|by apply Hback|].
      apply Hlinked. intros Hin. apply elem_of_cons in Hin as [?|Hin]; [done|].
      by apply Hnotin, Hwl.
Qed.

Lemma SetStorage_linked fuel value storage analysis analysis' :
  SetStorage fuel value storage analysis = Some (Succeeded analysis') ->
  (forall value, linked (value_storages_ analysis) value) ->
  forall value, linked (value_storages_ analysis') value.
Proof.
  unfold SetStorage.
  destruct (update_storage _ _ _) as [[a1 wl1]|d s1|] eqn:Hu; [|done|done].
  apply update_storage_step in Hu as [(Hgrow & _ & Hback) _].
  cbn [fst snd] in *.
  intros Hdrain Hlinked. apply (drain_work_list_linked _ _ _ Hdrain).
  cbn [fst snd]. intros value' Hnotin.
  apply (linked_mono (value_storages_ analysis)); [done|by apply Hback|done].
Qed.

Lemma linked_grow vs vs' :
  storages_grow vs vs' ->
  (forall value, storage_back vs vs' value) ->
  (forall value, linked vs value) ->
  forall value, linked vs' value.
Proof.
  intros Hgrow Hback Hlinked value. by apply (linked_mono vs).
Qed.

Lemma seed_linked fuel
  (seed : nat -> Operation -> StorageAnalysis ->
          option (Outcome StorageAnalysis)) program analysis analysis' :
  (forall op a a',
      seed fuel op a = Some (Succeeded a') ->
      (forall value, linked (value_storages_ a) value) ->
      forall value, linked (value_storages_ a') value) ->
  for_each_fuel (seed fuel) program analysis = Some (Succeeded analysis') ->
  (forall value, linked (value_storages_ analysis) value) ->
  forall value, linked (value_storages_ analysis') value.
Proof.
  intros Hseed.
  apply (for_each_fuel_Succeeded_rel
           (fun a a' =>
              (forall value, linked (value_storages_ a) value) ->
              forall value, linked (value_storages_ a') value));
    [done|by auto|exact Hseed].
Qed.

Lemma ensure_entries_back program vs value :
  storage_back vs (ensure_entries program vs) value.
Proof.
  apply (ensure_entries_rel
           (fun a a' =>
              forall value,
                storage_back (value_storages_ a) (value_storages_ a') value)
           (fun a value => storage_back_refl _ value)
           (fun a1 a2 a3 H12 H23 value =>
              storage_back_trans _ _ _ value (H12 value) (H23 value))
           (fun a v value => storage_entry_back _ v value) program
           (mkStorageAnalysis ∅ vs 0)).
Qed.

Lemma ComputeValueStorages_linked fuel program analysis analysis' :
  ComputeValueStorages fuel program analysis = Some (Succeeded analysis') ->
  (forall value, linked (value_storages_ analysis) value) ->
  forall value, linked (value_storages_ analysis') value.
Proof.
  unfold ComputeValueStorages. intros Hc Hlinked.
  apply and_then_fuel_Succeeded in Hc as (a1 & H1 & Hc).
  apply and_then_fuel_Succeeded in Hc as (a2 & H2 & Hc).
  apply and_then_fuel_Succeeded in Hc as (a3 & H3 & Hc).
  apply and_then_fuel_Succeeded in Hc as (a4 & H4 & Hc).
  injection Hc as <-. simpl.
  apply (linked_grow (value_storages_ a4));
    [apply ensure_entries_grow|apply ensure_entries_back|].
  apply (seed_linked fuel seed_to_memref program a3 a4); [|exact H4|].
  { intros op a a'. unfold seed_to_memref.
    destruct (op_kind op); try (by intros [= <-]).
    destruct (Map _ _ _ _); [|done]. apply SetStorage_linked. }
  apply (seed_linked fuel seed_from_scalar program a2 a3); [|exact H3|].
  { intros op a a'. unfold seed_from_scalar.
    destruct (op_kind op); try (by intros [= <-]). apply SetStorage_linked. }
  apply (seed_linked fuel seed_from_memref program a1 a2); [|exact H2|].
  { intros op a a'. unfold seed_from_memref.
    destruct (op_kind op); try (by intros [= <-]). apply SetStorage_linked. }
  apply (seed_linked fuel seed_compute_op program analysis a1);
    [|exact H1|done].
  intros op a a'. unfold seed_compute_op.
  destruct (is_ComputeOp _); [|by intros [= <-]].
  apply (for_each_fuel_Succeeded_rel
           (fun a a' =>
              (forall value, linked (value_storages_ a) value) ->
              forall value, linked (value_storages_ a') value));
    [done|by auto|].
  intros i s s'. destruct (Storage op i) as [buffer|]; [|by intros [= <-]].
  destruct (GetBufferLayout op buffer) as [layout|]; [|done].
  apply SetStorage_linked.
Qed.

Lemma Init_linked fuel program analysis analysis' :
  Init fuel program analysis = Some (Succeeded analysis') ->
  (forall value, linked (value_storages_ analysis) value) ->
  forall value, linked (value_storages_ analysis') value.
Proof.
  intros H Hlinked. apply Init_Succeeded in H
    as (declared & computed & _ & Hc & _ & _ & ->).
  by apply (ComputeValueStorages_linked _ _ _ _ Hc).
Qed.

Lemma MergeStorage_linked fuel value new_storage analysis analysis' :
  MergeStorage fuel value new_storage analysis = Some (Succeeded analysis') ->
  (forall value, linked (value_storages_ analysis) value) ->
  forall value, linked (value_storages_ analysis') value.
Proof.
  intros H. apply MergeStorage_Succeeded in H as (buffers & _ & H).
  exact (SetStorage_linked _ _ _ _ _ H).
Qed.

Lemma add_unknown_prefix_back num_new_dims (values : list Value) :
  forall (vs vs' : gmap Value ValueStorage) value,
    foldl (fun acc value =>
             value_storages ← acc;
             storage ← value_storages !! value;
             storage ← AddUnknownPrefixToLayout storage num_new_dims;
             Some (<[value := storage]> value_storages))
      (Some vs) values = Some vs' ->
    storage_back vs vs' value.
Proof.
  induction values as [|value0 values IH]; intros vs vs' value; simpl.
  - intros [= <-]. apply storage_back_refl.
  - destruct (vs !! value0) as [storage|] eqn:Hv; simpl.
    2:{ intros H. exfalso. clear -H. induction values; simpl in H; [done|auto]. }
    destruct (AddUnknownPrefixToLayout storage num_new_dims)
      as [storage'|] eqn:Hs; simpl.
    2:{ intros H. exfalso. clear -H. induction values; simpl in H; [done|auto]. }
    intros H. apply (IH _ _ value) in H.
    eapply storage_back_trans; [|exact H].
    unfold AddUnknownPrefixToLayout in Hs.
    destruct (storage_layout storage) as [l|] eqn:Hl; [|done].
    injection Hs as <-. intros st Hst. right.
    destruct (decide (value = value0)) as [->|Hne].
    + rewrite lookup_insert_eq in Hst. injection Hst as <-.
      exists storage. split; [done|]. by repeat split.
    + rewrite lookup_insert_ne in Hst by done. exists st.
      split; [done|apply storage_le_refl].
Qed.

Lemma analysis_call_linked analysis analysis' :
  analysis_call analysis analysis' ->
  (forall value, linked (value_storages_ analysis) value) ->
  forall value, linked (value_storages_ analysis') value.
Proof.
  intros [fuel value loop_names a a' H|fuel value new_storage a a' H
         |name a a' H|a buffers H|name op iter_space new_layout a a' H]
    Hlinked.
  - apply CreateBuffer_Succeeded in H
      as (name & a1 & et & st & st1 & st2 & Hf & _ & _ & _ & _ & H).
    destruct (GetFreshBufferName_returns a)
      as (name' & a1' & Heq & _ & _ & Hstorages & _).
    rewrite Heq in Hf. injection Hf as -> ->.
    apply (MergeStorage_linked _ _ _ _ _ H). simpl. by rewrite Hstorages.
  - by apply (MergeStorage_linked _ _ _ _ _ H).
  - destruct (GetFreshBufferName_returns a)
      as (name' & a1 & Heq & _ & _ & Hstorages & _).
    rewrite Heq in H. injection H as <- <-. by rewrite Hstorages.
  - done.
  - unfold AddDimensionsToBuffer in H.
    destruct (buffers_ a !! name) as [buffer|]; [|done].
    destruct (_ ≫= rank); [|done].
    destruct (AddDimensionsToBuffer_buffer _ _ _ _ _) as [buffer'| |];
      [|done|done].
    destruct (foldl _ _ _) as [vs'|] eqn:Hfold; [|done]. injection H as <-.
    simpl. apply (linked_grow (value_storages_ a)); [| |done].
    + by apply add_unknown_prefix_names in Hfold as [? _].
    + intros value. by eapply add_unknown_prefix_back.
Qed.

(** X17: in an analysis that [Create] returns, and after any successful
    calls of its public methods, the storage of a value has been propagated:
    when the storage of a value says anything, the result of every
    projection, [fby] or [map_reduce] operation that forwards the value,
    and every operand that the value forwards when such an operation
    defines it, has a storage with the same memory space and the same
    buffer name, wherever the storage of the value gives them, and with a
    layout when the storage of the value has one. *)
Theorem storages_are_propagated analysis value target storage :
  created analysis ->
  value_storages_ analysis !! value = Some storage ->
  neighbour value target ->
  storage = ValueStorage_default
  \/ exists storage',
      value_storages_ analysis !! target = Some storage'
      /\ (forall s, space storage = Some s -> space storage' = Some s)
      /\ (forall name,
             buffer_name storage = Some name ->
             buffer_name storage' = Some name)
      /\ (is_Some (storage_layout storage) ->
          is_Some (storage_layout storage')).
Proof.
  intros (fuel & program & analysis0 & Hinit & Hcalls) Hstorage Hneighbour.
  assert (forall value, linked (value_storages_ analysis) value) as Hlinked.
  { pose proof (Init_linked _ _ _ _ Hinit) as Hlinked0.
    assert (forall value, linked (value_storages_ analysis0) value) as Hlinked.
    { apply Hlinked0. intros v st t Hst. simpl in Hst.
      by rewrite lookup_empty in Hst. }
    clear Hinit Hlinked0 Hstorage.
    induction Hcalls as [|a1 a2 a3 Hcall _ IH]; [done|].
    apply IH. by eapply analysis_call_linked. }
  exact (Hlinked value storage target Hstorage Hneighbour).
Qed.

(* ===================================================================== *)
(** ** The layout of a storage attribute *)
(* ===================================================================== *)

Lemma index_of_is_Some name (l : list StringAttr) :
  is_Some (index_of name l) <-> name ∈ l.
Proof.
  induction l as [|x l IH]; simpl.
  - split; [by intros [? ?]|]. intros H. inversion H.
  - case_decide as Heq.
    + subst x. split; [intros _; apply list_elem_of_here|by eauto].
    + rewrite fmap_is_Some, IH. split; [by apply list_elem_of_further|].
      intros H. apply elem_of_cons in H as [?|?]; [congruence|done].
Qed.

(** The loop of [GetBufferLayout] ends without a failed [assert] exactly
    when every name is the name of a loop. *)
Lemma fill_is_Some (loops : list StringAttr)
  (pairs : list (nat * StringAttr)) :
  forall exprs : list MappingExpr,
    is_Some
      (foldl (fun (acc : option (list MappingExpr)) (p : nat * StringAttr) =>
                exprs ← acc;
                pos ← index_of p.2 loops;
                Some (<[p.1 := MappingDimExpr pos]> exprs))
         (Some exprs) pairs)
    <-> Forall (fun p => p.2 ∈ loops) pairs.
Proof.
  induction pairs as [|p pairs IH]; intros exprs; simpl.
  - split; [done|by eauto].
  - destruct (index_of p.2 loops) as [pos|] eqn:Hpos; simpl.
    + rewrite IH. split.
      * intros H. constructor; [|done]. apply index_of_is_Some. by eauto.
      * by intros [_ H]%Forall_cons.
    + split.
      * intros [result H]. exfalso. clear -H.
        induction pairs; simpl in H; [done|auto].
      * intros [Hp _]%Forall_cons. apply index_of_is_Some in Hp as [? Hp].
        congruence.
Qed.

(** X18: [GetBufferLayout] returns a null layout for an attribute without
    layout.  For an attribute with a layout, its [assert] holds exactly
    when every loop name of the layout is the name of a loop of the
    iteration space of the operation; the layout it returns then maps the
    iteration space of the operation and has the size of the layout of the
    attribute.  So it is defined for every attribute that
    [VerifyStorageAttrWellFormed] accepts for loops that are loops of the
    iteration space. *)
Theorem layout_of_attribute (op : Operation) (buffer : BufferAttr) :
  (attr_layout buffer = None -> GetBufferLayout op buffer = Some None)
  /\ (forall named,
         attr_layout buffer = Some named ->
         (is_Some (GetBufferLayout op buffer)
          <-> forall name,
              name ∈ names named ->
              name ∈ loop_names (iteration_spaces op))
         /\ forall layout,
             GetBufferLayout op buffer = Some layout ->
             exists l,
               layout = Some l
               /\ UseDomainSize l = size (mapping (iteration_spaces op))
               /\ size l = size (named_mapping named))
  /\ (forall loops element_type,
         well_formed_buffer loops element_type buffer ->
         (forall loop, loop ∈ loops ->
                       loop ∈ loop_names (iteration_spaces op)) ->
         is_Some (GetBufferLayout op buffer)).
Proof.
  assert (forall named,
             attr_layout buffer = Some named ->
             is_Some (GetBufferLayout op buffer)
             <-> forall name,
                 name ∈ names named ->
                 name ∈ loop_names (iteration_spaces op)) as Hdefined.
  { intros named Hnamed. unfold GetBufferLayout. rewrite Hnamed.
    pose proof (fill_is_Some (loop_names (iteration_spaces op))
                  (imap pair (names named))
                  (replicate (UseDomainSize (named_mapping named))
                     MappingNoneExpr)) as Hfill.
    destruct (foldl _ _ _) as [exprs|]; simpl.
    - split; [|by eauto]. intros _ name Hname.
      destruct Hfill as [Hfill _]. specialize (Hfill (mk_is_Some _ _ eq_refl)).
      rewrite Forall_forall in Hfill.
      apply list_elem_of_lookup in Hname as [i Hi].
      apply (Hfill (i, name)). apply list_elem_of_lookup. exists i.
      by rewrite list_lookup_imap, Hi.
    - split; [by intros [? ?]|]. intros Hnames.
      destruct Hfill as [_ Hfill]. destruct Hfill as [x Hx]; [|done].
      apply Forall_forall.
      intros [i name] Hin. apply list_elem_of_lookup in Hin as [k Hk].
      rewrite list_lookup_imap in Hk.
      destruct (names named !! k) as [name'|] eqn:Hname'; [|done].
      injection Hk as <- <-. apply Hnames.
      by eapply list_elem_of_lookup_2. }
  split; [|split].
  - intros Hnone. unfold GetBufferLayout. by rewrite Hnone.
  - intros named Hnamed. split; [by apply Hdefined|].
    unfold GetBufferLayout. rewrite Hnamed.
    destruct (foldl _ _ _) as [exprs|]; simpl; [|done].
    intros layout [= <-]. eexists. split; [done|]. split; [done|].
    apply Compose_size.
  - intros loops element_type (_ & _ & _ & Hlayout) Hloops.
    destruct (attr_layout buffer) as [named|] eqn:Hnamed.
    + apply (Hdefined named eq_refl). intros name Hname.
      apply Hloops. by apply (Hlayout named eq_refl).
    + unfold GetBufferLayout. rewrite Hnamed. by eauto.
Qed.

End Analysis.

(* ===================================================================== *)
(** ** Default loop nests *)
(* ===================================================================== *)

Lemma cover_dimensions_Some loop_nest : forall covered_dims covered_dims',
  cover_dimensions covered_dims loop_nest = Some covered_dims' ->
  length covered_dims' = length covered_dims
  /\ Forall (fun attr => attr <> NotALoopAttribute) loop_nest
  /\ (forall attr i, attr ∈ loop_nest -> covers attr i -> i < length covered_dims)
  /\ forall i, covered_dims' !! i = Some true
               <-> covered_dims !! i = Some true
                   \/ (i < length covered_dims /\ exists attr, attr ∈ loop_nest /\ covers attr i).
Proof.
  induction loop_nest as [|attr loop_nest IH]; intros covered covered' H; simpl in H.
  - injection H as <-. split; [done|]. split; [done|]. split.
    + intros attr i Hattr. inversion Hattr.
    + intros i. split; [by left|]. intros [?|(_ & attr & Hattr & _)]; [done|].
      inversion Hattr.
  - destruct attr as [[name iter]|]; [|done]. simpl in H.
    assert (forall c, cover_dimensions c loop_nest = Some covered' ->
              (forall i, ¬ covers (LoopAttribute (mkLoopAttr name iter)) i) ->
              c = covered ->
              length covered' = length covered
  /\ Forall (fun attr => attr <> NotALoopAttribute) (LoopAttribute (mkLoopAttr name iter) :: loop_nest)
  /\ (forall attr i, attr ∈ LoopAttribute (mkLoopAttr name iter) :: loop_nest -> covers attr i -> i < length covered)
  /\ forall i, covered' !! i = Some true
               <-> covered !! i = Some true
                   \/ (i < length covered /\ exists attr, attr ∈ LoopAttribute (mkLoopAttr name iter) :: loop_nest /\ covers attr i)) as Hskip.
    { intros c Hc Hno ->. apply IH in Hc as (Hlen & Hall & Hlt & Hiff).
      split; [done|]. split; [by constructor|]. split.
      - intros attr i Hattr Hcov. apply elem_of_cons in Hattr as [->|Hattr].
        + by destruct (Hno i). + by eapply Hlt.
      - intros i. rewrite Hiff. split.
        + intros [?|(? & attr & Hattr & Hcov)]; [by left|]. right. split; [done|].
          exists attr. split; [by apply list_elem_of_further|done].
        + intros [?|(? & attr & Hattr & Hcov)]; [by left|].
          apply elem_of_cons in Hattr as [->|Hattr]; [by destruct (Hno i)|].
          right. by eauto. }
    destruct iter as [|dimension step].
    { apply (Hskip covered); [done| |done]. intros i [name' [=]]. }
    case_decide as Hstep.
    { apply (Hskip covered); [done| |done]. intros i [name' [=]]. congruence. }
    subst step.
    case_decide as Hdim; [|done].
    apply IH in H as (Hlen & Hall & Hlt & Hiff).
    rewrite length_insert in Hlen, Hlt, Hiff.
    split; [done|]. split; [by constructor|]. split.
    + intros attr i Hattr Hcov. apply elem_of_cons in Hattr as [->|Hattr].
      * destruct Hcov as [name' [= _ <-]]. done.
      * by eapply Hlt.
    + intros i. rewrite Hiff. split.
      * intros [Hi|(? & attr & Hattr & Hcov)].
        -- destruct (decide (i = dimension)) as [->|Hne].
           ++ right. split; [done|]. exists (LoopAttribute (mkLoopAttr name (DimensionIterator dimension 1))).
              split; [apply list_elem_of_here|by exists name].
           ++ left. by rewrite list_lookup_insert_ne in Hi.
        -- right. split; [done|]. exists attr. split; [by apply list_elem_of_further|done].
      * intros [Hi|(Hlti & attr & Hattr & Hcov)].
        -- left. destruct (decide (i = dimension)) as [->|Hne].
           ++ by rewrite list_lookup_insert_eq.
           ++ by rewrite list_lookup_insert_ne.
        -- apply elem_of_cons in Hattr as [->|Hattr].
           ++ destruct Hcov as [name' [= _ <-]]. left. by rewrite list_lookup_insert_eq.
           ++ right. by eauto.
Qed.

(** The second loop of [GetDefaultLoopNest] adds a loop for every
    dimension that is not covered, in order. *)
Lemma add_default_loops {Program : Type}
  (GenLoopName : string -> Program -> StringAttr * Program)
  (covered_dims : list bool) (dims : list nat) :
  forall loop_nest program,
    exists added,
      (foldl (add_default_loop GenLoopName covered_dims)
         (loop_nest, program) dims).1 = loop_nest ++ added
      /\ Forall2 covers added
           (filter (fun i => covered_dims !! i <> Some true) dims).
Proof.
  induction dims as [|i dims IH]; intros loop_nest program.
  - exists []. simpl. by rewrite app_nil_r.
  - cbn [foldl]. unfold add_default_loop at 2.
    destruct (decide (covered_dims !! i = Some true)) as [Hi|Hi].
    + rewrite Hi. destruct (IH loop_nest program) as (added & Heq & Hadded).
      exists added. split; [done|].
      rewrite filter_cons_False by auto. done.
    + destruct (GenLoopName "loop" program) as [name program'] eqn:Hname.
      assert ((if covered_dims !! i is Some true
               then (loop_nest, program)
               else (loop_nest
                       ++ [LoopAttribute
                             (mkLoopAttr name (DimensionIterator i 1))],
                     program'))
              = (loop_nest
                   ++ [LoopAttribute
                         (mkLoopAttr name (DimensionIterator i 1))],
                 program')) as ->.
      { by destruct (covered_dims !! i) as [[]|]. }
      destruct (IH (loop_nest
                      ++ [LoopAttribute
                            (mkLoopAttr name (DimensionIterator i 1))])
                  program') as (added & Heq & Hadded).
      exists (LoopAttribute (mkLoopAttr name (DimensionIterator i 1)) :: added).
      split; [by rewrite Heq, <- app_assoc|].
      rewrite filter_cons_True by done.
      constructor; [by eexists|done].
Qed.

(** X16: [GetDefaultLoopNest] returns exactly when every attribute of the
    prefix is a loop and every loop of the prefix that iterates over a
    dimension with step 1 iterates over a dimension of the domain.  The
    loop nest it returns is the prefix followed by one loop, of step 1, for
    each dimension that no such loop of the prefix covers, in increasing
    order; so every dimension of the domain is covered by a loop of the
    result. *)
Theorem default_loop_nest_covers_domain {Program : Type}
  (GenLoopName : string -> Program -> StringAttr * Program)
  (program : Program) (num_dimensions : nat)
  (prefix : list LoopNestAttribute) :
  (is_Some (GetDefaultLoopNest GenLoopName program num_dimensions prefix)
   <-> Forall (fun attr => attr <> NotALoopAttribute) prefix
       /\ forall attr i, attr ∈ prefix -> covers attr i -> i < num_dimensions)
  /\ forall loop_nest program',
      GetDefaultLoopNest GenLoopName program num_dimensions prefix
      = Some (loop_nest, program') ->
      exists added,
        loop_nest = prefix ++ added
        /\ Forall2 covers added
             (filter (fun i => ~ Exists (fun attr => covers attr i) prefix)
                (seq 0 num_dimensions))
        /\ forall i,
            i < num_dimensions ->
            exists attr, attr ∈ loop_nest /\ covers attr i.
Proof.
  unfold GetDefaultLoopNest. split.
  - split.
    + intros [result H].
      destruct (cover_dimensions _ prefix) as [covered_dims|] eqn:Hc; [|done].
      apply cover_dimensions_Some in Hc as (_ & Hall & Hlt & _).
      rewrite length_replicate in Hlt. by split.
    + intros [Hall Hlt].
      assert (forall covered_dims,
                 length covered_dims = num_dimensions ->
                 is_Some (cover_dimensions covered_dims prefix)) as Hsome.
      { clear program. induction prefix as [|attr prefix IH];
          intros covered_dims Hlen; simpl; [by eauto|].
        apply Forall_cons in Hall as [Hattr Hall].
        destruct attr as [[name [|d step]]|]; [| |done]; simpl.
        - apply IH; [done| |done]. intros attr i Hin. apply Hlt.
          by apply list_elem_of_further.
        - case_decide as Hstep.
          + apply IH; [done| |done]. intros attr i Hin. apply Hlt.
            by apply list_elem_of_further.
          + subst step. rewrite decide_True.
            * apply IH; [done| |by rewrite length_insert].
              intros attr i Hin. apply Hlt. by apply list_elem_of_further.
            * rewrite Hlen. apply (Hlt (LoopAttribute
                                          (mkLoopAttr name (DimensionIterator d 1)))).
              -- apply list_elem_of_here.
              -- by exists name. }
      destruct (Hsome (replicate num_dimensions false)) as [covered_dims ->];
        [by rewrite length_replicate|].
      simpl. by eauto.
  - intros loop_nest program' H.
    destruct (cover_dimensions _ prefix) as [covered_dims|] eqn:Hc; [|done].
    simpl in H. injection H as H.
    apply cover_dimensions_Some in Hc as (Hlen & _ & Hlt & Hiff).
    rewrite length_replicate in Hlen, Hlt. 
    setoid_rewrite length_replicate in Hiff.
    destruct (add_default_loops GenLoopName covered_dims
                (seq 0 num_dimensions) prefix program)
      as (added & Heq & Hadded).
    rewrite H in Heq. simpl in Heq. subst loop_nest.
    assert (forall i,
               covered_dims !! i = Some true
               <-> Exists (fun attr => covers attr i) prefix) as Hcov.
    { intros i. rewrite Hiff, Exists_exists. split.
      - intros [Hrep|(_ & attr & Hattr & Hcovers)]; [|by eauto].
        apply lookup_replicate in Hrep as [? _]. done.
      - intros (attr & Hattr & Hcovers). right. by eauto. }
    assert (filter (fun i => covered_dims !! i <> Some true)
              (seq 0 num_dimensions)
            = filter (fun i => ~ Exists (fun attr => covers attr i) prefix)
                (seq 0 num_dimensions)) as Hfilter.
    { apply list_filter_iff. intros i. by rewrite Hcov. }
    rewrite Hfilter in Hadded.
    exists added. split; [done|]. split; [done|].
    intros i Hi.
    destruct (decide (Exists (fun attr => covers attr i) prefix)) as [Hex|Hex].
    + apply Exists_exists in Hex as (attr & Hattr & Hcovers).
      exists attr. split; [|done]. apply elem_of_app. by left.
    + assert (i ∈ filter
                (fun i => ~ Exists (fun attr => covers attr i) prefix)
                (seq 0 num_dimensions)) as Hin.
      { apply list_elem_of_filter. split; [done|]. apply elem_of_seq. lia. }
      apply list_elem_of_lookup in Hin as [k Hk].
      destruct (Forall2_lookup_r _ _ _ _ _ Hadded Hk) as (attr & Hattr & Hcovers).
      exists attr. split; [|done]. apply elem_of_app. right.
      by eapply list_elem_of_lookup_2.
Qed.

(* ===================================================================== *)
(** ** The properties on the small program *)
(* ===================================================================== *)

Lemma Example_GetLoopNest_size (loops : list StringAttr) :
  size (domain_to_loops (Example.GetLoopNest loops)) = length loops.
Proof.
  unfold Example.GetLoopNest, GetIdentity, size. simpl.
  by rewrite length_fmap, length_seq.
Qed.

Lemma Example_Canonicalize_size (m : MappingAttr) :
  size (Example.Canonicalize m) = size m.
Proof. done. Qed.

Lemma Example_Inverse_partial_injection (m : MappingAttr) :
  partial_injection m = true -> Example.Inverse m = Inverse_dims m.
Proof. done. Qed.

Lemma Example_MakeSurjective_partial_injection (m : MappingAttr) :
  partial_injection m = true ->
  Example.MakeSurjective m = MakeSurjective_dims m.
Proof. done. Qed.

Lemma Example_Canonicalize_stripe_free (m : MappingAttr) :
  stripe_free m = true -> Example.Canonicalize m = m.
Proof. done. Qed.

(** Merging into a storage whose attributes are set: the same space is
    accepted, another space and another buffer name are refused, a layout
    that gives the unknown dimension is accepted and refines the layout, a
    layout of another rank is refused, and nothing is changed by the merges
    that fail. *)
Lemma merge_monotonicity_witness :
  MergeSpace Example.partial_storage (Some "memory")
  = (success, Example.partial_storage)
  /\ MergeSpace Example.partial_storage (Some "register")
     = (failure, Example.partial_storage)
  /\ MergeBufferName Example.partial_storage (Some "c")
     = (failure, Example.partial_storage)
  /\ (exists st' refined,
         MergeLayout Example.partial_storage
           (Some (mkMapping 2 [MappingUnknownExpr; MappingDimExpr 1]))
         = (success, st')
         /\ storage_layout st' = Some refined
         /\ Refines (mkMapping 2 [MappingDimExpr 0; MappingUnknownExpr]) refined
            = true)
  /\ (MergeLayout Example.partial_storage (Some (mkMapping 2 [MappingDimExpr 0]))
      = (failure, Example.partial_storage)
      /\ forall common,
          Refines (mkMapping 2 [MappingDimExpr 0; MappingUnknownExpr]) common
          = true ->
          Refines (mkMapping 2 [MappingDimExpr 0]) common = true -> False).
Proof.
  destruct (merge_monotonicity Example.partial_storage)
    as (Hspace & Hname & Hlayout).
  split; [exact (Hspace "memory" (Some "memory") eq_refl)|].
  split; [exact (Hspace "memory" (Some "register") eq_refl)|].
  split; [exact (Hname "b" (Some "c") eq_refl)|].
  split.
  - destruct (Hlayout (mkMapping 2 [MappingDimExpr 0; MappingUnknownExpr])
                (mkMapping 2 [MappingUnknownExpr; MappingDimExpr 1]) eq_refl)
      as (result & st' & Hmerge & _ & _ & _ & _ & Hresult).
    vm_compute in Hmerge. injection Hmerge as <- <-.
    destruct Hresult as (refined & Hrefined & _ & _ & Hrefines & _).
    exists (mkValueStorage (Some "memory") (Some "b")
              (Some (mkMapping 2 [MappingDimExpr 0; MappingDimExpr 1]))),
      refined.
    split; [reflexivity|]. split; [exact Hrefined|exact Hrefines].
  - destruct (Hlayout (mkMapping 2 [MappingDimExpr 0; MappingUnknownExpr])
                (mkMapping 2 [MappingDimExpr 0]) eq_refl)
      as (result & st' & Hmerge & _ & _ & _ & _ & Hresult).
    vm_compute in Hmerge. injection Hmerge as <- <-.
    destruct Hresult as [_ Hnone]. split; [reflexivity|exact Hnone].
Defined.

(** A buffer allocated in the loops [i], [j] and [x], accessed from the
    loops [i], [j] and [k] with a layout that indexes [j] and [k]: two
    loops are common and the first indexed loop is at position 1, so that
    the loop nest of the buffer is trimmed to [i].  [DeclareBuffer]
    declares the buffer [c] of [inner_producer], in the loops [i] and [j]
    with a layout that indexes [j], and leaves it in the loop [i];
    [UpdateStorage] then registers [inner_produced], that [outer_user]
    reads outside of the loops, and leaves the buffer outside of the
    loops. *)
Lemma trim_buffer_loop_nest_witness :
  (forall loops,
      size (domain_to_loops (Example.GetLoopNest loops)) = length loops)
  /\ (exists buffer',
         TrimBufferLoopNestForAccess Example.GetLoopNest
           (mkIterationSpace ["i"; "j"; "k"] (GetIdentity 3) true)
           (Some (mkMapping 3 [MappingDimExpr 1; MappingDimExpr 2]))
           Example.nested_b
         = Some buffer'
         /\ loop_nest_ buffer' = ["i"])
  /\ (exists declared buffer',
         DeclareBuffer Example.GetLoopNest Example.iteration_spaces
           Example.Canonicalize Example.Inverse
           Example.UnificationConstraints
           Example.ResolveUnificationConstraint Example.inner_producer 0
           (Some Example.inner_layout) ∅
         = Succeeded declared
         /\ declared !! "c" = Some buffer'
         /\ loop_nest_ buffer' = ["i"]
         /\ exists storage' buffers' used,
             UpdateStorage Example.GetLoopNest Example.iteration_spaces
               Example.getDefiningOp Example.getUses Example.inner_produced
               (mkValueStorage (Some "memory") (Some "c") None)
               (ValueStorage_default, declared)
             = Succeeded (storage', buffers')
             /\ buffers' !! "c" = Some used
             /\ values_ used = [Example.inner_produced]
             /\ loop_nest_ used = []).
Proof.
  split; [exact Example_GetLoopNest_size|].
  destruct (trim_buffer_loop_nest Example.GetLoopNest Example.iteration_spaces
              Example.getDefiningOp Example.getUses Example.Canonicalize
              Example.Inverse Example.UnificationConstraints
              Example.ResolveUnificationConstraint Example_GetLoopNest_size
              (mkIterationSpace ["i"; "j"; "k"] (GetIdentity 3) true)
              (Some (mkMapping 3 [MappingDimExpr 1; MappingDimExpr 2]))
              Example.nested_b Example.inner_produced)
    as (Htrim & _ & Hdeclare & _ & Hupdate).
  split.
  - destruct Htrim as (buffer' & Htrim & bound & Hprefix & _ & _ & Hbound).
    exists buffer'. split; [exact Htrim|].
    rewrite Hprefix.
    destruct Hbound as [[Hnone _] | (f & (Hf & Hdep & Hfirst) & ->)].
    + specialize (Hnone 1 ltac:(simpl; lia)). vm_compute in Hnone.
      discriminate.
    + destruct f as [|[|[|f]]].
      * vm_compute in Hdep. discriminate.
      * reflexivity.
      * specialize (Hfirst 1 ltac:(lia)). vm_compute in Hfirst. discriminate.
      * simpl in Hf. lia.
  - let result :=
      eval vm_compute in
        (DeclareBuffer Example.GetLoopNest Example.iteration_spaces
           Example.Canonicalize Example.Inverse
           Example.UnificationConstraints
           Example.ResolveUnificationConstraint Example.inner_producer 0
           (Some Example.inner_layout) ∅) in
    lazymatch result with
    | Succeeded ?m => pose (declared := m)
    end.
    assert (DeclareBuffer Example.GetLoopNest Example.iteration_spaces
              Example.Canonicalize Example.Inverse
              Example.UnificationConstraints
              Example.ResolveUnificationConstraint Example.inner_producer 0
              (Some Example.inner_layout) ∅
            = Succeeded declared) as Hdeclared by (vm_compute; reflexivity).
    destruct (Hdeclare Example.inner_producer 0 Example.inner_layout "c"
                F32Type ∅ declared eq_refl eq_refl Hdeclared)
      as (attr_layout & buffer' & Hlayout & Hbuffer'
          & (bound & Hprefix & _ & _ & Hbound) & _).
    vm_compute in Hlayout. injection Hlayout as <-.
    exists declared, buffer'.
    split; [exact Hdeclared|]. split; [exact Hbuffer'|]. split.
    + rewrite Hprefix.
      destruct Hbound as [[Hnone _] | (f & (Hf & Hdep & Hfirst) & ->)].
      * specialize (Hnone 1 ltac:(simpl; lia)). vm_compute in Hnone.
        discriminate.
      * destruct f as [|[|f]].
        -- vm_compute in Hdep. discriminate.
        -- reflexivity.
        -- simpl in Hf. lia.
    + specialize (Hupdate (mkValueStorage (Some "memory") (Some "c") None)
                    ValueStorage_default declared).
      destruct (UpdateStorage Example.GetLoopNest Example.iteration_spaces
                  Example.getDefiningOp Example.getUses
                  Example.inner_produced
                  (mkValueStorage (Some "memory") (Some "c") None)
                  (ValueStorage_default, declared))
        as [[storage' buffers']|d [storage' buffers']|] eqn:Hu;
        [|vm_compute in Hu; discriminate..].
      simpl in Hupdate.
      destruct Hupdate as (used & used' & Hused & Hused' & Hvalues & Hloops & _).
      vm_compute in Hused. injection Hused as <-.
      exists storage', buffers', used'.
      split; [reflexivity|]. split; [exact Hused'|].
      split; [exact Hvalues|]. rewrite Hloops. reflexivity.
Defined.

(** The minimization of the buffer [b] of the program returns with a loop
    nest that is not longer, and the calls to [SetLoopNest] of the analysis
    return.  On the second program, the buffer [c] is declared in the loop
    [i]; [Init] returns, and leaves the buffer outside of the loops, as
    [outer_user] reads it there. *)
Lemma loop_nest_shrinks_only_witness :
  (forall loops,
      size (domain_to_loops (Example.GetLoopNest loops)) = length loops)
  /\ is_Some (SetLoopNest Example.nested_b
                (Example.GetLoopNest (take 1 (loop_nest_ Example.nested_b))))
  /\ (exists minimized,
         VerifyAndMinimizeBufferLoopNests Example.GetLoopNest
           Example.iteration_spaces Example.getDefiningOp Example.Inverse
           Example.AccessedShapeMinDomainSize {[ "b" := Example.declared_b ]}
         = Succeeded minimized
         /\ loop_nests_shrink {[ "b" := Example.declared_b ]} minimized)
  /\ exists declared analysis,
      DeclareBuffers Example.GetLoopNest Example.iteration_spaces
        Example.Canonicalize Example.Inverse Example.UnificationConstraints
        Example.ResolveUnificationConstraint Example.nested_program ∅
      = Succeeded declared
      /\ Init Example.GetLoopNest Example.iteration_spaces
           Example.TranslateMapping Example.getDefiningOp Example.getUses
           Example.Canonicalize Example.Inverse Example.UnificationConstraints
           Example.ResolveUnificationConstraint
           Example.AccessedShapeMinDomainSize 1 Example.nested_program
           StorageAnalysis_empty
         = Some (Succeeded analysis)
      /\ loop_nest_ <$> declared !! "c" = Some ["i"]
      /\ loop_nest_ <$> buffers_ analysis !! "c" = Some []
      /\ loop_nests_shrink declared (buffers_ analysis).
Proof.
  split; [exact Example_GetLoopNest_size|].
  destruct (loop_nest_shrinks_only Example.GetLoopNest Example.iteration_spaces
              Example.TranslateMapping
              Example.getDefiningOp Example.getUses Example.Canonicalize
              Example.Inverse Example.UnificationConstraints
              Example.ResolveUnificationConstraint
              Example.AccessedShapeMinDomainSize Example_GetLoopNest_size)
    as (_ & _ & Hcall & Hsteps & Hinit).
  split; [exact (Hcall Example.nested_b 1)|].
  split.
  { destruct (VerifyAndMinimizeBufferLoopNests Example.GetLoopNest
                Example.iteration_spaces Example.getDefiningOp Example.Inverse
                Example.AccessedShapeMinDomainSize
                {[ "b" := Example.declared_b ]})
      as [minimized| |] eqn:Hmin; [|vm_compute in Hmin; discriminate..].
    exists minimized. split; [reflexivity|].
    exact (Hsteps _ _ _ (rtc_refl _ _) Hmin). }
  let result :=
    eval vm_compute in
      (DeclareBuffers Example.GetLoopNest Example.iteration_spaces
         Example.Canonicalize Example.Inverse Example.UnificationConstraints
         Example.ResolveUnificationConstraint Example.nested_program ∅) in
  lazymatch result with
  | Succeeded ?m => pose (declared := m)
  end.
  let result :=
    eval vm_compute in
      (Init Example.GetLoopNest Example.iteration_spaces
         Example.TranslateMapping Example.getDefiningOp Example.getUses
         Example.Canonicalize Example.Inverse Example.UnificationConstraints
         Example.ResolveUnificationConstraint
         Example.AccessedShapeMinDomainSize 1 Example.nested_program
         StorageAnalysis_empty) in
  lazymatch result with
  | Some (Succeeded ?a) => pose (analysis := a)
  end.
  assert (DeclareBuffers Example.GetLoopNest Example.iteration_spaces
            Example.Canonicalize Example.Inverse Example.UnificationConstraints
            Example.ResolveUnificationConstraint Example.nested_program
            (buffers_ StorageAnalysis_empty)
          = Succeeded declared) as Hd by (vm_compute; reflexivity).
  assert (Init Example.GetLoopNest Example.iteration_spaces
            Example.TranslateMapping Example.getDefiningOp Example.getUses
            Example.Canonicalize Example.Inverse Example.UnificationConstraints
            Example.ResolveUnificationConstraint
            Example.AccessedShapeMinDomainSize 1 Example.nested_program
            StorageAnalysis_empty
          = Some (Succeeded analysis)) as Hi by (vm_compute; reflexivity).
  exists declared, analysis.
  split; [exact Hd|]. split; [exact Hi|].
  split; [vm_compute; reflexivity|]. split; [vm_compute; reflexivity|].
  exact (Hinit 1 Example.nested_program StorageAnalysis_empty declared
           analysis Hd Hi).
Defined.

(** The buffer [b] holds [f32] values: the declaration of a result of type
    [i32] in it fails with the conflict of element types. *)
Lemma element_type_coherence_witness :
  attr_name Example.row_major = Some "b"
  /\ op_results Example.other_type !! 0 = Some I32Type
  /\ ({[ "b" := Example.declared_b ]} : gmap StringAttr Buffer) !! "b"
     = Some Example.declared_b
  /\ DeclareBuffer Example.GetLoopNest Example.iteration_spaces
       Example.Canonicalize Example.Inverse Example.UnificationConstraints
       Example.ResolveUnificationConstraint Example.other_type 0
       (Some Example.row_major) {[ "b" := Example.declared_b ]}
     = Failed (element_type_conflict Example.other_type "b" Example.declared_b)
         {[ "b" := Example.declared_b ]}.
Proof.
  split; [reflexivity|]. split; [reflexivity|].
  split; [apply lookup_singleton_eq|].
  destruct (element_type_coherence Example.GetLoopNest Example.iteration_spaces
              Example.Canonicalize Example.Inverse
              Example.UnificationConstraints
              Example.ResolveUnificationConstraint Example.other_type 0
              Example.row_major "b" I32Type Example.declared_b
              {[ "b" := Example.declared_b ]} eq_refl eq_refl
              (lookup_singleton_eq _ _)) as [Hdiffer _].
  destruct (Hdiffer ltac:(discriminate)) as [Hfail _]. exact Hfail.
Defined.

(** The buffer [b] has rank 2: the declaration of a result with a layout
    of one dimension in it fails with the conflict of ranks. *)
Lemma rank_stability_witness :
  (forall m, size (Example.Canonicalize m) = size m)
  /\ attr_name Example.one_dimension = Some "b"
  /\ ({[ "b" := Example.declared_b ]} : gmap StringAttr Buffer) !! "b"
     = Some Example.declared_b
  /\ rank Example.declared_b = Some 2
  /\ DeclareBuffer Example.GetLoopNest Example.iteration_spaces
       Example.Canonicalize Example.Inverse Example.UnificationConstraints
       Example.ResolveUnificationConstraint Example.other_rank 0
       (Some Example.one_dimension) {[ "b" := Example.declared_b ]}
     = Failed (rank_conflict Example.other_rank "b" Example.declared_b)
         {[ "b" := Example.declared_b ]}.
Proof.
  split; [exact Example_Canonicalize_size|].
  split; [reflexivity|]. split; [apply lookup_singleton_eq|].
  split; [reflexivity|].
  destruct (rank_stability Example.GetLoopNest Example.iteration_spaces
              Example.Canonicalize Example.Inverse
              Example.UnificationConstraints
              Example.ResolveUnificationConstraint Example_Canonicalize_size
              Example.other_rank 0 Example.one_dimension "b"
              Example.declared_b 2 {[ "b" := Example.declared_b ]} eq_refl
              (lookup_singleton_eq _ _) eq_refl) as [_ Hconflict].
  destruct (Hconflict (mkMapping 2 [MappingDimExpr 0]) eq_refl eq_refl
              ltac:(discriminate)) as [Hfail _].
  exact Hfail.
Defined.

(** The value of [producer], computed in the loops [i] and [j], is read
    in the loops [i] and [k]: one loop is common, and the communication
    volume is the second dimension of the value.  A buffer indexed by the
    loop [i] alone does not store this dimension, and the check fails; a
    buffer indexed by the loop [j] stores it, and the check succeeds. *)
Lemma communication_volume_coverage_witness :
  NumCommonLoops_space Example.loops_ij Example.loops_ik = 1
  /\ CommunicationVolume Example.Inverse Example.MakeSurjective 2
       Example.loops_ij Example.loops_ik
     = mkMapping 2 [MappingDimExpr 1]
  /\ VerifyCommunicationVolume Example.iteration_spaces Example.getDefiningOp
       Example.Canonicalize Example.Inverse Example.MakeSurjective "loc2"
       Example.loops_ik (mkValueAccess Example.produced (GetIdentity 2))
       {[ Example.produced :=
            mkValueStorage (Some "memory") (Some "b")
              (Some (mkMapping 2 [MappingDimExpr 0])) ]}
     = Failed (incomplete_storage Example.getDefiningOp "loc2"
                 (mkValueAccess Example.produced (GetIdentity 2))) ()
  /\ VerifyCommunicationVolume Example.iteration_spaces Example.getDefiningOp
       Example.Canonicalize Example.Inverse Example.MakeSurjective "loc2"
       Example.loops_ik (mkValueAccess Example.produced (GetIdentity 2))
       {[ Example.produced :=
            mkValueStorage (Some "memory") (Some "b")
              (Some (mkMapping 2 [MappingDimExpr 1])) ]}
     = Succeeded ().
Proof.
  split; [reflexivity|]. split; [|split].
  - destruct (communication_volume_coverage Example.iteration_spaces
                Example.getDefiningOp Example.Canonicalize Example.Inverse
                Example.MakeSurjective Example_Inverse_partial_injection
                Example_MakeSurjective_partial_injection
                Example_Canonicalize_stripe_free "loc2" Example.loops_ik
                (mkValueAccess Example.produced (GetIdentity 2)) ∅)
      as (_ & _ & _ & _ & _ & _ & Hvolume & _).
    exact (Hvolume eq_refl).
  - destruct (communication_volume_coverage Example.iteration_spaces
                Example.getDefiningOp Example.Canonicalize Example.Inverse
                Example.MakeSurjective Example_Inverse_partial_injection
                Example_MakeSurjective_partial_injection
                Example_Canonicalize_stripe_free "loc2" Example.loops_ik
                (mkValueAccess Example.produced (GetIdentity 2))
                {[ Example.produced :=
                     mkValueStorage (Some "memory") (Some "b")
                       (Some (mkMapping 2 [MappingDimExpr 0])) ]})
      as (_ & _ & _ & _ & _ & _ & _ & Hcheck).
    destruct (Hcheck _ (mkMapping 2 [MappingDimExpr 0]) eq_refl eq_refl
                (lookup_singleton_eq _ _) eq_refl eq_refl eq_refl)
      as [Hfail _].
    apply Hfail. exists 1. split; [apply list_elem_of_here|].
    intros (i & j & Hi & Hj).
    destruct i as [|i]; [|by destruct i].
    injection Hi as <-. discriminate Hj.
  - destruct (communication_volume_coverage Example.iteration_spaces
                Example.getDefiningOp Example.Canonicalize Example.Inverse
                Example.MakeSurjective Example_Inverse_partial_injection
                Example_MakeSurjective_partial_injection
                Example_Canonicalize_stripe_free "loc2" Example.loops_ik
                (mkValueAccess Example.produced (GetIdentity 2))
                {[ Example.produced :=
                     mkValueStorage (Some "memory") (Some "b")
                       (Some (mkMapping 2 [MappingDimExpr 1])) ]})
      as (_ & _ & _ & _ & _ & _ & _ & Hcheck).
    destruct (Hcheck _ (mkMapping 2 [MappingDimExpr 1]) eq_refl eq_refl
                (lookup_singleton_eq _ _) eq_refl eq_refl eq_refl)
      as [_ Hok].
    apply Hok. intros d Hd. apply list_elem_of_singleton in Hd as ->.
    exists 0, 1. split; reflexivity.
Defined.

(** An update in place that reads the buffer [b] with the layout of
    [producer] and writes it with the transposed layout fails. *)
Lemma in_place_update_layout_witness :
  Dimensions (GetIdentity 2)
  ≡ₚ Dimensions (mkMapping 2 [MappingDimExpr 1; MappingDimExpr 0])
  /\ verify_in_place_operand Example.TranslateMapping Example.getDefiningOp
       Example.Canonicalize Example.transposed_update
       {[ Example.produced := Example.row_major_storage ]}
       Example.column_major_storage
       (mkValueOperand Example.produced (GetIdentity 2) 0)
     = Failed (in_place_conflict Example.transposed_update
                 Example.column_major_storage Example.row_major_storage) ().
Proof.
  split; [apply Permutation_swap|].
  destruct (in_place_update_layout Example.TranslateMapping
              Example.getDefiningOp Example.Canonicalize []
              {[ Example.produced := Example.row_major_storage ]})
    as [Hoperand _].
  destruct (Hoperand Example.transposed_update Example.column_major_storage
              (mkValueOperand Example.produced (GetIdentity 2) 0)
              Example.row_major_storage Example.row_major_storage
              (lookup_singleton_eq _ _) eq_refl eq_refl)
    as (_ & _ & Hpermutation).
  exact (Hpermutation (GetIdentity 2)
           (mkMapping 2 [MappingDimExpr 1; MappingDimExpr 0]) eq_refl eq_refl
           (Permutation_swap _ _ _) ltac:(discriminate)).
Defined.

(** C9, as the claim states it, fails on the program: the buffer [b] is
    exported by [export], [producer] writes to it and precedes [export],
    and [Init] succeeds. *)
Lemma write_before_import_accepted :
  exists analysis buffer,
    Init Example.GetLoopNest Example.iteration_spaces
      Example.TranslateMapping Example.getDefiningOp Example.getUses
      Example.Canonicalize Example.Inverse Example.UnificationConstraints
      Example.ResolveUnificationConstraint
      Example.AccessedShapeMinDomainSize 1 Example.program
      StorageAnalysis_empty
    = Some (Succeeded analysis)
    /\ buffers_ analysis !! "b" = Some buffer
    /\ import_op_ buffer = Some Example.export
    /\ writes_ buffer = [(Example.producer, 0); (Example.update, 0)]
    /\ isBeforeInBlock Example.producer Example.export = true
    /\ check_external_writes Example.getDefiningOp "b" buffer = Succeeded ().
Proof.
  let result :=
    eval vm_compute in
      (Init Example.GetLoopNest Example.iteration_spaces
         Example.TranslateMapping Example.getDefiningOp Example.getUses
         Example.Canonicalize Example.Inverse Example.UnificationConstraints
         Example.ResolveUnificationConstraint
         Example.AccessedShapeMinDomainSize 1 Example.program
         StorageAnalysis_empty) in
  lazymatch result with
  | Some (Succeeded ?a) => pose (analysis := a)
  end.
  let result := eval vm_compute in (buffers_ analysis !! "b") in
  lazymatch result with
  | Some ?b => pose (buffer := b)
  end.
  exists analysis, buffer.
  split; [vm_compute; reflexivity|]. split; [vm_compute; reflexivity|].
  split; [vm_compute; reflexivity|]. split; [vm_compute; reflexivity|].
  split; vm_compute; reflexivity.
Qed.

(** On the program, [Init] succeeds: the writes of [producer] and [update]
    to the exported buffer [b] are after the definition of the memref.  On
    the fourth program, [early_producer] writes the exported buffer [e]
    before [late_memref_def] defines the memref: the declarations, the
    computation of the storages and the minimization succeed, and [Init]
    fails at [early_producer], with the note at [late_memref_def]. *)
Lemma external_writes_after_definition_witness :
  (exists analysis buffer,
      Init Example.GetLoopNest Example.iteration_spaces
        Example.TranslateMapping Example.getDefiningOp Example.getUses
        Example.Canonicalize Example.Inverse Example.UnificationConstraints
        Example.ResolveUnificationConstraint
        Example.AccessedShapeMinDomainSize 1 Example.program
        StorageAnalysis_empty
      = Some (Succeeded analysis)
      /\ buffers_ analysis !! "b" = Some buffer
      /\ import_op_ buffer = Some Example.export
      /\ as_FromToMemRefOp Example.export = Some Example.export_info
      /\ Forall
           (fun write =>
              isBeforeInBlock write.1
                (Example.getDefiningOp (info_MemRef Example.export_info))
              = false)
           (writes_ buffer)
      /\ check_external_writes Example.getDefiningOp "b" buffer = Succeeded ())
  /\ (exists analysis d,
         Init Example.GetLoopNest Example.early_iteration_spaces
           Example.TranslateMapping Example.early_getDefiningOp
           Example.early_getUses Example.Canonicalize Example.Inverse
           Example.UnificationConstraints
           Example.ResolveUnificationConstraint
           Example.AccessedShapeMinDomainSize 1 Example.early_write_program
           StorageAnalysis_empty
         = Some (Failed d analysis)
         /\ isBeforeInBlock Example.early_producer Example.late_memref_def
            = true
         /\ diag_loc d = op_loc Example.early_producer
         /\ diag_message d
            = [Text "buffer "; Name (Some "e");
               Text " used before it is defined"]
         /\ diag_note d
            = Some (op_loc Example.late_memref_def, "buffer defined here")).
Proof.
  split.
  - let result :=
      eval vm_compute in
        (Init Example.GetLoopNest Example.iteration_spaces
           Example.TranslateMapping Example.getDefiningOp Example.getUses
           Example.Canonicalize Example.Inverse Example.UnificationConstraints
           Example.ResolveUnificationConstraint
           Example.AccessedShapeMinDomainSize 1 Example.program
           StorageAnalysis_empty) in
    lazymatch result with
    | Some (Succeeded ?a) => pose (analysis := a)
    end.
    let result := eval vm_compute in (buffers_ analysis !! "b") in
    lazymatch result with
    | Some ?b => pose (buffer := b)
    end.
    assert (Init Example.GetLoopNest Example.iteration_spaces
              Example.TranslateMapping Example.getDefiningOp Example.getUses
              Example.Canonicalize Example.Inverse
              Example.UnificationConstraints
              Example.ResolveUnificationConstraint
              Example.AccessedShapeMinDomainSize 1 Example.program
              StorageAnalysis_empty
            = Some (Succeeded analysis)) as Hi by (vm_compute; reflexivity).
    assert (buffers_ analysis !! "b" = Some buffer) as Hb
        by (vm_compute; reflexivity).
    assert (import_op_ buffer = Some Example.export) as Himport
        by (vm_compute; reflexivity).
    destruct (external_writes_after_definition Example.GetLoopNest
                Example.iteration_spaces Example.TranslateMapping
                Example.getDefiningOp Example.getUses Example.Canonicalize
                Example.Inverse Example.UnificationConstraints
                Example.ResolveUnificationConstraint
                Example.AccessedShapeMinDomainSize "b" buffer Example.export
                Example.export_info Himport eq_refl)
      as (Hiff & _ & _ & _ & Hinit & _).
    pose proof (Hinit 1 Example.program StorageAnalysis_empty analysis Hi Hb)
      as Hwrites.
    exists analysis, buffer.
    split; [exact Hi|]. split; [exact Hb|]. split; [exact Himport|].
    split; [reflexivity|]. split; [exact Hwrites|].
    exact (proj2 Hiff Hwrites).
  - let result :=
      eval vm_compute in
        (DeclareBuffers Example.GetLoopNest Example.early_iteration_spaces
           Example.Canonicalize Example.Inverse
           Example.UnificationConstraints
           Example.ResolveUnificationConstraint Example.early_write_program
           ∅) in
    lazymatch result with
    | Succeeded ?m => pose (declared := m)
    end.
    let result :=
      eval vm_compute in
        (ComputeValueStorages Example.GetLoopNest
           Example.early_iteration_spaces Example.TranslateMapping
           Example.early_getDefiningOp Example.early_getUses
           Example.Canonicalize Example.Inverse 1 Example.early_write_program
           (with_buffers StorageAnalysis_empty declared)) in
    lazymatch result with
    | Some (Succeeded ?a) => pose (computed := a)
    end.
    let result :=
      eval vm_compute in
        (VerifyAndMinimizeBufferLoopNests Example.GetLoopNest
           Example.early_iteration_spaces Example.early_getDefiningOp
           Example.Inverse Example.AccessedShapeMinDomainSize
           (buffers_ computed)) in
    lazymatch result with
    | Succeeded ?m => pose (minimized := m)
    end.
    let result := eval vm_compute in (minimized !! "e") in
    lazymatch result with
    | Some ?b => pose (buffer := b)
    end.
    assert (import_op_ buffer = Some Example.late_export) as Himport
        by (vm_compute; reflexivity).
    destruct (external_writes_after_definition Example.GetLoopNest
                Example.early_iteration_spaces Example.TranslateMapping
                Example.early_getDefiningOp Example.early_getUses
                Example.Canonicalize Example.Inverse
                Example.UnificationConstraints
                Example.ResolveUnificationConstraint
                Example.AccessedShapeMinDomainSize "e" buffer
                Example.late_export Example.late_export_info Himport eq_refl)
      as (_ & _ & _ & _ & _ & Hfails).
    destruct (Hfails 1 Example.early_write_program declared computed minimized
                (Example.early_producer, 0))
      as (d & name' & buffer' & import_op' & info' & before & write & after
          & Hinit & _);
      [vm_compute; reflexivity..| |vm_compute; reflexivity|].
    { vm_compute. apply list_elem_of_here. }
    exists (with_buffers computed minimized), d.
    split; [exact Hinit|]. split; [vm_compute; reflexivity|].
    vm_compute in Hinit. injection Hinit as <-.
    split; [reflexivity|]. split; reflexivity.
Defined.

Lemma accesses_follow_values_witness :
  exists analysis buffer,
    Init Example.GetLoopNest Example.iteration_spaces
      Example.TranslateMapping Example.getDefiningOp Example.getUses
      Example.Canonicalize Example.Inverse Example.UnificationConstraints
      Example.ResolveUnificationConstraint
      Example.AccessedShapeMinDomainSize 1 Example.program
      StorageAnalysis_empty
    = Some (Succeeded analysis)
    /\ buffers_ analysis !! "b" = Some buffer
    /\ values_ buffer <> []
    /\ accesses_consistent Example.getDefiningOp Example.getUses buffer.
Proof.
  let result := eval vm_compute in
      (Init Example.GetLoopNest Example.iteration_spaces
      Example.TranslateMapping Example.getDefiningOp Example.getUses
      Example.Canonicalize Example.Inverse Example.UnificationConstraints
      Example.ResolveUnificationConstraint
      Example.AccessedShapeMinDomainSize 1 Example.program
      StorageAnalysis_empty) in
  lazymatch result with
  | Some (Succeeded ?a) => pose (analysis := a)
  end.
  let result := eval vm_compute in (buffers_ analysis !! "b") in
  lazymatch result with
  | Some ?b => pose (buffer := b)
  end.
  assert (Init Example.GetLoopNest Example.iteration_spaces
      Example.TranslateMapping Example.getDefiningOp Example.getUses
      Example.Canonicalize Example.Inverse Example.UnificationConstraints
      Example.ResolveUnificationConstraint
      Example.AccessedShapeMinDomainSize 1 Example.program
      StorageAnalysis_empty
          = Some (Succeeded analysis)) as Hinit by (vm_compute; reflexivity).
  assert (buffers_ analysis !! "b" = Some buffer) as Hbuffer
    by (vm_compute; reflexivity).
  exists analysis, buffer. split; [exact Hinit|]. split; [exact Hbuffer|].
  split; [by vm_compute|].
  exact (proj2 (accesses_follow_values Example.GetLoopNest Example.iteration_spaces
               Example.TranslateMapping Example.getDefiningOp Example.getUses
               Example.Canonicalize Example.Inverse
               Example.UnificationConstraints
               Example.ResolveUnificationConstraint
               Example.AccessedShapeMinDomainSize
                  Example_Canonicalize_size)
           1 Example.program analysis Hinit "b" buffer Hbuffer).
Defined.

Lemma layout_maps_buffer_domain_witness :
  exists analysis buffer,
    Init Example.GetLoopNest Example.iteration_spaces
      Example.TranslateMapping Example.getDefiningOp Example.getUses
      Example.Canonicalize Example.Inverse Example.UnificationConstraints
      Example.ResolveUnificationConstraint
      Example.AccessedShapeMinDomainSize 1 Example.program
      StorageAnalysis_empty
    = Some (Succeeded analysis)
    /\ buffers_ analysis !! "b" = Some buffer
    /\ is_Some (layout_ buffer)
    /\ layout_scoped buffer.
Proof.
  let result := eval vm_compute in
      (Init Example.GetLoopNest Example.iteration_spaces
      Example.TranslateMapping Example.getDefiningOp Example.getUses
      Example.Canonicalize Example.Inverse Example.UnificationConstraints
      Example.ResolveUnificationConstraint
      Example.AccessedShapeMinDomainSize 1 Example.program
      StorageAnalysis_empty) in
  lazymatch result with
  | Some (Succeeded ?a) => pose (analysis := a)
  end.
  let result := eval vm_compute in (buffers_ analysis !! "b") in
  lazymatch result with
  | Some ?b => pose (buffer := b)
  end.
  assert (Init Example.GetLoopNest Example.iteration_spaces
      Example.TranslateMapping Example.getDefiningOp Example.getUses
      Example.Canonicalize Example.Inverse Example.UnificationConstraints
      Example.ResolveUnificationConstraint
      Example.AccessedShapeMinDomainSize 1 Example.program
      StorageAnalysis_empty
          = Some (Succeeded analysis)) as Hinit by (vm_compute; reflexivity).
  assert (buffers_ analysis !! "b" = Some buffer) as Hbuffer
    by (vm_compute; reflexivity).
  exists analysis, buffer. split; [exact Hinit|]. split; [exact Hbuffer|].
  split; [by vm_compute; eauto|].
  exact (proj2 (layout_maps_buffer_domain Example.GetLoopNest Example.iteration_spaces
               Example.TranslateMapping Example.getDefiningOp Example.getUses
               Example.Canonicalize Example.Inverse
               Example.UnificationConstraints
               Example.ResolveUnificationConstraint
               Example.AccessedShapeMinDomainSize
                  Example_Canonicalize_size)
           1 Example.program analysis Hinit "b" buffer Hbuffer).
Defined.

Lemma buffer_values_are_stored_values_witness :
  exists analysis name analysis' buffer,
    Init Example.GetLoopNest Example.iteration_spaces
      Example.TranslateMapping Example.getDefiningOp Example.getUses
      Example.Canonicalize Example.Inverse Example.UnificationConstraints
      Example.ResolveUnificationConstraint
      Example.AccessedShapeMinDomainSize 1 Example.program
      StorageAnalysis_empty
    = Some (Succeeded analysis)
    /\ GetFreshBufferName analysis = Some (name, analysis')
    /\ buffers_ analysis' !! "b" = Some buffer
    /\ (forall value,
          value ∈ values_ buffer
          <-> exists storage,
                value_storages_ analysis' !! value = Some storage
                /\ buffer_name storage = Some "b")
    /\ NoDup (values_ buffer).
Proof.
  let result := eval vm_compute in
      (Init Example.GetLoopNest Example.iteration_spaces
      Example.TranslateMapping Example.getDefiningOp Example.getUses
      Example.Canonicalize Example.Inverse Example.UnificationConstraints
      Example.ResolveUnificationConstraint
      Example.AccessedShapeMinDomainSize 1 Example.program
      StorageAnalysis_empty) in
  lazymatch result with
  | Some (Succeeded ?a) => pose (analysis := a)
  end.
  let result := eval vm_compute in (buffers_ analysis !! "b") in
  lazymatch result with
  | Some ?b => pose (buffer := b)
  end.
  assert (Init Example.GetLoopNest Example.iteration_spaces
      Example.TranslateMapping Example.getDefiningOp Example.getUses
      Example.Canonicalize Example.Inverse Example.UnificationConstraints
      Example.ResolveUnificationConstraint
      Example.AccessedShapeMinDomainSize 1 Example.program
      StorageAnalysis_empty
          = Some (Succeeded analysis)) as Hinit by (vm_compute; reflexivity).
  assert (buffers_ analysis !! "b" = Some buffer) as Hbuffer
    by (vm_compute; reflexivity).
  destruct (GetFreshBufferName analysis) as [[name analysis']|] eqn:Hfresh;
    [|by vm_compute in Hfresh].
  assert (buffers_ analysis' !! "b" = Some buffer) as Hbuffer'.
  { vm_compute in Hfresh. injection Hfresh as <- <-. exact Hbuffer. }
  exists analysis, name, analysis', buffer.
  split; [exact Hinit|]. split; [exact Hfresh|]. split; [exact Hbuffer'|].
  assert (created Example.GetLoopNest Example.iteration_spaces
               Example.TranslateMapping Example.getDefiningOp Example.getUses
               Example.Canonicalize Example.Inverse
               Example.UnificationConstraints
               Example.ResolveUnificationConstraint
               Example.AccessedShapeMinDomainSize analysis') as Hcreated.
  { exists 1, Example.program, analysis. split; [exact Hinit|].
    apply rtc_once. by eapply call_GetFreshBufferName. }
  destruct (buffer_values_are_stored_values Example.GetLoopNest Example.iteration_spaces
               Example.TranslateMapping Example.getDefiningOp Example.getUses
               Example.Canonicalize Example.Inverse
               Example.UnificationConstraints
               Example.ResolveUnificationConstraint
               Example.AccessedShapeMinDomainSize
              Example_Canonicalize_size analysis' Hcreated)
    as (Hvalues & Hnodup & _).
  split.
  - intros value. by apply Hvalues.
  - by eapply Hnodup.
Defined.

Lemma storage_information_is_kept_witness :
  exists analysis analysis' storage',
    Init Example.GetLoopNest Example.iteration_spaces
      Example.TranslateMapping Example.getDefiningOp Example.getUses
      Example.Canonicalize Example.Inverse Example.UnificationConstraints
      Example.ResolveUnificationConstraint
      Example.AccessedShapeMinDomainSize 1 Example.nested_program
      StorageAnalysis_empty
    = Some (Succeeded analysis)
    /\ CreateBuffer Example.GetLoopNest Example.iteration_spaces
      Example.TranslateMapping Example.getDefiningOp Example.getUses
      Example.Canonicalize Example.Inverse 1 (mkValue 18 0) [] analysis
       = Some (Succeeded analysis')
    /\ value_storages_ analysis' !! Example.inner_produced = Some storage'
    /\ space storage' = Some "memory"
    /\ buffer_name storage' = Some "c".
Proof.
  let result := eval vm_compute in
      (Init Example.GetLoopNest Example.iteration_spaces
      Example.TranslateMapping Example.getDefiningOp Example.getUses
      Example.Canonicalize Example.Inverse Example.UnificationConstraints
      Example.ResolveUnificationConstraint
      Example.AccessedShapeMinDomainSize 1 Example.nested_program
      StorageAnalysis_empty) in
  lazymatch result with
  | Some (Succeeded ?a) => pose (analysis := a)
  end.
  assert (Init Example.GetLoopNest Example.iteration_spaces
      Example.TranslateMapping Example.getDefiningOp Example.getUses
      Example.Canonicalize Example.Inverse Example.UnificationConstraints
      Example.ResolveUnificationConstraint
      Example.AccessedShapeMinDomainSize 1 Example.nested_program
      StorageAnalysis_empty
          = Some (Succeeded analysis)) as Hinit by (vm_compute; reflexivity).
  let result := eval vm_compute in
      (CreateBuffer Example.GetLoopNest Example.iteration_spaces
      Example.TranslateMapping Example.getDefiningOp Example.getUses
      Example.Canonicalize Example.Inverse 1 (mkValue 18 0) [] analysis) in
  lazymatch result with
  | Some (Succeeded ?a) => pose (analysis' := a)
  end.
  assert (CreateBuffer Example.GetLoopNest Example.iteration_spaces
      Example.TranslateMapping Example.getDefiningOp Example.getUses
      Example.Canonicalize Example.Inverse 1 (mkValue 18 0) [] analysis
          = Some (Succeeded analysis')) as Hcall by (vm_compute; reflexivity).
  let result := eval vm_compute in
      (value_storages_ analysis !! Example.inner_produced) in
  lazymatch result with
  | Some ?s => pose (storage := s)
  end.
  assert (value_storages_ analysis !! Example.inner_produced = Some storage)
    as Hstorage by (vm_compute; reflexivity).
  destruct (storage_information_is_kept Example.GetLoopNest Example.iteration_spaces
               Example.TranslateMapping Example.getDefiningOp Example.getUses
               Example.Canonicalize Example.Inverse
               Example.UnificationConstraints
               Example.ResolveUnificationConstraint
               Example.AccessedShapeMinDomainSize
              analysis analysis' Example.inner_produced storage
              (rtc_once _ _ (call_CreateBuffer _ _ _ _ _ _ _ _ _ _ _ _ _ _ _
                               Hcall))
              Hstorage)
    as (storage' & Hstorage' & Hspace & Hname & _).
  exists analysis, analysis', storage'.
  split; [exact Hinit|]. split; [exact Hcall|]. split; [exact Hstorage'|].
  split; [by apply Hspace|by apply Hname].
Defined.

Lemma MergeStorage_merges_witness :
  exists analysis analysis' storage' buffer,
    Init Example.GetLoopNest Example.iteration_spaces
      Example.TranslateMapping Example.getDefiningOp Example.getUses
      Example.Canonicalize Example.Inverse Example.UnificationConstraints
      Example.ResolveUnificationConstraint
      Example.AccessedShapeMinDomainSize 1 Example.nested_program
      StorageAnalysis_empty
    = Some (Succeeded analysis)
    /\ MergeStorage Example.GetLoopNest Example.iteration_spaces
      Example.TranslateMapping Example.getDefiningOp Example.getUses
      Example.Canonicalize Example.Inverse 1 (mkValue 18 0)
      (mkValueStorage (Some "memory") (Some "c")
         (Some (mkMapping 0 [MappingNoneExpr]))) analysis
       = Some (Succeeded analysis')
    /\ value_storages_ analysis' !! mkValue 18 0 = Some storage'
    /\ space storage' = Some "memory"
    /\ buffer_name storage' = Some "c"
    /\ is_Some (storage_layout storage')
    /\ buffers_ analysis' !! "c" = Some buffer
    /\ rank buffer = Some 1.
Proof.
  let result := eval vm_compute in
      (Init Example.GetLoopNest Example.iteration_spaces
      Example.TranslateMapping Example.getDefiningOp Example.getUses
      Example.Canonicalize Example.Inverse Example.UnificationConstraints
      Example.ResolveUnificationConstraint
      Example.AccessedShapeMinDomainSize 1 Example.nested_program
      StorageAnalysis_empty) in
  lazymatch result with
  | Some (Succeeded ?a) => pose (analysis := a)
  end.
  assert (Init Example.GetLoopNest Example.iteration_spaces
      Example.TranslateMapping Example.getDefiningOp Example.getUses
      Example.Canonicalize Example.Inverse Example.UnificationConstraints
      Example.ResolveUnificationConstraint
      Example.AccessedShapeMinDomainSize 1 Example.nested_program
      StorageAnalysis_empty
          = Some (Succeeded analysis)) as Hinit by (vm_compute; reflexivity).
  let result := eval vm_compute in
      (MergeStorage Example.GetLoopNest Example.iteration_spaces
      Example.TranslateMapping Example.getDefiningOp Example.getUses
      Example.Canonicalize Example.Inverse 1 (mkValue 18 0)
      (mkValueStorage (Some "memory") (Some "c")
         (Some (mkMapping 0 [MappingNoneExpr]))) analysis) in
  lazymatch result with
  | Some (Succeeded ?a) => pose (analysis' := a)
  end.
  assert (MergeStorage Example.GetLoopNest Example.iteration_spaces
      Example.TranslateMapping Example.getDefiningOp Example.getUses
      Example.Canonicalize Example.Inverse 1 (mkValue 18 0)
      (mkValueStorage (Some "memory") (Some "c")
         (Some (mkMapping 0 [MappingNoneExpr]))) analysis
          = Some (Succeeded analysis')) as Hcall by (vm_compute; reflexivity).
  destruct (MergeStorage_merges Example.GetLoopNest Example.iteration_spaces
      Example.TranslateMapping Example.getDefiningOp Example.getUses
      Example.Canonicalize Example.Inverse
              _ _ _ _ _ Hcall)
    as [(storage' & Hstorage' & Hspace & Hname & Hlayout) Hrank].
  destruct (Hrank "c" (mkMapping 0 [MappingNoneExpr]) eq_refl eq_refl)
    as (buffer & Hbuffer & Hrank').
  exists analysis, analysis', storage', buffer.
  split; [exact Hinit|]. split; [exact Hcall|]. split; [exact Hstorage'|].
  split; [by apply Hspace|]. split; [by apply Hname|].
  split; [apply Hlayout; by eexists|]. split; [exact Hbuffer|exact Hrank'].
Defined.

Lemma CreateBuffer_creates_witness :
  exists analysis analysis' name buffer storage',
    Init Example.GetLoopNest Example.iteration_spaces
      Example.TranslateMapping Example.getDefiningOp Example.getUses
      Example.Canonicalize Example.Inverse Example.UnificationConstraints
      Example.ResolveUnificationConstraint
      Example.AccessedShapeMinDomainSize 1 Example.nested_program
      StorageAnalysis_empty
    = Some (Succeeded analysis)
    /\ CreateBuffer Example.GetLoopNest Example.iteration_spaces
      Example.TranslateMapping Example.getDefiningOp Example.getUses
      Example.Canonicalize Example.Inverse 1 (mkValue 18 0) [] analysis
       = Some (Succeeded analysis')
    /\ buffers_ analysis !! name = None
    /\ buffers_ analysis' !! name = Some buffer
    /\ element_type_ buffer = F32Type
    /\ mkValue 18 0 ∈ values_ buffer
    /\ value_storages_ analysis' !! mkValue 18 0 = Some storage'
    /\ buffer_name storage' = Some name
    /\ space storage' = Some "memory".
Proof.
  let result := eval vm_compute in
      (Init Example.GetLoopNest Example.iteration_spaces
      Example.TranslateMapping Example.getDefiningOp Example.getUses
      Example.Canonicalize Example.Inverse Example.UnificationConstraints
      Example.ResolveUnificationConstraint
      Example.AccessedShapeMinDomainSize 1 Example.nested_program
      StorageAnalysis_empty) in
  lazymatch result with
  | Some (Succeeded ?a) => pose (analysis := a)
  end.
  assert (Init Example.GetLoopNest Example.iteration_spaces
      Example.TranslateMapping Example.getDefiningOp Example.getUses
      Example.Canonicalize Example.Inverse Example.UnificationConstraints
      Example.ResolveUnificationConstraint
      Example.AccessedShapeMinDomainSize 1 Example.nested_program
      StorageAnalysis_empty
          = Some (Succeeded analysis)) as Hinit by (vm_compute; reflexivity).
  let result := eval vm_compute in
      (CreateBuffer Example.GetLoopNest Example.iteration_spaces
      Example.TranslateMapping Example.getDefiningOp Example.getUses
      Example.Canonicalize Example.Inverse 1 (mkValue 18 0) [] analysis) in
  lazymatch result with
  | Some (Succeeded ?a) => pose (analysis' := a)
  end.
  assert (CreateBuffer Example.GetLoopNest Example.iteration_spaces
      Example.TranslateMapping Example.getDefiningOp Example.getUses
      Example.Canonicalize Example.Inverse 1 (mkValue 18 0) [] analysis
          = Some (Succeeded analysis')) as Hcall by (vm_compute; reflexivity).
  assert (created Example.GetLoopNest Example.iteration_spaces
               Example.TranslateMapping Example.getDefiningOp Example.getUses
               Example.Canonicalize Example.Inverse
               Example.UnificationConstraints
               Example.ResolveUnificationConstraint
               Example.AccessedShapeMinDomainSize analysis) as Hcreated.
  { exists 1, Example.nested_program, analysis. by split. }
  destruct (CreateBuffer_creates Example.GetLoopNest Example.iteration_spaces
               Example.TranslateMapping Example.getDefiningOp Example.getUses
               Example.Canonicalize Example.Inverse
               Example.UnificationConstraints
               Example.ResolveUnificationConstraint
               Example.AccessedShapeMinDomainSize
              Example_Canonicalize_size _ _ _ _ _ Hcreated Hcall)
    as (name & buffer & storage & storage' & Hfresh & _ & _ & Hbuffer & _
        & Htype & _ & _ & Hin & Hstorage' & Hname & Hspace).
  exists analysis, analysis', name, buffer, storage'.
  split; [exact Hinit|]. split; [exact Hcall|]. split; [exact Hfresh|].
  split; [exact Hbuffer|]. split; [by injection Htype|].
  split; [exact Hin|]. split; [exact Hstorage'|]. by split.
Defined.

Lemma rank_changes_by_extension_only_witness :
  exists analysis analysis' buffer',
    Init Example.GetLoopNest Example.iteration_spaces
      Example.TranslateMapping Example.getDefiningOp Example.getUses
      Example.Canonicalize Example.Inverse Example.UnificationConstraints
      Example.ResolveUnificationConstraint
      Example.AccessedShapeMinDomainSize 1 Example.nested_program
      StorageAnalysis_empty
    = Some (Succeeded analysis)
    /\ AddDimensionsToBuffer Example.GetLoopNest Example.Canonicalize
      Example.Inverse Example.UnificationConstraints
      Example.ResolveUnificationConstraint "c" Example.inner_producer
      Example.loops_ij (GetIdentity 2) analysis
       = Succeeded analysis'
    /\ buffers_ analysis' !! "c" = Some buffer'
    /\ (rank buffer' = Some 1
        \/ exists op iter_space new_layout,
            AddDimensionsToBuffer Example.GetLoopNest Example.Canonicalize
              Example.Inverse Example.UnificationConstraints
              Example.ResolveUnificationConstraint "c" op iter_space
              new_layout analysis
            = Succeeded analysis'
            /\ 1 <= size new_layout
            /\ rank buffer' = Some (size new_layout)).
Proof.
  let result := eval vm_compute in
      (Init Example.GetLoopNest Example.iteration_spaces
      Example.TranslateMapping Example.getDefiningOp Example.getUses
      Example.Canonicalize Example.Inverse Example.UnificationConstraints
      Example.ResolveUnificationConstraint
      Example.AccessedShapeMinDomainSize 1 Example.nested_program
      StorageAnalysis_empty) in
  lazymatch result with
  | Some (Succeeded ?a) => pose (analysis := a)
  end.
  assert (Init Example.GetLoopNest Example.iteration_spaces
      Example.TranslateMapping Example.getDefiningOp Example.getUses
      Example.Canonicalize Example.Inverse Example.UnificationConstraints
      Example.ResolveUnificationConstraint
      Example.AccessedShapeMinDomainSize 1 Example.nested_program
      StorageAnalysis_empty
          = Some (Succeeded analysis)) as Hinit by (vm_compute; reflexivity).
  let result := eval vm_compute in
      (AddDimensionsToBuffer Example.GetLoopNest Example.Canonicalize
      Example.Inverse Example.UnificationConstraints
      Example.ResolveUnificationConstraint "c" Example.inner_producer
      Example.loops_ij (GetIdentity 2) analysis) in
  lazymatch result with
  | Succeeded ?a => pose (analysis' := a)
  end.
  assert (AddDimensionsToBuffer Example.GetLoopNest Example.Canonicalize
      Example.Inverse Example.UnificationConstraints
      Example.ResolveUnificationConstraint "c" Example.inner_producer
      Example.loops_ij (GetIdentity 2) analysis
          = Succeeded analysis') as Hcall by (vm_compute; reflexivity).
  let result := eval vm_compute in (buffers_ analysis !! "c") in
  lazymatch result with
  | Some ?b => pose (buffer := b)
  end.
  assert (buffers_ analysis !! "c" = Some buffer) as Hbuffer
    by (vm_compute; reflexivity).
  destruct (rank_changes_by_extension_only Example.GetLoopNest Example.iteration_spaces
               Example.TranslateMapping Example.getDefiningOp Example.getUses
               Example.Canonicalize Example.Inverse
               Example.UnificationConstraints
               Example.ResolveUnificationConstraint
               Example.AccessedShapeMinDomainSize
              Example_Canonicalize_size analysis analysis' "c" buffer 1
              (call_AddDimensionsToBuffer _ _ _ _ _ _ _ _ _ _ _ _ _ _ _ _
                 Hcall)
              Hbuffer eq_refl)
    as (buffer' & Hbuffer' & Hrank).
  exists analysis, analysis', buffer'.
  split; [exact Hinit|]. split; [exact Hcall|]. split; [exact Hbuffer'|].
  exact Hrank.
Defined.

Lemma AddDimensionsToBuffer_extends_witness :
  exists analysis analysis' storage layout,
    Init Example.GetLoopNest Example.iteration_spaces
      Example.TranslateMapping Example.getDefiningOp Example.getUses
      Example.Canonicalize Example.Inverse Example.UnificationConstraints
      Example.ResolveUnificationConstraint
      Example.AccessedShapeMinDomainSize 1 Example.nested_program
      StorageAnalysis_empty
    = Some (Succeeded analysis)
    /\ AddDimensionsToBuffer Example.GetLoopNest Example.Canonicalize
      Example.Inverse Example.UnificationConstraints
      Example.ResolveUnificationConstraint "c" Example.inner_producer
      Example.loops_ij (GetIdentity 2) analysis
       = Succeeded analysis'
    /\ value_storages_ analysis !! Example.inner_produced = Some storage
    /\ storage_layout storage = Some layout
    /\ value_storages_ analysis' !! Example.inner_produced
       = Some (mkValueStorage (space storage) (buffer_name storage)
                 (Some (AddPrefix layout [MappingUnknownExpr])))
    /\ value_storages_ analysis' !! mkValue 18 0
       = value_storages_ analysis !! mkValue 18 0.
Proof.
  let result := eval vm_compute in
      (Init Example.GetLoopNest Example.iteration_spaces
      Example.TranslateMapping Example.getDefiningOp Example.getUses
      Example.Canonicalize Example.Inverse Example.UnificationConstraints
      Example.ResolveUnificationConstraint
      Example.AccessedShapeMinDomainSize 1 Example.nested_program
      StorageAnalysis_empty) in
  lazymatch result with
  | Some (Succeeded ?a) => pose (analysis := a)
  end.
  assert (Init Example.GetLoopNest Example.iteration_spaces
      Example.TranslateMapping Example.getDefiningOp Example.getUses
      Example.Canonicalize Example.Inverse Example.UnificationConstraints
      Example.ResolveUnificationConstraint
      Example.AccessedShapeMinDomainSize 1 Example.nested_program
      StorageAnalysis_empty
          = Some (Succeeded analysis)) as Hinit by (vm_compute; reflexivity).
  let result := eval vm_compute in
      (AddDimensionsToBuffer Example.GetLoopNest Example.Canonicalize
      Example.Inverse Example.UnificationConstraints
      Example.ResolveUnificationConstraint "c" Example.inner_producer
      Example.loops_ij (GetIdentity 2) analysis) in
  lazymatch result with
  | Succeeded ?a => pose (analysis' := a)
  end.
  assert (AddDimensionsToBuffer Example.GetLoopNest Example.Canonicalize
      Example.Inverse Example.UnificationConstraints
      Example.ResolveUnificationConstraint "c" Example.inner_producer
      Example.loops_ij (GetIdentity 2) analysis
          = Succeeded analysis') as Hcall by (vm_compute; reflexivity).
  assert (created Example.GetLoopNest Example.iteration_spaces
               Example.TranslateMapping Example.getDefiningOp Example.getUses
               Example.Canonicalize Example.Inverse
               Example.UnificationConstraints
               Example.ResolveUnificationConstraint
               Example.AccessedShapeMinDomainSize analysis) as Hcreated.
  { exists 1, Example.nested_program, analysis. by split. }
  destruct (AddDimensionsToBuffer_extends Example.GetLoopNest Example.iteration_spaces
               Example.TranslateMapping Example.getDefiningOp Example.getUses
               Example.Canonicalize Example.Inverse
               Example.UnificationConstraints
               Example.ResolveUnificationConstraint
               Example.AccessedShapeMinDomainSize
              Example_Canonicalize_size _ _ _ _ _ _ Hcreated Hcall)
    as (buffer & buffer' & r & Hbuffer & Hrank & _ & _ & _ & _ & _ & _ & _
        & Hin & Hout).
  assert (buffer = {| loc_ := "loc7"; element_type_ := F32Type;
                      import_op_ := None; loop_nest_ := [];
                      domain_ := domain_ buffer; layout_ := layout_ buffer;
                      writes_ := writes_ buffer; reads_ := reads_ buffer;
                      values_ := [Example.inner_produced] |}
          /\ r = 1) as [Hvalues ->].
  { vm_compute in Hbuffer. injection Hbuffer as <-.
    split; [reflexivity|]. vm_compute in Hrank. by injection Hrank. }
  destruct (Hin Example.inner_produced)
    as (storage & layout & Hstorage & Hlayout & Hstorage').
  { rewrite Hvalues. simpl. by apply list_elem_of_singleton. }
  exists analysis, analysis', storage, layout.
  split; [exact Hinit|]. split; [exact Hcall|]. split; [exact Hstorage|].
  split; [exact Hlayout|]. split; [exact Hstorage'|].
  apply Hout. rewrite Hvalues. simpl.
  intros Hx. apply list_elem_of_singleton in Hx. discriminate Hx.
Defined.

Lemma storages_follow_annotations_witness :
  exists analysis storage,
    Init Example.GetLoopNest Example.iteration_spaces
      Example.TranslateMapping Example.getDefiningOp Example.getUses
      Example.Canonicalize Example.Inverse Example.UnificationConstraints
      Example.ResolveUnificationConstraint
      Example.AccessedShapeMinDomainSize 1 Example.program
      StorageAnalysis_empty
    = Some (Succeeded analysis)
    /\ value_storages_ analysis !! Example.produced = Some storage
    /\ space storage = Some "memory"
    /\ buffer_name storage = Some "b"
    /\ is_Some (storage_layout storage).
Proof.
  let result := eval vm_compute in
      (Init Example.GetLoopNest Example.iteration_spaces
      Example.TranslateMapping Example.getDefiningOp Example.getUses
      Example.Canonicalize Example.Inverse Example.UnificationConstraints
      Example.ResolveUnificationConstraint
      Example.AccessedShapeMinDomainSize 1 Example.program
      StorageAnalysis_empty) in
  lazymatch result with
  | Some (Succeeded ?a) => pose (analysis := a)
  end.
  assert (Init Example.GetLoopNest Example.iteration_spaces
      Example.TranslateMapping Example.getDefiningOp Example.getUses
      Example.Canonicalize Example.Inverse Example.UnificationConstraints
      Example.ResolveUnificationConstraint
      Example.AccessedShapeMinDomainSize 1 Example.program
      StorageAnalysis_empty
          = Some (Succeeded analysis)) as Hinit by (vm_compute; reflexivity).
  destruct (storages_follow_annotations Example.GetLoopNest Example.iteration_spaces
               Example.TranslateMapping Example.getDefiningOp Example.getUses
               Example.Canonicalize Example.Inverse
               Example.UnificationConstraints
               Example.ResolveUnificationConstraint
               Example.AccessedShapeMinDomainSize
              1 Example.program StorageAnalysis_empty analysis Hinit)
    as (_ & Hcompute & _).
  destruct (Hcompute Example.producer 0 Example.row_major)
    as (storage & Hstorage & Hspace & Hname & Hlayout).
  { apply list_elem_of_further, list_elem_of_here. }
  { reflexivity. }
  { simpl. lia. }
  { reflexivity. }
  exists analysis, storage. split; [exact Hinit|]. split; [exact Hstorage|].
  split; [exact Hspace|]. split; [by apply Hname|].
  apply Hlayout. simpl. by eexists.
Defined.

Lemma declared_buffers_witness :
  exists analysis buffer,
    Init Example.GetLoopNest Example.iteration_spaces
      Example.TranslateMapping Example.getDefiningOp Example.getUses
      Example.Canonicalize Example.Inverse Example.UnificationConstraints
      Example.ResolveUnificationConstraint
      Example.AccessedShapeMinDomainSize 1 Example.program
      StorageAnalysis_empty
    = Some (Succeeded analysis)
    /\ buffers_ analysis !! "b" = Some buffer
    /\ import_op_ buffer = Some Example.export
    /\ element_type_ buffer = F32Type
    /\ rank buffer = Some 2.
Proof.
  let result := eval vm_compute in
      (Init Example.GetLoopNest Example.iteration_spaces
      Example.TranslateMapping Example.getDefiningOp Example.getUses
      Example.Canonicalize Example.Inverse Example.UnificationConstraints
      Example.ResolveUnificationConstraint
      Example.AccessedShapeMinDomainSize 1 Example.program
      StorageAnalysis_empty) in
  lazymatch result with
  | Some (Succeeded ?a) => pose (analysis := a)
  end.
  assert (Init Example.GetLoopNest Example.iteration_spaces
      Example.TranslateMapping Example.getDefiningOp Example.getUses
      Example.Canonicalize Example.Inverse Example.UnificationConstraints
      Example.ResolveUnificationConstraint
      Example.AccessedShapeMinDomainSize 1 Example.program
      StorageAnalysis_empty
          = Some (Succeeded analysis)) as Hinit by (vm_compute; reflexivity).
  destruct (declared_buffers Example.GetLoopNest Example.iteration_spaces
               Example.TranslateMapping Example.getDefiningOp Example.getUses
               Example.Canonicalize Example.Inverse
               Example.UnificationConstraints
               Example.ResolveUnificationConstraint
               Example.AccessedShapeMinDomainSize
              Example_Canonicalize_size
              1 Example.program StorageAnalysis_empty analysis Hinit)
    as (Himport & _ & _).
  destruct (Himport Example.export Example.export_info)
    as (buffer & Hbuffer & Hop & _ & Htype & Hrank).
  { do 3 apply list_elem_of_further. apply list_elem_of_here. }
  { reflexivity. }
  exists analysis, buffer. split; [exact Hinit|]. split; [exact Hbuffer|].
  split; [exact Hop|]. split; [exact Htype|exact Hrank].
Defined.

(** A buffer allocated in the loops [i] and [j], whose layout uses one
    dimension of its domain that depends on the loop [i] alone: the
    minimization leaves the buffer in the loop [i]. *)
Lemma minimized_loop_nests_witness :
  exists buffer minimized buffer' k,
    loop_nest_ buffer = ["i"; "j"]
    /\ VerifyAndMinimizeBufferLoopNests Example.GetLoopNest
         Example.iteration_spaces Example.getDefiningOp Example.Inverse
         Example.AccessedShapeMinDomainSize {[ "b" := buffer ]}
       = Succeeded minimized
    /\ minimized !! "b" = Some buffer'
    /\ loop_nest_ buffer' = take k (loop_nest_ buffer)
    /\ k <= 2
    /\ length (loop_nest_ buffer') = k
    /\ loop_nest_ buffer' = ["i"].
Proof.
  pose (buffer :=
          {| loc_ := "loc1"; element_type_ := F32Type; import_op_ := None;
             loop_nest_ := ["i"; "j"];
             domain_ :=
               [mkValueAccess (mkValue 0 0) (mkMapping 2 [MappingDimExpr 0])];
             layout_ := Some (mkMapping 1 [MappingDimExpr 0]);
             writes_ := [(Example.producer, 0)]; reads_ := [];
             values_ := [Example.produced] |}).
  destruct (VerifyAndMinimizeBufferLoopNests Example.GetLoopNest
              Example.iteration_spaces Example.getDefiningOp Example.Inverse
              Example.AccessedShapeMinDomainSize {[ "b" := buffer ]})
    as [minimized| |] eqn:Hminimized; [|vm_compute in Hminimized; discriminate..].
  pose proof (minimized_loop_nests Example.GetLoopNest
                Example.iteration_spaces Example.getDefiningOp Example.Inverse
                Example.AccessedShapeMinDomainSize Example_GetLoopNest_size
                {[ "b" := buffer ]} minimized Hminimized "b") as Hb.
  rewrite lookup_singleton_eq in Hb.
  destruct Hb as (buffer' & Hbuffer' & Hrun & _ & k & Hprefix & _ & Hlength).
  destruct Hlength as [Hk Hlength].
  { intros l dim access [= <-] Hdim Haccess.
    vm_compute in Hdim. apply list_elem_of_singleton in Hdim as ->.
    injection Haccess as <-. vm_compute. lia. }
  exists buffer, minimized, buffer', k.
  split; [reflexivity|]. split; [exact Hminimized|]. split; [exact Hbuffer'|].
  split; [exact Hprefix|]. split; [exact Hk|]. split; [exact Hlength|].
  vm_compute in Hrun. by injection Hrun as <-.
Defined.

Lemma storages_are_propagated_witness :
  exists analysis storage',
    Init Example.GetLoopNest Example.iteration_spaces
      Example.TranslateMapping Example.projection_getDefiningOp
      Example.projection_getUses Example.Canonicalize Example.Inverse
      Example.UnificationConstraints Example.ResolveUnificationConstraint
      Example.AccessedShapeMinDomainSize 2 Example.projection_program
      StorageAnalysis_empty
    = Some (Succeeded analysis)
    /\ neighbour Example.projection_getDefiningOp Example.projection_getUses
         Example.scalar_produced Example.projected
    /\ value_storages_ analysis !! Example.projected = Some storage'
    /\ space storage' = Some "register".
Proof.
  let result := eval vm_compute in
      (Init Example.GetLoopNest Example.iteration_spaces
      Example.TranslateMapping Example.projection_getDefiningOp
      Example.projection_getUses Example.Canonicalize Example.Inverse
      Example.UnificationConstraints Example.ResolveUnificationConstraint
      Example.AccessedShapeMinDomainSize 2 Example.projection_program
      StorageAnalysis_empty) in
  lazymatch result with
  | Some (Succeeded ?a) => pose (analysis := a)
  end.
  assert (Init Example.GetLoopNest Example.iteration_spaces
      Example.TranslateMapping Example.projection_getDefiningOp
      Example.projection_getUses Example.Canonicalize Example.Inverse
      Example.UnificationConstraints Example.ResolveUnificationConstraint
      Example.AccessedShapeMinDomainSize 2 Example.projection_program
      StorageAnalysis_empty
          = Some (Succeeded analysis)) as Hinit by (vm_compute; reflexivity).
  assert (created Example.GetLoopNest Example.iteration_spaces
               Example.TranslateMapping Example.projection_getDefiningOp
               Example.projection_getUses Example.Canonicalize
               Example.Inverse Example.UnificationConstraints
               Example.ResolveUnificationConstraint
               Example.AccessedShapeMinDomainSize analysis) as Hcreated.
  { exists 2, Example.projection_program, analysis. by split. }
  assert (neighbour Example.projection_getDefiningOp
            Example.projection_getUses Example.scalar_produced
            Example.projected) as Hneighbour.
  { left. exists (mkOpOperand Example.projection 0 (mkMapping 0 [])), 0.
    split; [apply list_elem_of_here|]. by split. }
  destruct (storages_are_propagated Example.GetLoopNest Example.iteration_spaces
               Example.TranslateMapping Example.projection_getDefiningOp
               Example.projection_getUses Example.Canonicalize
               Example.Inverse Example.UnificationConstraints
               Example.ResolveUnificationConstraint
               Example.AccessedShapeMinDomainSize
              analysis Example.scalar_produced Example.projected
              (mkValueStorage (Some "register") None None)
              Hcreated eq_refl Hneighbour)
    as [Hdefault|(storage' & Hstorage' & Hspace & _)]; [discriminate|].
  exists analysis, storage'. split; [exact Hinit|]. split; [exact Hneighbour|].
  split; [exact Hstorage'|]. by apply Hspace.
Defined.
